

(** * Libra (PD scheduler): operator controller, hot-peer cache, heartbeat ingest

    A shallow embedding of three pieces of the placement driver:

    - [Statistics]: [server/statistics/hot_peer_cache.go] (hot-peer cache,
      [HotPeerStat], hot thresholds);
    - [Schedule]: the operator controller (package [schedule], second
      document of [server/config/persist_options.go]);
    - [Cluster]: [RaftCluster.processRegionHeartbeat] of
      [server/cluster/cluster.go].

    The three modules hold the definitions; what is proved about them
    follows in [StatisticsTheory], [ScheduleTheory] and [ClusterTheory].

    Go values are modelled as follows: [uint64] and [int] as [Z] with the
    wrap-around written out, [float64] as Rocq's primitive binary64 floats,
    Go maps as [gmap], pointers to mutable objects as keys into an explicit
    store, [time.Now()] as an argument [now]. *)

From Stdlib Require Import ZArith List Bool Floats Lia.
From stdpp Require Import gmap strings list.
Open Scope Z_scope.

(** ** Machine integers and floats *)

Definition uint64_mod : Z := 2 ^ 64.

Definition wrap_u64 (z : Z) : Z := z mod uint64_mod.

(** Go's [int] on the 64-bit targets PD is built for. *)
Definition int_min : Z := - 2 ^ 63.

Definition int_max : Z := 2 ^ 63 - 1.

Definition wrap_int (z : Z) : Z := (z + 2 ^ 63) mod 2 ^ 64 - 2 ^ 63.

Definition int_add (a b : Z) : Z := wrap_int (a + b).

Definition int_sub (a b : Z) : Z := wrap_int (a - b).

(** [float64(x)] for an unsigned integer [x]: round to nearest even. *)
Definition f64_of_Z (z : Z) : float :=
  SF2Prim (binary_normalize 53 1024 z 0 false).

(** Go's [a >= b] and [a < b] on [float64] (false on NaN). *)
Definition f64_ge (a b : float) : bool := PrimFloat.leb b a.

Definition f64_lt (a b : float) : bool := PrimFloat.ltb a b.

(** ** A small result monad: Go panics are kept apart from return values *)

Inductive result (A : Type) : Type :=
  | Ret (a : A)
  | Panic.

Arguments Ret {A} a.

Arguments Panic {A}.

#[global] Instance result_ret : MRet result := fun A a => Ret a.

#[global] Instance result_bind : MBind result := fun A B k m =>
  match m with
  | Ret a => k a
  | Panic => Panic
  end.

(** A loop over a slice whose body may panic. *)
Fixpoint foldM {A B : Type} (step : A -> B -> result A) (l : list B) (a : A) : result A :=
  match l with
  | [] => Ret a
  | b :: l' => a' ← step a b; foldM step l' a'
  end.

(** ** Regions, as far as the three packages read them

    [core.RegionInfo] and the protobuf messages are not among the sources;
    the record has one field per getter the modelled code calls.  Protobuf
    getters are nil-safe: a missing leader reads as peer id 0, store id 0. *)

Inductive PeerRole := Voter | Learner.

Record Peer := mkPeer { peerId : Z; peerStoreId : Z; peerRole : PeerRole }.

Record RegionEpoch := mkEpoch { epochVersion : Z; epochConfVer : Z }.

Record RegionInfo := mkRegion {
  regID : Z;
  regEpoch : RegionEpoch;
  regPeers : list Peer;
  regLeader : option Peer;
  regDownPeers : list Peer;
  regPendingPeers : list Peer;
  regBytesWritten : Z;
  regBytesRead : Z;
  regKeysWritten : Z;
  regKeysRead : Z;
  regOpsWrite : Z;
  regOpsRead : Z;
  regIntervalStart : Z;
  regIntervalEnd : Z;
  regApproximateSize : Z;
  regApproximateKeys : Z;
  regReplicationState : Z;
  regReplicationStateId : Z
}.

Definition leaderStoreId (r : RegionInfo) : Z :=
  match regLeader r with Some p => peerStoreId p | None => 0 end.

Definition leaderId (r : RegionInfo) : Z :=
  match regLeader r with Some p => peerId p | None => 0 end.

(** [RegionInfo.GetStorePeer]: the peer of the region on the given store. *)
Definition GetStorePeer (r : RegionInfo) (storeID : Z) : option Peer :=
  List.find (fun p => peerStoreId p =? storeID) (regPeers r).

(** * Package statistics: the hot-peer cache *)

Module Statistics.

(** [FlowKind] indexes the two rows of [minHotThresholds]. *)
Inductive FlowKind := WriteFlow | ReadFlow.

Definition byteDim : nat := 0.

Definition keyDim : nat := 1.

Definition opsDim : nat := 2.

Definition otherByteDim : nat := 3.

Definition otherKeyDim : nat := 4.

Definition otherOpsDim : nat := 5.

Definition dimLen : nat := 6.

Definition topNN : Z := 60.

Definition rollingWindowsSize : nat := 5.

Definition hotRegionReportMinInterval : Z := 3.

Definition hotRegionAntiCount : Z := 2.

Definition updateWithOtherStats : bool := true.

(** The package variable [minHotThresholds], a [[2][dimLen]float64]: an
    array of arrays, hence a value (assigning a row copies it). *)
Record ThresholdTable := mkTable {
  writeRow : list float;
  readRow : list float
}.

Definition row (t : ThresholdTable) (k : FlowKind) : list float :=
  match k with WriteFlow => writeRow t | ReadFlow => readRow t end.

Definition minHotThresholds : ThresholdTable :=
  {| writeRow := [256; 16; 16; 256; 16; 16]%float;
     readRow := [256; 16; 16; 256; 16; 16]%float |}.

(** [a[k]] on a [[dimLen]float64]. *)
Definition at_dim (a : list float) (k : nat) : float := nth k a 0%float.

(** Modelled from the spec: the moving-median filter behind [MovingAvg]
    ([NewMedianFilter], [Add]) is not among the sources.  It keeps the
    last [mfSize] samples; the filters are heap objects shared between a
    cached stat and the stat that replaces it. *)
Record MedianFilter := mkFilter { mfRecords : list float; mfSize : nat }.

Definition NewMedianFilter (size : nat) : MedianFilter :=
  {| mfRecords := []; mfSize := size |}.

Definition mfAdd (m : MedianFilter) (n : float) : MedianFilter :=
  let rs := mfRecords m ++ [n] in
  {| mfRecords := drop (length rs - mfSize m)%nat rs; mfSize := mfSize m |}.

Record HotPeerStat := mkStat {
  StoreID : Z;
  RegionID : Z;
  HotDegree : Z;
  AntiCount : Z;
  Kind : FlowKind;
  ByteRate : float;
  KeyRate : float;
  Ops : float;
  OtherByteRate : float;
  OtherKeyRate : float;
  OtherOps : float;
  rollingByteRate : option positive;
  rollingKeyRate : option positive;
  rollingOps : option positive;
  rollingOtherByteRate : option positive;
  rollingOtherKeyRate : option positive;
  rollingOtherOps : option positive;
  LastUpdateTime : Z;
  Version : Z;
  needDelete : bool;
  isLeader : bool;
  isNew : bool
}.

(** In-place field updates of [updateHotPeerStat]. *)
Definition set_rolling (s : HotPeerStat) (b k o ob ok oo : option positive) : HotPeerStat :=
  mkStat (StoreID s) (RegionID s) (HotDegree s) (AntiCount s) (Kind s)
    (ByteRate s) (KeyRate s) (Ops s) (OtherByteRate s) (OtherKeyRate s) (OtherOps s)
    b k o ob ok oo
    (LastUpdateTime s) (Version s) (needDelete s) (isLeader s) (isNew s).

Definition set_HotDegree (s : HotPeerStat) (d : Z) : HotPeerStat :=
  mkStat (StoreID s) (RegionID s) d (AntiCount s) (Kind s)
    (ByteRate s) (KeyRate s) (Ops s) (OtherByteRate s) (OtherKeyRate s) (OtherOps s)
    (rollingByteRate s) (rollingKeyRate s) (rollingOps s)
    (rollingOtherByteRate s) (rollingOtherKeyRate s) (rollingOtherOps s)
    (LastUpdateTime s) (Version s) (needDelete s) (isLeader s) (isNew s).

Definition set_AntiCount (s : HotPeerStat) (a : Z) : HotPeerStat :=
  mkStat (StoreID s) (RegionID s) (HotDegree s) a (Kind s)
    (ByteRate s) (KeyRate s) (Ops s) (OtherByteRate s) (OtherKeyRate s) (OtherOps s)
    (rollingByteRate s) (rollingKeyRate s) (rollingOps s)
    (rollingOtherByteRate s) (rollingOtherKeyRate s) (rollingOtherOps s)
    (LastUpdateTime s) (Version s) (needDelete s) (isLeader s) (isNew s).

Definition set_needDelete (s : HotPeerStat) (b : bool) : HotPeerStat :=
  mkStat (StoreID s) (RegionID s) (HotDegree s) (AntiCount s) (Kind s)
    (ByteRate s) (KeyRate s) (Ops s) (OtherByteRate s) (OtherKeyRate s) (OtherOps s)
    (rollingByteRate s) (rollingKeyRate s) (rollingOps s)
    (rollingOtherByteRate s) (rollingOtherKeyRate s) (rollingOtherOps s)
    (LastUpdateTime s) (Version s) b (isLeader s) (isNew s).

Definition set_isNew (s : HotPeerStat) (b : bool) : HotPeerStat :=
  mkStat (StoreID s) (RegionID s) (HotDegree s) (AntiCount s) (Kind s)
    (ByteRate s) (KeyRate s) (Ops s) (OtherByteRate s) (OtherKeyRate s) (OtherOps s)
    (rollingByteRate s) (rollingKeyRate s) (rollingOps s)
    (rollingOtherByteRate s) (rollingOtherKeyRate s) (rollingOtherOps s)
    (LastUpdateTime s) (Version s) (needDelete s) (isLeader s) b.

Definition IsNeedDelete (stat : HotPeerStat) : bool := needDelete stat.

(** Modelled from the spec: [TopN] (not among the sources) is the per-store
    collection of hot peers, keyed by region id; [Put] inserts or replaces,
    [Remove] deletes, [Get] looks up, [Len] counts.  The time-to-live
    eviction of [TopN] is left out. *)
Abbreviation TopN := (gmap Z HotPeerStat).

Definition topnGet (tn : TopN) (id : Z) : option HotPeerStat := tn !! id.

Definition topnPut (tn : TopN) (item : HotPeerStat) : TopN := <[RegionID item := item]> tn.

Definition topnRemove (tn : TopN) (id : Z) : TopN := delete id tn.

Definition topnLen (tn : TopN) : Z := Z.of_nat (size tn).

(** The memory of the [MovingAvg] objects: address to filter, and the next
    free address. *)
Record FilterHeap := mkHeap {
  cells : gmap positive MedianFilter;
  nextCell : positive
}.

Definition heapAlloc (h : FilterHeap) (m : MedianFilter) : FilterHeap * positive :=
  (mkHeap (<[nextCell h := m]> (cells h)) (Pos.succ (nextCell h)), nextCell h).

(** [p.Add(x)] on a [MovingAvg] interface value; a nil interface panics. *)
Definition heapAdd (h : FilterHeap) (p : option positive) (x : float) : result FilterHeap :=
  match p with
  | None => Panic
  | Some l =>
      match cells h !! l with
      | Some m => Ret (mkHeap (<[l := mfAdd m x]> (cells h)) (nextCell h))
      | None => Panic
      end
  end.

Record hotPeerCache := mkCache {
  kind : FlowKind;
  peersOfStore : gmap Z TopN;
  storesOfRegion : gmap Z (gset Z);
  filters : FilterHeap
}.

Definition set_filters (f : hotPeerCache) (h : FilterHeap) : hotPeerCache :=
  mkCache (kind f) (peersOfStore f) (storesOfRegion f) h.

Definition NewHotStoresStats (k : FlowKind) : hotPeerCache :=
  mkCache k ∅ ∅ (mkHeap ∅ 1%positive).

(** [hotPeerCache.Update] *)
Definition Update (f : hotPeerCache) (item : HotPeerStat) : hotPeerCache :=
  if IsNeedDelete item then
    let peers' :=
      match peersOfStore f !! StoreID item with
      | Some peers => <[StoreID item := topnRemove peers (RegionID item)]> (peersOfStore f)
      | None => peersOfStore f
      end in
    let stores' :=
      match storesOfRegion f !! RegionID item with
      | Some stores => <[RegionID item := stores ∖ {[StoreID item]}]> (storesOfRegion f)
      | None => storesOfRegion f
      end in
    mkCache (kind f) peers' stores' (filters f)
  else
    let peers := default ∅ (peersOfStore f !! StoreID item) in
    let peers' := <[StoreID item := topnPut peers item]> (peersOfStore f) in
    let stores := default ∅ (storesOfRegion f !! RegionID item) in
    let stores' := <[RegionID item := {[StoreID item]} ∪ stores]> (storesOfRegion f) in
    mkCache (kind f) peers' stores' (filters f).

Definition getTotalBytes (f : hotPeerCache) (region : RegionInfo) : Z :=
  match kind f with
  | WriteFlow => regBytesWritten region
  | ReadFlow => regBytesRead region
  end.

Definition getTotalKeys (f : hotPeerCache) (region : RegionInfo) : Z :=
  match kind f with
  | WriteFlow => regKeysWritten region
  | ReadFlow => regKeysRead region
  end.

Definition getTotalOps (f : hotPeerCache) (region : RegionInfo) : Z :=
  match kind f with
  | WriteFlow => regOpsWrite region
  | ReadFlow => regOpsRead region
  end.

Definition getTotalOtherBytes (f : hotPeerCache) (region : RegionInfo) : Z :=
  match kind f with
  | ReadFlow => regBytesWritten region
  | WriteFlow => regBytesRead region
  end.

Definition getTotalOtherKeys (f : hotPeerCache) (region : RegionInfo) : Z :=
  match kind f with
  | ReadFlow => regKeysWritten region
  | WriteFlow => regKeysRead region
  end.

Definition getTotalOtherOps (f : hotPeerCache) (region : RegionInfo) : Z :=
  match kind f with
  | ReadFlow => regOpsWrite region
  | WriteFlow => regOpsRead region
  end.

Definition getOldHotPeerStat (f : hotPeerCache) (regionID storeID : Z) : option HotPeerStat :=
  match peersOfStore f !! storeID with
  | Some hotPeers => topnGet hotPeers regionID
  | None => None
  end.

Definition isRegionExpired (f : hotPeerCache) (region : RegionInfo) (storeID : Z) : bool :=
  match kind f with
  | WriteFlow => match GetStorePeer region storeID with None => true | Some _ => false end
  | ReadFlow => negb (leaderStoreId region =? storeID)
  end.

(** Package variables of [statistics] that the cache reads.  [Denoising]
    is declared in a file that is not among the sources. *)
Record Globals := mkGlobals {
  gMinHotThresholds : ThresholdTable;
  gDenoising : bool
}.

(** [TopN.GetTopNMin(k)]: the smallest of the top [topNN] items in
    dimension [k].  [TopN] is not among the sources, and the only caller
    overwrites what it reads from the result. *)
Class TopNQueries := {
  GetTopNMin : nat -> TopN -> HotPeerStat
}.

Section Cache.

Context {topn : TopNQueries}.

(** [hotPeerCache.calcHotThresholds] *)
Definition calcHotThresholds (g : Globals) (f : hotPeerCache) (storeID : Z) : list float :=
  let minThresholds := row (gMinHotThresholds g) (kind f) in
  match peersOfStore f !! storeID with
  | None => minThresholds
  | Some tn =>
      if topnLen tn <? topNN then minThresholds
      else
        let ret :=
          [ ByteRate (GetTopNMin byteDim tn);
            KeyRate (GetTopNMin keyDim tn);
            Ops (GetTopNMin opsDim tn);
            OtherByteRate (GetTopNMin otherByteDim tn);
            OtherKeyRate (GetTopNMin otherKeyDim tn);
            OtherOps (GetTopNMin otherOpsDim tn) ] in
        fold_left (fun ret k => <[k := at_dim minThresholds k]> ret) (seq 0 dimLen) ret
  end.

(** The variables of one call of [ReduceHotThresholds]: the package
    variable and the local [minThresholds]. *)
Record ReduceFrame := mkFrame {
  frameGlobal : ThresholdTable;
  frameMinThresholds : list float
}.

(** [hotPeerCache.ReduceHotThresholds]; the result is the package variable
    after the call.  [minThresholds := minHotThresholds[f.kind]] copies the
    row (Go arrays are values), and the loop divides the copy. *)
Definition ReduceHotThresholds (tbl : ThresholdTable) (f : hotPeerCache) : ThresholdTable :=
  let frame := mkFrame tbl (row tbl (kind f)) in
  let frame' :=
    fold_left
      (fun fr k =>
         mkFrame (frameGlobal fr)
           (<[k := (at_dim (frameMinThresholds fr) k / 2)%float]> (frameMinThresholds fr)))
      (seq 0 dimLen) frame in
  frameGlobal frame'.

(** What the spec describes: the row of the cache's kind is halved in the
    package variable itself. *)
Definition halve_row (a : list float) : list float :=
  map (fun x => (x / 2)%float) a.

Definition ReduceHotThresholds_spec (tbl : ThresholdTable) (f : hotPeerCache) : ThresholdTable :=
  match kind f with
  | WriteFlow => mkTable (halve_row (writeRow tbl)) (readRow tbl)
  | ReadFlow => mkTable (writeRow tbl) (halve_row (readRow tbl))
  end.

(** [hotPeerCache.getAllStoreIDs]: the stores that carried a hot peer of
    the region, then the stores of the reported peers.  Go ranges over the
    set in an unspecified order; the model takes [elements]. *)
Definition getAllStoreIDs (f : hotPeerCache) (region : RegionInfo) : list Z :=
  let old :=
    match storesOfRegion f !! regID region with
    | Some ids => elements ids
    | None => []
    end in
  let '(_, ret) :=
    fold_left
      (fun (acc : gset Z * list Z) (peer : Peer) =>
         let '(storeIDs, ret) := acc in
         match kind f with
         | ReadFlow =>
             if negb (peerStoreId peer =? leaderStoreId region) then acc
             else if decide (peerStoreId peer ∈ storeIDs) then acc
             else ({[peerStoreId peer]} ∪ storeIDs, ret ++ [peerStoreId peer])
         | WriteFlow =>
             if decide (peerStoreId peer ∈ storeIDs) then acc
             else ({[peerStoreId peer]} ∪ storeIDs, ret ++ [peerStoreId peer])
         end)
      (regPeers region) (list_to_set old, old) in
  ret.

(** [hotPeerCache.isRegionHotWithPeer] *)
Definition isRegionHotWithPeer (f : hotPeerCache) (region : RegionInfo)
    (peer : option Peer) (hotDegree : Z) : bool :=
  match peer with
  | None => false
  | Some p =>
      match peersOfStore f !! peerStoreId p with
      | Some peers =>
          match topnGet peers (regID region) with
          | Some stat => hotDegree <=? HotDegree stat
          | None => false
          end
      | None => false
      end
  end.

(** [hotPeerCache.isRegionHotWithAnyPeers] *)
Definition isRegionHotWithAnyPeers (f : hotPeerCache) (region : RegionInfo) (hotDegree : Z) : bool :=
  existsb (fun peer => isRegionHotWithPeer f region (Some peer) hotDegree) (regPeers region).

(** [hotPeerCache.IsRegionHot] *)
Definition IsRegionHot (f : hotPeerCache) (region : RegionInfo) (hotDegree : Z) : bool :=
  match kind f with
  | WriteFlow => isRegionHotWithAnyPeers f region hotDegree
  | ReadFlow => isRegionHotWithPeer f region (regLeader region) hotDegree
  end.

(** The condition [isHot] of [updateHotPeerStat]. *)
Definition isHot (thresholds : list float) (newItem : HotPeerStat) : bool :=
  let hot :=
    f64_ge (ByteRate newItem) (at_dim thresholds byteDim)
    || f64_ge (KeyRate newItem) (at_dim thresholds keyDim)
    || f64_ge (Ops newItem) (at_dim thresholds opsDim) in
  if updateWithOtherStats then
    hot
    || f64_ge (OtherByteRate newItem) (at_dim thresholds otherByteDim)
    || f64_ge (OtherKeyRate newItem) (at_dim thresholds otherKeyDim)
    || f64_ge (OtherOps newItem) (at_dim thresholds otherOpsDim)
  else hot.

(** Six fresh filters for a first-seen hot peer. *)
Definition newRolling (h : FilterHeap) (newItem : HotPeerStat) : FilterHeap * HotPeerStat :=
  let '(h, b) := heapAlloc h (NewMedianFilter rollingWindowsSize) in
  let '(h, k) := heapAlloc h (NewMedianFilter rollingWindowsSize) in
  let '(h, o) := heapAlloc h (NewMedianFilter rollingWindowsSize) in
  let '(h, ob) := heapAlloc h (NewMedianFilter rollingWindowsSize) in
  let '(h, ok) := heapAlloc h (NewMedianFilter rollingWindowsSize) in
  let '(h, oo) := heapAlloc h (NewMedianFilter rollingWindowsSize) in
  (h, set_rolling newItem (Some b) (Some k) (Some o) (Some ob) (Some ok) (Some oo)).

(** The six [Add] calls that end [updateHotPeerStat]. *)
Definition addRates (h : FilterHeap) (newItem : HotPeerStat) : result FilterHeap :=
  h ← heapAdd h (rollingByteRate newItem) (ByteRate newItem);
  h ← heapAdd h (rollingKeyRate newItem) (KeyRate newItem);
  h ← heapAdd h (rollingOps newItem) (Ops newItem);
  h ← heapAdd h (rollingOtherByteRate newItem) (OtherByteRate newItem);
  h ← heapAdd h (rollingOtherKeyRate newItem) (OtherKeyRate newItem);
  heapAdd h (rollingOtherOps newItem) (OtherOps newItem).

(** [hotPeerCache.updateHotPeerStat].  The argument [storesStats] is not
    read by the body and is left out.  The result carries the cache because
    the filters live in its heap; [None] is the nil return. *)
Definition updateHotPeerStat (g : Globals) (f : hotPeerCache)
    (newItem : HotPeerStat) (oldItem : option HotPeerStat)
    : result (hotPeerCache * option HotPeerStat) :=
  let thresholds := calcHotThresholds g f (StoreID newItem) in
  let isHot := isHot thresholds newItem in
  if needDelete newItem then Ret (f, Some newItem)
  else
    let prepared : option (FilterHeap * HotPeerStat) :=
      match oldItem with
      | Some old =>
          let n := set_rolling newItem
                     (rollingByteRate old) (rollingKeyRate old) (rollingOps old)
                     (rollingOtherByteRate old) (rollingOtherKeyRate old)
                     (rollingOtherOps old) in
          if isHot then
            let n := set_HotDegree n (int_add (HotDegree old) 1) in
            let n := set_AntiCount n hotRegionAntiCount in
            Some (filters f, n)
          else
            let n := set_HotDegree n (int_sub (HotDegree old) 1) in
            let n := set_AntiCount n (int_sub (AntiCount old) 1) in
            let n := if AntiCount n <=? 0 then set_needDelete n true else n in
            Some (filters f, n)
      | None =>
          if negb isHot then None
          else
            let '(h, n) := newRolling (filters f) newItem in
            let n := set_AntiCount n hotRegionAntiCount in
            let n := set_isNew n true in
            Some (h, n)
      end in
    match prepared with
    | None => Ret (f, None)
    | Some (h, n) =>
        h' ← addRates h n;
        Ret (set_filters f h', Some n)
    end.

(** The inner loop of [CheckRegionFlow] that looks for a cached stat of the
    region on any of the stores. *)
Fixpoint firstOldHotPeerStat (f : hotPeerCache) (regionID : Z) (storeIDs : list Z)
    : option HotPeerStat :=
  match storeIDs with
  | [] => None
  | storeID :: rest =>
      match getOldHotPeerStat f regionID storeID with
      | Some old => Some old
      | None => firstOldHotPeerStat f regionID rest
      end
  end.

(** The loop variables of [CheckRegionFlow]: the cache (for its filter
    heap), [tmpItem] and [ret]. *)
Record FlowLoop := mkLoop {
  loopCache : hotPeerCache;
  loopTmpItem : option HotPeerStat;
  loopRet : list HotPeerStat
}.

(** One iteration of [for _, storeID := range storeIDs]. *)
Definition checkStore (g : Globals) (region : RegionInfo) (now : Z)
    (rates : list float) (interval : Z) (storeIDs : list Z)
    (st : FlowLoop) (storeID : Z) : result FlowLoop :=
  let f := loopCache st in
  let isExpired := isRegionExpired f region storeID in
  let oldItem := getOldHotPeerStat f (regID region) storeID in
  let tmpItem :=
    match oldItem with
    | Some _ => if isExpired then oldItem else loopTmpItem st
    | None => loopTmpItem st
    end in
  if negb isExpired && gDenoising g && (interval <? hotRegionReportMinInterval) then
    Ret (mkLoop f tmpItem (loopRet st))
  else
    let newItem :=
      {| StoreID := storeID;
         RegionID := regID region;
         HotDegree := 0;
         AntiCount := 0;
         Kind := kind f;
         ByteRate := at_dim rates byteDim;
         KeyRate := at_dim rates keyDim;
         Ops := at_dim rates opsDim;
         OtherByteRate := at_dim rates otherByteDim;
         OtherKeyRate := at_dim rates otherKeyDim;
         OtherOps := at_dim rates otherOpsDim;
         rollingByteRate := None;
         rollingKeyRate := None;
         rollingOps := None;
         rollingOtherByteRate := None;
         rollingOtherKeyRate := None;
         rollingOtherOps := None;
         LastUpdateTime := now;
         Version := epochVersion (regEpoch region);
         needDelete := isExpired;
         isLeader := leaderStoreId region =? storeID;
         isNew := false |} in
    let oldItem :=
      match oldItem with
      | Some _ => oldItem
      | None =>
          match tmpItem with
          | Some _ => tmpItem
          | None => firstOldHotPeerStat f (regID region) storeIDs
          end
      end in
    '(f', r) ← updateHotPeerStat g f newItem oldItem;
    Ret (mkLoop f' tmpItem
           (match r with Some n => loopRet st ++ [n] | None => loopRet st end)).

(** [hotPeerCache.CheckRegionFlow] *)
Definition CheckRegionFlow (g : Globals) (f : hotPeerCache) (region : RegionInfo) (now : Z)
    : result (hotPeerCache * list HotPeerStat) :=
  let totalBytes := f64_of_Z (getTotalBytes f region) in
  let totalKeys := f64_of_Z (getTotalKeys f region) in
  let totalOps := f64_of_Z (getTotalOps f region) in
  let totalOtherBytes := f64_of_Z (getTotalOtherBytes f region) in
  let totalOtherKeys := f64_of_Z (getTotalOtherKeys f region) in
  let totalOtherOps := f64_of_Z (getTotalOtherOps f region) in
  let interval := wrap_u64 (regIntervalEnd region - regIntervalStart region) in
  let rates :=
    [ totalBytes / f64_of_Z interval;
      totalKeys / f64_of_Z interval;
      totalOps / f64_of_Z interval;
      totalOtherBytes / f64_of_Z interval;
      totalOtherKeys / f64_of_Z interval;
      totalOtherOps / f64_of_Z interval ]%float in
  let storeIDs := getAllStoreIDs f region in
  st ← foldM (checkStore g region now rates interval storeIDs) storeIDs (mkLoop f None []);
  Ret (loopCache st, loopRet st).

(** What a region heartbeat does to one cache ([processRegionHeartbeat]):
    [CheckRegionFlow], then [Update] with every returned item. *)
Definition observeRegion (g : Globals) (f : hotPeerCache) (region : RegionInfo) (now : Z)
    : result (hotPeerCache * list HotPeerStat) :=
  '(f', items) ← CheckRegionFlow g f region now;
  Ret (fold_left Update items f', items).

(** The rate of a stat in dimension [k]. *)
Definition rate (s : HotPeerStat) (k : nat) : float :=
  at_dim [ByteRate s; KeyRate s; Ops s; OtherByteRate s; OtherKeyRate s; OtherOps s] k.

(** Some dimension rate of [s] meets its threshold. *)
Definition meetsThreshold (thresholds : list float) (s : HotPeerStat) : Prop :=
  exists k, (k < dimLen)%nat /\ f64_ge (rate s k) (at_dim thresholds k) = true.

(** The address is a live filter of the heap. *)
Definition allocated (h : FilterHeap) (p : option positive) : Prop :=
  match p with
  | Some l => is_Some (cells h !! l)
  | None => False
  end.

Definition rollingAllocated (h : FilterHeap) (s : HotPeerStat) : Prop :=
  allocated h (rollingByteRate s) /\ allocated h (rollingKeyRate s) /\
  allocated h (rollingOps s) /\ allocated h (rollingOtherByteRate s) /\
  allocated h (rollingOtherKeyRate s) /\ allocated h (rollingOtherOps s).

(** *** The hot-peer hysteresis scenario

    Region 100 has one peer, the leader, on store 1.  Every report covers
    ten seconds; a hot report wrote 10000 bytes (1000 bytes a second
    against the threshold 256), a cold report carries no traffic. *)

Definition scenarioRegion (bytesWritten : Z) : RegionInfo :=
  {| regID := 100;
     regEpoch := mkEpoch 1 1;
     regPeers := [mkPeer 7 1 Voter];
     regLeader := Some (mkPeer 7 1 Voter);
     regDownPeers := [];
     regPendingPeers := [];
     regBytesWritten := bytesWritten;
     regBytesRead := 0;
     regKeysWritten := 0;
     regKeysRead := 0;
     regOpsWrite := 0;
     regOpsRead := 0;
     regIntervalStart := 0;
     regIntervalEnd := 10;
     regApproximateSize := 0;
     regApproximateKeys := 0;
     regReplicationState := 0;
     regReplicationStateId := 0 |}.

Definition hotReport : RegionInfo := scenarioRegion 10000.

Definition coldReport : RegionInfo := scenarioRegion 0.

Definition scenarioReports : list RegionInfo :=
  [hotReport; hotReport; hotReport; coldReport; coldReport; coldReport].

(** What is seen after one report: [HotDegree], [AntiCount] and
    [needDelete] of every item [CheckRegionFlow] returned, the [HotDegree]
    of the stat that store 1 holds for the region once the items are
    applied, and [IsRegionHot] at hot-degree threshold 1. *)
Record Observation := mkObs {
  obsItems : list (Z * Z * bool);
  obsCached : option Z;
  obsIsRegionHot : bool
}.

Fixpoint observeAll (g : Globals) (f : hotPeerCache) (reports : list RegionInfo)
    : result (list Observation) :=
  match reports with
  | [] => Ret []
  | region :: rest =>
      '(f', items) ← observeRegion g f region 0;
      obs ← observeAll g f' rest;
      Ret (mkObs (map (fun n => (HotDegree n, AntiCount n, needDelete n)) items)
                 (HotDegree <$> getOldHotPeerStat f' (regID region) 1)
                 (IsRegionHot f' region 1)
           :: obs)
  end.

End Cache.

(** *** What the queries and the checks are stated with *)

(** The stores a region may be reported on: a peer's store, for a read
    cache the leader's only. *)
Definition reportable (f : hotPeerCache) (region : RegionInfo) (s : Z) : Prop :=
  exists p, p ∈ regPeers region /\ peerStoreId p = s /\
    (kind f = ReadFlow -> s = leaderStoreId region).

(** One round of the second loop of [getAllStoreIDs]. *)
Definition collectStore (f : hotPeerCache) (region : RegionInfo)
    (acc : gset Z * list Z) (peer : Peer) : gset Z * list Z :=
  let '(storeIDs, ret) := acc in
  match kind f with
  | ReadFlow =>
      if negb (peerStoreId peer =? leaderStoreId region) then acc
      else if decide (peerStoreId peer ∈ storeIDs) then acc
      else ({[peerStoreId peer]} ∪ storeIDs, ret ++ [peerStoreId peer])
  | WriteFlow =>
      if decide (peerStoreId peer ∈ storeIDs) then acc
      else ({[peerStoreId peer]} ∪ storeIDs, ret ++ [peerStoreId peer])
  end.

(** The filter at [p] holds the sample [x] and nothing else. *)
Definition holdsOnly (h : FilterHeap) (p : option positive) (x : float) : Prop :=
  exists l, p = Some l /\ cells h !! l = Some (mkFilter [x] rollingWindowsSize).

(** What [updateHotPeerStat] never changes in the item it was given. *)
Definition sameReport (n m : HotPeerStat) : Prop :=
  StoreID n = StoreID m /\ RegionID n = RegionID m /\ Kind n = Kind m /\
  LastUpdateTime n = LastUpdateTime m /\ Version n = Version m /\
  isLeader n = isLeader m /\ forall k, rate n k = rate m k.

(** The two indexes of a cache and its kind; the filters are left out. *)
Definition sameIndex (f f' : hotPeerCache) : Prop :=
  kind f' = kind f /\ peersOfStore f' = peersOfStore f /\
  storesOfRegion f' = storesOfRegion f.

(** The stores that hold a hot peer of the region, by the second index. *)
Definition regionStores (f : hotPeerCache) (regionID : Z) : gset Z :=
  default ∅ (storesOfRegion f !! regionID).

(** *** What the hysteresis of a hot peer is stated with *)

(** The interval and the six rates that [CheckRegionFlow] computes from a
    report. *)
Definition flowInterval (region : RegionInfo) : Z :=
  wrap_u64 (regIntervalEnd region - regIntervalStart region).

Definition flowRates (f : hotPeerCache) (region : RegionInfo) : list float :=
  [ f64_of_Z (getTotalBytes f region) / f64_of_Z (flowInterval region);
    f64_of_Z (getTotalKeys f region) / f64_of_Z (flowInterval region);
    f64_of_Z (getTotalOps f region) / f64_of_Z (flowInterval region);
    f64_of_Z (getTotalOtherBytes f region) / f64_of_Z (flowInterval region);
    f64_of_Z (getTotalOtherKeys f region) / f64_of_Z (flowInterval region);
    f64_of_Z (getTotalOtherOps f region) / f64_of_Z (flowInterval region) ]%float.

(** Some rate of the report meets its threshold in the row of the cache's
    kind. *)
Definition reportHot (g : Globals) (f : hotPeerCache) (region : RegionInfo) : bool :=
  existsb (fun k => f64_ge (at_dim (flowRates f region) k)
                      (at_dim (row (gMinHotThresholds g) (kind f)) k))
          (seq 0 dimLen).

(** The stores a report is for, as a set (see [reportable]). *)
Definition reportedStores (f : hotPeerCache) (region : RegionInfo) : gset Z :=
  list_to_set
    (map peerStoreId
       (List.filter
          (fun p => match kind f with
                    | WriteFlow => true
                    | ReadFlow => peerStoreId p =? leaderStoreId region
                    end)
          (regPeers region))).

(** A report of region [R] for the stores [T] that the loop of
    [CheckRegionFlow] does not skip: a read cache needs the leader, and
    with [Denoising] the interval is at least
    [hotRegionReportMinInterval]. *)
Definition steadyReport (g : Globals) (f : hotPeerCache) (R : Z) (T : gset Z)
    (region : RegionInfo) : Prop :=
  regID region = R /\
  reportedStores f region = T /\
  (kind f = ReadFlow -> is_Some (regLeader region)) /\
  (gDenoising g = false \/ hotRegionReportMinInterval <= flowInterval region).

(** What the cache holds of a region on the stores [T]: nothing, or on
    every store a stat with the same hot degree and anti-count. *)
Definition tracking (f : hotPeerCache) (R : Z) (T : gset Z) (state : option (Z * Z)) : Prop :=
  regionStores f R ⊆ T /\
  forall s, s ∈ T ->
    match state with
    | None => getOldHotPeerStat f R s = None
    | Some (d, a) =>
        exists stat, getOldHotPeerStat f R s = Some stat /\
          HotDegree stat = d /\ AntiCount stat = a /\
          rollingAllocated (filters f) stat
    end.

(** The item [updateHotPeerStat] returns for a store in that state:
    hot degree, anti-count and [needDelete]. *)
Definition nextItem (state : option (Z * Z)) (hot : bool) : option (Z * Z * bool) :=
  match state, hot with
  | Some (d, _), true => Some (int_add d 1, hotRegionAntiCount, false)
  | Some (d, a), false => Some (int_sub d 1, int_sub a 1, int_sub a 1 <=? 0)
  | None, true => Some (0, hotRegionAntiCount, false)
  | None, false => None
  end.

(** The state once [Update] has applied the item. *)
Definition nextState (state : option (Z * Z)) (hot : bool) : option (Z * Z) :=
  match nextItem state hot with
  | Some (d, a, false) => Some (d, a)
  | _ => None
  end.

(** What a store of [T] shows over a run of reports, by hot and cold. *)
Fixpoint trajectory (state : option (Z * Z)) (hots : list bool) : list Observation :=
  match hots with
  | [] => []
  | hot :: rest =>
      mkObs (match nextItem state hot with Some x => [x] | None => [] end)
            (fst <$> nextState state hot)
            (match nextState state hot with Some (d, _) => 1 <=? d | None => false end)
      :: trajectory (nextState state hot) rest
  end.

Section Observe.

Context {topn : TopNQueries}.

(** The reports one after the other, seen from store [s]: the items
    [CheckRegionFlow] returned for the store, the hot degree of the stat
    the store holds once the items are applied, and [IsRegionHot] at
    hot-degree threshold 1. *)
Fixpoint observeStore (g : Globals) (f : hotPeerCache) (s : Z)
    (reports : list (RegionInfo * Z)) : result (list Observation) :=
  match reports with
  | [] => Ret []
  | (region, now) :: rest =>
      '(f', items) ← observeRegion g f region now;
      obs ← observeStore g f' s rest;
      Ret (mkObs (map (fun n => (HotDegree n, AntiCount n, needDelete n))
                      (List.filter (fun n => StoreID n =? s) items))
                 (HotDegree <$> getOldHotPeerStat f' (regID region) s)
                 (IsRegionHot f' region 1)
           :: obs)
  end.

End Observe.

(** *** The loads of a stat *)

(** [MovingAvg.Get]: the estimate of a filter.  The moving averages are
    not among the sources. *)
Class MovingAvgQueries := {
  mfGet : MedianFilter -> float
}.

Section Loads.

Context {avg : MovingAvgQueries}.

(** [if stat.rolling == nil { return stat.raw }; return stat.rolling.Get()] *)
Definition denoised (h : FilterHeap) (rolling : option positive) (raw : float)
    : result float :=
  match rolling with
  | None => Ret raw
  | Some l =>
      match cells h !! l with
      | Some m => Ret (mfGet m)
      | None => Panic
      end
  end.

(** [HotPeerStat.GetByteRate] and its five siblings *)
Definition GetByteRate (h : FilterHeap) (stat : HotPeerStat) : result float :=
  denoised h (rollingByteRate stat) (ByteRate stat).

Definition GetKeyRate (h : FilterHeap) (stat : HotPeerStat) : result float :=
  denoised h (rollingKeyRate stat) (KeyRate stat).

Definition GetOps (h : FilterHeap) (stat : HotPeerStat) : result float :=
  denoised h (rollingOps stat) (Ops stat).

Definition GetOtherByteRate (h : FilterHeap) (stat : HotPeerStat) : result float :=
  denoised h (rollingOtherByteRate stat) (OtherByteRate stat).

Definition GetOtherKeyRate (h : FilterHeap) (stat : HotPeerStat) : result float :=
  denoised h (rollingOtherKeyRate stat) (OtherKeyRate stat).

Definition GetOtherOps (h : FilterHeap) (stat : HotPeerStat) : result float :=
  denoised h (rollingOtherOps stat) (OtherOps stat).

(** [HotPeerStat.Less]; [k] is an [int], and every value but [keyDim] and
    [byteDim] compares the ops. *)
Definition Less (h : FilterHeap) (stat : HotPeerStat) (k : Z) (than : HotPeerStat)
    : result bool :=
  if k =? Z.of_nat keyDim then
    a ← GetKeyRate h stat; b ← GetKeyRate h than; Ret (f64_lt a b)
  else if k =? Z.of_nat byteDim then
    a ← GetByteRate h stat; b ← GetByteRate h than; Ret (f64_lt a b)
  else
    a ← GetOps h stat; b ← GetOps h than; Ret (f64_lt a b).

(** [HotPeerStat.GetLoads] *)
Definition GetLoads (h : FilterHeap) (stat : HotPeerStat) : result (list float) :=
  match Kind stat with
  | ReadFlow =>
      b ← GetByteRate h stat; k ← GetKeyRate h stat; o ← GetOps h stat;
      ob ← GetOtherByteRate h stat; ok ← GetOtherKeyRate h stat; oo ← GetOtherOps h stat;
      ob' ← GetOtherByteRate h stat; ok' ← GetOtherKeyRate h stat; oo' ← GetOtherOps h stat;
      Ret [b; k; o; ob; ok; oo; ob'; ok'; oo']
  | WriteFlow =>
      ob ← GetOtherByteRate h stat; ok ← GetOtherKeyRate h stat; oo ← GetOtherOps h stat;
      b ← GetByteRate h stat; k ← GetKeyRate h stat; o ← GetOps h stat;
      b' ← GetByteRate h stat; k' ← GetKeyRate h stat; o' ← GetOps h stat;
      Ret [ob; ok; oo; b; k; o; b'; k'; o']
  end.

(** [HotPeerStat.Clone]: a copy that carries the denoised rates and no
    filter. *)
Definition Clone (h : FilterHeap) (stat : HotPeerStat) : result HotPeerStat :=
  b ← GetByteRate h stat;
  k ← GetKeyRate h stat;
  o ← GetOps h stat;
  ob ← GetOtherByteRate h stat;
  ok ← GetOtherKeyRate h stat;
  oo ← GetOtherOps h stat;
  Ret (mkStat (StoreID stat) (RegionID stat) (HotDegree stat) (AntiCount stat) (Kind stat)
         b k o ob ok oo None None None None None None
         (LastUpdateTime stat) (Version stat) (needDelete stat) (isLeader stat)
         (Statistics.isNew stat)).

End Loads.


(** An instance of [GetTopNMin] for closed examples; none of them holds
    [topNN] items in a store, so none reads it. *)
Definition zeroStat : HotPeerStat :=
  mkStat 0 0 0 0 WriteFlow 0 0 0 0 0 0 None None None None None None 0 0 false false false.

#[local] Instance topNMinExample : TopNQueries := {|
  GetTopNMin := fun _ _ => zeroStat
|}.

(** A cached stat of hot degree 3 with its six filters allocated, and a
    new item whose byte rate 1000 meets the threshold 256. *)
Definition cachedExample : HotPeerStat :=
  mkStat 1 100 3 2 WriteFlow 1000 0 0 0 0 0
    (Some 1%positive) (Some 2%positive) (Some 3%positive)
    (Some 4%positive) (Some 5%positive) (Some 6%positive) 0 1 false true false.

Definition newItemExample : HotPeerStat :=
  mkStat 1 100 0 0 WriteFlow 1000 0 0 0 0 0 None None None None None None 10 1 false true false.

Definition cacheExample : hotPeerCache :=
  mkCache WriteFlow {[ 1 := {[ 100 := cachedExample ]} ]} {[ 100 := {[ 1 ]} ]}
    (mkHeap (list_to_map (map (fun l => (l, NewMedianFilter rollingWindowsSize))
                            [1; 2; 3; 4; 5; 6]%positive)) 7%positive).


(** An instance of [MovingAvg.Get] for closed examples: the last sample. *)
#[local] Instance movingAvgExample : MovingAvgQueries := {|
  mfGet := fun m => List.last (mfRecords m) 0%float
|}.

(** Region 100 again: a report over one second, a report after the peer
    moved to store 2, and a report with an epoch behind the first. *)
Definition reportWith (epoch : RegionEpoch) (peer : Peer) (intervalEnd : Z) : RegionInfo :=
  {| regID := 100;
     regEpoch := epoch;
     regPeers := [peer];
     regLeader := Some peer;
     regDownPeers := [];
     regPendingPeers := [];
     regBytesWritten := 10000;
     regBytesRead := 0;
     regKeysWritten := 0;
     regKeysRead := 0;
     regOpsWrite := 0;
     regOpsRead := 0;
     regIntervalStart := 0;
     regIntervalEnd := intervalEnd;
     regApproximateSize := 0;
     regApproximateKeys := 0;
     regReplicationState := 0;
     regReplicationStateId := 0 |}.

Definition briefReport : RegionInfo := reportWith (mkEpoch 1 1) (mkPeer 7 1 Voter) 1.

Definition movedReport : RegionInfo := reportWith (mkEpoch 1 1) (mkPeer 8 2 Voter) 10.

Definition staleReport : RegionInfo := reportWith (mkEpoch 0 0) (mkPeer 7 1 Voter) 10.

End Statistics.

(** * Package schedule: the operator controller *)

Module Schedule.

(** Operators are heap objects; a [*operator.Operator] is an address. *)
Abbreviation ptr := positive.

Inductive OpStatus :=
  | CREATED | STARTED | SUCCESS | CANCELED | REPLACED | EXPIRED | TIMEOUT.

#[global] Instance OpStatus_eq_dec : EqDecision OpStatus.
Proof. solve_decision. Defined.

(** [operator.IsEndStatus] *)
Definition IsEndStatus (s : OpStatus) : bool :=
  match s with
  | CREATED | STARTED => false
  | _ => true
  end.

Inductive ConfChangeType := AddNode | RemoveNode | AddLearnerNode.

(** The step types that [SendScheduleCommand] switches on, with the fields
    it reads; [OtherStep] is any other implementation of [OpStep]. *)
Inductive OpStep :=
  | TransferLeader (ToStore : Z)
  | AddPeer (ToStore PeerID : Z)
  | AddLightPeer (ToStore PeerID : Z)
  | AddLearner (ToStore PeerID : Z)
  | AddLightLearner (ToStore PeerID : Z)
  | PromoteLearner (ToStore PeerID : Z)
  | DemoteFollower (ToStore PeerID : Z)
  | RemovePeer (FromStore : Z)
  | MergeRegion (IsPassive : bool) (ToRegion : Z)
  | SplitRegion (Policy : Z) (SplitKeys : list string) (Opts : Z)
  | ChangePeerV2Enter (request : list (ConfChangeType * Peer))
  | ChangePeerV2Leave
  | OtherStep (tag : Z).

(** The heartbeat responses [SendScheduleCommand] builds. *)
Inductive Command :=
  | CmdTransferLeader (peer : option Peer)
  | CmdChangePeer (changeType : ConfChangeType) (peer : option Peer)
  | CmdMerge (target : Z)
  | CmdSplitRegion (policy : Z) (keys : list string) (opts : Z)
  | CmdChangePeerV2 (changes : list (ConfChangeType * Peer)).

(** Modelled from the spec: [operator.Operator] is not among the sources.
    The fields are those of the spec's data model; the ones fixed at
    creation are kept apart from the ones its methods change. *)
Record OpInfo := mkInfo {
  opDesc : string;
  opRegionID : Z;
  opRegionEpoch : RegionEpoch;
  opKind : Z;
  opLevel : Z;
  opSteps : list OpStep;
  opCreateTime : Z
}.

Record OpState := mkState {
  opStatus : OpStatus;
  opStartTime : Z;
  opEndTime : Z;
  opCurrentStep : nat
}.

Record Operator := mkOperator { opInfo : OpInfo; opState : OpState }.

Definition Status (op : Operator) : OpStatus := opStatus (opState op).

Definition RegionID (op : Operator) : Z := opRegionID (opInfo op).

Definition Desc (op : Operator) : string := opDesc (opInfo op).

Definition Kind (op : Operator) : Z := opKind (opInfo op).

Definition GetPriorityLevel (op : Operator) : Z := opLevel (opInfo op).

Definition RegionEpochOf (op : Operator) : RegionEpoch := opRegionEpoch (opInfo op).

(** Modelled from the spec: the status machine of section 4.2, with every
    transition its diagram or its prose names: a created operator starts,
    is canceled or replaced, or expires; a started one succeeds, times out,
    expires, is canceled or is replaced; the other five are terminal. *)
Definition validTrans (src dst : OpStatus) : bool :=
  match src, dst with
  | CREATED, (STARTED | CANCELED | REPLACED | EXPIRED) => true
  | STARTED, (SUCCESS | TIMEOUT | EXPIRED | CANCELED | REPLACED) => true
  | _, _ => false
  end.

(** Modelled from the spec: the transition [To(dst)] behind [Start],
    [Cancel] and [Replace]; it reports whether the status changed. *)
Definition transit (op : Operator) (dst : OpStatus) (now : Z) : Operator * bool :=
  let st := opState op in
  if validTrans (opStatus st) dst then
    (mkOperator (opInfo op)
       (mkState dst
          (if decide (dst = STARTED) then now else opStartTime st)
          (if IsEndStatus dst then now else opEndTime st)
          (opCurrentStep st)),
     true)
  else (op, false).

(** The cluster facade [opt.Cluster], as the controller reads it. *)
Record Cluster := mkCluster {
  regions : gmap Z RegionInfo;
  SchedulerMaxWaitingOperator : Z;
  StoreLimitByType : Z -> Z -> float;
  attachedAvailableFuncs : list (Z * Z)
}.

Definition GetRegion (cl : Cluster) (regionID : Z) : option RegionInfo :=
  regions cl !! regionID.

(** The packages the controller calls and that are not among the sources:
    the rest of [operator] (steps, influence, kinds), [storelimit] and the
    waiting-operator buckets ([RandBuckets]).  [GetOperator] of the buckets
    draws at random; the generator is part of the bucket state.  The laws
    say that the buckets are a queue: a draw adds nothing, a draw that
    succeeds is not empty and hands out and takes out operators that were
    put, a put adds the operator put, and new buckets are empty. *)
Class Externals := {
  OpHistory : Type;
  StoreInfluence : Type;
  StoreLimit : Type;
  WaitingOperator : Type;
  Check : Operator -> RegionInfo -> Z -> OpState * option OpStep;
  History : Operator -> list OpHistory;
  ConfVerChanged : Operator -> RegionInfo -> Z;
  CheckSafety : OpStep -> RegionInfo -> option string;
  OperatorExpireTime : Z -> Z;
  TotalInfluence : Operator -> RegionInfo -> gmap Z StoreInfluence -> gmap Z StoreInfluence;
  GetStepCost : StoreInfluence -> Z -> Z;
  OpMerge : Z;
  OpHotRegion : Z;
  OpSplit : Z;
  TypeNameValue : list Z;
  RegionInfluence : Z -> Z;
  NewStoreLimit : float -> Z -> StoreLimit;
  Available : StoreLimit -> Z -> Z;
  Rate : StoreLimit -> float;
  Take : StoreLimit -> Z -> Z -> StoreLimit;
  NewRandBuckets : WaitingOperator;
  Buckets_PutOperator : WaitingOperator -> ptr -> Operator -> WaitingOperator;
  Buckets_GetOperator : WaitingOperator -> option (list ptr) * WaitingOperator;
  Buckets_ListOperator : WaitingOperator -> list ptr;
  GetOperator_left : forall w got w',
    Buckets_GetOperator w = (got, w') ->
    Buckets_ListOperator w' ⊆ Buckets_ListOperator w;
  GetOperator_drawn : forall w ops w',
    Buckets_GetOperator w = (Some ops, w') ->
    ops <> [] /\ ops ⊆ Buckets_ListOperator w /\
    (length (Buckets_ListOperator w') < length (Buckets_ListOperator w))%nat;
  PutOperator_sub : forall w p op,
    Buckets_ListOperator (Buckets_PutOperator w p op) ⊆ p :: Buckets_ListOperator w;
  NewRandBuckets_empty : forall p, p ∉ Buckets_ListOperator NewRandBuckets
}.

Section Controller.

Context `{Externals}.

(** Modelled from the spec: an operator is expired when creation-to-now
    exceeds the cap of its kind and it was never started; [CheckExpired]
    moves such an operator to [EXPIRED]. *)
Definition expiredAt (op : Operator) (now : Z) : bool :=
  OperatorExpireTime (Kind op) <? now - opCreateTime (opInfo op).

Definition CheckExpired (op : Operator) (now : Z) : Operator * bool :=
  match Status op with
  | CREATED => if expiredAt op now then (fst (transit op EXPIRED now), true) else (op, false)
  | EXPIRED => (op, true)
  | _ => (op, false)
  end.

(** [OperatorController]: the operator objects ([objs]), the running table
    [operators], and the rest of the struct.  [sent] is what
    [hbStreams.SendMsg] was given, [errorLog] the [log.Error] messages,
    [promoteCalls] counts the calls of [PromoteWaitingOperator]. *)
Record OperatorController := mkOC {
  cluster : Cluster;
  objs : gmap ptr Operator;
  operators : gmap Z ptr;
  histories : list OpHistory;
  counts : gmap Z Z;
  opRecords : gmap Z (ptr * OpStatus);
  storesLimit : gmap Z (gmap Z StoreLimit);
  wop : WaitingOperator;
  wopStatus : gmap string Z;
  opNotifierQueue : list (ptr * Z);
  sent : list (Z * Command);
  errorLog : list string;
  promoteCalls : nat
}.

Definition set_cluster (c : OperatorController) (v : Cluster) : OperatorController :=
  mkOC v (objs c) (operators c) (histories c) (counts c) (opRecords c) (storesLimit c) (wop c) (wopStatus c) (opNotifierQueue c) (sent c) (errorLog c) (promoteCalls c).

Definition set_objs (c : OperatorController) (v : gmap ptr Operator) : OperatorController :=
  mkOC (cluster c) v (operators c) (histories c) (counts c) (opRecords c) (storesLimit c) (wop c) (wopStatus c) (opNotifierQueue c) (sent c) (errorLog c) (promoteCalls c).

Definition set_operators (c : OperatorController) (v : gmap Z ptr) : OperatorController :=
  mkOC (cluster c) (objs c) v (histories c) (counts c) (opRecords c) (storesLimit c) (wop c) (wopStatus c) (opNotifierQueue c) (sent c) (errorLog c) (promoteCalls c).

Definition set_histories (c : OperatorController) (v : list OpHistory) : OperatorController :=
  mkOC (cluster c) (objs c) (operators c) v (counts c) (opRecords c) (storesLimit c) (wop c) (wopStatus c) (opNotifierQueue c) (sent c) (errorLog c) (promoteCalls c).

Definition set_counts (c : OperatorController) (v : gmap Z Z) : OperatorController :=
  mkOC (cluster c) (objs c) (operators c) (histories c) v (opRecords c) (storesLimit c) (wop c) (wopStatus c) (opNotifierQueue c) (sent c) (errorLog c) (promoteCalls c).

Definition set_opRecords (c : OperatorController) (v : gmap Z (ptr * OpStatus)) : OperatorController :=
  mkOC (cluster c) (objs c) (operators c) (histories c) (counts c) v (storesLimit c) (wop c) (wopStatus c) (opNotifierQueue c) (sent c) (errorLog c) (promoteCalls c).

Definition set_storesLimit (c : OperatorController) (v : gmap Z (gmap Z StoreLimit)) : OperatorController :=
  mkOC (cluster c) (objs c) (operators c) (histories c) (counts c) (opRecords c) v (wop c) (wopStatus c) (opNotifierQueue c) (sent c) (errorLog c) (promoteCalls c).

Definition set_wop (c : OperatorController) (v : WaitingOperator) : OperatorController :=
  mkOC (cluster c) (objs c) (operators c) (histories c) (counts c) (opRecords c) (storesLimit c) v (wopStatus c) (opNotifierQueue c) (sent c) (errorLog c) (promoteCalls c).

Definition set_wopStatus (c : OperatorController) (v : gmap string Z) : OperatorController :=
  mkOC (cluster c) (objs c) (operators c) (histories c) (counts c) (opRecords c) (storesLimit c) (wop c) v (opNotifierQueue c) (sent c) (errorLog c) (promoteCalls c).

Definition set_opNotifierQueue (c : OperatorController) (v : list (ptr * Z)) : OperatorController :=
  mkOC (cluster c) (objs c) (operators c) (histories c) (counts c) (opRecords c) (storesLimit c) (wop c) (wopStatus c) v (sent c) (errorLog c) (promoteCalls c).

Definition set_sent (c : OperatorController) (v : list (Z * Command)) : OperatorController :=
  mkOC (cluster c) (objs c) (operators c) (histories c) (counts c) (opRecords c) (storesLimit c) (wop c) (wopStatus c) (opNotifierQueue c) v (errorLog c) (promoteCalls c).

Definition set_errorLog (c : OperatorController) (v : list string) : OperatorController :=
  mkOC (cluster c) (objs c) (operators c) (histories c) (counts c) (opRecords c) (storesLimit c) (wop c) (wopStatus c) (opNotifierQueue c) (sent c) v (promoteCalls c).

Definition set_promoteCalls (c : OperatorController) (v : nat) : OperatorController :=
  mkOC (cluster c) (objs c) (operators c) (histories c) (counts c) (opRecords c) (storesLimit c) (wop c) (wopStatus c) (opNotifierQueue c) (sent c) (errorLog c) v.

(** The source of a dispatched region. *)
Definition DispatchFromHeartBeat : string := "heartbeat".

Definition DispatchFromNotifierQueue : string := "active push".

Definition DispatchFromCreate : string := "create".

(** Durations are in nanoseconds, as [time.Duration]. *)
Definition slowNotifyInterval : Z := 5000000000.

Definition fastNotifyInterval : Z := 2000000000.

Definition StoreBalanceBaseTime : float := 60%float.

(** [NewOperatorController] *)
Definition NewOperatorController (cl : Cluster) : OperatorController :=
  mkOC cl ∅ ∅ [] ∅ ∅ ∅ NewRandBuckets ∅ [] [] [] 0%nat.

(** Reading and writing the operator an address points to. *)
Definition deref (c : OperatorController) (p : ptr) : result Operator :=
  match objs c !! p with
  | Some op => Ret op
  | None => Panic
  end.

Definition store (c : OperatorController) (p : ptr) (op : Operator) : OperatorController :=
  set_objs c (<[p := op]> (objs c)).

Definition logError (c : OperatorController) (msg : string) : OperatorController :=
  set_errorLog c (errorLog c ++ [msg]).

(** [op.Start()], [op.Cancel()], [op.Replace()] *)
Definition opTransit (c : OperatorController) (p : ptr) (dst : OpStatus) (now : Z)
    : result (OperatorController * bool) :=
  op ← deref c p;
  let '(op', ok) := transit op dst now in
  Ret (if ok then store c p op' else c, ok).

Definition opStart c p now := opTransit c p STARTED now.

Definition opCancel c p now := opTransit c p CANCELED now.

Definition opReplace c p now := opTransit c p REPLACED now.

(** [op.CheckExpired()] *)
Definition opCheckExpired (c : OperatorController) (p : ptr) (now : Z)
    : result (OperatorController * bool) :=
  op ← deref c p;
  let '(op', e) := CheckExpired op now in
  Ret (store c p op', e).

(** [op.Check(region)] *)
Definition opCheck (c : OperatorController) (p : ptr) (region : RegionInfo) (now : Z)
    : result (OperatorController * option OpStep) :=
  op ← deref c p;
  let '(st, step) := Check op region now in
  Ret (store c p (mkOperator (opInfo op) st), step).

(** [OperatorController.updateCounts] *)
Definition updateCounts (c : OperatorController) : result OperatorController :=
  cnt ← foldM (fun (acc : gmap Z Z) (kv : Z * ptr) =>
                 op ← deref c (snd kv);
                 Ret (<[Kind op := wrap_u64 (default 0 (acc !! Kind op) + 1)]> acc))
              (map_to_list (operators c)) ∅;
  Ret (set_counts c cnt).

(** [OperatorRecords.Put] *)
Definition recordsPut (c : OperatorController) (p : ptr) : result OperatorController :=
  op ← deref c p;
  Ret (set_opRecords c (<[RegionID op := (p, Status op)]> (opRecords c))).

(** [OperatorController.buryOperator] *)
Definition buryOperator (c : OperatorController) (p : ptr) (now : Z)
    : result OperatorController :=
  op ← deref c p;
  let st := Status op in
  c ← (if negb (IsEndStatus st) then
         '(c, _) ← opCancel (logError c "burying operator with non-end status") p now;
         Ret c
       else Ret c);
  recordsPut c p.

(** [OperatorController.removeOperatorLocked] *)
Definition removeOperatorLocked (c : OperatorController) (p : ptr)
    : result (OperatorController * bool) :=
  op ← deref c p;
  let regionID := RegionID op in
  if decide (operators c !! regionID = Some p) then
    c ← updateCounts (set_operators c (delete regionID (operators c)));
    Ret (c, true)
  else Ret (c, false).

(** [OperatorController.removeOperatorWithoutBury] *)
Definition removeOperatorWithoutBury (c : OperatorController) (p : ptr)
    : result (OperatorController * bool) :=
  removeOperatorLocked c p.

(** [OperatorController.RemoveOperator] *)
Definition RemoveOperator (c : OperatorController) (p : ptr) (now : Z)
    : result (OperatorController * bool) :=
  '(c, removed) ← removeOperatorLocked c p;
  if (removed : bool) then
    '(c, _) ← opCancel c p now;
    c ← buryOperator c p now;
    Ret (c, removed)
  else Ret (c, removed).

(** [NewTotalOpInfluence] *)
Definition NewTotalOpInfluence (c : OperatorController) (ops : list ptr)
    : result (gmap Z StoreInfluence) :=
  foldM (fun (influence : gmap Z StoreInfluence) (p : ptr) =>
           op ← deref c p;
           match GetRegion (cluster c) (RegionID op) with
           | Some region => Ret (TotalInfluence op region influence)
           | None => Ret influence
           end)
        ops ∅.

Definition lookupStoreLimit (c : OperatorController) (storeID limitType : Z)
    : option StoreLimit :=
  m ← storesLimit c !! storeID; m !! limitType.

(** [OperatorController.newStoreLimit] *)
Definition newStoreLimit (c : OperatorController) (storeID : Z) (ratePerSec : float)
    (limitType : Z) : OperatorController :=
  let m := default ∅ (storesLimit c !! storeID) in
  set_storesLimit c
    (<[storeID := <[limitType := NewStoreLimit ratePerSec (RegionInfluence limitType)]> m]>
       (storesLimit c)).

Definition attachAvailableFunc (c : OperatorController) (storeID limitType : Z)
    : OperatorController :=
  let cl := cluster c in
  set_cluster c
    (mkCluster (regions cl) (SchedulerMaxWaitingOperator cl) (StoreLimitByType cl)
       (attachedAvailableFuncs cl ++ [(storeID, limitType)])).

(** [OperatorController.getOrCreateStoreLimit].  The configured rate is
    read through the field [StoreLimitByType] of the cluster facade; it
    stands for [oc.cluster.GetOpts().GetStoreLimitByType], whose options
    are no part of the controller: its panic on a type that is neither of
    the two limit types and its write of the defaults for a store without
    limits are not modelled here (package config models them). *)
Definition getOrCreateStoreLimit (c : OperatorController) (storeID limitType : Z)
    : result (OperatorController * StoreLimit) :=
  let ratePerSec := (StoreLimitByType (cluster c) storeID limitType / StoreBalanceBaseTime)%float in
  let c :=
    match lookupStoreLimit c storeID limitType with
    | None => attachAvailableFunc (newStoreLimit c storeID ratePerSec limitType) storeID limitType
    | Some _ => c
    end in
  match lookupStoreLimit c storeID limitType with
  | None => Panic
  | Some limit =>
      if negb (PrimFloat.eqb ratePerSec (Rate limit)) then
        let c := newStoreLimit c storeID ratePerSec limitType in
        match lookupStoreLimit c storeID limitType with
        | None => Panic
        | Some limit' => Ret (c, limit')
        end
      else Ret (c, limit)
  end.

(** The (store, limit type) pairs that the two nested loops over
    [opInfluence.StoresInfluence] and [storelimit.TypeNameValue] visit. *)
Definition influencePairs (opInfluence : gmap Z StoreInfluence)
    : list (Z * StoreInfluence * Z) :=
  flat_map (fun kv => map (fun v => (fst kv, snd kv, v)) TypeNameValue)
           (map_to_list opInfluence).

Fixpoint exceedLoop (c : OperatorController) (l : list (Z * StoreInfluence * Z)) (now : Z)
    : result (OperatorController * bool) :=
  match l with
  | [] => Ret (c, false)
  | (storeID, influence, v) :: rest =>
      let stepCost := GetStepCost influence v in
      if stepCost =? 0 then exceedLoop c rest now
      else
        '(c, limit) ← getOrCreateStoreLimit c storeID v;
        if Available limit now <? stepCost then Ret (c, true)
        else exceedLoop c rest now
  end.

(** [OperatorController.exceedStoreLimit] *)
Definition exceedStoreLimit (c : OperatorController) (ops : list ptr) (now : Z)
    : result (OperatorController * bool) :=
  opInfluence ← NewTotalOpInfluence c ops;
  exceedLoop c (influencePairs opInfluence) now.

(** [isHigherPriorityOperator] *)
Definition isHigherPriorityOperator (new old : Operator) : bool :=
  GetPriorityLevel old <? GetPriorityLevel new.

(** The first loop of [checkAddOperator], for one operator: [true] when
    none of its five rejections applies. *)
Definition checkAddOne (c : OperatorController) (p : ptr)
    : result (OperatorController * bool) :=
  op ← deref c p;
  match GetRegion (cluster c) (RegionID op) with
  | None => Ret (c, false)
  | Some region =>
      if negb (epochVersion (regEpoch region) =? epochVersion (RegionEpochOf op))
         || negb (epochConfVer (regEpoch region) =? epochConfVer (RegionEpochOf op))
      then Ret (c, false)
      else
        lower ← match operators c !! RegionID op with
                | Some oldp => old ← deref c oldp; Ret (negb (isHigherPriorityOperator op old))
                | None => Ret false
                end;
        if lower : bool then Ret (c, false)
        else if negb (bool_decide (Status op = CREATED)) then
          Ret (logError c "trying to add operator with unexpected status", false)
        else if SchedulerMaxWaitingOperator (cluster c) <=? default 0 (wopStatus c !! Desc op)
        then Ret (c, false)
        else Ret (c, true)
  end.

Fixpoint checkAddLoop (c : OperatorController) (ops : list ptr)
    : result (OperatorController * bool) :=
  match ops with
  | [] => Ret (c, true)
  | p :: rest =>
      '(c, ok) ← checkAddOne c p;
      if (ok : bool) then checkAddLoop c rest else Ret (c, false)
  end.

(** The second loop of [checkAddOperator]. *)
Fixpoint checkExpiredLoop (c : OperatorController) (ops : list ptr) (now : Z) (expired : bool)
    : result (OperatorController * bool) :=
  match ops with
  | [] => Ret (c, expired)
  | p :: rest =>
      '(c, e) ← opCheckExpired c p now;
      checkExpiredLoop c rest now (if (e : bool) then true else expired)
  end.

(** [OperatorController.checkAddOperator] *)
Definition checkAddOperator (c : OperatorController) (ops : list ptr) (now : Z)
    : result (OperatorController * bool) :=
  '(c, ok) ← checkAddLoop c ops;
  if (ok : bool) then
    '(c, expired) ← checkExpiredLoop c ops now false;
    Ret (c, negb expired)
  else Ret (c, false).

(** [OperatorController.getNextPushOperatorTime]; a nil step is slow. *)
Definition getNextPushOperatorTime (step : option OpStep) (now : Z) : Z :=
  let nextTime :=
    match step with
    | Some (TransferLeader _) | Some (PromoteLearner _ _) | Some (DemoteFollower _ _)
    | Some (ChangePeerV2Enter _) | Some ChangePeerV2Leave => fastNotifyInterval
    | _ => slowNotifyInterval
    end in
  now + nextTime.

Definition sendMsg (c : OperatorController) (region : RegionInfo) (cmd : Command)
    : OperatorController :=
  set_sent c (sent c ++ [(regID region, cmd)]).

(** [OperatorController.SendScheduleCommand] *)
Definition SendScheduleCommand (c : OperatorController) (region : RegionInfo)
    (step : option OpStep) (source : string) : OperatorController :=
  match step with
  | Some (TransferLeader to) =>
      sendMsg c region (CmdTransferLeader (GetStorePeer region to))
  | Some (AddPeer to peerID) | Some (AddLightPeer to peerID) =>
      match GetStorePeer region to with
      | Some _ => c
      | None => sendMsg c region (CmdChangePeer AddNode (Some (mkPeer peerID to Voter)))
      end
  | Some (AddLearner to peerID) | Some (AddLightLearner to peerID) =>
      match GetStorePeer region to with
      | Some _ => c
      | None => sendMsg c region (CmdChangePeer AddLearnerNode (Some (mkPeer peerID to Learner)))
      end
  | Some (PromoteLearner to peerID) =>
      sendMsg c region (CmdChangePeer AddNode (Some (mkPeer peerID to Voter)))
  | Some (DemoteFollower to peerID) =>
      sendMsg c region (CmdChangePeer AddLearnerNode (Some (mkPeer peerID to Learner)))
  | Some (RemovePeer from) =>
      sendMsg c region (CmdChangePeer RemoveNode (GetStorePeer region from))
  | Some (MergeRegion passive target) =>
      if passive then c else sendMsg c region (CmdMerge target)
  | Some (SplitRegion policy keys opts) =>
      sendMsg c region (CmdSplitRegion policy keys opts)
  | Some (ChangePeerV2Enter request) =>
      sendMsg c region (CmdChangePeerV2 request)
  | Some ChangePeerV2Leave =>
      sendMsg c region (CmdChangePeerV2 [])
  | Some (OtherStep _) | None => logError c "unknown operator step"
  end.

(** The store-limit part of [addOperatorLocked]. *)
Definition takeStoreLimits (c : OperatorController) (opInfluence : gmap Z StoreInfluence)
    (now : Z) : OperatorController :=
  fold_left
    (fun c (x : Z * StoreInfluence * Z) =>
       let '(storeID, influence, v) := x in
       match storesLimit c !! storeID with
       | None => c
       | Some m =>
           match m !! v with
           | None => c
           | Some storeLimit =>
               let stepCost := GetStepCost influence v in
               if stepCost =? 0 then c
               else set_storesLimit c
                      (<[storeID := <[v := Take storeLimit stepCost now]> m]> (storesLimit c))
           end
       end)
    (influencePairs opInfluence) c.

(** [OperatorController.addOperatorLocked] *)
Definition addOperatorLocked (c : OperatorController) (p : ptr) (now : Z)
    : result (OperatorController * bool) :=
  op ← deref c p;
  let regionID := RegionID op in
  c ← match operators c !! regionID with
      | Some old =>
          '(c, _) ← removeOperatorLocked c old;
          '(c, _) ← opReplace c old now;
          buryOperator c old now
      | None => Ret c
      end;
  '(c, started) ← opStart c p now;
  if negb (started : bool) then
    Ret (logError c "adding operator with unexpected status", false)
  else
    let c := set_operators c (<[regionID := p]> (operators c)) in
    opInfluence ← NewTotalOpInfluence c [p];
    let c := takeStoreLimits c opInfluence now in
    c ← updateCounts c;
    '(c, step) ← match GetRegion (cluster c) regionID with
                 | Some region =>
                     '(c, step) ← opCheck c p region now;
                     match step with
                     | Some _ => Ret (SendScheduleCommand c region step DispatchFromCreate, step)
                     | None => Ret (c, step)
                     end
                 | None => Ret (c, None)
                 end;
    Ret (set_opNotifierQueue c
           (opNotifierQueue c ++ [(p, getNextPushOperatorTime step now)]),
         true).

Fixpoint addOperatorsLocked (c : OperatorController) (ops : list ptr) (now : Z)
    : result (OperatorController * bool) :=
  match ops with
  | [] => Ret (c, true)
  | p :: rest =>
      '(c, ok) ← addOperatorLocked c p now;
      if (ok : bool) then addOperatorsLocked c rest now else Ret (c, false)
  end.

(** [for _, op := range ops { _ = op.Cancel(); oc.buryOperator(op) }] *)
Fixpoint cancelAndBury (c : OperatorController) (ops : list ptr) (now : Z)
    : result OperatorController :=
  match ops with
  | [] => Ret c
  | p :: rest =>
      '(c, _) ← opCancel c p now;
      c ← buryOperator c p now;
      cancelAndBury c rest now
  end.

(** [exceedStoreLimit(ops...) || !checkAddOperator(ops...)], negated. *)
Definition admissible (c : OperatorController) (ops : list ptr) (now : Z)
    : result (OperatorController * bool) :=
  '(c, exceed) ← exceedStoreLimit c ops now;
  if (exceed : bool) then Ret (c, false) else checkAddOperator c ops now.

(** [OperatorController.AddOperator] *)
Definition AddOperator (c : OperatorController) (ops : list ptr) (now : Z)
    : result (OperatorController * bool) :=
  '(c, ok) ← admissible c ops now;
  if negb (ok : bool) then
    c ← cancelAndBury c ops now;
    Ret (c, false)
  else addOperatorsLocked c ops now.

Definition isKind (op : Operator) (mask : Z) : bool := negb (Z.land (Kind op) mask =? 0).

(** [oc.wopStatus.ops[desc]--] and [++], on [uint64]. *)
Definition wopStatusAdd (c : OperatorController) (desc : string) (d : Z) : OperatorController :=
  set_wopStatus c (<[desc := wrap_u64 (default 0 (wopStatus c !! desc) + d)]> (wopStatus c)).

Definition anyHotSplit (c : OperatorController) (ops : list ptr) : result bool :=
  foldM (fun (b : bool) (p : ptr) =>
           op ← deref c p;
           Ret (if isKind op OpHotRegion && isKind op OpSplit then true else b))
        ops false.

(** The first loop of [PromoteWaitingOperator]; each round draws from the
    buckets, so [fuel] above the number of waiting operators is enough. *)
Fixpoint promoteLoop (fuel : nat) (c : OperatorController) (retOps : list ptr) (now : Z)
    : result (OperatorController * list ptr) :=
  match fuel with
  | O => Panic
  | S fuel =>
      let '(got, w) := Buckets_GetOperator (wop c) in
      let c := set_wop c w in
      match got with
      | None => Ret (c, retOps)
      | Some ops =>
          match ops with
          | [] => Panic
          | first :: _ =>
              firstOp ← deref c first;
              let retOps := retOps ++ ops in
              '(c, ok) ← admissible c ops now;
              if negb (ok : bool) then
                c ← cancelAndBury c ops now;
                promoteLoop fuel (wopStatusAdd c (Desc firstOp) (-1)) retOps now
              else
                let c := wopStatusAdd c (Desc firstOp) (-1) in
                continueToProcess ← anyHotSplit c ops;
                if (continueToProcess : bool) then promoteLoop fuel c retOps now
                else Ret (c, retOps)
          end
      end
  end.

(** [OperatorController.PromoteWaitingOperator] *)
Definition PromoteWaitingOperator (c : OperatorController) (now : Z)
    : result OperatorController :=
  let c := set_promoteCalls c (S (promoteCalls c)) in
  '(c, retOps) ← promoteLoop (S (length (Buckets_ListOperator (wop c)))) c [] now;
  '(c, _) ← addOperatorsLocked c retOps now;
  Ret c.

(** The [return] statement that ends the loop of [AddWaitingOperator]. *)
Inductive AddWaitingExit := ExitOrphanMerge | ExitUnpairedMerge | ExitRejected | ExitEnqueued.

Definition putWaiting (c : OperatorController) (p : ptr) (op : Operator) : OperatorController :=
  set_wop c (Buckets_PutOperator (wop c) p op).

Fixpoint addWaitingLoop (c : OperatorController) (ops : list ptr) (added : Z) (now : Z)
    : result (OperatorController * Z * AddWaitingExit) :=
  match ops with
  | [] => Ret (c, added, ExitEnqueued)
  | p :: rest =>
      op ← deref c p;
      let desc := Desc op in
      if isKind op OpMerge then
        match rest with
        | [] => Ret (logError c "orphan merge operators found", added, ExitOrphanMerge)
        | q :: rest' =>
            next ← deref c q;
            if negb (isKind next OpMerge) then
              Ret (logError c "merge operator should be paired", added, ExitUnpairedMerge)
            else
              '(c, ok) ← checkAddOperator c [p] now;
              if negb (ok : bool) then
                '(c, _) ← opCancel c p now;
                c ← buryOperator c p now;
                '(c, _) ← opCancel c q now;
                c ← buryOperator c q now;
                Ret (c, added, ExitRejected)
              else
                let c := putWaiting c p op in
                let added := int_add added 1 in
                let c := putWaiting c q next in
                let c := wopStatusAdd c desc 1 in
                addWaitingLoop c rest' (int_add added 1) now
        end
      else
        '(c, ok) ← checkAddOperator c [p] now;
        if negb (ok : bool) then
          '(c, _) ← opCancel c p now;
          c ← buryOperator c p now;
          Ret (c, added, ExitRejected)
        else
          let c := putWaiting c p op in
          let c := wopStatusAdd c desc 1 in
          addWaitingLoop c rest (int_add added 1) now
  end.

(** [OperatorController.AddWaitingOperator] *)
Definition AddWaitingOperator (c : OperatorController) (ops : list ptr) (now : Z)
    : result (OperatorController * Z) :=
  '(c, added, exit) ← addWaitingLoop c ops 0 now;
  match exit with
  | ExitOrphanMerge | ExitUnpairedMerge => Ret (c, added)
  | ExitRejected | ExitEnqueued =>
      c ← PromoteWaitingOperator c now;
      Ret (c, added)
  end.

(** [OperatorController.GetOperator] *)
Definition GetOperator (c : OperatorController) (regionID : Z) : option ptr :=
  operators c !! regionID.

(** [OperatorController.pushHistory] *)
Definition pushHistory (c : OperatorController) (op : Operator) : OperatorController :=
  set_histories c (rev (History op) ++ histories c).

Definition removeAndPromote (c : OperatorController) (p : ptr) (now : Z)
    : result (OperatorController * bool) :=
  '(c, removed) ← RemoveOperator c p now;
  if (removed : bool) then
    c ← PromoteWaitingOperator c now;
    Ret (c, true)
  else Ret (c, false).

(** [OperatorController.checkStaleOperator]; [CheckSafety] on a nil step
    is a call on a nil interface. *)
Definition checkStaleOperator (c : OperatorController) (p : ptr) (step : option OpStep)
    (region : RegionInfo) (now : Z) : result (OperatorController * bool) :=
  match step with
  | None => Panic
  | Some st =>
      '(c, handled) ← match CheckSafety st region with
                      | Some err => removeAndPromote c p now
                      | None => Ret (c, false)
                      end;
      if (handled : bool) then Ret (c, true)
      else
        op ← deref c p;
        let changes :=
          wrap_u64 (epochConfVer (regEpoch region) - epochConfVer (RegionEpochOf op)) in
        if ConfVerChanged op region <? changes then removeAndPromote c p now
        else Ret (c, false)
  end.

(** [OperatorController.Dispatch] *)
Definition Dispatch (c : OperatorController) (region : RegionInfo) (source : string) (now : Z)
    : result OperatorController :=
  match GetOperator c (regID region) with
  | None => Ret c
  | Some p =>
      '(c, step) ← opCheck c p region now;
      op ← deref c p;
      match Status op with
      | STARTED =>
          '(c, stale) ← (if decide (source = DispatchFromHeartBeat)
                         then checkStaleOperator c p step region now
                         else Ret (c, false));
          if (stale : bool) then Ret c
          else Ret (SendScheduleCommand c region step source)
      | SUCCESS =>
          '(c, _) ← removeAndPromote (pushHistory c op) p now;
          Ret c
      | TIMEOUT =>
          '(c, _) ← removeAndPromote c p now;
          Ret c
      | _ =>
          '(c, removed) ← removeOperatorWithoutBury c p;
          if (removed : bool) then
            let c := logError c "dispatching operator with unexpected status" in
            '(c, _) ← opCancel c p now;
            c ← buryOperator c p now;
            PromoteWaitingOperator c now
          else Ret c
      end
  end.

(** [heap.Pop] on the notifier queue: the entry with the least time (the
    first of them, where several share it). *)
Fixpoint popMin (q : list (ptr * Z)) : option ((ptr * Z) * list (ptr * Z)) :=
  match q with
  | [] => None
  | x :: rest =>
      match popMin rest with
      | None => Some (x, [])
      | Some (y, rest') =>
          if snd x <=? snd y then Some (x, rest) else Some (y, x :: rest')
      end
  end.

(** [OperatorController.pollNeedDispatchRegion] *)
Definition pollNeedDispatchRegion (c : OperatorController) (now : Z)
    : result (OperatorController * option RegionInfo * bool) :=
  match popMin (opNotifierQueue c) with
  | None => Ret (c, None, false)
  | Some (item, q) =>
      let c := set_opNotifierQueue c q in
      itemOp ← deref c (fst item);
      let regionID := RegionID itemOp in
      match operators c !! regionID with
      | None => Ret (c, None, true)
      | Some p =>
          match GetRegion (cluster c) regionID with
          | None =>
              '(c, _) ← removeOperatorLocked c p;
              '(c, _) ← opCancel c p now;
              c ← buryOperator c p now;
              Ret (c, None, true)
          | Some r =>
              '(c, step) ← opCheck c p r now;
              match step with
              | None => Ret (c, Some r, true)
              | Some _ =>
                  if now <? snd item then
                    Ret (set_opNotifierQueue c (opNotifierQueue c ++ [item]), None, false)
                  else
                    Ret (set_opNotifierQueue c
                           (opNotifierQueue c
                              ++ [(fst item, getNextPushOperatorTime step now)]),
                         Some r, true)
              end
          end
      end
  end.

(** [OperatorController.PushOperators]; [None] when [fuel] rounds did not
    end the loop. *)
Fixpoint PushOperators (fuel : nat) (c : OperatorController) (now : Z)
    : option (result OperatorController) :=
  match fuel with
  | O => None
  | S fuel =>
      match pollNeedDispatchRegion c now with
      | Panic => Some Panic
      | Ret (c, r, next) =>
          if negb next then Some (Ret c)
          else
            match r with
            | None => PushOperators fuel c now
            | Some region =>
                match Dispatch c region DispatchFromNotifierQueue now with
                | Panic => Some Panic
                | Ret c => PushOperators fuel c now
                end
            end
      end
  end.

(** [OperatorController.SetOperator] (used by tests only) *)
Definition SetOperator (c : OperatorController) (p : ptr) : result OperatorController :=
  op ← deref c p;
  updateCounts (set_operators c (<[RegionID op := p]> (operators c))).

(** *** Well-formed controller states and the steps between them *)

(** The address holds an operator. *)
Definition valid (c : OperatorController) (p : ptr) : Prop := is_Some (objs c !! p).

(** Every entry of the running table is filed under the region of its
    operator; the queue and the buckets hold live operators. *)
Record WF (c : OperatorController) : Prop := mkWF {
  wf_table : forall r p, operators c !! r = Some p ->
             exists op, objs c !! p = Some op /\ RegionID op = r;
  wf_queue : forall x, x ∈ opNotifierQueue c -> valid c (fst x);
  wf_wait : forall p, p ∈ Buckets_ListOperator (wop c) -> valid c p
}.

(** No operator object disappears, and none changes what was fixed at its
    creation. *)
Definition ext (c c' : OperatorController) : Prop :=
  forall p op, objs c !! p = Some op ->
  exists op', objs c' !! p = Some op' /\ opInfo op' = opInfo op.

(** A step that leaves the running table, the buckets, the notifier queue
    and the promote counter alone. *)
Record quiet (c c' : OperatorController) : Prop := mkQuiet {
  quiet_ext : ext c c';
  quiet_operators : operators c' = operators c;
  quiet_wop : wop c' = wop c;
  quiet_queue : opNotifierQueue c' = opNotifierQueue c;
  quiet_promote : promoteCalls c' = promoteCalls c;
  quiet_regions : regions (cluster c') = regions (cluster c);
  quiet_max : SchedulerMaxWaitingOperator (cluster c') = SchedulerMaxWaitingOperator (cluster c)
}.

(** A step of the controller: operator objects stay, and whatever is new
    in the running table, the queue or the buckets is a live operator,
    filed in the table under its own region. *)
Record grows (c c' : OperatorController) : Prop := mkGrows {
  grows_ext : ext c c';
  grows_table : forall r p, operators c' !! r = Some p ->
                operators c !! r = Some p \/
                exists op, objs c' !! p = Some op /\ RegionID op = r;
  grows_queue : forall x, x ∈ opNotifierQueue c' ->
                x ∈ opNotifierQueue c \/ valid c' (fst x);
  grows_wait : forall p, p ∈ Buckets_ListOperator (wop c') ->
               p ∈ Buckets_ListOperator (wop c) \/ valid c' p;
  grows_regions : regions (cluster c') = regions (cluster c);
  grows_max : SchedulerMaxWaitingOperator (cluster c') = SchedulerMaxWaitingOperator (cluster c)
}.

(** A step that is not a promotion. *)
Definition calm (c c' : OperatorController) : Prop :=
  grows c c' /\ promoteCalls c' = promoteCalls c.

(** The operator at [p] is created or already marked expired, and past
    its cap. *)
Definition ripe (c : OperatorController) (p : ptr) (now : Z) : Prop :=
  exists op, objs c !! p = Some op /\
    (Status op = CREATED \/ Status op = EXPIRED) /\ expiredAt op now = true.

(** *** Replacing the running operator of a region *)

(** The replacement of the running operator of a region, as
    [addOperatorLocked] does it. *)
Definition replaceOld (c : OperatorController) (regionID : Z) (now : Z)
    : result OperatorController :=
  match operators c !! regionID with
  | Some old =>
      '(c, _) ← removeOperatorLocked c old;
      '(c, _) ← opReplace c old now;
      buryOperator c old now
  | None => Ret c
  end.

(** A step that leaves the object at [q], the records and the running
    table alone. *)
Record frame (q : ptr) (c c' : OperatorController) : Prop := mkFrame {
  frame_obj : objs c' !! q = objs c !! q;
  frame_records : opRecords c' = opRecords c;
  frame_operators : operators c' = operators c
}.

(** *** Reachable states *)

(** A scheduler creates an operator: a new object at a free address. *)
Definition allocate (c : OperatorController) (op : Operator) : OperatorController :=
  store c (fresh (dom (objs c))) op.

(** The states of a controller: it starts empty; schedulers create
    operators; the cluster moves on; and the controller's own operations
    run, one at a time. *)
Inductive reachable : OperatorController -> Prop :=
  | reach_new cl :
      reachable (NewOperatorController cl)
  | reach_create c op :
      reachable c -> reachable (allocate c op)
  | reach_cluster c cl :
      reachable c -> reachable (set_cluster c cl)
  | reach_AddOperator c ops now c' b :
      reachable c -> AddOperator c ops now = Ret (c', b) -> reachable c'
  | reach_AddWaitingOperator c ops now c' added :
      reachable c -> AddWaitingOperator c ops now = Ret (c', added) -> reachable c'
  | reach_PromoteWaitingOperator c now c' :
      reachable c -> PromoteWaitingOperator c now = Ret c' -> reachable c'
  | reach_Dispatch c region source now c' :
      reachable c -> Dispatch c region source now = Ret c' -> reachable c'
  | reach_RemoveOperator c p now c' b :
      reachable c -> RemoveOperator c p now = Ret (c', b) -> reachable c'
  | reach_poll c now c' r next :
      reachable c -> pollNeedDispatchRegion c now = Ret (c', r, next) -> reachable c'
  | reach_SetOperator c p c' :
      reachable c -> SetOperator c p = Ret c' -> reachable c'.

(** *** At most one running operator per region *)

(** No two entries of the running table hold operators of one region. *)
Definition atMostOne (c : OperatorController) : Prop :=
  forall k1 k2 p1 p2 op1 op2,
    operators c !! k1 = Some p1 -> operators c !! k2 = Some p2 ->
    objs c !! p1 = Some op1 -> objs c !! p2 = Some op2 ->
    RegionID op1 = RegionID op2 -> k1 = k2 /\ p1 = p2.

End Controller.

(** *** Counts, store limits and the history *)

Section Queries.

Context `{Externals}.

(** [OperatorController.OperatorCount]; the sum is the same whatever the
    order Go ranges over the map in. *)
Definition OperatorCount (c : OperatorController) (mask : Z) : Z :=
  map_fold (fun (k count total : Z) =>
              if Z.land k mask =? 0 then total else wrap_u64 (total + count))
           0 (counts c).

(** The running operators whose kind shares a bit with [mask]. *)
Definition runningOfKind (c : OperatorController) (mask : Z) : nat :=
  length (List.filter (fun kv : Z * ptr =>
                         match objs c !! snd kv with
                         | Some op => isKind op mask
                         | None => false
                         end)
                      (map_to_list (operators c))).

Definition sumMask (mask : Z) (m : gmap Z Z) : Z :=
  map_fold (fun (k count total : Z) =>
              if Z.land k mask =? 0 then total else wrap_u64 (total + count)) 0 m.

(** A step that touches the store limits and the availability callbacks
    of the cluster only. *)
Record limitsOnly (c c' : OperatorController) : Prop := mkLimitsOnly {
  lo_objs : objs c' = objs c;
  lo_operators : operators c' = operators c;
  lo_histories : histories c' = histories c;
  lo_counts : counts c' = counts c;
  lo_opRecords : opRecords c' = opRecords c;
  lo_wop : wop c' = wop c;
  lo_wopStatus : wopStatus c' = wopStatus c;
  lo_queue : opNotifierQueue c' = opNotifierQueue c;
  lo_sent : sent c' = sent c;
  lo_errorLog : Schedule.errorLog c' = Schedule.errorLog c;
  lo_promoteCalls : promoteCalls c' = promoteCalls c;
  lo_regions : regions (cluster c') = regions (cluster c);
  lo_max : SchedulerMaxWaitingOperator (cluster c') = SchedulerMaxWaitingOperator (cluster c);
  lo_rates : StoreLimitByType (cluster c') = StoreLimitByType (cluster c)
}.

(** The rate [getOrCreateStoreLimit] computes for a store and a type. *)
Definition ratePerSec (c : OperatorController) (storeID limitType : Z) : float :=
  (StoreLimitByType (cluster c) storeID limitType / StoreBalanceBaseTime)%float.

(** What a pass of the first loop of [checkAddOperator] says about one
    operator. *)
Definition admissibleOne (c : OperatorController) (op : Operator) : Prop :=
  (exists region, GetRegion (cluster c) (RegionID op) = Some region /\
     epochVersion (regEpoch region) = epochVersion (RegionEpochOf op) /\
     epochConfVer (regEpoch region) = epochConfVer (RegionEpochOf op)) /\
  (forall oldp old, operators c !! RegionID op = Some oldp -> objs c !! oldp = Some old ->
     GetPriorityLevel old < GetPriorityLevel op) /\
  Status op = CREATED /\
  default 0 (wopStatus c !! Desc op) < SchedulerMaxWaitingOperator (cluster c).

End Queries.

(** [takeWhile] and [dropWhile] on lists. *)
Fixpoint takeWhile {A : Type} (f : A -> bool) (l : list A) : list A :=
  match l with
  | [] => []
  | x :: rest => if f x then x :: takeWhile f rest else []
  end.

Fixpoint dropWhile {A : Type} (f : A -> bool) (l : list A) : list A :=
  match l with
  | [] => []
  | x :: rest => if f x then dropWhile f rest else l
  end.

(** [OpHistory.FinishTime]; the type is not among the sources. *)
Class HistoryClock `{Externals} := {
  FinishTime : OpHistory -> Z
}.

Section History.
Context `{HistoryClock}.

(** Five minutes, in nanoseconds. *)
Definition historyKeepTime : Z := 300000000000.

(** [time.Since(h.FinishTime) > historyKeepTime] at time [now].  A
    [time.Duration] saturates at the ends of [int64]; the comparison with
    five minutes is the same with and without. *)
Definition outdated (now : Z) (h : OpHistory) : bool :=
  historyKeepTime <? now - FinishTime h.

(** [OperatorController.PruneHistory]: entries go from the back of the
    list for as long as the last one is outdated. *)
Definition PruneHistory (c : OperatorController) (now : Z) : OperatorController :=
  set_histories c (rev (dropWhile (outdated now) (rev (histories c)))).

(** [OperatorController.GetHistory]: from the front, up to the first entry
    that finished before [start]. *)
Definition GetHistory (c : OperatorController) (start : Z) : list OpHistory :=
  takeWhile (fun h => negb (FinishTime h <? start)) (histories c).

End History.


(** *** An instance of the missing packages, for closed examples

    Operator kinds take the bits 4 (split), 16 (hot region) and 256
    (merge).  [Check] hands out the step under the cursor and lets a
    started operator with no step left succeed.  No step costs anything.
    The buckets are one first-in first-out queue that keeps whether an
    operator is a merge operator and draws merge operators in pairs. *)

Definition exOpSplit : Z := 4.

Definition exOpHotRegion : Z := 16.

Definition exOpMerge : Z := 256.

Definition exCheck (op : Operator) (region : RegionInfo) (now : Z) : OpState * option OpStep :=
  let st := opState op in
  match opSteps (opInfo op) !! opCurrentStep st with
  | Some step => (st, Some step)
  | None =>
      (if decide (opStatus st = STARTED)
       then mkState SUCCESS (opStartTime st) now (opCurrentStep st)
       else st,
       None)
  end.

Definition exPut (w : list (ptr * bool)) (p : ptr) (op : Operator) : list (ptr * bool) :=
  w ++ [(p, negb (Z.land (Kind op) exOpMerge =? 0))].

Definition exGet (w : list (ptr * bool)) : option (list ptr) * list (ptr * bool) :=
  match w with
  | [] => (None, w)
  | (p, false) :: rest => (Some [p], rest)
  | (p, true) :: (q, _) :: rest => (Some [p; q], rest)
  | [(p, true)] => (None, w)
  end.

Definition exList (w : list (ptr * bool)) : list ptr := map fst w.

#[local] Instance exampleExternals : Externals.
Proof.
  refine {|
    OpHistory := unit;
    StoreInfluence := Z;
    StoreLimit := float * Z;
    WaitingOperator := list (ptr * bool);
    Check := exCheck;
    History := fun _ => [];
    ConfVerChanged := fun _ _ => 0;
    CheckSafety := fun _ _ => None;
    OperatorExpireTime := fun _ => 3000000000;
    TotalInfluence := fun _ _ influence => influence;
    GetStepCost := fun _ _ => 0;
    OpMerge := exOpMerge;
    OpHotRegion := exOpHotRegion;
    OpSplit := exOpSplit;
    TypeNameValue := [0; 1];
    RegionInfluence := fun _ => 1000;
    NewStoreLimit := fun rate capacity => (rate, capacity);
    Available := fun limit _ => snd limit;
    Rate := fun limit => fst limit;
    Take := fun limit cost _ => (fst limit, snd limit - cost);
    NewRandBuckets := [];
    Buckets_PutOperator := exPut;
    Buckets_GetOperator := exGet;
    Buckets_ListOperator := exList;
    GetOperator_left := _;
    GetOperator_drawn := _;
    PutOperator_sub := _;
    NewRandBuckets_empty := _
  |}.
  - abstract (intros w got w'; unfold exGet, exList;
      destruct w as [| [p []] [| [q b] rest]]; intros [= <- <-];
      simpl; intros x Hx; repeat first [exact Hx | right]).
  - abstract (intros w ops w'; unfold exGet, exList;
      destruct w as [| [p []] [| [q b] rest]]; intros [= <- <-];
      simpl; (split; [discriminate |]); (split; [| lia]);
      intros x Hx;
      repeat (apply elem_of_cons in Hx as [-> | Hx]; [repeat first [left | right] |]);
      inversion Hx).
  - abstract (intros w p op; unfold exPut, exList; rewrite map_app; simpl;
      intros x Hx; apply elem_of_app in Hx as [Hx | Hx];
      [right; exact Hx | apply list_elem_of_singleton in Hx as ->; left]).
  - abstract (intros p; unfold exList; simpl; intros Hp; inversion Hp).
Defined.

(** Region 9 at epoch (5, 2) with its leader on store 3. *)
Definition region9 : RegionInfo :=
  {| regID := 9;
     regEpoch := mkEpoch 5 2;
     regPeers := [mkPeer 31 3 Voter; mkPeer 71 7 Voter];
     regLeader := Some (mkPeer 31 3 Voter);
     regDownPeers := [];
     regPendingPeers := [];
     regBytesWritten := 0;
     regBytesRead := 0;
     regKeysWritten := 0;
     regKeysRead := 0;
     regOpsWrite := 0;
     regOpsRead := 0;
     regIntervalStart := 0;
     regIntervalEnd := 10;
     regApproximateSize := 0;
     regApproximateKeys := 0;
     regReplicationState := 0;
     regReplicationStateId := 0 |}.

Definition exCluster : Cluster :=
  {| regions := {[ 9 := region9 ]};
     SchedulerMaxWaitingOperator := 5;
     StoreLimitByType := fun _ _ => 0%float;
     attachedAvailableFuncs := [] |}.

Definition newOp (desc : string) (kind level : Z) (steps : list OpStep) : Operator :=
  mkOperator (mkInfo desc 9 (mkEpoch 5 2) kind level steps 0) (mkState CREATED 0 0 0).

(** A low-priority and a high-priority leader transfer, a merge operator,
    and an operator without steps. *)
Definition opLow : Operator := newOp "transfer-leader" 1 2 [TransferLeader 7].

Definition opHigh : Operator := newOp "admin-transfer-leader" 9 4 [TransferLeader 7].

Definition opMergeOne : Operator := newOp "merge-region" 256 2 [MergeRegion false 10].

Definition opDone : Operator := newOp "no-op" 2 2 [].

(** The result of a call that returns. *)
Definition returned {A : Type} (m : result A) (d : A) : A :=
  match m with
  | Ret a => a
  | Panic => d
  end.

(** Two created operators for region 9, at addresses 1 (low priority) and
    2 (high priority). *)
Definition stateTwoCreated : OperatorController :=
  allocate (allocate (NewOperatorController exCluster) opLow) opHigh.

(** The low-priority operator was admitted at time 100 and runs. *)
Definition stateLowRunning : OperatorController :=
  fst (returned (AddOperator stateTwoCreated [1%positive] 100) (stateTwoCreated, false)).

Definition opLowStarted : Operator :=
  mkOperator (opInfo opLow) (mkState STARTED 100 0 0).

(** A merge operator at address 1 and a leader transfer at address 2. *)
Definition stateMergeAndLow : OperatorController :=
  allocate (allocate (NewOperatorController exCluster) opMergeOne) opLow.

(** An operator without steps was admitted at time 100: [Check] found
    nothing to do, and the operator sits in the running table and in the
    notifier queue. *)
Definition stateDoneRunning : OperatorController :=
  let c := allocate (NewOperatorController exCluster) opDone in
  fst (returned (AddOperator c [1%positive] 100) (c, false)).

(** The finished operator still holds the slot of region 9, and a
    high-priority operator for the region was created at address 2. *)
Definition stateDoneAndHigh : OperatorController := allocate stateDoneRunning opHigh.


(** An instance of [FinishTime] for closed examples: the history of
    [exampleExternals] carries no time, every entry finished at 0. *)
#[local] Instance exampleHistoryClock : HistoryClock := {|
  FinishTime := fun _ => 0
|}.

(** The low-priority operator runs, and a second low-priority operator
    was created at address 3. *)
Definition stateLowRunningTwice : OperatorController := allocate stateLowRunning opLow.

End Schedule.

(** * Package cluster: the region heartbeat *)

Module Cluster.

Import Statistics.

(** Modelled from the spec: [statistics.HotCache] (not among the sources)
    holds one hot-peer cache per flow kind; [CheckWrite] and [CheckRead]
    call [CheckRegionFlow] of the cache of their kind, and [Update] hands
    the item to the cache of the item's kind. *)
Record HotCache := mkHotCache {
  writeFlow : hotPeerCache;
  readFlow : hotPeerCache
}.

(** [prepareChecker], as far as [collect] writes it. *)
Record prepareChecker := mkChecker {
  reactiveRegions : gmap Z Z;
  sum : Z
}.

(** [prepareChecker.collect] *)
Definition collect (checker : prepareChecker) (region : RegionInfo) : prepareChecker :=
  mkChecker
    (fold_left
       (fun (m : gmap Z Z) (p : Peer) =>
          <[peerStoreId p := int_add (default 0 (m !! peerStoreId p)) 1]> m)
       (regPeers region) (reactiveRegions checker))
    (int_add (sum checker) 1).

(** The collaborators of the heartbeat that are not among the sources:
    the region cache with its store aggregates ([core.BasicCluster]), the
    storage, and the region and label statistics. *)
Class Collaborators := {
  BasicCluster : Type;
  Storage : Type;
  RegionStatistics : Type;
  LabelStatistics : Type;
  StoreInfo : Type;
  Error : Type;
  PreCheckPutRegion : BasicCluster -> RegionInfo -> Error + option RegionInfo;
  PutRegion : BasicCluster -> RegionInfo -> BasicCluster * list RegionInfo;
  GetStoreLeaderCount : BasicCluster -> Z -> Z;
  GetStoreRegionCount : BasicCluster -> Z -> Z;
  GetStorePendingPeerCount : BasicCluster -> Z -> Z;
  GetStoreLeaderRegionSize : BasicCluster -> Z -> Z;
  GetStoreRegionSize : BasicCluster -> Z -> Z;
  UpdateStoreStatus : BasicCluster -> Z -> Z -> Z -> Z -> Z -> Z -> BasicCluster;
  TakeStore : BasicCluster -> Z -> option StoreInfo;
  DeleteRegion : Storage -> RegionInfo -> Storage * option Error;
  SaveRegion : Storage -> RegionInfo -> Storage * option Error;
  ClearDefunctRegion : RegionStatistics -> Z -> RegionStatistics;
  Observe : RegionStatistics -> RegionInfo -> list StoreInfo -> RegionStatistics;
  LabelClearDefunctRegion : LabelStatistics -> Z -> list string -> LabelStatistics
}.

Section Heartbeat.

Context `{Collaborators} {topn : TopNQueries}.

(** The package variables of [statistics]. *)
Variable g : Globals.

Definition defaultChangedRegionsLimit : Z := 10000.

(** [RaftCluster], as far as the heartbeat reads and writes it;
    [changedRegions] is the buffer of the channel, [errorLog] the
    [log.Error] messages. *)
Record RaftCluster := mkCluster {
  core : BasicCluster;
  storage : option Storage;
  regionStats : option RegionStatistics;
  labelLevelStats : LabelStatistics;
  checker : prepareChecker;
  hotSpotCache : HotCache;
  changedRegions : list RegionInfo;
  traceRegionFlow : bool;
  locationLabels : list string;
  errorLog : list string
}.

Definition set_core (c : RaftCluster) (v : BasicCluster) : RaftCluster :=
  mkCluster v (storage c) (regionStats c) (labelLevelStats c) (checker c) (hotSpotCache c)
    (changedRegions c) (traceRegionFlow c) (locationLabels c) (errorLog c).

Definition set_storage (c : RaftCluster) (v : option Storage) : RaftCluster :=
  mkCluster (core c) v (regionStats c) (labelLevelStats c) (checker c) (hotSpotCache c)
    (changedRegions c) (traceRegionFlow c) (locationLabels c) (errorLog c).

Definition set_regionStats (c : RaftCluster) (v : option RegionStatistics) : RaftCluster :=
  mkCluster (core c) (storage c) v (labelLevelStats c) (checker c) (hotSpotCache c)
    (changedRegions c) (traceRegionFlow c) (locationLabels c) (errorLog c).

Definition set_labelLevelStats (c : RaftCluster) (v : LabelStatistics) : RaftCluster :=
  mkCluster (core c) (storage c) (regionStats c) v (checker c) (hotSpotCache c)
    (changedRegions c) (traceRegionFlow c) (locationLabels c) (errorLog c).

Definition set_checker (c : RaftCluster) (v : prepareChecker) : RaftCluster :=
  mkCluster (core c) (storage c) (regionStats c) (labelLevelStats c) v (hotSpotCache c)
    (changedRegions c) (traceRegionFlow c) (locationLabels c) (errorLog c).

Definition set_hotSpotCache (c : RaftCluster) (v : HotCache) : RaftCluster :=
  mkCluster (core c) (storage c) (regionStats c) (labelLevelStats c) (checker c) v
    (changedRegions c) (traceRegionFlow c) (locationLabels c) (errorLog c).

Definition set_changedRegions (c : RaftCluster) (v : list RegionInfo) : RaftCluster :=
  mkCluster (core c) (storage c) (regionStats c) (labelLevelStats c) (checker c)
    (hotSpotCache c) v (traceRegionFlow c) (locationLabels c) (errorLog c).

Definition logError (c : RaftCluster) (msg : string) : RaftCluster :=
  mkCluster (core c) (storage c) (regionStats c) (labelLevelStats c) (checker c)
    (hotSpotCache c) (changedRegions c) (traceRegionFlow c) (locationLabels c)
    (errorLog c ++ [msg]).

(** [RaftCluster.CheckWriteStatus] and [CheckReadStatus]; the cluster
    comes back because the filters of the returned items live in the
    caches. *)
Definition CheckWriteStatus (c : RaftCluster) (region : RegionInfo) (now : Z)
    : result (RaftCluster * list HotPeerStat) :=
  '(f, items) ← CheckRegionFlow g (writeFlow (hotSpotCache c)) region now;
  Ret (set_hotSpotCache c (mkHotCache f (readFlow (hotSpotCache c))), items).

Definition CheckReadStatus (c : RaftCluster) (region : RegionInfo) (now : Z)
    : result (RaftCluster * list HotPeerStat) :=
  '(f, items) ← CheckRegionFlow g (readFlow (hotSpotCache c)) region now;
  Ret (set_hotSpotCache c (mkHotCache (writeFlow (hotSpotCache c)) f), items).

(** [HotCache.Update] *)
Definition hotCacheUpdate (w : HotCache) (item : HotPeerStat) : HotCache :=
  match Kind item with
  | WriteFlow => mkHotCache (Update (writeFlow w) item) (readFlow w)
  | ReadFlow => mkHotCache (writeFlow w) (Update (readFlow w) item)
  end.

(** The four flags of [processRegionHeartbeat]. *)
Record SaveFlags := mkFlags {
  saveKV : bool;
  saveCache : bool;
  isNew : bool;
  needSync : bool
}.

(** The flags for a heartbeat against the cached region [origin]. *)
Definition flagsAgainst (trace : bool) (origin region : RegionInfo) : SaveFlags :=
  let fl := mkFlags false false false false in
  let r := regEpoch region in
  let o := regEpoch origin in
  let fl := if epochVersion o <? epochVersion r
            then mkFlags true true (isNew fl) (needSync fl) else fl in
  let fl := if epochConfVer o <? epochConfVer r
            then mkFlags true true (isNew fl) (needSync fl) else fl in
  let fl := if negb (leaderId region =? leaderId origin) then
              mkFlags (saveKV fl) true
                (if leaderId origin =? 0 then true else isNew fl) true
            else fl in
  let fl := if (0 <? Z.of_nat (length (regDownPeers region)))
               || (0 <? Z.of_nat (length (regPendingPeers region)))
            then mkFlags (saveKV fl) true (isNew fl) (needSync fl) else fl in
  let fl := if (0 <? Z.of_nat (length (regDownPeers origin)))
               || (0 <? Z.of_nat (length (regPendingPeers origin)))
            then mkFlags (saveKV fl) true (isNew fl) (needSync fl) else fl in
  let fl := if negb (length (regPeers region) =? length (regPeers origin))%nat
            then mkFlags true true (isNew fl) (needSync fl) else fl in
  let fl := if negb (regApproximateSize region =? regApproximateSize origin)
               || negb (regApproximateKeys region =? regApproximateKeys origin)
            then mkFlags (saveKV fl) true (isNew fl) (needSync fl) else fl in
  let fl := if trace
               && (negb (regBytesWritten region =? regBytesWritten origin)
                   || negb (regBytesRead region =? regBytesRead origin)
                   || negb (regKeysWritten region =? regKeysWritten origin)
                   || negb (regKeysRead region =? regKeysRead origin)
                   || negb (regOpsWrite region =? regOpsWrite origin)
                   || negb (regOpsRead region =? regOpsRead origin))
            then mkFlags (saveKV fl) true (isNew fl) true else fl in
  let fl := if negb (regReplicationState region =? 0)
               && (negb (regReplicationState region =? regReplicationState origin)
                   || negb (regReplicationStateId region =? regReplicationStateId origin))
            then mkFlags (saveKV fl) true (isNew fl) (needSync fl) else fl in
  fl.

Definition saveFlags (trace : bool) (origin : option RegionInfo) (region : RegionInfo)
    : SaveFlags :=
  match origin with
  | None => mkFlags true true true false
  | Some o => flagsAgainst trace o region
  end.

(** [RaftCluster.updateStoreStatusLocked] *)
Definition updateStoreStatusLocked (c : RaftCluster) (id : Z) : RaftCluster :=
  let leaderCount := GetStoreLeaderCount (core c) id in
  let regionCount := GetStoreRegionCount (core c) id in
  let pendingPeerCount := GetStorePendingPeerCount (core c) id in
  let leaderRegionSize := GetStoreLeaderRegionSize (core c) id in
  let regionSize := GetStoreRegionSize (core c) id in
  set_core c (UpdateStoreStatus (core c) id leaderCount regionCount pendingPeerCount
                leaderRegionSize regionSize).

(** [RaftCluster.takeRegionStoresLocked] *)
Definition takeRegionStoresLocked (c : RaftCluster) (region : RegionInfo) : list StoreInfo :=
  omap (fun p => TakeStore (core c) (peerStoreId p)) (regPeers region).

(** The part of [processRegionHeartbeat] under [if saveCache], after the
    second [PreCheckPutRegion]. *)
Definition putRegionAndStores (c : RaftCluster) (origin : option RegionInfo)
    (region : RegionInfo) : RaftCluster :=
  let '(core', overlaps) := PutRegion (core c) region in
  let c := set_core c core' in
  let c :=
    match storage c with
    | Some _ =>
        fold_left
          (fun c item =>
             match storage c with
             | Some st =>
                 let '(st', err) := DeleteRegion st item in
                 let c := set_storage c (Some st') in
                 match err with
                 | Some _ => logError c "failed to delete region from storage"
                 | None => c
                 end
             | None => c
             end)
          overlaps c
    | None => c
    end in
  let c :=
    fold_left
      (fun c item =>
         let c := match regionStats c with
                  | Some rs => set_regionStats c (Some (ClearDefunctRegion rs (regID item)))
                  | None => c
                  end in
         set_labelLevelStats c
           (LabelClearDefunctRegion (labelLevelStats c) (regID item) (locationLabels c)))
      overlaps c in
  let storeMap : gset Z :=
    list_to_set (map peerStoreId (regPeers region))
    ∪ match origin with
      | Some o => list_to_set (map peerStoreId (regPeers o))
      | None => ∅
      end in
  fold_left updateStoreStatusLocked (elements storeMap) c.

(** [RaftCluster.processRegionHeartbeat]; the second component is the
    error returned, [None] for nil. *)
Definition processRegionHeartbeat (c : RaftCluster) (region : RegionInfo) (now : Z)
    : result (RaftCluster * option Error) :=
  match PreCheckPutRegion (core c) region with
  | inl err => Ret (c, Some err)
  | inr origin =>
      '(c, writeItems) ← CheckWriteStatus c region now;
      '(c, readItems) ← CheckReadStatus c region now;
      let fl := saveFlags (traceRegionFlow c) origin region in
      if (length writeItems =? 0)%nat && (length readItems =? 0)%nat
         && negb (saveKV fl) && negb (saveCache fl) && negb (isNew fl)
      then Ret (c, None)
      else
        let cached : RaftCluster + Error :=
          if saveCache fl then
            match PreCheckPutRegion (core c) region with
            | inl err => inr err
            | inr _ => inl (putRegionAndStores c origin region)
            end
          else inl c in
        match cached with
        | inr err => Ret (c, Some err)
        | inl c =>
            let c := if isNew fl then set_checker c (collect (checker c) region) else c in
            let c :=
              match regionStats c with
              | Some rs =>
                  set_regionStats c (Some (Observe rs region (takeRegionStoresLocked c region)))
              | None => c
              end in
            let c := fold_left
                       (fun c item => set_hotSpotCache c (hotCacheUpdate (hotSpotCache c) item))
                       writeItems c in
            let c := fold_left
                       (fun c item => set_hotSpotCache c (hotCacheUpdate (hotSpotCache c) item))
                       readItems c in
            let c :=
              if saveKV fl then
                match storage c with
                | Some st =>
                    let '(st', err) := SaveRegion st region in
                    let c := set_storage c (Some st') in
                    match err with
                    | Some _ => logError c "failed to save region to storage"
                    | None => c
                    end
                | None => c
                end
              else c in
            let c :=
              if saveKV fl || needSync fl then
                if Z.of_nat (length (changedRegions c)) <? defaultChangedRegionsLimit
                then set_changedRegions c (changedRegions c ++ [region])
                else c
              else c in
            Ret (c, None)
        end
  end.

End Heartbeat.

(** The conditions the flags of a heartbeat against a cached region are
    made of. *)
Definition metaChanged (o r : RegionInfo) : bool :=
  (epochVersion (regEpoch o) <? epochVersion (regEpoch r))
  || (epochConfVer (regEpoch o) <? epochConfVer (regEpoch r))
  || negb (length (regPeers r) =? length (regPeers o))%nat.

Definition leaderChanged (o r : RegionInfo) : bool := negb (leaderId r =? leaderId o).

Definition flowChanged (trace : bool) (o r : RegionInfo) : bool :=
  trace
  && (negb (regBytesWritten r =? regBytesWritten o)
      || negb (regBytesRead r =? regBytesRead o)
      || negb (regKeysWritten r =? regKeysWritten o)
      || negb (regKeysRead r =? regKeysRead o)
      || negb (regOpsWrite r =? regOpsWrite o)
      || negb (regOpsRead r =? regOpsRead o)).

(** The peers of a region on a store. *)
Definition peersOn (region : RegionInfo) (s : Z) : nat :=
  length (List.filter (fun p => peerStoreId p =? s) (regPeers region)).


(** *** An instance of the collaborators, for a closed example

    The region cache is a map from region id to region; a heartbeat is
    refused when its epoch is behind the cached one.  Storage and
    statistics record the region ids they were given. *)

Definition exPreCheck (m : gmap Z RegionInfo) (region : RegionInfo)
    : string + option RegionInfo :=
  match m !! regID region with
  | None => inr None
  | Some o =>
      if (epochVersion (regEpoch region) <? epochVersion (regEpoch o))
         || (epochConfVer (regEpoch region) <? epochConfVer (regEpoch o))
      then inl "region is stale"
      else inr (Some o)
  end.

#[local] Instance exampleCollaborators : Collaborators := {|
  BasicCluster := gmap Z RegionInfo;
  Storage := list Z;
  RegionStatistics := list Z;
  LabelStatistics := list Z;
  StoreInfo := Z;
  Error := string;
  PreCheckPutRegion := exPreCheck;
  PutRegion := fun m region => (<[regID region := region]> m, []);
  GetStoreLeaderCount := fun _ _ => 0;
  GetStoreRegionCount := fun _ _ => 0;
  GetStorePendingPeerCount := fun _ _ => 0;
  GetStoreLeaderRegionSize := fun _ _ => 0;
  GetStoreRegionSize := fun _ _ => 0;
  UpdateStoreStatus := fun m _ _ _ _ _ _ => m;
  TakeStore := fun _ id => Some id;
  DeleteRegion := fun st region => (filter (fun id => id <> regID region) st, None);
  SaveRegion := fun st region => (regID region :: st, None);
  ClearDefunctRegion := fun rs id => filter (fun x => x <> id) rs;
  Observe := fun rs region _ => regID region :: rs;
  LabelClearDefunctRegion := fun ls id _ => filter (fun x => x <> id) ls
|}.

(** A cluster that caches the cold region 100 of the hysteresis scenario,
    with empty hot caches. *)
Definition exampleCluster : RaftCluster :=
  {| core := {[ 100 := coldReport ]};
     storage := Some [100];
     regionStats := Some [100];
     labelLevelStats := [];
     checker := mkChecker ∅ 0;
     hotSpotCache := mkHotCache (NewHotStoresStats WriteFlow) (NewHotStoresStats ReadFlow);
     changedRegions := [];
     traceRegionFlow := true;
     locationLabels := [];
     errorLog := [] |}.

End Cluster.

(** * Package cluster: split reports *)

Module ClusterWorker.

(** [metapb.Region], as far as the split reports read it. *)
Record Region := mkRegion {
  Id : Z;
  StartKey : list Byte.byte;
  EndKey : list Byte.byte
}.

(** The getters of a [*metapb.Region] answer for a nil pointer too. *)
Definition GetId (r : option Region) : Z :=
  match r with Some m => Id m | None => 0 end.

Definition GetStartKey (r : option Region) : list Byte.byte :=
  match r with Some m => StartKey m | None => [] end.

Definition GetEndKey (r : option Region) : list Byte.byte :=
  match r with Some m => EndKey m | None => [] end.

(** [bytes.Equal] *)
Fixpoint bytesEqual (a b : list Byte.byte) : bool :=
  match a, b with
  | [], [] => true
  | x :: a', y :: b' => Byte.eqb x y && bytesEqual a' b'
  | _, _ => false
  end.

(** [bytes.Compare]: the order of the first byte that differs, a proper
    prefix before the longer slice. *)
Fixpoint bytesCompare (a b : list Byte.byte) : comparison :=
  match a, b with
  | [], [] => Eq
  | [], _ :: _ => Lt
  | _ :: _, [] => Gt
  | x :: a', y :: b' =>
      match N.compare (Byte.to_N x) (Byte.to_N y) with
      | Eq => bytesCompare a' b'
      | c => c
      end
  end.

Definition invalidSplitRegion : string := "invalid split region".

(** [RaftCluster.checkSplitRegion]; [None] is the nil error. *)
Definition checkSplitRegion (left right : option Region) : option string :=
  match left, right with
  | Some _, Some _ =>
      if negb (bytesEqual (GetEndKey left) (GetStartKey right)) then Some invalidSplitRegion
      else if (length (GetEndKey right) =? 0)%nat
              || match bytesCompare (GetStartKey left) (GetEndKey right) with
                 | Lt => true
                 | _ => false
                 end
      then None
      else Some invalidSplitRegion
  | _, _ => Some invalidSplitRegion
  end.

(** The loop of [checkSplitRegions] from index [i] on, [left] being
    [regions[i-1]] and [rest] the slice [regions[i:]]. *)
Fixpoint checkSplitFrom (left : option Region) (rest : list (option Region)) : option string :=
  match rest with
  | [] => None
  | right_ :: rest' =>
      if negb (bytesEqual (GetEndKey left) (GetStartKey right_)) then Some invalidSplitRegion
      else if negb (length (GetEndKey right_) =? 0)%nat
              && match bytesCompare (GetStartKey left) (GetEndKey right_) with
                 | Lt => false
                 | _ => true
                 end
      then Some invalidSplitRegion
      else checkSplitFrom right_ rest'
  end.

(** [RaftCluster.checkSplitRegions] *)
Definition checkSplitRegions (regions : list (option Region)) : option string :=
  if (length regions <=? 1)%nat then Some invalidSplitRegion
  else
    match regions with
    | first :: rest => checkSplitFrom first rest
    | [] => None
    end.

(** [RaftCluster.collectSplitRegions] on the map [splitRegionInfos];
    [make] with a negative capacity and the slice [regions[:len-1]] of an
    empty slice panic. *)
Definition collectSplitRegions (splitRegionInfos : gmap Z (list Z))
    (regions : list (option Region)) : result (gmap Z (list Z)) :=
  match regions with
  | [] => Panic
  | _ :: _ =>
      let regionInfos := map GetId (removelast regions) in
      let originRegionID := GetId (List.last regions None) in
      Ret (<[originRegionID := regionInfos]> splitRegionInfos)
  end.

(** [RaftCluster.HandleBatchReportSplit]: the map afterwards and the error
    returned. *)
Definition HandleBatchReportSplit (splitRegionInfos : gmap Z (list Z))
    (regions : list (option Region)) : result (gmap Z (list Z) * option string) :=
  match checkSplitRegions regions with
  | Some err => Ret (splitRegionInfos, Some err)
  | None =>
      infos ← collectSplitRegions splitRegionInfos regions;
      Ret (infos, None)
  end.

(** [RaftCluster.GetSplitRegionInfos]: the copy returned and the map
    afterwards. *)
Definition GetSplitRegionInfos (splitRegionInfos : gmap Z (list Z))
    : gmap Z (list Z) * gmap Z (list Z) :=
  (splitRegionInfos, ∅).

(** A left and a right region glue: the right starts where the left ends,
    and the right is the last of the key space or ends after the start of
    the left. *)
Definition glued (l r : Region) : Prop :=
  EndKey l = StartKey r /\
  (EndKey r = [] \/ bytesCompare (StartKey l) (EndKey r) = Lt).


(** Region 2 was split at key [0x6d]; region 1 is the new left part. *)
Definition leftPart : Region := mkRegion 1 [] [Byte.x6d].

Definition rightPart : Region := mkRegion 2 [Byte.x6d] [].


End ClusterWorker.


(** * Package config: store limits and label properties *)

Module Config.

(** [StoreLimitConfig] *)
Record StoreLimitConfig := mkStoreLimitConfig {
  AddPeer : float;
  RemovePeer : float
}.

(** [StoreLabel] *)
Record StoreLabel := mkStoreLabel {
  Key : string;
  Value : string
}.

#[global] Instance StoreLabel_eq_dec : EqDecision StoreLabel.
Proof. solve_decision. Defined.

(** What package [config] takes from the sources that are not given: the
    two limit types of [storelimit], which the [switch] statements tell
    apart, and the package variable [DefaultStoreLimit] with its getter and
    setter. *)
Class StoreLimitDefaults := {
  storelimit_AddPeer : Z;
  storelimit_RemovePeer : Z;
  storelimit_distinct : storelimit_AddPeer <> storelimit_RemovePeer;
  DefaultLimits : Type;
  GetDefaultStoreLimit : DefaultLimits -> Z -> float;
  SetDefaultStoreLimit : DefaultLimits -> Z -> float -> DefaultLimits
}.

Section Options.

Context `{StoreLimitDefaults}.

(** [PersistOptions], as far as the store limits and the label properties
    go: the map [StoreLimit] of the schedule configuration, the label
    property configuration, and [DefaultStoreLimit].

    Modelled from the spec: a writer clones the snapshot, mutates the clone
    and swaps it in, so [Clone] is a copy and a stored snapshot is a
    value. *)
Record PersistOptions := mkOptions {
  StoreLimit : gmap Z StoreLimitConfig;
  labelProperty : gmap string (list StoreLabel);
  DefaultStoreLimit : DefaultLimits
}.

(** [PersistOptions.SetStoreLimit]; for a type that is neither of the two,
    [sc] stays the zero value. *)
Definition SetStoreLimit (o : PersistOptions) (storeID : Z) (typ : Z) (ratePerMin : float)
    : PersistOptions :=
  let v := StoreLimit o in
  let sc :=
    if typ =? storelimit_AddPeer then
      let rate := match v !! storeID with
                  | None => GetDefaultStoreLimit (DefaultStoreLimit o) storelimit_AddPeer
                  | Some limit => RemovePeer limit
                  end in
      mkStoreLimitConfig ratePerMin rate
    else if typ =? storelimit_RemovePeer then
      let rate := match v !! storeID with
                  | None => GetDefaultStoreLimit (DefaultStoreLimit o) storelimit_RemovePeer
                  | Some limit => AddPeer limit
                  end in
      mkStoreLimitConfig rate ratePerMin
    else mkStoreLimitConfig 0%float 0%float in
  mkOptions (<[storeID := sc]> v) (labelProperty o) (DefaultStoreLimit o).

(** [PersistOptions.SetAllStoresLimit] *)
Definition SetAllStoresLimit (o : PersistOptions) (typ : Z) (ratePerMin : float)
    : PersistOptions :=
  let v := StoreLimit o in
  if typ =? storelimit_AddPeer then
    mkOptions (fmap (fun limit => mkStoreLimitConfig ratePerMin (RemovePeer limit)) v)
      (labelProperty o)
      (SetDefaultStoreLimit (DefaultStoreLimit o) storelimit_AddPeer ratePerMin)
  else if typ =? storelimit_RemovePeer then
    mkOptions (fmap (fun limit => mkStoreLimitConfig (AddPeer limit) ratePerMin) v)
      (labelProperty o)
      (SetDefaultStoreLimit (DefaultStoreLimit o) storelimit_RemovePeer ratePerMin)
  else o.

(** [PersistOptions.GetStoreLimit]: the options afterwards and the limit. *)
Definition GetStoreLimit (o : PersistOptions) (storeID : Z)
    : PersistOptions * StoreLimitConfig :=
  match StoreLimit o !! storeID with
  | Some limit => (o, limit)
  | None =>
      let sc := mkStoreLimitConfig
                  (GetDefaultStoreLimit (DefaultStoreLimit o) storelimit_AddPeer)
                  (GetDefaultStoreLimit (DefaultStoreLimit o) storelimit_RemovePeer) in
      (mkOptions (<[storeID := sc]> (StoreLimit o)) (labelProperty o) (DefaultStoreLimit o), sc)
  end.

(** [PersistOptions.GetStoreLimitByType] *)
Definition GetStoreLimitByType (o : PersistOptions) (storeID : Z) (typ : Z)
    : result (PersistOptions * float) :=
  let '(o, limit) := GetStoreLimit o storeID in
  if typ =? storelimit_AddPeer then Ret (o, AddPeer limit)
  else if typ =? storelimit_RemovePeer then Ret (o, RemovePeer limit)
  else Panic.

(** The test of the loops over labels. *)
Definition labelIs (labelKey labelValue : string) (l : StoreLabel) : bool :=
  String.eqb (Key l) labelKey && String.eqb (Value l) labelValue.

(** [PersistOptions.SetLabelProperty] *)
Definition SetLabelProperty (o : PersistOptions) (typ labelKey labelValue : string)
    : PersistOptions :=
  let cfg := labelProperty o in
  let labels := default [] (cfg !! typ) in
  if existsb (labelIs labelKey labelValue) labels then o
  else
    mkOptions (StoreLimit o)
      (<[typ := labels ++ [mkStoreLabel labelKey labelValue]]> cfg)
      (DefaultStoreLimit o).

(** [PersistOptions.DeleteLabelProperty] *)
Definition DeleteLabelProperty (o : PersistOptions) (typ labelKey labelValue : string)
    : PersistOptions :=
  let cfg := labelProperty o in
  let oldLabels := default [] (cfg !! typ) in
  let kept := List.filter (fun l => negb (labelIs labelKey labelValue l)) oldLabels in
  mkOptions (StoreLimit o)
    (if (length kept =? 0)%nat then delete typ cfg else <[typ := kept]> cfg)
    (DefaultStoreLimit o).

(** The inner loop of [CheckLabelProperty] for one configured label; a
    nil entry of [labels] that is reached panics. *)
Fixpoint checkAgainst (cfg : StoreLabel) (labels : list (option StoreLabel)) : result bool :=
  match labels with
  | [] => Ret false
  | None :: _ => Panic
  | Some l :: rest =>
      if String.eqb (Key l) (Key cfg) && String.eqb (Value l) (Value cfg) then Ret true
      else checkAgainst cfg rest
  end.

Fixpoint checkConfigured (cfgs : list StoreLabel) (labels : list (option StoreLabel))
    : result bool :=
  match cfgs with
  | [] => Ret false
  | cfg :: rest =>
      found ← checkAgainst cfg labels;
      if found : bool then Ret true else checkConfigured rest labels
  end.

(** [PersistOptions.CheckLabelProperty] *)
Definition CheckLabelProperty (o : PersistOptions) (typ : string)
    (labels : list (option StoreLabel)) : result bool :=
  checkConfigured (default [] (labelProperty o !! typ)) labels.

(** The labels configured for a type. *)
Definition labelsOf (o : PersistOptions) (typ : string) : list StoreLabel :=
  default [] (labelProperty o !! typ).

(** No type is configured with an empty list or with a label twice. *)
Definition labelsTidy (o : PersistOptions) : Prop :=
  forall typ labels, labelProperty o !! typ = Some labels -> labels <> [] /\ NoDup labels.

End Options.

(** An instance for closed examples: the two types are 0 and 1, the
    defaults a pair of rates. *)
#[local] Instance exampleDefaults : StoreLimitDefaults.
Proof.
  refine {| storelimit_AddPeer := 0;
            storelimit_RemovePeer := 1;
            DefaultLimits := float * float;
            GetDefaultStoreLimit := fun d typ => if typ =? 0 then fst d else snd d;
            SetDefaultStoreLimit := fun d typ r => if typ =? 0 then (r, snd d) else (fst d, r) |}.
  abstract discriminate.
Defined.

Definition exampleOptions : PersistOptions :=
  mkOptions {[ 1 := mkStoreLimitConfig 15%float 15%float ]}
            {[ "reject-leader" := [mkStoreLabel "zone" "z1"] ]}
            (15%float, 15%float).

End Config.


(** * Properties of the integers and of the result monad *)

Lemma wrap_int_small z : int_min <= z <= int_max -> wrap_int z = z.
Proof.
  unfold wrap_int, int_min, int_max. intros H.
  rewrite Z.mod_small by lia. lia.
Qed.

Lemma wrap_int_range z : int_min <= wrap_int z <= int_max.
Proof.
  unfold wrap_int, int_min, int_max.
  pose proof (Z.mod_pos_bound (z + 2 ^ 63) (2 ^ 64) ltac:(lia)). lia.
Qed.

Lemma bind_Ret_inv {A B : Type} (m : result A) (k : A -> result B) (b : B) :
  (m ≫= k) = Ret b -> exists a, m = Ret a /\ k a = Ret b.
Proof. destruct m as [a |]; simpl; [eauto | discriminate]. Qed.

Lemma bind_Ret_eq {A B : Type} (m : result A) (k : A -> result B) (a : A) :
  m = Ret a -> (m ≫= k) = k a.
Proof. intros ->. reflexivity. Qed.

(** Take the first bind of a hypothesis [H : (m ≫= k) = Ret _] apart. *)
Ltac bind_inv H :=
  let a := fresh "a" in
  let Ha := fresh "Hstep" in
  apply bind_Ret_inv in H as (a & Ha & H).

Lemma foldM_total {A B : Type} (P : A -> Prop) (step : A -> B -> result A) (l : list B) (a : A) :
  P a ->
  (forall a b, b ∈ l -> P a -> exists a', step a b = Ret a' /\ P a') ->
  exists a', foldM step l a = Ret a' /\ P a'.
Proof.
  revert a. induction l as [| b l IH]; intros a Ha Hstep; simpl.
  - eauto.
  - destruct (Hstep a b) as (a1 & -> & Ha1); [left | exact Ha |]. simpl.
    apply IH; [exact Ha1 |]. intros a2 b2 Hb2. apply Hstep. right. exact Hb2.
Qed.

Lemma foldM_inv {A B : Type} (P : A -> Prop) (step : A -> B -> result A) (l : list B) (a a' : A) :
  P a ->
  (forall a b a', P a -> step a b = Ret a' -> P a') ->
  foldM step l a = Ret a' -> P a'.
Proof.
  revert a. induction l as [| b l IH]; intros a Ha Hstep; simpl.
  - intros [= <-]. exact Ha.
  - intros Hr. bind_inv Hr. eapply IH; [| exact Hstep | exact Hr]. eauto.
Qed.

(** * Properties of the hot-peer cache *)

Module StatisticsTheory.

Import Statistics.

Section Cache.

Context {topn : TopNQueries}.

(** *** The hot condition and the filter heap *)

Lemma isHot_meets thresholds s :
  isHot thresholds s = true <-> meetsThreshold thresholds s.
Proof.
  unfold isHot, meetsThreshold, updateWithOtherStats, rate, at_dim, dimLen.
  rewrite !orb_true_iff. split.
  - intros [[[[[H | H] | H] | H] | H] | H].
    + exists 0%nat. split; [lia | exact H].
    + exists 1%nat. split; [lia | exact H].
    + exists 2%nat. split; [lia | exact H].
    + exists 3%nat. split; [lia | exact H].
    + exists 4%nat. split; [lia | exact H].
    + exists 5%nat. split; [lia | exact H].
  - intros (k & Hk & H).
    do 6 (destruct k as [| k]; [simpl in H; tauto |]). lia.
Qed.

Lemma heapAdd_allocated h p x :
  allocated h p -> exists h', heapAdd h p x = Ret h' /\
    nextCell h' = nextCell h /\ forall q, allocated h q -> allocated h' q.
Proof.
  destruct p as [l |]; simpl; [| tauto].
  intros [m Hm]. rewrite Hm. eexists. split; [reflexivity |]. split; [reflexivity |].
  intros [l' |]; simpl; [| tauto].
  intros [m' Hm']. destruct (decide (l = l')) as [-> | Hne].
  - rewrite lookup_insert_eq. eauto.
  - rewrite lookup_insert_ne by done. eauto.
Qed.

Lemma addRates_allocated h n :
  rollingAllocated h n -> exists h', addRates h n = Ret h'.
Proof.
  intros (H1 & H2 & H3 & H4 & H5 & H6). unfold addRates.
  destruct (heapAdd_allocated h _ (ByteRate n) H1) as (h1 & -> & _ & K1). simpl.
  destruct (heapAdd_allocated h1 _ (KeyRate n) (K1 _ H2)) as (h2 & -> & _ & K2). simpl.
  destruct (heapAdd_allocated h2 _ (Ops n) (K2 _ (K1 _ H3))) as (h3 & -> & _ & K3). simpl.
  destruct (heapAdd_allocated h3 _ (OtherByteRate n) (K3 _ (K2 _ (K1 _ H4))))
    as (h4 & -> & _ & K4). simpl.
  destruct (heapAdd_allocated h4 _ (OtherKeyRate n) (K4 _ (K3 _ (K2 _ (K1 _ H5)))))
    as (h5 & -> & _ & K5). simpl.
  destruct (heapAdd_allocated h5 _ (OtherOps n) (K5 _ (K4 _ (K3 _ (K2 _ (K1 _ H6))))))
    as (h6 & -> & _ & K6).
  eauto.
Qed.

(** The stat that [updateHotPeerStat] builds from a cached one, before the
    rates are added to the filters. *)
Lemma updateHotPeerStat_Some_inv g f newItem old f' r :
  needDelete newItem = false ->
  updateHotPeerStat g f newItem (Some old) = Ret (f', r) ->
  exists n, r = Some n /\
    if isHot (calcHotThresholds g f (StoreID newItem)) newItem
    then HotDegree n = int_add (HotDegree old) 1 /\
         AntiCount n = hotRegionAntiCount /\ needDelete n = false
    else HotDegree n = int_sub (HotDegree old) 1 /\
         AntiCount n = int_sub (AntiCount old) 1 /\
         needDelete n = (AntiCount n <=? 0).
Proof.
  intros Hnd. unfold updateHotPeerStat. rewrite Hnd.
  destruct (isHot _ newItem) eqn:Hhot.
  - destruct (addRates _ _) as [h' |] eqn:Ha; simpl; [| discriminate].
    intros [= <- <-]. eexists. split; [reflexivity |]. simpl. auto.
  - destruct (addRates _ _) as [h' |] eqn:Ha; simpl; [| discriminate].
    intros [= <- <-]. eexists. split; [reflexivity |].
    destruct (int_sub (AntiCount old) 1 <=? 0) eqn:Hle; simpl; rewrite ?Hle; auto.
Qed.

Lemma updateHotPeerStat_Some_returns g f newItem old :
  needDelete newItem = false ->
  rollingAllocated (filters f) old ->
  exists f' n, updateHotPeerStat g f newItem (Some old) = Ret (f', Some n).
Proof.
  intros Hnd Hal. unfold updateHotPeerStat. rewrite Hnd.
  destruct (isHot _ newItem).
  - match goal with |- context [addRates ?h ?n] =>
      destruct (addRates_allocated h n) as [h' ->] end; [exact Hal |].
    simpl. eauto.
  - match goal with |- context [addRates ?h ?n] =>
      destruct (addRates_allocated h n) as [h' ->] end.
    + destruct (_ <=? 0); exact Hal.
    + simpl. eauto.
Qed.

Lemma updateHotPeerStat_nil_keeps_cache g f newItem oldItem f' :
  updateHotPeerStat g f newItem oldItem = Ret (f', None) -> f' = f.
Proof.
  unfold updateHotPeerStat.
  destruct (needDelete newItem); [discriminate |].
  match goal with |- context [match ?p with Some _ => _ | None => _ end = _] =>
    destruct p as [[h n] |] eqn:Hp end.
  - destruct (addRates h n); simpl; discriminate.
  - intros [= <-]. reflexivity.
Qed.

Lemma checkStore_ret g region now rates interval storeIDs st storeID st' :
  checkStore g region now rates interval storeIDs st storeID = Ret st' ->
  (loopRet st' = loopRet st /\ loopCache st' = loopCache st) \/
  (exists n, loopRet st' = loopRet st ++ [n]).
Proof.
  unfold checkStore.
  destruct (negb _ && gDenoising g && _).
  - intros [= <-]. left. split; reflexivity.
  - match goal with |- context [updateHotPeerStat ?a ?b ?c ?d] =>
      destruct (updateHotPeerStat a b c d) as [[f' [n |]] |] eqn:Hu end;
      simpl; try discriminate.
    + intros [= <-]. right. eexists. reflexivity.
    + intros [= <-]. left. split; [reflexivity |]. simpl.
      eapply updateHotPeerStat_nil_keeps_cache. exact Hu.
Qed.

Lemma foldM_checkStore_grows g region now rates interval storeIDs l st st' :
  foldM (checkStore g region now rates interval storeIDs) l st = Ret st' ->
  (length (loopRet st) <= length (loopRet st'))%nat.
Proof.
  revert st. induction l as [| s l IH]; intros st; simpl.
  - intros [= <-]. lia.
  - destruct (checkStore g region now rates interval storeIDs st s) as [st1 |] eqn:Hs;
      simpl; [| discriminate].
    intros Hl. apply IH in Hl.
    destruct (checkStore_ret _ _ _ _ _ _ _ _ _ Hs) as [[Hr _] | [n Hr]];
      rewrite Hr in Hl; [lia |].
    rewrite length_app in Hl. simpl in Hl. lia.
Qed.

Lemma foldM_checkStore_nil g region now rates interval storeIDs l st st' :
  foldM (checkStore g region now rates interval storeIDs) l st = Ret st' ->
  loopRet st' = [] -> loopCache st' = loopCache st.
Proof.
  revert st. induction l as [| s l IH]; intros st; simpl.
  - intros [= <-]. reflexivity.
  - destruct (checkStore g region now rates interval storeIDs st s) as [st1 |] eqn:Hs;
      simpl; [| discriminate].
    intros Hl Hnil.
    destruct (checkStore_ret _ _ _ _ _ _ _ _ _ Hs) as [[_ Hc] | [n Hr]].
    + rewrite <- Hc. apply IH; assumption.
    + apply foldM_checkStore_grows in Hl. rewrite Hnil, Hr, length_app in Hl.
      simpl in Hl. lia.
Qed.

(** A flow check that reports no item leaves the cache, its filters
    included, as it was. *)
Lemma CheckRegionFlow_nil_keeps_cache g f region now f' :
  CheckRegionFlow g f region now = Ret (f', []) -> f' = f.
Proof.
  unfold CheckRegionFlow.
  match goal with |- context [foldM ?step ?l ?st] =>
    destruct (foldM step l st) as [st' |] eqn:Hf end; simpl; [| discriminate].
  intros [= <- Hnil].
  apply (foldM_checkStore_nil _ _ _ _ _ _ _ _ _ Hf Hnil).
Qed.

(** *** updateHotPeerStat with a cached stat *)

(** C2: for a call of [updateHotPeerStat] with a cached stat [old] and a
    new item that is not flagged [needDelete], every return carries a stat
    [n]; when some dimension rate of the new item meets its threshold,
    [HotDegree n] is [old]'s plus one and [AntiCount n] is 2
    ([hotRegionAntiCount]); otherwise [HotDegree n] and [AntiCount n] are
    [old]'s minus one, and [needDelete n] is set exactly when the new
    [AntiCount] is at most 0.  Plus and minus are those of Go's [int]
    ([int_add], [int_sub]).  The call returns whenever the filters of [old]
    are live objects. *)
Theorem updateHotPeerStat_with_old g f newItem old :
  needDelete newItem = false ->
  (forall f' r,
     updateHotPeerStat g f newItem (Some old) = Ret (f', r) ->
     exists n, r = Some n /\
       (meetsThreshold (calcHotThresholds g f (StoreID newItem)) newItem ->
          HotDegree n = int_add (HotDegree old) 1 /\
          AntiCount n = 2) /\
       (~ meetsThreshold (calcHotThresholds g f (StoreID newItem)) newItem ->
          HotDegree n = int_sub (HotDegree old) 1 /\
          AntiCount n = int_sub (AntiCount old) 1 /\
          (needDelete n = true <-> AntiCount n <= 0))) /\
  (rollingAllocated (filters f) old ->
     exists f' n, updateHotPeerStat g f newItem (Some old) = Ret (f', Some n)).
Proof.
  intros Hnd. split.
  - intros f' r Hu.
    destruct (updateHotPeerStat_Some_inv _ _ _ _ _ _ Hnd Hu) as (n & -> & Hn).
    exists n. split; [reflexivity |].
    destruct (isHot _ newItem) eqn:Hhot.
    + destruct Hn as (Hd & Ha & _). split.
      * intros _. split; [exact Hd | exact Ha].
      * intros Hno. exfalso. apply Hno. apply isHot_meets. exact Hhot.
    + destruct Hn as (Hd & Ha & Hdel). split.
      * intros Hm. apply isHot_meets in Hm. congruence.
      * intros _. split; [exact Hd |]. split; [exact Ha |].
        rewrite Hdel. apply Z.leb_le.
  - apply updateHotPeerStat_Some_returns. exact Hnd.
Qed.

(** Go's [int] plus and minus are the integers' unless the result leaves
    the range of [int]. *)
Lemma int_add_exact a b : int_min <= a + b <= int_max -> int_add a b = a + b.
Proof. apply wrap_int_small. Qed.

Lemma int_sub_exact a b : int_min <= a - b <= int_max -> int_sub a b = a - b.
Proof. apply wrap_int_small. Qed.

(** *** ReduceHotThresholds *)

Lemma ReduceHotThresholds_id tbl f : ReduceHotThresholds tbl f = tbl.
Proof. reflexivity. Qed.

(** C8 (the code does not do it): [ReduceHotThresholds] leaves the package
    variable [minHotThresholds] as it was, for every table and cache, so a
    later [calcHotThresholds] on a fresh write cache still returns
    256, 16, 16, 256, 16, 16, where halving the row would give
    128, 8, 8, 128, 8, 8. *)
Theorem ReduceHotThresholds_halves_nothing :
  (forall tbl f, ReduceHotThresholds tbl f = tbl) /\
  (forall denoising storeID,
     let f := NewHotStoresStats WriteFlow in
     calcHotThresholds (mkGlobals (ReduceHotThresholds minHotThresholds f) denoising) f storeID
     = [256; 16; 16; 256; 16; 16]%float /\
     calcHotThresholds (mkGlobals (ReduceHotThresholds_spec minHotThresholds f) denoising) f storeID
     = [128; 8; 8; 128; 8; 8]%float).
Proof.
  split; [reflexivity |].
  intros denoising storeID f. unfold calcHotThresholds, f. simpl.
  rewrite lookup_empty. split; reflexivity.
Qed.

(** *** The stores of a region and the thresholds of a store *)

Lemma collectStore_step f region S ret peer S' ret' :
  collectStore f region (S, ret) peer = (S', ret') ->
  (forall s, s ∈ S <-> s ∈ ret) -> NoDup ret ->
  (forall s, s ∈ S' <-> s ∈ ret') /\ NoDup ret' /\
  (exists new, ret' = ret ++ new) /\
  (forall s, s ∈ ret' <-> s ∈ ret \/
     (s = peerStoreId peer /\ (kind f = ReadFlow -> s = leaderStoreId region))).
Proof.
  intros Hc HS Hnd. unfold collectStore in Hc.
  assert (Hkeep : (S', ret') = (S, ret) ->
            (kind f = ReadFlow -> peerStoreId peer = leaderStoreId region -> peerStoreId peer ∈ S) ->
            (kind f = WriteFlow -> peerStoreId peer ∈ S) ->
            (forall s, s ∈ S' <-> s ∈ ret') /\ NoDup ret' /\
            (exists new, ret' = ret ++ new) /\
            (forall s, s ∈ ret' <-> s ∈ ret \/
               (s = peerStoreId peer /\ (kind f = ReadFlow -> s = leaderStoreId region)))).
  { intros [= -> ->] Hr Hw. split; [exact HS |]. split; [exact Hnd |].
    split; [exists []; rewrite app_nil_r; reflexivity |].
    intros s. split; [tauto |]. intros [H | [-> Hl]]; [exact H |].
    apply HS. destruct (kind f) eqn:Hk; [apply Hw; reflexivity |].
    apply Hr; [reflexivity | apply Hl; reflexivity]. }
  assert (Hadd : (S', ret') = ({[peerStoreId peer]} ∪ S, ret ++ [peerStoreId peer]) ->
            peerStoreId peer ∉ S ->
            (kind f = ReadFlow -> peerStoreId peer = leaderStoreId region) ->
            (forall s, s ∈ S' <-> s ∈ ret') /\ NoDup ret' /\
            (exists new, ret' = ret ++ new) /\
            (forall s, s ∈ ret' <-> s ∈ ret \/
               (s = peerStoreId peer /\ (kind f = ReadFlow -> s = leaderStoreId region)))).
  { intros [= -> ->] Hnot Hl. split; [| split; [| split]].
    - intros s. rewrite elem_of_union, elem_of_singleton, elem_of_app, list_elem_of_singleton.
      rewrite HS. tauto.
    - apply NoDup_app. split; [exact Hnd |]. split; [| apply NoDup_singleton].
      intros s Hs Hs'. apply list_elem_of_singleton in Hs' as ->. apply Hnot, HS, Hs.
    - eexists. reflexivity.
    - intros s. rewrite elem_of_app, list_elem_of_singleton. split.
      + intros [H | ->]; [left; exact H | right]. split; [reflexivity |].
        intros Hk. apply Hl, Hk.
      + intros [H | [-> _]]; [left; exact H | right; reflexivity]. }
  destruct (kind f) eqn:Hk.
  - destruct (decide (peerStoreId peer ∈ S)) as [Hin | Hnot].
    + apply Hkeep; [symmetry; exact Hc | discriminate | intros _; exact Hin].
    + apply Hadd; [symmetry; exact Hc | exact Hnot | discriminate].
  - destruct (peerStoreId peer =? leaderStoreId region) eqn:Hl; simpl in Hc.
    + apply Z.eqb_eq in Hl.
      destruct (decide (peerStoreId peer ∈ S)) as [Hin | Hnot].
      * apply Hkeep; [symmetry; exact Hc | intros _ _; exact Hin | discriminate].
      * apply Hadd; [symmetry; exact Hc | exact Hnot | intros _; exact Hl].
    + apply Z.eqb_neq in Hl.
      destruct (Hkeep (eq_sym Hc)) as (H1 & H2 & H3 & H4);
        [intros _ Habs; contradiction | discriminate |].
      split; [exact H1 |]. split; [exact H2 |]. split; [exact H3 |].
      intros s. rewrite H4. split; [tauto |].
      intros [H | [-> Hr]]; [left; exact H |]. exfalso. apply Hl, Hr. reflexivity.
Qed.

Lemma collectStores_inv f region peers : forall S ret S' ret',
  fold_left (collectStore f region) peers (S, ret) = (S', ret') ->
  (forall s, s ∈ S <-> s ∈ ret) -> NoDup ret ->
  NoDup ret' /\ (exists new, ret' = ret ++ new) /\
  (forall s, s ∈ ret' <-> s ∈ ret \/
     exists p, p ∈ peers /\ peerStoreId p = s /\
       (kind f = ReadFlow -> s = leaderStoreId region)).
Proof.
  induction peers as [| p peers IH]; intros S ret S' ret'; cbn [fold_left].
  - intros [= -> ->] _ Hnd. split; [exact Hnd |].
    split; [exists []; rewrite app_nil_r; reflexivity |].
    intros s. split; [tauto |]. intros [H | (p & Hp & _)]; [exact H | inversion Hp].
  - destruct (collectStore f region (S, ret) p) as [S1 ret1] eqn:Hc.
    intros Hf HS Hnd.
    destruct (collectStore_step _ _ _ _ _ _ _ Hc HS Hnd) as (HS1 & Hnd1 & [new1 Hn1] & Hm1).
    destruct (IH _ _ _ _ Hf HS1 Hnd1) as (Hnd' & [new Hn] & Hm).
    split; [exact Hnd' |]. split.
    + exists (new1 ++ new). rewrite Hn, Hn1, app_assoc. reflexivity.
    + intros s. rewrite Hm, Hm1. split.
      * intros [[H | [-> Hl]] | (q & Hq & Hs & Hl)].
        -- left; exact H.
        -- right. exists p. split; [left |]. split; [reflexivity | exact Hl].
        -- right. exists q. split; [right; exact Hq |]. split; [exact Hs | exact Hl].
      * intros [H | (q & Hq & Hs & Hl)]; [left; left; exact H |].
        apply elem_of_cons in Hq as [-> | Hq].
        -- left. right. split; [symmetry; exact Hs | exact Hl].
        -- right. exists q. auto.
Qed.

Lemma getAllStoreIDs_spec f region :
  let old := default ∅ (storesOfRegion f !! regID region) in
  NoDup (getAllStoreIDs f region) /\
  (exists new, getAllStoreIDs f region = elements old ++ new) /\
  (forall s, s ∈ getAllStoreIDs f region <-> s ∈ old \/ reportable f region s).
Proof.
  intros old. unfold getAllStoreIDs.
  set (l := match storesOfRegion f !! regID region with
            | Some ids => elements ids | None => [] end).
  assert (Hl : l = elements old).
  { unfold l, old. destruct (storesOfRegion f !! regID region); simpl;
      [reflexivity | rewrite elements_empty; reflexivity]. }
  match goal with |- context [fold_left ?step ?peers ?acc] =>
    change step with (collectStore f region);
    destruct (fold_left (collectStore f region) peers acc) as [S' ret'] eqn:Hf end.
  destruct (collectStores_inv _ _ _ _ _ _ _ Hf) as (Hnd & Hnew & Hm).
  - intros s. rewrite elem_of_list_to_set. reflexivity.
  - rewrite Hl. apply NoDup_elements.
  - split; [exact Hnd |]. split; [rewrite <- Hl; exact Hnew |].
    intros s. rewrite Hm, Hl, elem_of_elements. reflexivity.
Qed.

(** X1: [getAllStoreIDs] lists every store once: first the stores that
    cached a hot peer of the region, then the stores of the reported
    peers (for a read cache the leader's store only) that are not yet
    listed. *)
Theorem getAllStoreIDs_distinct f region :
  let old := default ∅ (storesOfRegion f !! regID region) in
  NoDup (getAllStoreIDs f region) /\
  (exists new, getAllStoreIDs f region = elements old ++ new) /\
  (forall s, s ∈ getAllStoreIDs f region <-> s ∈ old \/ reportable f region s).
Proof. apply getAllStoreIDs_spec. Qed.

(** X2: the thresholds of every store are the row of [minHotThresholds]
    for the kind of the cache, whatever the store's top-N holds. *)
Theorem calcHotThresholds_floor g f storeID :
  length (row (gMinHotThresholds g) (kind f)) = dimLen ->
  calcHotThresholds g f storeID = row (gMinHotThresholds g) (kind f).
Proof.
  intros Hlen. unfold calcHotThresholds.
  destruct (peersOfStore f !! storeID) as [tn |]; [| reflexivity].
  destruct (topnLen tn <? topNN); [reflexivity |].
  destruct (row (gMinHotThresholds g) (kind f)) as [| a [| b [| c [| d [| e [| x [| y l]]]]]]];
    try discriminate Hlen.
  reflexivity.
Qed.

(** *** An item for a store without a stat of the region *)

Lemma isHot_false_meets thresholds s :
  isHot thresholds s = false <-> ~ meetsThreshold thresholds s.
Proof.
  rewrite <- isHot_meets. destruct (isHot thresholds s); split; intros H;
    try discriminate; try reflexivity; try (intros Hd; discriminate).
  exfalso. apply H. reflexivity.
Qed.

(** X3: an item for a store that holds no stat of the region is dropped
    when it does not meet the thresholds of the store, and the cache stays
    as it was.  When it meets them it comes back as a new stat with a full
    [AntiCount], the hot degree and the rates it came with, and six new
    filters that hold one sample each, its own rates; the two indexes of
    the cache are not touched. *)
Theorem updateHotPeerStat_first_seen g f newItem :
  needDelete newItem = false ->
  let thresholds := calcHotThresholds g f (StoreID newItem) in
  (~ meetsThreshold thresholds newItem ->
     updateHotPeerStat g f newItem None = Ret (f, None)) /\
  (meetsThreshold thresholds newItem ->
     exists f' n,
       updateHotPeerStat g f newItem None = Ret (f', Some n) /\
       isNew n = true /\ AntiCount n = hotRegionAntiCount /\
       HotDegree n = HotDegree newItem /\ needDelete n = false /\
       StoreID n = StoreID newItem /\ RegionID n = RegionID newItem /\
       (forall k, rate n k = rate newItem k) /\
       peersOfStore f' = peersOfStore f /\ storesOfRegion f' = storesOfRegion f /\
       holdsOnly (filters f') (rollingByteRate n) (ByteRate newItem) /\
       holdsOnly (filters f') (rollingKeyRate n) (KeyRate newItem) /\
       holdsOnly (filters f') (rollingOps n) (Ops newItem) /\
       holdsOnly (filters f') (rollingOtherByteRate n) (OtherByteRate newItem) /\
       holdsOnly (filters f') (rollingOtherKeyRate n) (OtherKeyRate newItem) /\
       holdsOnly (filters f') (rollingOtherOps n) (OtherOps newItem)).
Proof.
  intros Hnd thresholds. split.
  - intros Hcold. apply isHot_false_meets in Hcold.
    unfold updateHotPeerStat. fold thresholds. rewrite Hnd, Hcold. reflexivity.
  - intros Hhot. apply isHot_meets in Hhot.
    unfold updateHotPeerStat. fold thresholds. rewrite Hnd, Hhot.
    destruct (filters f) as [cs nx] eqn:Hh.
    unfold newRolling, heapAlloc, addRates, heapAdd. cbn.
    set (a1 := nx). set (a2 := Pos.succ a1). set (a3 := Pos.succ a2).
    set (a4 := Pos.succ a3). set (a5 := Pos.succ a4). set (a6 := Pos.succ a5).
    assert (N12 : a1 <> a2) by (unfold a2; lia).
    assert (N13 : a1 <> a3) by (unfold a3, a2; lia).
    assert (N14 : a1 <> a4) by (unfold a4, a3, a2; lia).
    assert (N15 : a1 <> a5) by (unfold a5, a4, a3, a2; lia).
    assert (N16 : a1 <> a6) by (unfold a6, a5, a4, a3, a2; lia).
    assert (N23 : a2 <> a3) by (unfold a3; lia).
    assert (N24 : a2 <> a4) by (unfold a4, a3; lia).
    assert (N25 : a2 <> a5) by (unfold a5, a4, a3; lia).
    assert (N26 : a2 <> a6) by (unfold a6, a5, a4, a3; lia).
    assert (N34 : a3 <> a4) by (unfold a4; lia).
    assert (N35 : a3 <> a5) by (unfold a5, a4; lia).
    assert (N36 : a3 <> a6) by (unfold a6, a5, a4; lia).
    assert (N45 : a4 <> a5) by (unfold a5; lia).
    assert (N46 : a4 <> a6) by (unfold a6, a5; lia).
    assert (N56 : a5 <> a6) by (unfold a6; lia).
    clearbody a1 a2 a3 a4 a5 a6.
    repeat (first [rewrite lookup_insert_eq | rewrite lookup_insert_ne by congruence]; cbn).
    eexists _, _. split; [reflexivity |].
    cbn. repeat match goal with |- _ /\ _ => split end;
      try reflexivity; try exact Hnd.
    all: eexists; (split; [reflexivity |]); cbn;
      repeat first [rewrite lookup_insert_eq | rewrite lookup_insert_ne by congruence];
      reflexivity.
Qed.

(** *** The items of a flow check, and what [Update] does with them *)

Lemma sameIndex_refl f : sameIndex f f.
Proof. repeat split. Qed.

Lemma sameIndex_trans f1 f2 f3 : sameIndex f1 f2 -> sameIndex f2 f3 -> sameIndex f1 f3.
Proof. intros (A & B & C) (A' & B' & C'). repeat split; congruence. Qed.

Lemma updateHotPeerStat_report g f newItem oldItem f' r :
  updateHotPeerStat g f newItem oldItem = Ret (f', r) ->
  sameIndex f f' /\
  (needDelete newItem = true -> r = Some newItem) /\
  forall n, r = Some n -> sameReport n newItem.
Proof.
  unfold updateHotPeerStat.
  destruct (needDelete newItem) eqn:Hnd.
  { intros [= <- <-]. split; [apply sameIndex_refl |]. split; [reflexivity |].
    intros n [= <-]. repeat split. }
  match goal with |- context [match ?p with Some _ => _ | None => _ end = _] =>
    destruct p as [[h n] |] eqn:Hp end.
  - destruct (addRates h n) as [h' |]; simpl; [| discriminate].
    intros [= <- <-]. split; [repeat split |]. split; [discriminate |].
    intros n' [= <-].
    destruct oldItem as [old |].
    + destruct (isHot _ newItem).
      * injection Hp as <- <-. repeat split.
      * injection Hp as <- <-. destruct (_ <=? 0); repeat split.
    + destruct (isHot _ newItem); simpl in Hp; [| discriminate].
      unfold newRolling, heapAlloc in Hp. simpl in Hp. injection Hp as <- <-.
      repeat split.
  - intros [= <- <-]. split; [apply sameIndex_refl |]. split; [discriminate |].
    discriminate.
Qed.

Lemma checkStore_items g region now rates interval storeIDs st s st' :
  checkStore g region now rates interval storeIDs st s = Ret st' ->
  sameIndex (loopCache st) (loopCache st') /\
  (loopRet st' = loopRet st \/
   exists n, loopRet st' = loopRet st ++ [n] /\ StoreID n = s /\
     RegionID n = regID region /\ Kind n = kind (loopCache st) /\
     LastUpdateTime n = now) /\
  (isRegionExpired (loopCache st) region s = true ->
   exists n, loopRet st' = loopRet st ++ [n] /\ StoreID n = s /\
     RegionID n = regID region /\ needDelete n = true).
Proof.
  unfold checkStore. cbv zeta.
  destruct (isRegionExpired (loopCache st) region s) eqn:Hexp; cbn [negb andb].
  - match goal with |- context [updateHotPeerStat ?a ?b ?c ?d] =>
      destruct (updateHotPeerStat a b c d) as [[f' r] |] eqn:Hu end;
      simpl; [| discriminate].
    destruct (updateHotPeerStat_report _ _ _ _ _ _ Hu) as (Hidx & Hdel & Hrep).
    rewrite (Hdel eq_refl). intros [= <-]. simpl.
    split; [exact Hidx |]. split.
    + right. eexists. split; [reflexivity |]. repeat split.
    + intros _. eexists. split; [reflexivity |]. repeat split.
  - destruct (gDenoising g && (interval <? hotRegionReportMinInterval)).
    + intros [= <-]. simpl. split; [apply sameIndex_refl |].
      split; [left; reflexivity | discriminate].
    + match goal with |- context [updateHotPeerStat ?a ?b ?c ?d] =>
        destruct (updateHotPeerStat a b c d) as [[f' r] |] eqn:Hu end;
        simpl; [| discriminate].
      destruct (updateHotPeerStat_report _ _ _ _ _ _ Hu) as (Hidx & _ & Hrep).
      intros [= <-]. simpl. split; [exact Hidx |].
      split; [| discriminate].
      destruct r as [n |]; [| left; reflexivity].
      destruct (Hrep n eq_refl) as (Hs & Hr & Hk & Ht & _).
      right. exists n. split; [reflexivity |]. simpl in *. auto.
Qed.

Lemma isRegionExpired_kind f f' region s :
  kind f' = kind f -> isRegionExpired f' region s = isRegionExpired f region s.
Proof. unfold isRegionExpired. intros ->. reflexivity. Qed.

Lemma foldM_checkStore_items g region now rates interval storeIDs l : forall st st',
  foldM (checkStore g region now rates interval storeIDs) l st = Ret st' ->
  sameIndex (loopCache st) (loopCache st') /\
  (exists new, loopRet st' = loopRet st ++ new /\
     sublist (map StoreID new) l /\
     Forall (fun n => RegionID n = regID region /\ Kind n = kind (loopCache st) /\
                       LastUpdateTime n = now) new /\
     forall s, s ∈ l -> isRegionExpired (loopCache st) region s = true ->
       exists n, n ∈ new /\ StoreID n = s /\ needDelete n = true).
Proof.
  induction l as [| s l IH]; intros st st'; cbn [foldM].
  - intros [= <-]. split; [apply sameIndex_refl |].
    exists []. rewrite app_nil_r. split; [reflexivity |]. split; [constructor |].
    split; [constructor |]. intros s Hs. inversion Hs.
  - destruct (checkStore g region now rates interval storeIDs st s) as [st1 |] eqn:Hs;
      simpl; [| discriminate].
    intros Hl. destruct (checkStore_items _ _ _ _ _ _ _ _ _ Hs) as (Hidx & Hret & Hexp).
    destruct (IH _ _ Hl) as (Hidx' & new & Hnew & Hsub & Hall & Hex).
    assert (Hk : kind (loopCache st1) = kind (loopCache st)) by apply Hidx.
    split; [eapply sameIndex_trans; eassumption |].
    assert (Hall' : Forall (fun n => RegionID n = regID region /\
                      Kind n = kind (loopCache st) /\ LastUpdateTime n = now) new).
    { eapply Forall_impl; [exact Hall |]. simpl. intros n (A & B & C).
      rewrite <- Hk. auto. }
    assert (Hex' : forall s0, s0 ∈ l -> isRegionExpired (loopCache st) region s0 = true ->
              exists n, n ∈ new /\ StoreID n = s0 /\ needDelete n = true).
    { intros s0 Hs0 He. apply Hex; [exact Hs0 |].
      rewrite (isRegionExpired_kind _ _ _ _ Hk). exact He. }
    destruct Hret as [Hsame | (n & Hn & Hsn & Hrn & Hkn & Htn)].
    + exists new. rewrite Hnew, Hsame. split; [reflexivity |].
      split; [apply sublist_cons; exact Hsub |]. split; [exact Hall' |].
      intros s0 Hs0 He. apply elem_of_cons in Hs0 as [-> | Hs0]; [| eauto].
      destruct (Hexp He) as (n & Hn & _). rewrite Hsame in Hn.
      apply (f_equal length) in Hn. rewrite length_app in Hn. simpl in Hn. lia.
    + exists (n :: new). rewrite Hnew, Hn, <- app_assoc. split; [reflexivity |].
      split; [simpl; rewrite Hsn; apply sublist_skip; exact Hsub |].
      split; [constructor; [auto | exact Hall'] |].
      intros s0 Hs0 He. apply elem_of_cons in Hs0 as [-> | Hs0].
      * destruct (Hexp He) as (n' & Hn' & Hs' & _ & Hd').
        rewrite Hn in Hn'. apply app_inj_tail in Hn' as [_ <-].
        exists n. split; [left |]. auto.
      * destruct (Hex' _ Hs0 He) as (n' & Hin & Hs' & Hd').
        exists n'. split; [right; exact Hin |]. auto.
Qed.

Lemma Update_get_same f item :
  getOldHotPeerStat (Update f item) (RegionID item) (StoreID item)
  = if needDelete item then None else Some item.
Proof.
  unfold getOldHotPeerStat, Update, IsNeedDelete, topnGet, topnPut, topnRemove.
  destruct (needDelete item); simpl.
  - destruct (peersOfStore f !! StoreID item) as [peers |] eqn:Hp.
    + rewrite lookup_insert_eq, lookup_delete_eq. reflexivity.
    + rewrite Hp. reflexivity.
  - rewrite !lookup_insert_eq. reflexivity.
Qed.

Lemma Update_get_other f item r s :
  s <> StoreID item ->
  getOldHotPeerStat (Update f item) r s = getOldHotPeerStat f r s.
Proof.
  intros Hs. unfold getOldHotPeerStat, Update, IsNeedDelete.
  destruct (needDelete item); simpl.
  - destruct (peersOfStore f !! StoreID item); [| reflexivity].
    rewrite lookup_insert_ne by congruence. reflexivity.
  - rewrite lookup_insert_ne by congruence. reflexivity.
Qed.

Lemma Update_stores_same f item :
  StoreID item ∈ regionStores (Update f item) (RegionID item) <-> needDelete item = false.
Proof.
  unfold regionStores, Update, IsNeedDelete.
  destruct (needDelete item); simpl.
  - destruct (storesOfRegion f !! RegionID item) as [stores |] eqn:Hs.
    + rewrite lookup_insert_eq. simpl. split; [| discriminate].
      intros H. apply elem_of_difference in H as [_ H]. exfalso. apply H.
      apply elem_of_singleton. reflexivity.
    + rewrite Hs. simpl. split; [| discriminate]. intros H. apply elem_of_empty in H as [].
  - rewrite lookup_insert_eq. simpl. split; [reflexivity |]. intros _.
    apply elem_of_union. left. apply elem_of_singleton. reflexivity.
Qed.

Lemma Update_stores_other f item r s :
  s <> StoreID item ->
  s ∈ regionStores (Update f item) r <-> s ∈ regionStores f r.
Proof.
  intros Hs. unfold regionStores, Update, IsNeedDelete.
  destruct (needDelete item); simpl.
  - destruct (storesOfRegion f !! RegionID item) as [stores |] eqn:Hst; [| reflexivity].
    destruct (decide (r = RegionID item)) as [-> | Hr].
    + rewrite lookup_insert_eq, Hst. simpl. rewrite elem_of_difference, elem_of_singleton.
      tauto.
    + rewrite lookup_insert_ne by congruence. reflexivity.
  - destruct (decide (r = RegionID item)) as [-> | Hr].
    + rewrite lookup_insert_eq. simpl. rewrite elem_of_union, elem_of_singleton. tauto.
    + rewrite lookup_insert_ne by congruence. reflexivity.
Qed.

Lemma fold_Update_other items : forall f r s,
  Forall (fun m => StoreID m <> s) items ->
  getOldHotPeerStat (fold_left Update items f) r s = getOldHotPeerStat f r s /\
  (s ∈ regionStores (fold_left Update items f) r <-> s ∈ regionStores f r).
Proof.
  induction items as [| m items IH]; intros f r s Hall; simpl.
  - split; reflexivity.
  - apply Forall_cons in Hall as [Hm Hall].
    destruct (IH (Update f m) r s Hall) as [-> ->].
    split; [apply Update_get_other | apply Update_stores_other]; congruence.
Qed.

Lemma fold_Update_applied items : forall f n,
  NoDup (map StoreID items) -> n ∈ items ->
  getOldHotPeerStat (fold_left Update items f) (RegionID n) (StoreID n)
  = (if needDelete n then None else Some n) /\
  (StoreID n ∈ regionStores (fold_left Update items f) (RegionID n)
   <-> needDelete n = false).
Proof.
  induction items as [| m items IH]; intros f n Hnd Hn; simpl.
  - inversion Hn.
  - simpl in Hnd. apply NoDup_cons in Hnd as [Hm Hnd].
    apply elem_of_cons in Hn as [-> | Hn].
    + destruct (fold_Update_other items (Update f m) (RegionID m) (StoreID m)) as [-> ->].
      * apply Forall_forall. intros x Hx Heq. apply Hm.
        rewrite <- Heq. apply list_elem_of_fmap. exists x. split; [reflexivity | exact Hx].
      * split; [apply Update_get_same | apply Update_stores_same].
    + apply IH; assumption.
Qed.

Lemma CheckRegionFlow_loop g f region now f' items :
  CheckRegionFlow g f region now = Ret (f', items) ->
  sameIndex f f' /\
  sublist (map StoreID items) (getAllStoreIDs f region) /\
  Forall (fun n => RegionID n = regID region /\ Kind n = kind f /\
                    LastUpdateTime n = now) items /\
  forall s, s ∈ getAllStoreIDs f region -> isRegionExpired f region s = true ->
    exists n, n ∈ items /\ StoreID n = s /\ needDelete n = true.
Proof.
  unfold CheckRegionFlow.
  match goal with |- context [foldM ?step ?l ?st] =>
    destruct (foldM step l st) as [st' |] eqn:Hf end; simpl; [| discriminate].
  intros [= <- <-].
  destruct (foldM_checkStore_items _ _ _ _ _ _ _ _ _ Hf) as (Hidx & new & Hnew & Hsub & Hall & Hex).
  simpl in *. subst. auto.
Qed.

Lemma NoDup_getAllStoreIDs f region : NoDup (getAllStoreIDs f region).
Proof. apply getAllStoreIDs_spec. Qed.

(** X4: the items of a flow check are for the region and of the kind of
    the cache, carry the time of the check, come one for a store at most
    and in the order of [getAllStoreIDs]; the check changes the filters
    only, not the two indexes of the cache. *)
Theorem CheckRegionFlow_items g f region now f' items :
  CheckRegionFlow g f region now = Ret (f', items) ->
  Forall (fun n => RegionID n = regID region /\ Kind n = kind f /\
                    LastUpdateTime n = now) items /\
  sublist (map StoreID items) (getAllStoreIDs f region) /\
  NoDup (map StoreID items) /\
  sameIndex f f'.
Proof.
  intros Hc. destruct (CheckRegionFlow_loop _ _ _ _ _ _ Hc) as (Hidx & Hsub & Hall & _).
  split; [exact Hall |]. split; [exact Hsub |]. split; [| exact Hidx].
  eapply sublist_NoDup; [apply NoDup_getAllStoreIDs | exact Hsub].
Qed.

Lemma checkStore_denoised g region now rates interval storeIDs st s :
  gDenoising g = true -> interval < hotRegionReportMinInterval ->
  isRegionExpired (loopCache st) region s = false ->
  checkStore g region now rates interval storeIDs st s = Ret st.
Proof.
  intros Hden Hint Hexp. unfold checkStore. cbv zeta.
  apply Z.ltb_lt in Hint. rewrite Hexp, Hden, Hint. cbn [negb andb].
  destruct st as [f tmp ret]. simpl.
  destruct (getOldHotPeerStat f (regID region) s); reflexivity.
Qed.

(** X5: with [Denoising] on, a report over less than
    [hotRegionReportMinInterval] seconds for a region none of whose listed
    stores lost its peer yields no item and leaves the cache, filters
    included, as it was. *)
Theorem CheckRegionFlow_denoised g f region now :
  gDenoising g = true ->
  wrap_u64 (regIntervalEnd region - regIntervalStart region) < hotRegionReportMinInterval ->
  (forall s, s ∈ getAllStoreIDs f region -> isRegionExpired f region s = false) ->
  CheckRegionFlow g f region now = Ret (f, []).
Proof.
  intros Hden Hint Hexp. unfold CheckRegionFlow.
  match goal with |- context [foldM ?step ?l ?st] =>
    assert (Hf : forall l0, (forall s, s ∈ l0 -> isRegionExpired f region s = false) ->
              foldM step l0 st = Ret st) end.
  { induction l0 as [| s l0 IH]; intros Hl; [reflexivity |].
    cbn [foldM]. rewrite checkStore_denoised;
      [| exact Hden | exact Hint | apply Hl; left].
    simpl. apply IH. intros s0 Hs0. apply Hl. right. exact Hs0. }
  rewrite Hf by exact Hexp. reflexivity.
Qed.

(** X6: once the items of a flow check are handed to [Update] one by one,
    as the heartbeat does, the store of every item holds that item for the
    region, or nothing when the item is flagged [needDelete], and the
    second index agrees. *)
Theorem CheckRegionFlow_Update_applied g f region now f1 items n :
  CheckRegionFlow g f region now = Ret (f1, items) -> n ∈ items ->
  let f' := fold_left Update items f1 in
  getOldHotPeerStat f' (regID region) (StoreID n)
  = (if needDelete n then None else Some n) /\
  (StoreID n ∈ regionStores f' (regID region) <-> needDelete n = false).
Proof.
  intros Hc Hn f'.
  destruct (CheckRegionFlow_loop _ _ _ _ _ _ Hc) as (_ & Hsub & Hall & _).
  assert (Hr : RegionID n = regID region).
  { rewrite Forall_forall in Hall. apply Hall, Hn. }
  rewrite <- Hr. apply fold_Update_applied; [| exact Hn].
  eapply sublist_NoDup; [apply NoDup_getAllStoreIDs | exact Hsub].
Qed.

(** X7: a store that is listed for a region and no longer holds its peer
    (for a read cache, its leader) holds no hot peer of the region once
    the items of the flow check are handed to [Update]. *)
Theorem moved_peer_evicted g f region now f1 items s :
  CheckRegionFlow g f region now = Ret (f1, items) ->
  s ∈ getAllStoreIDs f region ->
  isRegionExpired f region s = true ->
  let f' := fold_left Update items f1 in
  getOldHotPeerStat f' (regID region) s = None /\
  s ∉ regionStores f' (regID region).
Proof.
  intros Hc Hs Hexp f'.
  destruct (CheckRegionFlow_loop _ _ _ _ _ _ Hc) as (_ & Hsub & Hall & Hex).
  destruct (Hex s Hs Hexp) as (n & Hn & <- & Hdel).
  assert (Hr : RegionID n = regID region).
  { rewrite Forall_forall in Hall. apply Hall, Hn. }
  rewrite <- Hr.
  destruct (fold_Update_applied items f1 n) as [Hget Hst];
    [eapply sublist_NoDup; [apply NoDup_getAllStoreIDs | exact Hsub] | exact Hn |].
  fold f' in Hget, Hst.
  rewrite Hdel in Hget. split; [exact Hget |].
  intros Hin. apply Hst in Hin. congruence.
Qed.

(** X8: [Update] files an item under its store and region in both
    indexes, or takes it out of both when it is flagged [needDelete]; what
    other stores hold stays. *)
Theorem Update_lookup f item :
  getOldHotPeerStat (Update f item) (RegionID item) (StoreID item)
  = (if needDelete item then None else Some item) /\
  (StoreID item ∈ regionStores (Update f item) (RegionID item)
   <-> needDelete item = false) /\
  (forall r s, s <> StoreID item ->
     getOldHotPeerStat (Update f item) r s = getOldHotPeerStat f r s /\
     (s ∈ regionStores (Update f item) r <-> s ∈ regionStores f r)).
Proof.
  split; [apply Update_get_same |]. split; [apply Update_stores_same |].
  intros r s Hs. split; [apply Update_get_other | apply Update_stores_other]; exact Hs.
Qed.

(** X9: a region is hot at degree [d] exactly when the store of one of its
    peers (for a read cache: of its leader) holds a stat of the region with
    [HotDegree] at least [d]. *)
Theorem IsRegionHot_iff f region d :
  IsRegionHot f region d = true <->
  exists p stat,
    match kind f with
    | WriteFlow => p ∈ regPeers region
    | ReadFlow => regLeader region = Some p
    end /\
    getOldHotPeerStat f (regID region) (peerStoreId p) = Some stat /\
    d <= HotDegree stat.
Proof.
  assert (Hp : forall p, isRegionHotWithPeer f region (Some p) d = true <->
            exists stat, getOldHotPeerStat f (regID region) (peerStoreId p) = Some stat /\
                         d <= HotDegree stat).
  { intros p. unfold isRegionHotWithPeer, getOldHotPeerStat.
    destruct (peersOfStore f !! peerStoreId p) as [peers |].
    - destruct (topnGet peers (regID region)) as [stat |].
      + rewrite Z.leb_le. split; [eauto |]. intros (stat' & [= <-] & H). exact H.
      + split; [discriminate |]. intros (stat' & [=] & _).
    - split; [discriminate |]. intros (stat' & [=] & _). }
  unfold IsRegionHot. destruct (kind f).
  - unfold isRegionHotWithAnyPeers. rewrite existsb_exists. split.
    + intros (p & Hin & Hhot). apply Hp in Hhot as (stat & Hg & Hd).
      exists p, stat. rewrite list_elem_of_In. auto.
    + intros (p & stat & Hin & Hg & Hd). exists p. rewrite <- list_elem_of_In.
      split; [exact Hin |]. apply Hp. eauto.
  - destruct (regLeader region) as [l |].
    + rewrite Hp. split.
      * intros (stat & Hg & Hd). exists l, stat. auto.
      * intros (p & stat & [= <-] & Hg & Hd). eauto.
    + simpl. split; [discriminate |]. intros (p & stat & [=] & _).
Qed.


(** *** The hysteresis of a hot peer *)

Lemma reportedStores_spec f region s :
  s ∈ reportedStores f region <-> reportable f region s.
Proof.
  unfold reportedStores, reportable. rewrite elem_of_list_to_set, list_elem_of_fmap.
  split.
  - intros (p & -> & Hp). apply list_elem_of_In, filter_In in Hp as [Hin Hk].
    exists p. split; [apply list_elem_of_In; exact Hin |]. split; [reflexivity |].
    intros Hr. rewrite Hr in Hk. apply Z.eqb_eq. exact Hk.
  - intros (p & Hin & <- & Hl). exists p. split; [reflexivity |].
    apply list_elem_of_In, filter_In. split; [apply list_elem_of_In; exact Hin |].
    destruct (kind f); [reflexivity |]. apply Z.eqb_eq. apply Hl. reflexivity.
Qed.

Lemma calcHotThresholds_row g f storeID :
  length (row (gMinHotThresholds g) (kind f)) = dimLen ->
  calcHotThresholds g f storeID = row (gMinHotThresholds g) (kind f).
Proof.
  intros Hlen. unfold calcHotThresholds.
  destruct (peersOfStore f !! storeID) as [tn |]; [| reflexivity].
  destruct (topnLen tn <? topNN); [reflexivity |].
  destruct (row (gMinHotThresholds g) (kind f)) as [| a [| b [| c [| d [| e [| x [| y l]]]]]]];
    try discriminate Hlen.
  reflexivity.
Qed.


Lemma addRates_mono h n :
  rollingAllocated h n -> exists h', addRates h n = Ret h' /\
    forall q, allocated h q -> allocated h' q.
Proof.
  intros (H1 & H2 & H3 & H4 & H5 & H6). unfold addRates.
  destruct (heapAdd_allocated h _ (ByteRate n) H1) as (h1 & -> & _ & K1). simpl.
  destruct (heapAdd_allocated h1 _ (KeyRate n) (K1 _ H2)) as (h2 & -> & _ & K2). simpl.
  destruct (heapAdd_allocated h2 _ (Ops n) (K2 _ (K1 _ H3))) as (h3 & -> & _ & K3). simpl.
  destruct (heapAdd_allocated h3 _ (OtherByteRate n) (K3 _ (K2 _ (K1 _ H4))))
    as (h4 & -> & _ & K4). simpl.
  destruct (heapAdd_allocated h4 _ (OtherKeyRate n) (K4 _ (K3 _ (K2 _ (K1 _ H5)))))
    as (h5 & -> & _ & K5). simpl.
  destruct (heapAdd_allocated h5 _ (OtherOps n) (K5 _ (K4 _ (K3 _ (K2 _ (K1 _ H6))))))
    as (h6 & -> & _ & K6).
  eexists. split; [reflexivity |]. auto 10.
Qed.

Lemma heapAlloc_mono h m :
  allocated (fst (heapAlloc h m)) (Some (snd (heapAlloc h m))) /\
  forall q, allocated h q -> allocated (fst (heapAlloc h m)) q.
Proof.
  unfold heapAlloc. simpl. split.
  - rewrite lookup_insert_eq. eauto.
  - intros [l |]; simpl; [| tauto]. intros [m' Hm'].
    destruct (decide (nextCell h = l)) as [-> | Hne].
    + rewrite lookup_insert_eq. eauto.
    + rewrite lookup_insert_ne by done. eauto.
Qed.

Lemma rollingAllocated_mono (h h' : FilterHeap) n :
  (forall q, allocated h q -> allocated h' q) ->
  rollingAllocated h n -> rollingAllocated h' n.
Proof.
  intros Hm (H1 & H2 & H3 & H4 & H5 & H6).
  repeat split; apply Hm; assumption.
Qed.

Lemma newRolling_mono h newItem :
  rollingAllocated (fst (newRolling h newItem)) (snd (newRolling h newItem)) /\
  (forall q, allocated h q -> allocated (fst (newRolling h newItem)) q) /\
  snd (newRolling h newItem)
  = set_rolling newItem (rollingByteRate (snd (newRolling h newItem)))
      (rollingKeyRate (snd (newRolling h newItem)))
      (rollingOps (snd (newRolling h newItem)))
      (rollingOtherByteRate (snd (newRolling h newItem)))
      (rollingOtherKeyRate (snd (newRolling h newItem)))
      (rollingOtherOps (snd (newRolling h newItem))).
Proof.
  unfold newRolling.
  set (m := NewMedianFilter rollingWindowsSize).
  destruct (heapAlloc h m) as [h1 b] eqn:E1.
  destruct (heapAlloc h1 m) as [h2 k] eqn:E2.
  destruct (heapAlloc h2 m) as [h3 o] eqn:E3.
  destruct (heapAlloc h3 m) as [h4 ob] eqn:E4.
  destruct (heapAlloc h4 m) as [h5 ok] eqn:E5.
  destruct (heapAlloc h5 m) as [h6 oo] eqn:E6.
  pose proof (heapAlloc_mono h m) as [A1 M1]. rewrite E1 in A1, M1.
  pose proof (heapAlloc_mono h1 m) as [A2 M2]. rewrite E2 in A2, M2.
  pose proof (heapAlloc_mono h2 m) as [A3 M3]. rewrite E3 in A3, M3.
  pose proof (heapAlloc_mono h3 m) as [A4 M4]. rewrite E4 in A4, M4.
  pose proof (heapAlloc_mono h4 m) as [A5 M5]. rewrite E5 in A5, M5.
  pose proof (heapAlloc_mono h5 m) as [A6 M6]. rewrite E6 in A6, M6.
  cbn [fst snd] in *.
  split; [| split; [auto 10 | reflexivity]].
  unfold rollingAllocated. cbn -[allocated].
  repeat match goal with |- _ /\ _ => split end; auto 10.
Qed.

(** One call of [updateHotPeerStat] for a store that holds a peer. *)
Lemma updateHotPeerStat_step g f newItem oldItem :
  needDelete newItem = false -> HotDegree newItem = 0 ->
  match oldItem with
  | Some old => rollingAllocated (filters f) old
  | None => True
  end ->
  exists f' r, updateHotPeerStat g f newItem oldItem = Ret (f', r) /\
    sameIndex f f' /\
    (forall p, allocated (filters f) p -> allocated (filters f') p) /\
    match nextItem ((fun o => (HotDegree o, AntiCount o)) <$> oldItem)
            (isHot (calcHotThresholds g f (StoreID newItem)) newItem) with
    | Some x =>
        exists n, r = Some n /\ (HotDegree n, AntiCount n, needDelete n) = x /\
          rollingAllocated (filters f') n /\
          StoreID n = StoreID newItem /\ RegionID n = RegionID newItem
    | None => r = None
    end.
Proof.
  intros Hnd Hd Hal. unfold updateHotPeerStat. rewrite Hnd.
  destruct oldItem as [old |]; cbn [fmap option_fmap option_map];
    destruct (isHot _ newItem) eqn:Hhot; cbn [nextItem].
  - match goal with |- context [addRates ?h ?n] =>
      destruct (addRates_mono h n) as (h' & -> & Hm) end; [exact Hal |].
    simpl. do 2 eexists. split; [reflexivity |].
    split; [repeat split |]. split; [exact Hm |].
    eexists. split; [reflexivity |]. simpl. rewrite Hnd.
    split; [reflexivity |]. split; [| split; reflexivity].
    eapply rollingAllocated_mono; [exact Hm | exact Hal].
  - match goal with |- context [addRates ?h ?n] =>
      destruct (addRates_mono h n) as (h' & -> & Hm) end.
    { destruct (_ <=? 0); exact Hal. }
    simpl. do 2 eexists. split; [reflexivity |].
    split; [repeat split |]. split; [exact Hm |].
    eexists. split; [reflexivity |].
    destruct (int_sub (AntiCount old) 1 <=? 0) eqn:Hle; simpl; rewrite ?Hle, ?Hnd;
      (split; [reflexivity |]; split; [| split; reflexivity];
       eapply rollingAllocated_mono; [exact Hm | exact Hal]).
  - pose proof (newRolling_mono (filters f) newItem) as (Hal' & Hm1 & Hshape).
    destruct (newRolling (filters f) newItem) as [h n] eqn:En. cbn [fst snd negb] in *.
    match goal with |- context [addRates ?h ?n] =>
      destruct (addRates_mono h n) as (h' & -> & Hm) end; [exact Hal' |].
    cbn [mbind result_bind]. do 2 eexists. split; [reflexivity |].
    split; [repeat split |]. split; [cbn [filters set_filters]; auto |].
    eexists. split; [reflexivity |].
    split; [| split; [| rewrite Hshape; split; reflexivity]].
    + rewrite Hshape. cbn. rewrite Hd, Hnd. reflexivity.
    + eapply rollingAllocated_mono; [exact Hm |]. exact Hal'.
  - do 2 eexists. split; [reflexivity |]. split; [apply sameIndex_refl |].
    split; [auto | reflexivity].
Qed.


Lemma getOldHotPeerStat_sameIndex f f' r s :
  sameIndex f f' -> getOldHotPeerStat f' r s = getOldHotPeerStat f r s.
Proof. intros (_ & Hp & _). unfold getOldHotPeerStat. rewrite Hp. reflexivity. Qed.

Lemma regionStores_sameIndex f f' r :
  sameIndex f f' -> regionStores f' r = regionStores f r.
Proof. intros (_ & _ & Hs). unfold regionStores. rewrite Hs. reflexivity. Qed.

Lemma firstOldHotPeerStat_None f R l :
  (forall s, s ∈ l -> getOldHotPeerStat f R s = None) ->
  firstOldHotPeerStat f R l = None.
Proof.
  induction l as [| s l IH]; intros Hall; simpl; [reflexivity |].
  rewrite (Hall s) by (apply elem_of_cons; left; reflexivity).
  apply IH. intros x Hx. apply Hall. apply elem_of_cons. right. exact Hx.
Qed.

Lemma isRegionExpired_reportable f region s :
  reportable f region s -> isRegionExpired f region s = false.
Proof.
  intros (p & Hin & Hs & Hl). unfold isRegionExpired.
  destruct (kind f).
  - unfold GetStorePeer.
    destruct (find _ (regPeers region)) eqn:Hf; [reflexivity |].
    apply list_elem_of_In in Hin.
    pose proof (find_none _ _ Hf p Hin) as Hn. simpl in Hn.
    apply Z.eqb_neq in Hn. contradiction.
  - rewrite (Hl eq_refl), Z.eqb_refl. reflexivity.
Qed.

Lemma flowRates_kind f f' region :
  kind f' = kind f -> flowRates f' region = flowRates f region.
Proof.
  intros Hk. unfold flowRates, getTotalBytes, getTotalKeys, getTotalOps,
    getTotalOtherBytes, getTotalOtherKeys, getTotalOtherOps. rewrite Hk. reflexivity.
Qed.

Lemma reportHot_kind g f f' region :
  kind f' = kind f -> reportHot g f' region = reportHot g f region.
Proof.
  intros Hk. unfold reportHot. rewrite (flowRates_kind _ _ _ Hk), Hk. reflexivity.
Qed.

Lemma steadyReport_kind g f f' R T region :
  kind f' = kind f -> steadyReport g f R T region -> steadyReport g f' R T region.
Proof.
  intros Hk (H1 & H2 & H3 & H4). unfold steadyReport, reportedStores in *.
  rewrite Hk. auto.
Qed.

(** [isHot] on the item that [checkStore] builds. *)
Lemma isHot_reportHot thresholds rates (n : HotPeerStat) :
  ByteRate n = at_dim rates byteDim -> KeyRate n = at_dim rates keyDim ->
  Ops n = at_dim rates opsDim -> OtherByteRate n = at_dim rates otherByteDim ->
  OtherKeyRate n = at_dim rates otherKeyDim -> OtherOps n = at_dim rates otherOpsDim ->
  isHot thresholds n
  = existsb (fun k => f64_ge (at_dim rates k) (at_dim thresholds k)) (seq 0 dimLen).
Proof.
  intros H1 H2 H3 H4 H5 H6. unfold isHot, updateWithOtherStats.
  rewrite H1, H2, H3, H4, H5, H6. simpl.
  rewrite orb_false_r, !orb_assoc. reflexivity.
Qed.

(** One round of the loop of [CheckRegionFlow] for a store of [T]. *)
Lemma checkStore_steady g f R T state region now storeIDs st s :
  length (row (gMinHotThresholds g) (kind f)) = dimLen ->
  steadyReport g f R T region -> tracking f R T state ->
  (forall x, x ∈ storeIDs -> x ∈ T) -> s ∈ T ->
  sameIndex f (loopCache st) -> loopTmpItem st = None ->
  (forall p, allocated (filters f) p -> allocated (filters (loopCache st)) p) ->
  exists st',
    checkStore g region now (flowRates f region) (flowInterval region) storeIDs st s = Ret st' /\
    sameIndex f (loopCache st') /\ loopTmpItem st' = None /\
    (forall p, allocated (filters (loopCache st)) p -> allocated (filters (loopCache st')) p) /\
    match nextItem state (reportHot g f region) with
    | Some x =>
        exists n, loopRet st' = loopRet st ++ [n] /\
          (HotDegree n, AntiCount n, needDelete n) = x /\
          rollingAllocated (filters (loopCache st')) n /\
          StoreID n = s /\ RegionID n = R
    | None => loopRet st' = loopRet st
    end.
Proof.
  intros Hlen (HR & HT & Hlead & Hden) (Hsub & Htr) Hids Hs Hidx Htmp Hmono.
  pose proof Hidx as (Hk & _ & _).
  assert (Hrep : reportable (loopCache st) region s).
  { destruct (proj1 (reportedStores_spec f region s)) as (p & Hp1 & Hp2 & Hp3);
      [rewrite HT; exact Hs |].
    exists p. rewrite Hk. auto. }
  assert (Hexp : isRegionExpired (loopCache st) region s = false)
    by (apply isRegionExpired_reportable; exact Hrep).
  assert (Hskip : gDenoising g && (flowInterval region <? hotRegionReportMinInterval) = false).
  { destruct Hden as [-> | Hge]; [reflexivity |].
    apply andb_false_iff. right. apply Z.ltb_ge. exact Hge. }
  assert (Hold : forall x, getOldHotPeerStat (loopCache st) (regID region) x
                           = getOldHotPeerStat f R x).
  { intros x. rewrite HR. apply getOldHotPeerStat_sameIndex. exact Hidx. }
  unfold checkStore. cbv zeta. rewrite Hexp. cbn [negb andb].
  rewrite Hskip, Htmp, Hold.
  match goal with |- context [updateHotPeerStat g (loopCache st) ?ni ?oi] =>
    set (newItem := ni); set (oldItem := oi) end.
  assert (Hstate : (fun o => (HotDegree o, AntiCount o)) <$> oldItem = state /\
            match oldItem with
            | Some old => rollingAllocated (filters (loopCache st)) old
            | None => True
            end).
  { subst oldItem. pose proof (Htr s Hs) as Hts. destruct state as [[d a] |].
    - destruct Hts as (stat & -> & <- & <- & Hal). split; [reflexivity |].
      eapply rollingAllocated_mono; [exact Hmono | exact Hal].
    - rewrite Hts. rewrite firstOldHotPeerStat_None; [split; [reflexivity | exact I] |].
      intros x Hx. rewrite Hold. exact (Htr x (Hids x Hx)). }
  destruct Hstate as [Hstate Hal].
  assert (Hhot : isHot (calcHotThresholds g (loopCache st) (StoreID newItem)) newItem
                 = reportHot g f region).
  { rewrite calcHotThresholds_row by (rewrite Hk; exact Hlen).
    rewrite Hk. apply isHot_reportHot; reflexivity. }
  destruct (updateHotPeerStat_step g (loopCache st) newItem oldItem eq_refl eq_refl Hal)
    as (f' & r & Hu & Hidx' & Hmono' & Hres).
  rewrite Hu. cbn [mbind result_bind]. eexists. split; [reflexivity |].
  cbn [loopCache loopTmpItem loopRet].
  split; [eapply sameIndex_trans; eassumption |].
  split; [destruct (getOldHotPeerStat f R s); reflexivity |].
  split; [exact Hmono' |].
  rewrite Hstate, Hhot in Hres.
  destruct (nextItem state (reportHot g f region)) as [x |].
  - destruct Hres as (n & -> & Hx & Hal' & Hsid & Hrid).
    exists n. split; [reflexivity |]. split; [exact Hx |]. split; [exact Hal' |].
    split; [exact Hsid |]. rewrite Hrid. exact HR.
  - rewrite Hres. reflexivity.
Qed.


(** The loop of [CheckRegionFlow] over stores of [T]. *)
Lemma foldM_checkStore_steady g f R T state region now storeIDs :
  length (row (gMinHotThresholds g) (kind f)) = dimLen ->
  steadyReport g f R T region -> tracking f R T state ->
  (forall x, x ∈ storeIDs -> x ∈ T) ->
  forall l st,
    (forall x, x ∈ l -> x ∈ T) ->
    sameIndex f (loopCache st) -> loopTmpItem st = None ->
    (forall p, allocated (filters f) p -> allocated (filters (loopCache st)) p) ->
    exists st',
      foldM (checkStore g region now (flowRates f region) (flowInterval region) storeIDs) l st
      = Ret st' /\
      sameIndex f (loopCache st') /\
      (forall p, allocated (filters (loopCache st)) p -> allocated (filters (loopCache st')) p) /\
      match nextItem state (reportHot g f region) with
      | Some x =>
          exists new, loopRet st' = loopRet st ++ new /\ map StoreID new = l /\
            Forall (fun n => (HotDegree n, AntiCount n, needDelete n) = x /\
                             RegionID n = R /\
                             rollingAllocated (filters (loopCache st')) n) new
      | None => loopRet st' = loopRet st
      end.
Proof.
  intros Hlen Hst Htr Hids l.
  induction l as [| s l IH]; intros st Hl Hidx Htmp Hmono.
  - exists st. split; [reflexivity |]. split; [exact Hidx |]. split; [auto |].
    destruct (nextItem _ _); [| reflexivity].
    exists []. rewrite app_nil_r. auto.
  - assert (Hs : s ∈ T) by (apply Hl, elem_of_cons; left; reflexivity).
    destruct (checkStore_steady g f R T state region now storeIDs st s
                Hlen Hst Htr Hids Hs Hidx Htmp Hmono)
      as (st1 & H1 & Hidx1 & Htmp1 & Hmono1 & Hres1).
    destruct (IH st1) as (st' & H2 & Hidx2 & Hmono2 & Hres2);
      [intros x Hx; apply Hl, elem_of_cons; right; exact Hx | exact Hidx1 | exact Htmp1
      | auto |].
    exists st'. simpl. rewrite H1. cbn [mbind result_bind].
    split; [exact H2 |]. split; [exact Hidx2 |]. split; [auto |].
    destruct (nextItem state (reportHot g f region)) as [x |].
    + destruct Hres1 as (n & Hr1 & Hx & Hal & Hsid & Hrid).
      destruct Hres2 as (new & Hr2 & Hmap & Hall).
      exists (n :: new). split; [rewrite Hr2, Hr1, <- app_assoc; reflexivity |].
      split; [simpl; rewrite Hsid, Hmap; reflexivity |].
      constructor; [| exact Hall].
      split; [exact Hx |]. split; [exact Hrid |].
      eapply rollingAllocated_mono; [exact Hmono2 | exact Hal].
    + rewrite Hres2. exact Hres1.
Qed.

Lemma fold_Update_filters items : forall f,
  filters (fold_left Update items f) = filters f /\
  kind (fold_left Update items f) = kind f.
Proof.
  induction items as [| m items IH]; intros f; simpl; [auto |].
  destruct (IH (Update f m)) as [-> ->].
  unfold Update. destruct (IsNeedDelete m); auto.
Qed.


Lemma filter_store_none (items : list HotPeerStat) s :
  s ∉ map StoreID items -> List.filter (fun n => StoreID n =? s) items = [].
Proof.
  induction items as [| m items IH]; intros Hs; simpl; [reflexivity |].
  destruct (StoreID m =? s) eqn:E.
  - exfalso. apply Hs. apply Z.eqb_eq in E. simpl. rewrite E.
    apply elem_of_cons. left. reflexivity.
  - apply IH. intros Hin. apply Hs. simpl. apply elem_of_cons. right. exact Hin.
Qed.

Lemma filter_store_unique (items : list HotPeerStat) s (x : Z * Z * bool) :
  NoDup (map StoreID items) -> s ∈ map StoreID items ->
  Forall (fun n => (HotDegree n, AntiCount n, needDelete n) = x) items ->
  map (fun n => (HotDegree n, AntiCount n, needDelete n))
      (List.filter (fun n => StoreID n =? s) items) = [x].
Proof.
  induction items as [| m items IH]; intros Hnd Hs Hall; simpl in *.
  - inversion Hs.
  - apply NoDup_cons in Hnd as [Hm Hnd]. apply Forall_cons in Hall as [Hx Hall].
    destruct (StoreID m =? s) eqn:E.
    + apply Z.eqb_eq in E. subst s. rewrite filter_store_none by exact Hm.
      simpl. rewrite Hx. reflexivity.
    + apply Z.eqb_neq in E. apply elem_of_cons in Hs as [Hs | Hs]; [congruence |].
      apply IH; assumption.
Qed.

Lemma nextItem_None state hot : nextItem state hot = None -> state = None /\ hot = false.
Proof. destruct state as [[d a] |], hot; simpl; intros; try discriminate; auto. Qed.

(** One report of a region for the stores [T], applied with [Update]. *)
Lemma observeRegion_steady g f R T state region now :
  length (row (gMinHotThresholds g) (kind f)) = dimLen ->
  steadyReport g f R T region -> tracking f R T state ->
  exists f' items,
    observeRegion g f region now = Ret (f', items) /\ kind f' = kind f /\
    tracking f' R T (nextState state (reportHot g f region)) /\
    forall s, s ∈ T ->
      map (fun n => (HotDegree n, AntiCount n, needDelete n))
          (List.filter (fun n => StoreID n =? s) items)
      = match nextItem state (reportHot g f region) with
        | Some x => [x]
        | None => []
        end.
Proof.
  intros Hlen Hst Htr.
  pose proof Hst as (HR & HT & _ & _). pose proof Htr as (Hsub & Hstat).
  pose proof (getAllStoreIDs_spec f region) as (Hnd & _ & Hmem).
  cbv zeta in Hmem. fold (regionStores f (regID region)) in Hmem. rewrite HR in Hmem.
  assert (Hids : forall x, x ∈ getAllStoreIDs f region <-> x ∈ T).
  { intros x. rewrite Hmem, <- HT, reportedStores_spec. split; [| auto].
    intros [Hx | Hx]; [| exact Hx]. apply reportedStores_spec. rewrite HT. auto. }
  destruct (foldM_checkStore_steady g f R T state region now (getAllStoreIDs f region)
              Hlen Hst Htr (fun x => proj1 (Hids x))
              (getAllStoreIDs f region) (mkLoop f None [])
              (fun x => proj1 (Hids x)) (sameIndex_refl f) eq_refl (fun p Hp => Hp))
    as (st' & Hfold & Hidx & Hmono & Hres).
  assert (Hflow : CheckRegionFlow g f region now = Ret (loopCache st', loopRet st')).
  { change (CheckRegionFlow g f region now)
      with (st ← foldM (checkStore g region now (flowRates f region) (flowInterval region)
                          (getAllStoreIDs f region))
                       (getAllStoreIDs f region) (mkLoop f None []);
            Ret (loopCache st, loopRet st)).
    rewrite Hfold. reflexivity. }
  unfold observeRegion. rewrite Hflow. cbn [mbind result_bind].
  do 2 eexists. split; [reflexivity |].
  destruct (fold_Update_filters (loopRet st') (loopCache st')) as [Hfil Hkind].
  split; [rewrite Hkind; apply Hidx |].
  unfold nextState.
  destruct (nextItem state (reportHot g f region)) as [[[d a] del] |] eqn:Hnext.
  - destruct Hres as (new & Hret & Hmap & Hall). simpl in Hret. subst new.
    assert (Hndi : NoDup (map StoreID (loopRet st'))) by (rewrite Hmap; exact Hnd).
    split; [split |].
    + intros s Hs. destruct (decide (s ∈ getAllStoreIDs f region)) as [Hin | Hout].
      * apply Hids. exact Hin.
      * apply Hsub. rewrite <- (regionStores_sameIndex f (loopCache st') R Hidx).
        apply (fold_Update_other (loopRet st') (loopCache st') R s); [| exact Hs].
        apply Forall_forall. intros m Hm Heq. apply Hout. rewrite <- Hmap, <- Heq.
        apply list_elem_of_fmap. exists m. auto.
    + intros s Hs. apply Hids in Hs. rewrite <- Hmap in Hs.
      apply list_elem_of_fmap in Hs as (n & -> & Hn).
      pose proof (proj1 (Forall_forall _ _) Hall n Hn) as (Hx & Hrid & Hal).
      destruct (fold_Update_applied (loopRet st') (loopCache st') n Hndi Hn) as [Hget _].
      rewrite Hrid in Hget. injection Hx as Hd Ha Hdel. rewrite Hdel in Hget.
      destruct del; [exact Hget |].
      exists n. split; [exact Hget |]. split; [exact Hd |]. split; [exact Ha |].
      rewrite Hfil. exact Hal.
    + intros s Hs. apply filter_store_unique; [exact Hndi | |].
      * rewrite Hmap. apply Hids. exact Hs.
      * eapply Forall_impl; [exact Hall |]. intros n (Hx & _). exact Hx.
  - simpl in Hres. rewrite Hres. simpl.
    apply nextItem_None in Hnext as [-> _].
    split; [split |].
    + rewrite (regionStores_sameIndex f (loopCache st') R Hidx). exact Hsub.
    + intros s Hs. rewrite (getOldHotPeerStat_sameIndex f (loopCache st') R s Hidx).
      exact (Hstat s Hs).
    + reflexivity.
Qed.


Lemma isRegionHotWithPeer_get f region p d :
  isRegionHotWithPeer f region (Some p) d
  = match getOldHotPeerStat f (regID region) (peerStoreId p) with
    | Some stat => d <=? HotDegree stat
    | None => false
    end.
Proof.
  unfold isRegionHotWithPeer, getOldHotPeerStat.
  destruct (peersOfStore f !! peerStoreId p); reflexivity.
Qed.

Lemma existsb_const {A : Type} (h : A -> bool) (b : bool) (l : list A) :
  l <> [] -> (forall x, x ∈ l -> h x = b) -> existsb h l = b.
Proof.
  induction l as [| x l IH]; intros Hne Hall; [contradiction |].
  simpl. rewrite (Hall x) by (apply elem_of_cons; left; reflexivity).
  destruct l as [| y l]; [simpl; apply orb_false_r |].
  rewrite IH; [apply orb_diag | discriminate |].
  intros z Hz. apply Hall. apply elem_of_cons. right. exact Hz.
Qed.

(** [IsRegionHot] reads the hot degree the stores of [T] share. *)
Lemma IsRegionHot_tracking g f R T state region s d :
  steadyReport g f R T region -> tracking f R T state -> s ∈ T ->
  IsRegionHot f region d
  = match state with
    | Some (deg, _) => d <=? deg
    | None => false
    end.
Proof.
  intros (HR & HT & Hlead & _) (_ & Hstat) Hs.
  assert (Hpeer : forall p, peerStoreId p ∈ T ->
            isRegionHotWithPeer f region (Some p) d
            = match state with Some (deg, _) => d <=? deg | None => false end).
  { intros p Hp. rewrite isRegionHotWithPeer_get, HR. specialize (Hstat _ Hp).
    destruct state as [[deg a] |].
    - destruct Hstat as (stat & -> & <- & _). reflexivity.
    - rewrite Hstat. reflexivity. }
  pose proof Hs as Hrep. rewrite <- HT in Hrep. apply reportedStores_spec in Hrep.
  destruct Hrep as (p0 & Hin0 & Hs0 & Hl0).
  unfold IsRegionHot. destruct (kind f) eqn:Hk.
  - unfold isRegionHotWithAnyPeers. apply existsb_const.
    + intros Hnil. rewrite Hnil in Hin0. inversion Hin0.
    + intros p Hp. apply Hpeer. rewrite <- HT. apply reportedStores_spec.
      exists p. split; [exact Hp |]. split; [reflexivity |]. rewrite Hk. discriminate.
  - destruct (Hlead eq_refl) as [p Hp]. rewrite Hp. apply Hpeer.
    specialize (Hl0 eq_refl). unfold leaderStoreId in Hl0. rewrite Hp in Hl0.
    rewrite <- Hl0. exact Hs.
Qed.

(** A run of reports for the stores [T], seen from one of them. *)
Lemma observeStore_steady g R T s :
  s ∈ T ->
  forall reports f state,
    length (row (gMinHotThresholds g) (kind f)) = dimLen ->
    tracking f R T state ->
    Forall (fun rt => steadyReport g f R T (fst rt)) reports ->
    observeStore g f s reports
    = Ret (trajectory state (map (fun rt => reportHot g f (fst rt)) reports)).
Proof.
  intros Hs reports.
  induction reports as [| [region now] reports IH]; intros f state Hlen Htr Hall.
  - reflexivity.
  - apply Forall_cons in Hall as [Hst Hall]. cbn [fst] in Hst.
    destruct (observeRegion_steady g f R T state region now Hlen Hst Htr)
      as (f' & items & Hobs & Hk & Htr' & Hitems).
    cbn [observeStore]. rewrite Hobs. cbn [mbind result_bind].
    rewrite (IH f' (nextState state (reportHot g f region))); cycle 1.
    + rewrite Hk. exact Hlen.
    + exact Htr'.
    + eapply Forall_impl; [exact Hall |]. intros rt. apply steadyReport_kind. exact Hk.
    + cbn [mbind result_bind map trajectory fst]. f_equal. f_equal.
      * f_equal.
        -- exact (Hitems s Hs).
        -- pose proof Hst as (HR & _). rewrite HR.
           destruct Htr' as (_ & Hstat'). specialize (Hstat' s Hs).
           destruct (nextState state (reportHot g f region)) as [[d a] |].
           ++ destruct Hstat' as (stat & -> & <- & _). reflexivity.
           ++ rewrite Hstat'. reflexivity.
        -- apply (IsRegionHot_tracking g f' R T _ region s 1);
             [apply (steadyReport_kind g f f'); assumption | exact Htr' | exact Hs].
      * f_equal. apply map_ext_in. intros rt _. apply reportHot_kind. exact Hk.
Qed.


(** C3, as the code has it: a region is reported six times for the stores
    [T]; the cache holds no stat of it on these stores and lists no other
    store for it, and no report is skipped by denoising.  The first three
    reports are hot (some rate meets its threshold), the last three cold
    (no rate does).  Seen from a store of [T], the hot degree runs
    0, 1, 2, 1, 0; the second cold report brings [AntiCount] to 0, flags
    the item [needDelete] and removes the stat from the store's top-N; the
    third cold report yields no item.  [IsRegionHot] at threshold 1 is
    false after the first hot report, true after the second and third hot
    and the first cold report, and false from the second cold report
    on. *)
Theorem hot_peer_hysteresis g f0 R T s hots colds :
  length (row (gMinHotThresholds g) (kind f0)) = dimLen ->
  s ∈ T ->
  regionStores f0 R ⊆ T ->
  (forall s', s' ∈ T -> getOldHotPeerStat f0 R s' = None) ->
  length hots = 3%nat -> length colds = 3%nat ->
  Forall (fun rt => steadyReport g f0 R T (fst rt) /\ reportHot g f0 (fst rt) = true) hots ->
  Forall (fun rt => steadyReport g f0 R T (fst rt) /\ reportHot g f0 (fst rt) = false) colds ->
  observeStore g f0 s (hots ++ colds)
  = Ret [ mkObs [(0, 2, false)] (Some 0) false;
          mkObs [(1, 2, false)] (Some 1) true;
          mkObs [(2, 2, false)] (Some 2) true;
          mkObs [(1, 1, false)] (Some 1) true;
          mkObs [(0, 0, true)] None false;
          mkObs [] None false ].
Proof.
  intros Hlen Hs Hsub Hnone Hlh Hlc Hhots Hcolds.
  rewrite (observeStore_steady g R T s Hs (hots ++ colds) f0 None Hlen).
  - rewrite map_app.
    assert (Hh : map (fun rt => reportHot g f0 (fst rt)) hots = [true; true; true]).
    { destruct hots as [| h1 [| h2 [| h3 [| h4 hots]]]]; try discriminate Hlh.
      apply Forall_cons in Hhots as [[_ H1] Hhots].
      apply Forall_cons in Hhots as [[_ H2] Hhots].
      apply Forall_cons in Hhots as [[_ H3] _].
      cbn [map]. rewrite H1, H2, H3. reflexivity. }
    assert (Hc : map (fun rt => reportHot g f0 (fst rt)) colds = [false; false; false]).
    { destruct colds as [| c1 [| c2 [| c3 [| c4 colds]]]]; try discriminate Hlc.
      apply Forall_cons in Hcolds as [[_ H1] Hcolds].
      apply Forall_cons in Hcolds as [[_ H2] Hcolds].
      apply Forall_cons in Hcolds as [[_ H3] _].
      cbn [map]. rewrite H1, H2, H3. reflexivity. }
    rewrite Hh, Hc. reflexivity.
  - split; assumption.
  - apply Forall_app. split.
    + eapply Forall_impl; [exact Hhots |]. intros rt [H _]. exact H.
    + eapply Forall_impl; [exact Hcolds |]. intros rt [H _]. exact H.
Qed.

End Cache.

(** *** The loads of a stat *)

Lemma SFcompare_Lt_swap x y : SFcompare x y = Some Lt -> SFcompare y x = Some Gt.
Proof.
  destruct x as [sx | sx | | sx mx ex], y as [sy | sy | | sy my ey]; simpl;
    try discriminate.
  all: try (destruct sx; simpl; intros H; try discriminate H; reflexivity).
  all: try (destruct sy; simpl; intros H; try discriminate H; reflexivity).
  - destruct sx, sy; simpl; intros H; try discriminate H; reflexivity.
  - destruct sx, sy; try discriminate; try reflexivity;
      rewrite (Z.compare_antisym ex ey); destruct (ex ?= ey) eqn:He; simpl;
      try discriminate; try reflexivity;
      change (Pos.compare_cont Eq my mx) with (Pos.compare my mx);
      change (Pos.compare_cont Eq mx my) with (Pos.compare mx my);
      rewrite (Pos.compare_antisym mx my);
      destruct (Pos.compare mx my); simpl; try discriminate; reflexivity.
Qed.

Lemma f64_lt_asym a b : f64_lt a b = true -> f64_lt b a = false.
Proof.
  unfold f64_lt. rewrite !ltb_spec. unfold SFltb.
  destruct (SFcompare (Prim2SF a) (Prim2SF b)) as [[] |] eqn:Hc; try discriminate.
  intros _. rewrite (SFcompare_Lt_swap _ _ Hc). reflexivity.
Qed.

Lemma f64_lt_irrefl a : f64_lt a a = false.
Proof.
  destruct (f64_lt a a) eqn:H; [| reflexivity].
  pose proof (f64_lt_asym _ _ H). congruence.
Qed.

Section Loads.

Context {avg : MovingAvgQueries}.

(** X10: [Less] is a strict order in every dimension: no stat is below
    itself, and of two stats at most one is below the other. *)
Theorem Less_strict h a b k :
  (forall r, Less h a k a = Ret r -> r = false) /\
  (Less h a k b = Ret true -> Less h b k a = Ret false).
Proof.
  unfold Less. split.
  - intros r.
    destruct (k =? Z.of_nat keyDim); [| destruct (k =? Z.of_nat byteDim)];
      match goal with |- context [?get h a ≫= _] =>
        destruct (get h a) as [x |]; simpl; [| discriminate] end;
      intros [= <-]; apply f64_lt_irrefl.
  - destruct (k =? Z.of_nat keyDim); [| destruct (k =? Z.of_nat byteDim)];
      match goal with |- context [?get h a ≫= _] =>
        destruct (get h a) as [x |]; simpl; [| discriminate];
        destruct (get h b) as [y |]; simpl; [| discriminate] end;
      intros [= H]; rewrite (f64_lt_asym _ _ H); reflexivity.
Qed.

Lemma denoised_None h raw : denoised h None raw = Ret raw.
Proof. reflexivity. Qed.

(** X11: a clone carries no filter, and its loads are the loads the
    original had when it was cloned, whatever is added to the filters
    afterwards. *)
Theorem Clone_loads h stat c :
  Clone h stat = Ret c ->
  rollingByteRate c = None /\ rollingKeyRate c = None /\ rollingOps c = None /\
  rollingOtherByteRate c = None /\ rollingOtherKeyRate c = None /\
  rollingOtherOps c = None /\
  forall h', GetLoads h' c = GetLoads h stat /\ Clone h' c = Ret c.
Proof.
  unfold Clone. intros Hc.
  destruct (GetByteRate h stat) as [b |] eqn:Hb; simpl in Hc; [| discriminate].
  destruct (GetKeyRate h stat) as [k |] eqn:Hk; simpl in Hc; [| discriminate].
  destruct (GetOps h stat) as [o |] eqn:Ho; simpl in Hc; [| discriminate].
  destruct (GetOtherByteRate h stat) as [ob |] eqn:Hob; simpl in Hc; [| discriminate].
  destruct (GetOtherKeyRate h stat) as [ok |] eqn:Hok; simpl in Hc; [| discriminate].
  destruct (GetOtherOps h stat) as [oo |] eqn:Hoo; simpl in Hc; [| discriminate].
  injection Hc as <-. simpl.
  repeat (split; [reflexivity |]).
  intros h'. unfold GetLoads. rewrite Hb, Hk, Ho, Hob, Hok, Hoo. simpl.
  split; [destruct (Kind stat); reflexivity | reflexivity].
Qed.

End Loads.

#[local] Existing Instance topNMinExample.

(** The scenario: region 100 on store 1, three hot and three cold reports
    of ten seconds each, with denoising on. *)
Lemma hot_peer_hysteresis_witness :
  observeStore (mkGlobals minHotThresholds true) (NewHotStoresStats WriteFlow) 1
    ([(hotReport, 10); (hotReport, 20); (hotReport, 30)]
     ++ [(coldReport, 40); (coldReport, 50); (coldReport, 60)])
  = Ret [ mkObs [(0, 2, false)] (Some 0) false;
          mkObs [(1, 2, false)] (Some 1) true;
          mkObs [(2, 2, false)] (Some 2) true;
          mkObs [(1, 1, false)] (Some 1) true;
          mkObs [(0, 0, true)] None false;
          mkObs [] None false ].
Proof.
  assert (Hsteady : forall bytes,
            steadyReport (mkGlobals minHotThresholds true) (NewHotStoresStats WriteFlow)
              100 {[1]} (scenarioRegion bytes)).
  { intros bytes. split; [reflexivity |]. split; [vm_compute; reflexivity |].
    split; [discriminate |]. right. vm_compute. discriminate. }
  apply (hot_peer_hysteresis (mkGlobals minHotThresholds true)
           (NewHotStoresStats WriteFlow) 100 {[1]} 1
           [(hotReport, 10); (hotReport, 20); (hotReport, 30)]
           [(coldReport, 40); (coldReport, 50); (coldReport, 60)]).
  - reflexivity.
  - apply elem_of_singleton. reflexivity.
  - intros x Hx. unfold regionStores in Hx. simpl in Hx. rewrite lookup_empty in Hx.
    simpl in Hx. apply elem_of_empty in Hx. contradiction.
  - intros s' _. unfold getOldHotPeerStat. simpl. rewrite lookup_empty. reflexivity.
  - reflexivity.
  - reflexivity.
  - repeat (apply Forall_cons; split; [split; [apply Hsteady | vm_compute; reflexivity] |]).
    apply List.Forall_nil.
  - repeat (apply Forall_cons; split; [split; [apply Hsteady | vm_compute; reflexivity] |]).
    apply List.Forall_nil.
Defined.

(** The hot degrees 1, 2, 3, 2, 1, 0 are not what the six reports give. *)
Lemma hot_peer_trajectory_differs :
  ~ (exists obs,
       observeAll (mkGlobals minHotThresholds true)
         (NewHotStoresStats WriteFlow) scenarioReports = Ret obs /\
       map (fun o => map (fun i => fst (fst i)) (obsItems o)) obs
       = [[1]; [2]; [3]; [2]; [1]; [0]]).
Proof.
  intros (obs & Hrun & Htraj).
  vm_compute in Hrun. injection Hrun as <-. discriminate Htraj.
Qed.

(** A cached stat of hot degree 3 and a hot new item give hot degree 4. *)
Lemma updateHotPeerStat_with_old_example :
  exists f' n,
    updateHotPeerStat (mkGlobals minHotThresholds true)
      cacheExample newItemExample (Some cachedExample) = Ret (f', Some n) /\
    HotDegree n = 4 /\ AntiCount n = 2.
Proof.
  destruct (updateHotPeerStat_with_old (mkGlobals minHotThresholds true)
              cacheExample newItemExample cachedExample eq_refl) as [Hret Hex].
  destruct Hex as (f' & n & Hu).
  { unfold rollingAllocated, allocated. simpl. repeat split; vm_compute; eauto. }
  exists f', n. split; [exact Hu |].
  destruct (Hret f' (Some n) Hu) as (n' & Hn & Hhot & _).
  injection Hn as <-.
  destruct Hhot as [Hd Ha].
  { exists 0%nat. split; [unfold dimLen; lia | vm_compute; reflexivity]. }
  split; [rewrite Hd; reflexivity | exact Ha].
Defined.


#[local] Existing Instance movingAvgExample.

Lemma calcHotThresholds_floor_witness :
  calcHotThresholds (mkGlobals minHotThresholds true) cacheExample 1
  = [256; 16; 16; 256; 16; 16]%float.
Proof.
  refine (calcHotThresholds_floor (mkGlobals minHotThresholds true) cacheExample 1 _).
  vm_compute. reflexivity.
Defined.

(** An item of 1000 bytes a second for a store of an empty cache. *)
Lemma updateHotPeerStat_first_seen_witness :
  exists f' n,
    updateHotPeerStat (mkGlobals minHotThresholds true) (NewHotStoresStats WriteFlow)
      newItemExample None = Ret (f', Some n) /\
    Statistics.isNew n = true /\ AntiCount n = hotRegionAntiCount /\
    holdsOnly (filters f') (rollingByteRate n) 1000%float.
Proof.
  destruct (updateHotPeerStat_first_seen (mkGlobals minHotThresholds true)
              (NewHotStoresStats WriteFlow) newItemExample eq_refl) as [_ Hhot].
  destruct Hhot as (f' & n & Hu & Hn & Ha & _ & _ & _ & _ & _ & _ & _ & Hb & _).
  - apply isHot_meets. vm_compute. reflexivity.
  - exists f', n. auto.
Defined.

(** The first hot report for an empty write cache. *)
Lemma CheckRegionFlow_items_witness :
  exists f' items,
    CheckRegionFlow (mkGlobals minHotThresholds true) (NewHotStoresStats WriteFlow)
      hotReport 0 = Ret (f', items) /\
    NoDup (map StoreID items) /\ sameIndex (NewHotStoresStats WriteFlow) f'.
Proof.
  assert (E : exists f' items,
            CheckRegionFlow (mkGlobals minHotThresholds true) (NewHotStoresStats WriteFlow)
              hotReport 0 = Ret (f', items)) by (vm_compute; do 2 eexists; reflexivity).
  destruct E as (f' & items & E). exists f', items. split; [exact E |].
  destruct (CheckRegionFlow_items _ _ _ _ _ _ E) as (_ & _ & Hnd & Hidx). auto.
Defined.

(** A report over one second, with [Denoising] on. *)
Lemma CheckRegionFlow_denoised_witness :
  CheckRegionFlow (mkGlobals minHotThresholds true) cacheExample briefReport 0
  = Ret (cacheExample, []).
Proof.
  refine (CheckRegionFlow_denoised (mkGlobals minHotThresholds true) cacheExample
            briefReport 0 _ _ _).
  - reflexivity.
  - vm_compute. reflexivity.
  - assert (E : getAllStoreIDs cacheExample briefReport = [1]) by (vm_compute; reflexivity).
    intros s Hs. rewrite E in Hs. apply list_elem_of_singleton in Hs as ->.
    vm_compute. reflexivity.
Defined.

(** The first hot report: the item for store 1 is filed. *)
Lemma CheckRegionFlow_Update_applied_witness :
  exists f1 n,
    CheckRegionFlow (mkGlobals minHotThresholds true) (NewHotStoresStats WriteFlow)
      hotReport 0 = Ret (f1, [n]) /\
    getOldHotPeerStat (fold_left Update [n] f1) (regID hotReport) (StoreID n)
    = (if needDelete n then None else Some n).
Proof.
  assert (E : exists f1 n,
            CheckRegionFlow (mkGlobals minHotThresholds true) (NewHotStoresStats WriteFlow)
              hotReport 0 = Ret (f1, [n])) by (vm_compute; do 2 eexists; reflexivity).
  destruct E as (f1 & n & E). exists f1, n. split; [exact E |].
  apply (CheckRegionFlow_Update_applied _ _ _ _ _ _ n E). left.
Defined.

(** The peer of region 100 moved from store 1 to store 2. *)
Lemma moved_peer_evicted_witness :
  exists f1 items,
    CheckRegionFlow (mkGlobals minHotThresholds true) cacheExample movedReport 0
    = Ret (f1, items) /\
    getOldHotPeerStat (fold_left Update items f1) (regID movedReport) 1 = None /\
    1 ∉ regionStores (fold_left Update items f1) (regID movedReport).
Proof.
  assert (E : exists f1 items,
            CheckRegionFlow (mkGlobals minHotThresholds true) cacheExample movedReport 0
            = Ret (f1, items)) by (vm_compute; do 2 eexists; reflexivity).
  destruct E as (f1 & items & E). exists f1, items. split; [exact E |].
  apply (moved_peer_evicted _ _ _ _ _ _ 1 E).
  - assert (L : getAllStoreIDs cacheExample movedReport = [1; 2]) by (vm_compute; reflexivity).
    rewrite L. left.
  - vm_compute. reflexivity.
Defined.

(** The cached stat of the example, cloned. *)
Lemma Clone_loads_witness :
  exists c, Clone (filters cacheExample) cachedExample = Ret c /\
    rollingByteRate c = None /\
    GetLoads (mkHeap ∅ 1%positive) c = GetLoads (filters cacheExample) cachedExample.
Proof.
  assert (E : exists c, Clone (filters cacheExample) cachedExample = Ret c)
    by (vm_compute; eexists; reflexivity).
  destruct E as (c & E). exists c. split; [exact E |].
  destruct (Clone_loads _ _ _ E) as (Hb & _ & _ & _ & _ & _ & Hl).
  split; [exact Hb |]. apply Hl.
Defined.

End StatisticsTheory.

(** * Properties of the operator controller *)

Module ScheduleTheory.

Import Schedule.

Section Controller.

Context `{Externals}.

Arguments SendScheduleCommand : simpl never.

Lemma ext_refl c : ext c c.
Proof. intros p op Hp. eauto. Qed.

Lemma ext_same_objs c c' : objs c' = objs c -> ext c c'.
Proof. intros He p op Hp. rewrite He. eauto. Qed.

Lemma ext_trans c1 c2 c3 : ext c1 c2 -> ext c2 c3 -> ext c1 c3.
Proof.
  intros H12 H23 p op Hp.
  destruct (H12 _ _ Hp) as (op2 & Hp2 & Hi2).
  destruct (H23 _ _ Hp2) as (op3 & Hp3 & Hi3).
  exists op3. split; [exact Hp3 | congruence].
Qed.

Lemma ext_valid c c' p : ext c c' -> valid c p -> valid c' p.
Proof. intros He [op Hp]. destruct (He _ _ Hp) as (op' & Hp' & _). exists op'. exact Hp'. Qed.

Lemma quiet_refl c : quiet c c.
Proof. split; auto using ext_refl. Qed.

Lemma quiet_trans c1 c2 c3 : quiet c1 c2 -> quiet c2 c3 -> quiet c1 c3.
Proof.
  intros [] []. split; try congruence. eapply ext_trans; eassumption.
Qed.

Lemma ext_RegionID c c' p op op' :
  ext c c' -> objs c !! p = Some op -> objs c' !! p = Some op' -> RegionID op' = RegionID op.
Proof.
  intros He Hp Hp'. destruct (He _ _ Hp) as (op2 & Hp2 & Hi).
  unfold RegionID. congruence.
Qed.

Lemma WF_quiet c c' : quiet c c' -> WF c -> WF c'.
Proof.
  intros [He Ho Hw Hq _ _ _] [Ht Hqu Hwa]. split.
  - intros r p Hr. rewrite Ho in Hr. destruct (Ht _ _ Hr) as (op & Hp & Hid).
    destruct (He _ _ Hp) as (op' & Hp' & Hi). exists op'. split; [exact Hp' |].
    unfold RegionID in *. congruence.
  - intros x Hx. rewrite Hq in Hx. eapply ext_valid; eauto.
  - intros p Hp. rewrite Hw in Hp. eapply ext_valid; eauto.
Qed.

Lemma deref_Ret c p op : deref c p = Ret op <-> objs c !! p = Some op.
Proof. unfold deref. destruct (objs c !! p); split; congruence. Qed.

Lemma deref_valid c p : valid c p -> exists op, deref c p = Ret op.
Proof. intros [op Hp]. exists op. apply deref_Ret. exact Hp. Qed.

Lemma store_quiet c p op op' :
  objs c !! p = Some op -> opInfo op' = opInfo op -> quiet c (store c p op').
Proof.
  intros Hp Hi. split; try reflexivity.
  intros q oq Hq. simpl. destruct (decide (p = q)) as [-> | Hne].
  - rewrite lookup_insert_eq. exists op'. split; [reflexivity | congruence].
  - rewrite lookup_insert_ne by done. eauto.
Qed.

Lemma logError_quiet c msg : quiet c (logError c msg).
Proof. split; try reflexivity. apply ext_same_objs. reflexivity. Qed.

Lemma transit_info op dst now : opInfo (fst (transit op dst now)) = opInfo op.
Proof. unfold transit. destruct (validTrans _ _); reflexivity. Qed.

Lemma CheckExpired_info op now : opInfo (fst (CheckExpired op now)) = opInfo op.
Proof.
  unfold CheckExpired. destruct (Status op); try reflexivity.
  destruct (expiredAt op now); [apply transit_info | reflexivity].
Qed.

Lemma opTransit_quiet c p dst now c' ok :
  opTransit c p dst now = Ret (c', ok) -> quiet c c'.
Proof.
  unfold opTransit. intros Hr. bind_inv Hr. apply deref_Ret in Hstep.
  pose proof (transit_info a dst now) as Hi.
  destruct (transit a dst now) as [op' b]. injection Hr as <- <-.
  destruct b; [| apply quiet_refl]. eapply store_quiet; eauto.
Qed.

Lemma opTransit_total c p dst now :
  valid c p -> exists c' ok, opTransit c p dst now = Ret (c', ok).
Proof.
  intros Hv. destruct (deref_valid _ _ Hv) as [op Hd]. unfold opTransit.
  rewrite Hd. simpl. destruct (transit op dst now). eauto.
Qed.

Lemma opCheckExpired_quiet c p now c' e :
  opCheckExpired c p now = Ret (c', e) -> quiet c c'.
Proof.
  unfold opCheckExpired. intros Hr. bind_inv Hr. apply deref_Ret in Hstep.
  pose proof (CheckExpired_info a now) as Hi.
  destruct (CheckExpired a now) as [op' b]. injection Hr as <- <-.
  eapply store_quiet; eauto.
Qed.

Lemma opCheck_quiet c p region now c' step :
  opCheck c p region now = Ret (c', step) -> quiet c c'.
Proof.
  unfold opCheck. intros Hr. bind_inv Hr. apply deref_Ret in Hstep.
  destruct (Check a region now) as [st s]. injection Hr as <- <-.
  eapply store_quiet; eauto.
Qed.

Lemma quiet_of_eqs c c' :
  objs c' = objs c -> operators c' = operators c -> wop c' = wop c ->
  opNotifierQueue c' = opNotifierQueue c -> promoteCalls c' = promoteCalls c ->
  regions (cluster c') = regions (cluster c) ->
  SchedulerMaxWaitingOperator (cluster c') = SchedulerMaxWaitingOperator (cluster c) ->
  quiet c c'.
Proof. intros. split; auto using ext_same_objs. Qed.

Lemma WF_table_valid c r p : WF c -> operators c !! r = Some p -> valid c p.
Proof. intros [Ht _ _] Hr. destruct (Ht _ _ Hr) as (op & Hp & _). exists op. exact Hp. Qed.

Lemma updateCounts_quiet c c' : updateCounts c = Ret c' -> quiet c c'.
Proof.
  unfold updateCounts. intros Hr. bind_inv Hr. injection Hr as <-.
  apply quiet_of_eqs; reflexivity.
Qed.

Lemma updateCounts_total c :
  (forall r p, operators c !! r = Some p -> valid c p) ->
  exists c', updateCounts c = Ret c'.
Proof.
  intros Hv. unfold updateCounts.
  match goal with |- context [foldM ?st ?l ?a] =>
    destruct (foldM_total (fun _ => True) st l a I) as (cnt & -> & _) end.
  - intros acc [r p] Hin _. apply elem_of_map_to_list in Hin.
    destruct (deref_valid c p (Hv _ _ Hin)) as [op Hd]. simpl. rewrite Hd. simpl. eauto.
  - simpl. eauto.
Qed.

Lemma recordsPut_quiet c p c' : recordsPut c p = Ret c' -> quiet c c'.
Proof.
  unfold recordsPut. intros Hr. bind_inv Hr. injection Hr as <-.
  apply quiet_of_eqs; reflexivity.
Qed.

Lemma recordsPut_total c p : valid c p -> exists c', recordsPut c p = Ret c'.
Proof.
  intros Hv. destruct (deref_valid _ _ Hv) as [op Hd]. unfold recordsPut.
  rewrite Hd. simpl. eauto.
Qed.

Lemma buryOperator_quiet c p now c' : buryOperator c p now = Ret c' -> quiet c c'.
Proof.
  unfold buryOperator. intros Hr. bind_inv Hr. bind_inv Hr.
  apply recordsPut_quiet in Hr.
  eapply quiet_trans; [| exact Hr].
  destruct (negb _).
  - bind_inv Hstep0. destruct a1 as [c1 b]. injection Hstep0 as <-.
    apply opTransit_quiet in Hstep1.
    eapply quiet_trans; [apply logError_quiet | exact Hstep1].
  - injection Hstep0 as <-. apply quiet_refl.
Qed.

Lemma quiet_valid c c' p : quiet c c' -> valid c p -> valid c' p.
Proof. intros [He] Hv. eapply ext_valid; eauto. Qed.

Lemma buryOperator_total c p now : valid c p -> exists c', buryOperator c p now = Ret c'.
Proof.
  intros Hv. destruct (deref_valid _ _ Hv) as [op Hd]. unfold buryOperator.
  rewrite Hd. simpl. destruct (negb _).
  - destruct (opTransit_total (logError c "burying operator with non-end status") p
                CANCELED now Hv) as (c1 & ok & Ht).
    unfold opCancel. rewrite Ht. simpl.
    apply recordsPut_total. eapply quiet_valid; [| exact Hv].
    eapply quiet_trans; [apply logError_quiet | eapply opTransit_quiet; exact Ht].
  - simpl. apply recordsPut_total. exact Hv.
Qed.

Lemma grows_refl c : grows c c.
Proof. split; auto using ext_refl. Qed.

Lemma grows_trans c1 c2 c3 : grows c1 c2 -> grows c2 c3 -> grows c1 c3.
Proof.
  intros [He12 Ht12 Hq12 Hw12 Hr12 Hm12] [He23 Ht23 Hq23 Hw23 Hr23 Hm23].
  split; try congruence.
  - eapply ext_trans; eassumption.
  - intros r p Hp. destruct (Ht23 _ _ Hp) as [Hp2 | Hnew]; [| right; exact Hnew].
    destruct (Ht12 _ _ Hp2) as [Hp1 | (op & Ho & Hid)]; [left; exact Hp1 |].
    right. destruct (He23 _ _ Ho) as (op' & Ho' & Hi). exists op'.
    split; [exact Ho' |]. unfold RegionID in *. congruence.
  - intros x Hx. destruct (Hq23 _ Hx) as [Hx2 | Hv]; [| right; exact Hv].
    destruct (Hq12 _ Hx2) as [Hx1 | Hv]; [left; exact Hx1 |].
    right. eapply ext_valid; eauto.
  - intros p Hp. destruct (Hw23 _ Hp) as [Hp2 | Hv]; [| right; exact Hv].
    destruct (Hw12 _ Hp2) as [Hp1 | Hv]; [left; exact Hp1 |].
    right. eapply ext_valid; eauto.
Qed.

Lemma quiet_grows c c' : quiet c c' -> grows c c'.
Proof.
  intros [He Ho Hw Hq _ Hr Hm]. split; auto.
  - intros r p Hp. left. congruence.
  - intros x Hx. left. congruence.
  - intros p Hp. left. congruence.
Qed.

Lemma quiet_calm c c' : quiet c c' -> calm c c'.
Proof. intros Hq. split; [apply quiet_grows; exact Hq | apply Hq]. Qed.

Lemma calm_refl c : calm c c.
Proof. split; [apply grows_refl | reflexivity]. Qed.

Lemma calm_trans c1 c2 c3 : calm c1 c2 -> calm c2 c3 -> calm c1 c3.
Proof. intros [G1 P1] [G2 P2]. split; [eapply grows_trans; eauto | congruence]. Qed.

Lemma calm_valid c c' p : calm c c' -> valid c p -> valid c' p.
Proof. intros [[He] _] Hv. eapply ext_valid; eauto. Qed.

Lemma grows_valid c c' p : grows c c' -> valid c p -> valid c' p.
Proof. intros [He] Hv. eapply ext_valid; eauto. Qed.

(** C1, the step: a well-formed state stays well-formed. *)
Lemma WF_grows c c' : grows c c' -> WF c -> WF c'.
Proof.
  intros [He Ht Hq Hw _ _] [Wt Wq Ww]. split.
  - intros r p Hp. destruct (Ht _ _ Hp) as [Hold | Hnew]; [| exact Hnew].
    destruct (Wt _ _ Hold) as (op & Ho & Hid).
    destruct (He _ _ Ho) as (op' & Ho' & Hi). exists op'.
    split; [exact Ho' |]. unfold RegionID in *. congruence.
  - intros x Hx. destruct (Hq _ Hx) as [Hold | Hv]; [| exact Hv].
    eapply ext_valid; eauto.
  - intros p Hp. destruct (Hw _ Hp) as [Hold | Hv]; [| exact Hv].
    eapply ext_valid; eauto.
Qed.

Lemma WF_calm c c' : calm c c' -> WF c -> WF c'.
Proof. intros [Hg _]. apply WF_grows. exact Hg. Qed.

(** Deleting an entry of the running table. *)
Lemma delete_calm c r : calm c (set_operators c (delete r (operators c))).
Proof.
  split; [| reflexivity]. split; try reflexivity; simpl; auto.
  - apply ext_same_objs. reflexivity.
  - intros r' p Hp. left. apply lookup_delete_Some in Hp as [_ Hp]. exact Hp.
Qed.

Lemma removeOperatorLocked_false c p op :
  objs c !! p = Some op -> operators c !! RegionID op <> Some p ->
  removeOperatorLocked c p = Ret (c, false).
Proof.
  intros Hp Hne. unfold removeOperatorLocked.
  apply deref_Ret in Hp. rewrite Hp. simpl.
  destruct (decide _) as [Heq | _]; [contradiction | reflexivity].
Qed.

Lemma removeOperatorLocked_inv c p c' b :
  removeOperatorLocked c p = Ret (c', b) ->
  exists op, objs c !! p = Some op /\
    if b then
      operators c !! RegionID op = Some p /\
      operators c' = delete (RegionID op) (operators c) /\
      objs c' = objs c /\ opRecords c' = opRecords c
    else operators c !! RegionID op <> Some p /\ c' = c.
Proof.
  unfold removeOperatorLocked. intros Hr. bind_inv Hr.
  apply deref_Ret in Hstep. exists a. split; [exact Hstep |].
  destruct (decide _) as [Heq | Hne].
  - bind_inv Hr. injection Hr as <- <-.
    unfold updateCounts in Hstep0. bind_inv Hstep0. injection Hstep0 as <-.
    simpl. auto.
  - injection Hr as <- <-. auto.
Qed.

Lemma removeOperatorLocked_calm c p c' b :
  removeOperatorLocked c p = Ret (c', b) -> calm c c'.
Proof.
  unfold removeOperatorLocked. intros Hr. bind_inv Hr.
  destruct (decide _) as [Heq | Hne].
  - bind_inv Hr. injection Hr as <- <-.
    apply updateCounts_quiet in Hstep0.
    eapply calm_trans; [apply delete_calm | apply quiet_calm; exact Hstep0].
  - injection Hr as <- <-. apply calm_refl.
Qed.

Lemma removeOperatorLocked_total c p :
  WF c -> valid c p -> exists c' b, removeOperatorLocked c p = Ret (c', b).
Proof.
  intros Hwf Hv. destruct (deref_valid _ _ Hv) as [op Hd].
  unfold removeOperatorLocked. rewrite Hd. simpl.
  destruct (decide _) as [Heq | Hne]; [| eauto].
  destruct (updateCounts_total (set_operators c (delete (RegionID op) (operators c))))
    as [c' Hc'].
  - intros r q Hq. simpl in Hq. apply lookup_delete_Some in Hq as [_ Hq].
    eapply WF_table_valid in Hq; [| exact Hwf]. exact Hq.
  - rewrite Hc'. simpl. eauto.
Qed.

Lemma RemoveOperator_calm c p now c' b :
  RemoveOperator c p now = Ret (c', b) -> calm c c'.
Proof.
  unfold RemoveOperator. intros Hr. bind_inv Hr. destruct a as [c1 removed].
  apply removeOperatorLocked_calm in Hstep.
  destruct removed.
  - bind_inv Hr. destruct a as [c2 ok]. bind_inv Hr. injection Hr as <- <-.
    apply opTransit_quiet in Hstep0. apply buryOperator_quiet in Hstep1.
    eapply calm_trans; [exact Hstep |].
    apply quiet_calm. eapply quiet_trans; eassumption.
  - injection Hr as <- <-. exact Hstep.
Qed.

Lemma RemoveOperator_total c p now :
  WF c -> valid c p -> exists c' b, RemoveOperator c p now = Ret (c', b).
Proof.
  intros Hwf Hv. unfold RemoveOperator.
  destruct (removeOperatorLocked_total c p Hwf Hv) as (c1 & removed & H1).
  rewrite H1. simpl. destruct removed; [| eauto].
  pose proof (removeOperatorLocked_calm _ _ _ _ H1) as Hc1.
  pose proof (calm_valid _ _ _ Hc1 Hv) as Hv1.
  destruct (opTransit_total c1 p CANCELED now Hv1) as (c2 & ok & H2).
  unfold opCancel. rewrite H2. simpl.
  pose proof (quiet_valid _ _ _ (opTransit_quiet _ _ _ _ _ _ H2) Hv1) as Hv2.
  destruct (buryOperator_total c2 p now Hv2) as (c3 & H3).
  rewrite H3. simpl. eauto.
Qed.

Lemma opTransit_eq c p op dst now :
  objs c !! p = Some op ->
  opTransit c p dst now
  = Ret (if snd (transit op dst now) then store c p (fst (transit op dst now)) else c,
         snd (transit op dst now)).
Proof.
  intros Hp. apply deref_Ret in Hp. unfold opTransit. rewrite Hp. simpl.
  destruct (transit op dst now). reflexivity.
Qed.

Lemma transit_refused op dst now : snd (transit op dst now) = false -> fst (transit op dst now) = op.
Proof. unfold transit. destruct (validTrans _ _); [discriminate | reflexivity]. Qed.

Lemma opTransit_lookup c p op dst now c' ok :
  objs c !! p = Some op -> opTransit c p dst now = Ret (c', ok) ->
  objs c' !! p = Some (fst (transit op dst now)) /\
  (forall q, q <> p -> objs c' !! q = objs c !! q) /\
  opRecords c' = opRecords c /\ operators c' = operators c.
Proof.
  intros Hp Hr. rewrite (opTransit_eq _ _ _ _ _ Hp) in Hr. injection Hr as <- <-.
  destruct (snd (transit op dst now)) eqn:Hok.
  - simpl. rewrite lookup_insert_eq. repeat split; try reflexivity.
    intros q Hq. rewrite lookup_insert_ne by done. reflexivity.
  - rewrite (transit_refused _ _ _ Hok). auto.
Qed.

Lemma transit_CANCELED_end op now :
  IsEndStatus (Status (fst (transit op CANCELED now))) = true.
Proof. unfold transit, Status. destruct op as [i [[] ? ? ?]]; reflexivity. Qed.

Lemma transit_CANCELED_status op now :
  IsEndStatus (Status op) = false -> Status (fst (transit op CANCELED now)) = CANCELED.
Proof. unfold transit, Status. destruct op as [i [[] ? ? ?]]; simpl; congruence. Qed.

Lemma transit_end_status op dst now :
  IsEndStatus (Status op) = true -> fst (transit op dst now) = op.
Proof. unfold transit, Status. destruct op as [i [[] ? ? ?]]; simpl; congruence. Qed.

Lemma buryOperator_end c p op now :
  objs c !! p = Some op -> IsEndStatus (Status op) = true ->
  buryOperator c p now
  = Ret (set_opRecords c (<[RegionID op := (p, Status op)]> (opRecords c))).
Proof.
  intros Hp Hend. unfold buryOperator, recordsPut.
  apply deref_Ret in Hp. rewrite Hp. simpl. rewrite Hend. simpl.
  rewrite Hp. reflexivity.
Qed.

(** *** RemoveOperator *)

(** C10: [RemoveOperator(op)] acts only when [op] is the very object the
    running table holds for its region.  When the slot of the region is
    empty or holds another object, the call returns false and the state
    is what it was: nothing is removed, canceled or buried.  When the slot
    holds [op], the call returns true, the entry is deleted, [Cancel] is
    applied to [op] (a live operator becomes canceled) and [op] is buried:
    the records hold it under its region with its final status. *)
Theorem RemoveOperator_identity c p op now :
  WF c -> objs c !! p = Some op ->
  (operators c !! RegionID op <> Some p ->
     RemoveOperator c p now = Ret (c, false)) /\
  (operators c !! RegionID op = Some p ->
     exists c', RemoveOperator c p now = Ret (c', true) /\
       operators c' = delete (RegionID op) (operators c) /\
       objs c' !! p = Some (fst (transit op CANCELED now)) /\
       (IsEndStatus (Status op) = false ->
          Status (fst (transit op CANCELED now)) = CANCELED) /\
       opRecords c' !! RegionID op
       = Some (p, Status (fst (transit op CANCELED now)))).
Proof.
  intros Hwf Hp. split.
  - intros Hne. unfold RemoveOperator.
    rewrite (removeOperatorLocked_false _ _ _ Hp Hne). reflexivity.
  - intros Heq.
    assert (Hv : valid c p) by (exists op; exact Hp).
    destruct (removeOperatorLocked_total c p Hwf Hv) as (c1 & removed & H1).
    destruct (removeOperatorLocked_inv _ _ _ _ H1) as (op1 & Hp1 & Hb).
    assert (op1 = op) as -> by congruence.
    destruct removed; [| destruct Hb as [Hne _]; contradiction].
    destruct Hb as (_ & Htab & Hobjs & Hrec).
    assert (Hp1' : objs c1 !! p = Some op) by (rewrite Hobjs; exact Hp).
    destruct (opTransit_total c1 p CANCELED now) as (c2 & ok & H2);
      [exists op; exact Hp1' |].
    destruct (opTransit_lookup _ _ _ _ _ _ _ Hp1' H2) as (Hp2 & _ & Hrec2 & Htab2).
    pose proof (buryOperator_end c2 p _ now Hp2 (transit_CANCELED_end op now)) as H3.
    eexists. split.
    + unfold RemoveOperator. rewrite H1. simpl. unfold opCancel. rewrite H2. simpl.
      rewrite H3. simpl. reflexivity.
    + simpl. split; [congruence |]. split; [exact Hp2 |].
      split; [apply transit_CANCELED_status |].
      unfold RegionID. rewrite transit_info. apply lookup_insert_eq.
Qed.

(** *** Store limits and admission checks are quiet and return *)

Lemma Forall_valid_quiet c c' ops :
  quiet c c' -> Forall (valid c) ops -> Forall (valid c') ops.
Proof.
  intros Hq Hv. eapply Forall_impl; [exact Hv |].
  intros p. apply quiet_valid. exact Hq.
Qed.

Lemma newStoreLimit_quiet c s r t : quiet c (newStoreLimit c s r t).
Proof. apply quiet_of_eqs; reflexivity. Qed.

Lemma attachAvailableFunc_quiet c s t : quiet c (attachAvailableFunc c s t).
Proof. apply quiet_of_eqs; reflexivity. Qed.

Lemma lookup_newStoreLimit c s r t :
  lookupStoreLimit (newStoreLimit c s r t) s t = Some (NewStoreLimit r (RegionInfluence t)).
Proof.
  unfold lookupStoreLimit, newStoreLimit. simpl.
  rewrite lookup_insert_eq. simpl. apply lookup_insert_eq.
Qed.

Lemma getOrCreateStoreLimit_total c s t :
  exists c' limit, getOrCreateStoreLimit c s t = Ret (c', limit).
Proof.
  unfold getOrCreateStoreLimit.
  set (r := (StoreLimitByType (cluster c) s t / StoreBalanceBaseTime)%float).
  destruct (lookupStoreLimit c s t) as [l |] eqn:Hl.
  - rewrite Hl. destruct (negb _); [| eauto].
    rewrite lookup_newStoreLimit. eauto.
  - assert (Hl' : lookupStoreLimit (attachAvailableFunc (newStoreLimit c s r t) s t) s t
                  = Some (NewStoreLimit r (RegionInfluence t))).
    { apply lookup_newStoreLimit. }
    rewrite Hl'. destruct (negb _); [| eauto].
    match goal with |- context [lookupStoreLimit (newStoreLimit ?c0 s r t) s t] =>
      rewrite (lookup_newStoreLimit c0 s r t) end.
    eauto.
Qed.

Lemma getOrCreateStoreLimit_quiet c s t c' limit :
  getOrCreateStoreLimit c s t = Ret (c', limit) -> quiet c c'.
Proof.
  unfold getOrCreateStoreLimit.
  set (r := (StoreLimitByType (cluster c) s t / StoreBalanceBaseTime)%float).
  set (c0 := match lookupStoreLimit c s t with
             | Some _ => c
             | None => attachAvailableFunc (newStoreLimit c s r t) s t
             end).
  assert (H0 : quiet c c0).
  { unfold c0. destruct (lookupStoreLimit c s t); [apply quiet_refl |].
    eapply quiet_trans; [apply newStoreLimit_quiet | apply attachAvailableFunc_quiet]. }
  destruct (lookupStoreLimit c0 s t); [| discriminate].
  destruct (negb _).
  - rewrite lookup_newStoreLimit.
    intros [= <- <-]. eapply quiet_trans; [exact H0 | apply newStoreLimit_quiet].
  - intros [= <- <-]. exact H0.
Qed.

Lemma exceedLoop_quiet l : forall c now c' b,
  exceedLoop c l now = Ret (c', b) -> quiet c c'.
Proof.
  induction l as [| [[s infl] v] l IH]; intros c now c' b; simpl.
  - intros [= <- <-]. apply quiet_refl.
  - destruct (GetStepCost infl v =? 0); [apply IH |].
    intros Hr. bind_inv Hr. destruct a as [c1 limit].
    apply getOrCreateStoreLimit_quiet in Hstep.
    destruct (Available limit now <? _).
    + injection Hr as <- <-. exact Hstep.
    + apply IH in Hr. eapply quiet_trans; eassumption.
Qed.

Lemma exceedLoop_total l : forall c now, exists c' b, exceedLoop c l now = Ret (c', b).
Proof.
  induction l as [| [[s infl] v] l IH]; intros c now; simpl.
  - eauto.
  - destruct (GetStepCost infl v =? 0); [apply IH |].
    destruct (getOrCreateStoreLimit_total c s v) as (c1 & limit & ->). simpl.
    destruct (Available limit now <? _); [eauto | apply IH].
Qed.

Lemma NewTotalOpInfluence_total c ops :
  Forall (valid c) ops -> exists infl, NewTotalOpInfluence c ops = Ret infl.
Proof.
  intros Hv. unfold NewTotalOpInfluence.
  match goal with |- context [foldM ?st ?l ?a] =>
    destruct (foldM_total (fun _ => True) st l a I) as (infl & -> & _) end; [| eauto].
  intros infl p Hin _. rewrite Forall_forall in Hv.
  destruct (deref_valid c p (Hv _ Hin)) as [op ->]. simpl.
  destruct (GetRegion _ _); eauto.
Qed.

Lemma exceedStoreLimit_quiet c ops now c' b :
  exceedStoreLimit c ops now = Ret (c', b) -> quiet c c'.
Proof.
  unfold exceedStoreLimit. intros Hr. bind_inv Hr. eapply exceedLoop_quiet. exact Hr.
Qed.

Lemma exceedStoreLimit_total c ops now :
  Forall (valid c) ops -> exists c' b, exceedStoreLimit c ops now = Ret (c', b).
Proof.
  intros Hv. unfold exceedStoreLimit.
  destruct (NewTotalOpInfluence_total c ops Hv) as [infl ->]. simpl.
  apply exceedLoop_total.
Qed.

Lemma checkAddOne_quiet c p c' b : checkAddOne c p = Ret (c', b) -> quiet c c'.
Proof.
  unfold checkAddOne. intros Hr. bind_inv Hr.
  destruct (GetRegion _ _); [| injection Hr as <- <-; apply quiet_refl].
  destruct (_ || _); [injection Hr as <- <-; apply quiet_refl |].
  bind_inv Hr. destruct a0; [injection Hr as <- <-; apply quiet_refl |].
  destruct (negb _); [injection Hr as <- <-; apply logError_quiet |].
  destruct (_ <=? _); injection Hr as <- <-; apply quiet_refl.
Qed.

Lemma checkAddOne_total c p :
  WF c -> valid c p -> exists c' b, checkAddOne c p = Ret (c', b).
Proof.
  intros Hwf Hv. destruct (deref_valid _ _ Hv) as [op Hd]. unfold checkAddOne.
  rewrite Hd. simpl.
  destruct (GetRegion _ _); [| eauto].
  destruct (_ || _); [eauto |].
  destruct (operators c !! RegionID op) as [oldp |] eqn:Hold.
  - destruct (deref_valid c oldp (WF_table_valid _ _ _ Hwf Hold)) as [old ->]. simpl.
    destruct (negb (isHigherPriorityOperator op old)); [eauto |].
    destruct (negb _); [eauto |]. destruct (_ <=? _); eauto.
  - simpl. destruct (negb _); [eauto |]. destruct (_ <=? _); eauto.
Qed.

Lemma checkAddLoop_quiet ops : forall c c' b,
  checkAddLoop c ops = Ret (c', b) -> quiet c c'.
Proof.
  induction ops as [| p ops IH]; intros c c' b; simpl.
  - intros [= <- <-]. apply quiet_refl.
  - intros Hr. bind_inv Hr. destruct a as [c1 ok].
    apply checkAddOne_quiet in Hstep. destruct ok.
    + apply IH in Hr. eapply quiet_trans; eassumption.
    + injection Hr as <- <-. exact Hstep.
Qed.

Lemma checkAddLoop_total ops : forall c,
  WF c -> Forall (valid c) ops -> exists c' b, checkAddLoop c ops = Ret (c', b).
Proof.
  induction ops as [| p ops IH]; intros c Hwf Hv; simpl.
  - eauto.
  - apply Forall_cons in Hv as [Hp Hv].
    destruct (checkAddOne_total c p Hwf Hp) as (c1 & ok & H1). rewrite H1. simpl.
    destruct ok; [| eauto].
    pose proof (checkAddOne_quiet _ _ _ _ H1) as Hq.
    apply IH; [eapply WF_quiet; eauto | eapply Forall_valid_quiet; eauto].
Qed.

Lemma checkExpiredLoop_quiet ops : forall c now e c' b,
  checkExpiredLoop c ops now e = Ret (c', b) -> quiet c c'.
Proof.
  induction ops as [| p ops IH]; intros c now e c' b; simpl.
  - intros [= <- <-]. apply quiet_refl.
  - intros Hr. bind_inv Hr. destruct a as [c1 e1].
    apply opCheckExpired_quiet in Hstep. apply IH in Hr.
    eapply quiet_trans; eassumption.
Qed.

Lemma opCheckExpired_total c p now :
  valid c p -> exists c' e, opCheckExpired c p now = Ret (c', e).
Proof.
  intros Hv. destruct (deref_valid _ _ Hv) as [op Hd]. unfold opCheckExpired.
  rewrite Hd. simpl. destruct (CheckExpired op now). eauto.
Qed.

Lemma checkExpiredLoop_total ops : forall c now e,
  Forall (valid c) ops -> exists c' b, checkExpiredLoop c ops now e = Ret (c', b).
Proof.
  induction ops as [| p ops IH]; intros c now e Hv; simpl.
  - eauto.
  - apply Forall_cons in Hv as [Hp Hv].
    destruct (opCheckExpired_total c p now Hp) as (c1 & e1 & H1). rewrite H1. simpl.
    apply IH. eapply Forall_valid_quiet; [eapply opCheckExpired_quiet; eauto | exact Hv].
Qed.

Lemma checkAddOperator_quiet c ops now c' b :
  checkAddOperator c ops now = Ret (c', b) -> quiet c c'.
Proof.
  unfold checkAddOperator. intros Hr. bind_inv Hr. destruct a as [c1 ok].
  apply checkAddLoop_quiet in Hstep. destruct ok.
  - bind_inv Hr. destruct a as [c2 e]. injection Hr as <- <-.
    apply checkExpiredLoop_quiet in Hstep0. eapply quiet_trans; eassumption.
  - injection Hr as <- <-. exact Hstep.
Qed.

Lemma checkAddOperator_total c ops now :
  WF c -> Forall (valid c) ops -> exists c' b, checkAddOperator c ops now = Ret (c', b).
Proof.
  intros Hwf Hv. unfold checkAddOperator.
  destruct (checkAddLoop_total ops c Hwf Hv) as (c1 & ok & H1). rewrite H1. simpl.
  destruct ok; [| eauto].
  destruct (checkExpiredLoop_total ops c1 now false) as (c2 & e & H2).
  { eapply Forall_valid_quiet; [eapply checkAddLoop_quiet; eauto | exact Hv]. }
  rewrite H2. simpl. eauto.
Qed.

Lemma admissible_quiet c ops now c' b :
  admissible c ops now = Ret (c', b) -> quiet c c'.
Proof.
  unfold admissible. intros Hr. bind_inv Hr. destruct a as [c1 exceed].
  apply exceedStoreLimit_quiet in Hstep. destruct exceed.
  - injection Hr as <- <-. exact Hstep.
  - apply checkAddOperator_quiet in Hr. eapply quiet_trans; eassumption.
Qed.

Lemma admissible_total c ops now :
  WF c -> Forall (valid c) ops -> exists c' b, admissible c ops now = Ret (c', b).
Proof.
  intros Hwf Hv. unfold admissible.
  destruct (exceedStoreLimit_total c ops now Hv) as (c1 & exceed & H1). rewrite H1. simpl.
  destruct exceed; [eauto |].
  pose proof (exceedStoreLimit_quiet _ _ _ _ _ H1) as Hq.
  apply checkAddOperator_total; [eapply WF_quiet; eauto | eapply Forall_valid_quiet; eauto].
Qed.

Lemma cancelAndBury_quiet ops : forall c now c',
  cancelAndBury c ops now = Ret c' -> quiet c c'.
Proof.
  induction ops as [| p ops IH]; intros c now c'; simpl.
  - intros [= <-]. apply quiet_refl.
  - intros Hr. bind_inv Hr. destruct a as [c1 ok]. bind_inv Hr.
    apply opTransit_quiet in Hstep. apply buryOperator_quiet in Hstep0. apply IH in Hr.
    eapply quiet_trans; [exact Hstep |]. eapply quiet_trans; eassumption.
Qed.

Lemma cancelAndBury_total ops : forall c now,
  Forall (valid c) ops -> exists c', cancelAndBury c ops now = Ret c'.
Proof.
  induction ops as [| p ops IH]; intros c now Hv; simpl.
  - eauto.
  - apply Forall_cons in Hv as [Hp Hv].
    destruct (opTransit_total c p CANCELED now Hp) as (c1 & ok & H1).
    unfold opCancel. rewrite H1. simpl.
    pose proof (opTransit_quiet _ _ _ _ _ _ H1) as Hq1.
    destruct (buryOperator_total c1 p now (quiet_valid _ _ _ Hq1 Hp)) as (c2 & H2).
    rewrite H2. simpl.
    pose proof (buryOperator_quiet _ _ _ _ H2) as Hq2.
    apply IH. eapply Forall_valid_quiet; [| exact Hv]. eapply quiet_trans; eassumption.
Qed.

(** *** Expired operators *)

Lemma expiredAt_info op op' now :
  opInfo op' = opInfo op -> expiredAt op' now = expiredAt op now.
Proof. unfold expiredAt, Kind. intros ->. reflexivity. Qed.

Lemma CheckExpired_ripe op now :
  (Status op = CREATED \/ Status op = EXPIRED) -> expiredAt op now = true ->
  snd (CheckExpired op now) = true /\
  Status (fst (CheckExpired op now)) = EXPIRED.
Proof.
  intros [Hs | Hs] He; unfold CheckExpired; rewrite Hs.
  - rewrite He. split; [reflexivity |].
    unfold transit, Status in *. rewrite Hs. reflexivity.
  - split; [reflexivity | exact Hs].
Qed.

Lemma CheckExpired_status op now :
  (Status op = CREATED \/ Status op = EXPIRED) ->
  Status (fst (CheckExpired op now)) = CREATED \/
  Status (fst (CheckExpired op now)) = EXPIRED.
Proof.
  intros [Hs | Hs]; unfold CheckExpired; rewrite Hs.
  - destruct (expiredAt op now); [right | left; exact Hs].
    unfold transit, Status in *. rewrite Hs. reflexivity.
  - right. exact Hs.
Qed.

Lemma opCheckExpired_ripe c q now c' e p :
  opCheckExpired c q now = Ret (c', e) -> ripe c p now ->
  ripe c' p now /\ (q = p -> e = true).
Proof.
  unfold opCheckExpired. intros Hr (op & Hp & Hs & He). bind_inv Hr.
  apply deref_Ret in Hstep.
  destruct (CheckExpired a now) as [op' e'] eqn:Hce. injection Hr as <- <-.
  destruct (decide (q = p)) as [-> | Hne].
  - assert (a = op) as -> by congruence.
    pose proof (CheckExpired_ripe op now Hs He) as [He' Hs'].
    pose proof (CheckExpired_info op now) as Hi.
    rewrite Hce in He', Hs', Hi. simpl in He', Hs', Hi. split; [| auto].
    exists op'. simpl. rewrite lookup_insert_eq.
    split; [reflexivity |]. split; [right; exact Hs' |].
    rewrite (expiredAt_info _ _ _ Hi). exact He.
  - split; [| contradiction]. exists op. simpl.
    rewrite lookup_insert_ne by done. auto.
Qed.

Lemma checkExpiredLoop_found ops : forall c now e c' b p,
  checkExpiredLoop c ops now e = Ret (c', b) ->
  (e = true -> b = true) /\ (p ∈ ops -> ripe c p now -> b = true).
Proof.
  induction ops as [| q ops IH]; intros c now e c' b p; simpl.
  - intros [= <- <-]. split; [auto |]. intros Hin. inversion Hin.
  - intros Hr. bind_inv Hr. destruct a as [c1 e1].
    destruct (IH _ _ _ _ _ p Hr) as [Hacc Hrest]. split.
    + intros ->. apply Hacc. destruct e1; reflexivity.
    + intros Hin Hripe.
      destruct (opCheckExpired_ripe _ _ _ _ _ p Hstep Hripe) as [Hripe1 Hq].
      apply elem_of_cons in Hin as [-> | Hin].
      * apply Hacc. rewrite Hq; reflexivity.
      * apply Hrest; assumption.
Qed.

Lemma checkAddOne_passed c p c' :
  checkAddOne c p = Ret (c', true) ->
  c' = c /\ exists op, objs c !! p = Some op /\ Status op = CREATED.
Proof.
  unfold checkAddOne. intros Hr. bind_inv Hr. apply deref_Ret in Hstep.
  destruct (GetRegion _ _); [| discriminate].
  destruct (_ || _); [discriminate |].
  bind_inv Hr. destruct a0; [discriminate |].
  destruct (bool_decide (Status a = CREATED)) eqn:Hs; simpl in Hr; [| discriminate].
  apply bool_decide_eq_true in Hs.
  destruct (_ <=? _); [discriminate |]. injection Hr as <-. eauto.
Qed.

Lemma checkAddLoop_passed ops : forall c c',
  checkAddLoop c ops = Ret (c', true) ->
  c' = c /\ forall p, p ∈ ops -> exists op, objs c !! p = Some op /\ Status op = CREATED.
Proof.
  induction ops as [| q ops IH]; intros c c'; simpl.
  - intros [= <-]. split; [reflexivity |]. intros p Hin. inversion Hin.
  - intros Hr. bind_inv Hr. destruct a as [c1 ok]. destruct ok; [| discriminate].
    apply checkAddOne_passed in Hstep as [-> Hq].
    apply IH in Hr as [-> Hrest]. split; [reflexivity |].
    intros p Hin. apply elem_of_cons in Hin as [-> | Hin]; auto.
Qed.

(** [checkAddOperator] refuses a call that names an operator past its cap. *)
Lemma checkAddOperator_expired c ops now c' b p op :
  checkAddOperator c ops now = Ret (c', b) ->
  p ∈ ops -> objs c !! p = Some op -> expiredAt op now = true -> b = false.
Proof.
  unfold checkAddOperator. intros Hr Hin Hp He. bind_inv Hr. destruct a as [c1 ok].
  destruct ok; [| injection Hr as _ <-; reflexivity].
  apply checkAddLoop_passed in Hstep as [-> Hall].
  bind_inv Hr. destruct a as [c2 e]. injection Hr as _ <-.
  destruct (Hall p Hin) as (op' & Hp' & Hs).
  assert (op' = op) as -> by congruence.
  destruct (checkExpiredLoop_found _ _ _ _ _ _ p Hstep) as [_ Hfound].
  rewrite Hfound; [reflexivity | exact Hin |].
  exists op. auto.
Qed.

(** C4: when some operator among the arguments is expired (creation-to-now
    exceeds the cap of its kind), [checkAddOperator] returns false, and
    [AddOperator] returns false with the running table as it was. *)
Theorem expired_operator_blocks_admission c ops now p op :
  WF c -> Forall (valid c) ops ->
  p ∈ ops -> objs c !! p = Some op -> expiredAt op now = true ->
  (exists c', checkAddOperator c ops now = Ret (c', false)) /\
  (exists c', AddOperator c ops now = Ret (c', false) /\ operators c' = operators c).
Proof.
  intros Hwf Hv Hin Hp He. split.
  - destruct (checkAddOperator_total c ops now Hwf Hv) as (c' & b & Hr).
    rewrite (checkAddOperator_expired _ _ _ _ _ _ _ Hr Hin Hp He) in Hr. eauto.
  - destruct (admissible_total c ops now Hwf Hv) as (c1 & ok & H1).
    pose proof (admissible_quiet _ _ _ _ _ H1) as Hq1.
    assert (ok = false) as ->.
    { unfold admissible in H1. bind_inv H1. destruct a as [c0 exceed].
      destruct exceed; [injection H1 as _ <-; reflexivity |].
      pose proof (exceedStoreLimit_quiet _ _ _ _ _ Hstep) as [He0 _ _ _ _ _ _].
      destruct (He0 _ _ Hp) as (op0 & Hp0 & Hi0).
      eapply checkAddOperator_expired; [exact H1 | exact Hin | exact Hp0 |].
      rewrite (expiredAt_info _ _ _ Hi0). exact He. }
    destruct (cancelAndBury_total ops c1 now) as (c2 & H2).
    { eapply Forall_valid_quiet; eauto. }
    pose proof (cancelAndBury_quiet _ _ _ _ H2) as Hq2.
    exists c2. split.
    + unfold AddOperator. rewrite H1. simpl. rewrite H2. reflexivity.
    + destruct Hq1, Hq2. congruence.
Qed.

(** *** Starting operators *)

Lemma insert_calm c r p op :
  objs c !! p = Some op -> RegionID op = r ->
  calm c (set_operators c (<[r := p]> (operators c))).
Proof.
  intros Hp Hr. split; [| reflexivity]. split; try reflexivity; simpl; auto.
  - apply ext_same_objs. reflexivity.
  - intros r' q Hq. destruct (decide (r = r')) as [<- | Hne].
    + rewrite lookup_insert_eq in Hq. injection Hq as <-. right. eauto.
    + rewrite lookup_insert_ne in Hq by done. left. exact Hq.
Qed.

Lemma push_calm c p t :
  valid c p -> calm c (set_opNotifierQueue c (opNotifierQueue c ++ [(p, t)])).
Proof.
  intros Hv. split; [| reflexivity]. split; try reflexivity; simpl; auto.
  - apply ext_same_objs. reflexivity.
  - intros x Hx. apply elem_of_app in Hx as [Hx | Hx]; [left; exact Hx |].
    apply list_elem_of_singleton in Hx as ->. right. exact Hv.
Qed.

Lemma sendMsg_quiet c region cmd : quiet c (sendMsg c region cmd).
Proof. apply quiet_of_eqs; reflexivity. Qed.

Lemma SendScheduleCommand_quiet c region step source :
  quiet c (SendScheduleCommand c region step source).
Proof.
  unfold SendScheduleCommand.
  destruct step as [[] |];
    repeat match goal with
           | |- context [match ?x with _ => _ end] => destruct x
           end;
    first [apply sendMsg_quiet | apply logError_quiet | apply quiet_refl].
Qed.

Lemma takeStoreLimits_quiet c infl now : quiet c (takeStoreLimits c infl now).
Proof.
  unfold takeStoreLimits. generalize (influencePairs infl). intros l.
  assert (Hgen : forall c0, quiet c c0 ->
            quiet c (fold_left
              (fun c (x : Z * StoreInfluence * Z) =>
                 let '(storeID, influence, v) := x in
                 match storesLimit c !! storeID with
                 | None => c
                 | Some m =>
                     match m !! v with
                     | None => c
                     | Some storeLimit =>
                         let stepCost := GetStepCost influence v in
                         if stepCost =? 0 then c
                         else set_storesLimit c
                                (<[storeID := <[v := Take storeLimit stepCost now]> m]>
                                   (storesLimit c))
                     end
                 end) l c0)).
  { induction l as [| [[s i] v] l IH]; intros c0 H0; simpl; [exact H0 |].
    apply IH. eapply quiet_trans; [exact H0 |].
    destruct (storesLimit c0 !! s) as [m |]; [| apply quiet_refl].
    destruct (m !! v); [| apply quiet_refl].
    destruct (_ =? 0); [apply quiet_refl |].
    apply quiet_of_eqs; reflexivity. }
  apply Hgen. apply quiet_refl.
Qed.

Lemma opCheck_total c p region now :
  valid c p -> exists c' step, opCheck c p region now = Ret (c', step).
Proof.
  intros Hv. destruct (deref_valid _ _ Hv) as [op Hd]. unfold opCheck.
  rewrite Hd. simpl. destruct (Check op region now). eauto.
Qed.

Lemma replaceOld_calm c r now c' : replaceOld c r now = Ret c' -> calm c c'.
Proof.
  unfold replaceOld. destruct (operators c !! r) as [old |].
  - intros Hr. bind_inv Hr. destruct a as [c1 b1]. bind_inv Hr. destruct a as [c2 b2].
    apply removeOperatorLocked_calm in Hstep. apply opTransit_quiet in Hstep0.
    apply buryOperator_quiet in Hr.
    eapply calm_trans; [exact Hstep |]. apply quiet_calm. eapply quiet_trans; eassumption.
  - intros [= <-]. apply calm_refl.
Qed.

Lemma replaceOld_total c r now : WF c -> exists c', replaceOld c r now = Ret c'.
Proof.
  intros Hwf. unfold replaceOld. destruct (operators c !! r) as [old |] eqn:Hold; [| eauto].
  pose proof (WF_table_valid _ _ _ Hwf Hold) as Hv.
  destruct (removeOperatorLocked_total c old Hwf Hv) as (c1 & b1 & H1). rewrite H1. simpl.
  pose proof (calm_valid _ _ _ (removeOperatorLocked_calm _ _ _ _ H1) Hv) as Hv1.
  destruct (opTransit_total c1 old REPLACED now Hv1) as (c2 & b2 & H2).
  unfold opReplace. rewrite H2. simpl.
  apply buryOperator_total. eapply quiet_valid; [eapply opTransit_quiet; eauto | exact Hv1].
Qed.

Lemma addOperatorLocked_unfold c p now :
  addOperatorLocked c p now
  = (op ← deref c p;
     let regionID := RegionID op in
     c ← replaceOld c regionID now;
     '(c, started) ← opStart c p now;
     if negb (started : bool) then
       Ret (logError c "adding operator with unexpected status", false)
     else
       let c := set_operators c (<[regionID := p]> (operators c)) in
       opInfluence ← NewTotalOpInfluence c [p];
       let c := takeStoreLimits c opInfluence now in
       c ← updateCounts c;
       '(c, step) ← match GetRegion (cluster c) regionID with
                    | Some region =>
                        '(c, step) ← opCheck c p region now;
                        match step with
                        | Some _ =>
                            Ret (SendScheduleCommand c region step DispatchFromCreate, step)
                        | None => Ret (c, step)
                        end
                    | None => Ret (c, None)
                    end;
       Ret (set_opNotifierQueue c
              (opNotifierQueue c ++ [(p, getNextPushOperatorTime step now)]),
            true)).
Proof. reflexivity. Qed.

Lemma addOperatorLocked_calm c p now c' b :
  addOperatorLocked c p now = Ret (c', b) -> calm c c'.
Proof.
  rewrite addOperatorLocked_unfold. intros Hr. bind_inv Hr. rename a into op.
  apply deref_Ret in Hstep. simpl in Hr.
  bind_inv Hr. rename a into c1. apply replaceOld_calm in Hstep0.
  bind_inv Hr. destruct a as [c2 started]. apply opTransit_quiet in Hstep1.
  assert (H02 : calm c c2).
  { eapply calm_trans; [exact Hstep0 | apply quiet_calm; exact Hstep1]. }
  destruct started; simpl in Hr.
  - bind_inv Hr. rename a into infl. bind_inv Hr. rename a into c3.
    bind_inv Hr. destruct a as [c4 step]. injection Hr as <- <-.
    destruct H02 as [G02 P02].
    destruct (grows_ext _ _ G02 _ _ Hstep) as (op2 & Hp2 & Hi2).
    assert (H23 : calm c2 c3).
    { assert (Hid : RegionID op2 = RegionID op) by (unfold RegionID; congruence).
      eapply calm_trans; [exact (insert_calm c2 (RegionID op) p op2 Hp2 Hid) |].
      apply quiet_calm.
      eapply quiet_trans; [apply takeStoreLimits_quiet | eapply updateCounts_quiet; eauto]. }
    assert (H34 : quiet c3 c4).
    { destruct (GetRegion _ _) as [region |].
      - bind_inv Hstep4. destruct a as [c5 st5]. apply opCheck_quiet in Hstep5.
        destruct st5; injection Hstep4 as <- <-;
          [eapply quiet_trans; [exact Hstep5 | apply SendScheduleCommand_quiet] | exact Hstep5].
      - injection Hstep4 as <- <-. apply quiet_refl. }
    assert (H04 : calm c c4).
    { eapply calm_trans; [split; [exact G02 | exact P02] |].
      eapply calm_trans; [exact H23 | apply quiet_calm; exact H34]. }
    eapply calm_trans; [exact H04 |]. apply push_calm.
    eapply calm_valid; [exact H04 |]. exists op. exact Hstep.
  - injection Hr as <- <-.
    eapply calm_trans; [exact H02 | apply quiet_calm; apply logError_quiet].
Qed.

Lemma addOperatorLocked_total c p now :
  WF c -> valid c p -> exists c' b, addOperatorLocked c p now = Ret (c', b).
Proof.
  intros Hwf Hv. rewrite addOperatorLocked_unfold.
  destruct (deref_valid _ _ Hv) as [op Hd]. rewrite Hd. simpl.
  apply deref_Ret in Hd.
  destruct (replaceOld_total c (RegionID op) now Hwf) as (c1 & H1). rewrite H1. simpl.
  pose proof (replaceOld_calm _ _ _ _ H1) as C01.
  pose proof (calm_valid _ _ _ C01 Hv) as Hv1.
  destruct (opTransit_total c1 p STARTED now Hv1) as (c2 & started & H2).
  unfold opStart. rewrite H2. simpl.
  pose proof (opTransit_quiet _ _ _ _ _ _ H2) as Q12.
  assert (C02 : calm c c2) by (eapply calm_trans; [exact C01 | apply quiet_calm; exact Q12]).
  destruct started; simpl; [| eauto].
  destruct C02 as [G02 P02].
  destruct (grows_ext _ _ G02 _ _ Hd) as (op2 & Hp2 & Hi2).
  pose proof (insert_calm c2 (RegionID op) p op2 Hp2) as Cins.
  specialize (Cins ltac:(unfold RegionID; congruence)).
  set (c2' := set_operators c2 (<[RegionID op := p]> (operators c2))) in *.
  assert (Hwf2' : WF c2').
  { eapply WF_calm; [exact Cins |]. eapply WF_grows; eauto. }
  assert (Hv2' : valid c2' p) by (exists op2; exact Hp2).
  destruct (NewTotalOpInfluence_total c2' [p]) as (infl & H3).
  { constructor; [exact Hv2' | constructor]. }
  rewrite H3. simpl.
  pose proof (takeStoreLimits_quiet c2' infl now) as Qt.
  destruct (updateCounts_total (takeStoreLimits c2' infl now)) as (c3 & H4).
  { intros r q Hq. eapply WF_table_valid; [| exact Hq]. eapply WF_quiet; eauto. }
  rewrite H4. simpl.
  pose proof (updateCounts_quiet _ _ H4) as Qu.
  assert (Hv3 : valid c3 p).
  { eapply quiet_valid; [exact Qu |]. eapply quiet_valid; [exact Qt | exact Hv2']. }
  destruct (GetRegion (cluster c3) (RegionID op)) as [region |].
  - destruct (opCheck_total c3 p region now Hv3) as (c4 & step & H5). rewrite H5. simpl.
    destruct step; simpl; eauto.
  - simpl. eauto.
Qed.

Lemma addOperatorsLocked_calm ops : forall c now c' b,
  addOperatorsLocked c ops now = Ret (c', b) -> calm c c'.
Proof.
  induction ops as [| p ops IH]; intros c now c' b; simpl.
  - intros [= <- <-]. apply calm_refl.
  - intros Hr. bind_inv Hr. destruct a as [c1 ok].
    apply addOperatorLocked_calm in Hstep. destruct ok.
    + apply IH in Hr. eapply calm_trans; eassumption.
    + injection Hr as <- <-. exact Hstep.
Qed.

Lemma Forall_valid_calm c c' ops :
  calm c c' -> Forall (valid c) ops -> Forall (valid c') ops.
Proof.
  intros Hc Hv. eapply Forall_impl; [exact Hv |].
  intros p. apply calm_valid. exact Hc.
Qed.

Lemma addOperatorsLocked_total ops : forall c now,
  WF c -> Forall (valid c) ops -> exists c' b, addOperatorsLocked c ops now = Ret (c', b).
Proof.
  induction ops as [| p ops IH]; intros c now Hwf Hv; simpl.
  - eauto.
  - apply Forall_cons in Hv as [Hp Hv].
    destruct (addOperatorLocked_total c p now Hwf Hp) as (c1 & ok & H1). rewrite H1. simpl.
    destruct ok; [| eauto].
    pose proof (addOperatorLocked_calm _ _ _ _ _ H1) as Hc.
    apply IH; [eapply WF_calm; eauto | eapply Forall_valid_calm; eauto].
Qed.

Lemma frame_refl q c : frame q c c.
Proof. split; reflexivity. Qed.

Lemma frame_trans q c1 c2 c3 : frame q c1 c2 -> frame q c2 c3 -> frame q c1 c3.
Proof. intros [] []. split; congruence. Qed.

Lemma frame_of_eqs q c c' :
  objs c' = objs c -> opRecords c' = opRecords c -> operators c' = operators c ->
  frame q c c'.
Proof. intros Ho Hr Ht. split; congruence. Qed.

Lemma opTransit_frame c p dst now c' ok q :
  q <> p -> opTransit c p dst now = Ret (c', ok) -> frame q c c'.
Proof.
  intros Hne Hr. unfold opTransit in Hr. bind_inv Hr. apply deref_Ret in Hstep.
  destruct (opTransit_lookup c p a dst now c' ok Hstep) as (_ & Hoth & Hrec & Htab).
  { unfold opTransit. apply deref_Ret in Hstep. rewrite Hstep. exact Hr. }
  split; auto.
Qed.

Lemma opCheck_frame c p region now c' step q :
  q <> p -> opCheck c p region now = Ret (c', step) -> frame q c c'.
Proof.
  intros Hne Hr. unfold opCheck in Hr. bind_inv Hr.
  destruct (Check a region now). injection Hr as <- <-.
  split; try reflexivity. simpl. apply lookup_insert_ne. congruence.
Qed.

Lemma updateCounts_frame c c' q : updateCounts c = Ret c' -> frame q c c'.
Proof.
  unfold updateCounts. intros Hr. bind_inv Hr. injection Hr as <-.
  apply frame_of_eqs; reflexivity.
Qed.

Lemma SendScheduleCommand_frame c region step source q :
  frame q c (SendScheduleCommand c region step source).
Proof.
  unfold SendScheduleCommand.
  destruct step as [[] |];
    repeat match goal with
           | |- context [match ?x with _ => _ end] => destruct x
           end;
    apply frame_of_eqs; reflexivity.
Qed.

Lemma takeStoreLimits_frame c infl now q : frame q c (takeStoreLimits c infl now).
Proof.
  unfold takeStoreLimits. generalize (influencePairs infl). intros l.
  revert c. induction l as [| [[s i] v] l IH]; intros c; simpl; [apply frame_refl |].
  eapply frame_trans; [| apply IH].
  destruct (storesLimit c !! s) as [m |]; [| apply frame_refl].
  destruct (m !! v); [| apply frame_refl].
  destruct (_ =? 0); [apply frame_refl |].
  apply frame_of_eqs; reflexivity.
Qed.

Lemma transit_REPLACED_end op now :
  IsEndStatus (Status (fst (transit op REPLACED now))) = true.
Proof. unfold transit, Status. destruct op as [i [[] ? ? ?]]; reflexivity. Qed.

Lemma transit_REPLACED_started op now :
  Status op = STARTED -> Status (fst (transit op REPLACED now)) = REPLACED.
Proof. unfold transit, Status. intros ->. reflexivity. Qed.

(** [Replace] marks an operator that was created or started; one that has
    reached an end status keeps it. *)
Lemma transit_REPLACED_status op now :
  Status (fst (transit op REPLACED now))
  = (if IsEndStatus (Status op) then Status op else REPLACED).
Proof. unfold transit, Status. destruct op as [i [[] ? ? ?]]; reflexivity. Qed.

(** What [replaceOld] leaves behind when the region is taken. *)
Lemma replaceOld_occupied c r old oldOp now :
  WF c -> operators c !! r = Some old -> objs c !! old = Some oldOp ->
  exists c', replaceOld c r now = Ret c' /\
    operators c' = delete r (operators c) /\
    objs c' !! old = Some (fst (transit oldOp REPLACED now)) /\
    (forall q, q <> old -> objs c' !! q = objs c !! q) /\
    opRecords c' = <[r := (old, Status (fst (transit oldOp REPLACED now)))]> (opRecords c).
Proof.
  intros Hwf Hold Hobj.
  destruct (wf_table _ Hwf _ _ Hold) as (op' & Hobj' & Hid).
  assert (op' = oldOp) as -> by congruence.
  assert (Hv : valid c old) by (exists oldOp; exact Hobj).
  destruct (removeOperatorLocked_total c old Hwf Hv) as (c1 & b & H1).
  destruct (removeOperatorLocked_inv _ _ _ _ H1) as (op1 & Hp1 & Hb).
  assert (op1 = oldOp) as -> by congruence.
  destruct b; [| destruct Hb as [Hne _]; rewrite Hid in Hne; contradiction].
  destruct Hb as (_ & Htab1 & Hobjs1 & Hrec1).
  assert (Hobj1 : objs c1 !! old = Some oldOp) by (rewrite Hobjs1; exact Hobj).
  destruct (opTransit_total c1 old REPLACED now) as (c2 & ok & H2);
    [exists oldOp; exact Hobj1 |].
  destruct (opTransit_lookup _ _ _ _ _ _ _ Hobj1 H2) as (Hobj2 & Hoth2 & Hrec2 & Htab2).
  pose proof (buryOperator_end c2 old _ now Hobj2 (transit_REPLACED_end oldOp now)) as H3.
  eexists. split.
  - unfold replaceOld. rewrite Hold. rewrite H1. simpl.
    unfold opReplace. rewrite H2. simpl. exact H3.
  - simpl. split; [rewrite Htab2, Htab1, Hid; reflexivity |].
    split; [exact Hobj2 |].
    split; [intros q Hq; rewrite (Hoth2 q Hq), Hobjs1; reflexivity |].
    unfold RegionID. rewrite transit_info. fold (RegionID oldOp).
    rewrite Hid, Hrec2, Hrec1. reflexivity.
Qed.

(** The part of [addOperatorLocked] after the replacement leaves the
    replaced operator and the records alone and can only file [p]. *)
Lemma addOperatorLocked_after_replace c p now c' b old :
  old <> p ->
  addOperatorLocked c p now = Ret (c', b) ->
  exists op c1, objs c !! p = Some op /\ replaceOld c (RegionID op) now = Ret c1 /\
    objs c' !! old = objs c1 !! old /\ opRecords c' = opRecords c1 /\
    operators c' = (if b then <[RegionID op := p]> (operators c1) else operators c1).
Proof.
  intros Hne. rewrite addOperatorLocked_unfold. intros Hr. bind_inv Hr. rename a into op.
  apply deref_Ret in Hstep. simpl in Hr.
  bind_inv Hr. rename a into c1. exists op, c1. split; [exact Hstep |].
  split; [exact Hstep0 |].
  bind_inv Hr. destruct a as [c2 started].
  pose proof (opTransit_frame _ _ _ _ _ _ old Hne Hstep1) as F12.
  destruct started; simpl in Hr.
  - bind_inv Hr. rename a into infl. bind_inv Hr. rename a into c3.
    bind_inv Hr. destruct a as [c4 step]. injection Hr as <- <-. simpl.
    pose proof (takeStoreLimits_frame
                  (set_operators c2 (<[RegionID op := p]> (operators c2))) infl now old) as Ft.
    pose proof (updateCounts_frame _ _ old Hstep3) as Fu.
    assert (F34 : frame old c3 c4).
    { destruct (GetRegion _ _) as [region |].
      - bind_inv Hstep4. destruct a as [c5 st5].
        pose proof (opCheck_frame _ _ _ _ _ _ old Hne Hstep5) as F35.
        destruct st5; injection Hstep4 as <- <-;
          [eapply frame_trans; [exact F35 | apply SendScheduleCommand_frame] | exact F35].
      - injection Hstep4 as <- <-. apply frame_refl. }
    destruct F12, Ft, Fu, F34. simpl in *. repeat split; congruence.
  - injection Hr as <- <-. destruct F12. simpl. auto.
Qed.

(** Admitting a new operator [p] for a region whose slot holds [old]:
    [old] leaves the table, [Replace] is applied to it (a started operator
    becomes replaced), and it is buried with that status. *)
Lemma addOperatorLocked_replaces c p op old oldOp now :
  WF c -> objs c !! p = Some op ->
  operators c !! RegionID op = Some old -> objs c !! old = Some oldOp -> old <> p ->
  exists c' b, addOperatorLocked c p now = Ret (c', b) /\
    operators c' !! RegionID op = (if b then Some p else None) /\
    objs c' !! old = Some (fst (transit oldOp REPLACED now)) /\
    Status (fst (transit oldOp REPLACED now))
    = (if IsEndStatus (Status oldOp) then Status oldOp else REPLACED) /\
    opRecords c' !! RegionID op
    = Some (old, Status (fst (transit oldOp REPLACED now))).
Proof.
  intros Hwf Hp Hold Hobj Hne.
  destruct (addOperatorLocked_total c p now Hwf) as (c' & b & Hr); [exists op; exact Hp |].
  exists c', b. split; [exact Hr |].
  destruct (addOperatorLocked_after_replace _ _ _ _ _ old Hne Hr)
    as (op' & c1 & Hp' & H1 & Hobj' & Hrec' & Htab').
  assert (op' = op) as -> by congruence.
  destruct (replaceOld_occupied c (RegionID op) old oldOp now Hwf Hold Hobj)
    as (c1' & H1' & Htab1 & Hobj1 & _ & Hrec1).
  assert (c1' = c1) as -> by congruence.
  split.
  - rewrite Htab', Htab1. destruct b.
    + apply lookup_insert_eq.
    + apply lookup_delete_eq.
  - split; [rewrite Hobj'; exact Hobj1 |].
    split; [apply transit_REPLACED_status |].
    rewrite Hrec', Hrec1. apply lookup_insert_eq.
Qed.

(** *** Promotion, waiting operators, dispatch *)

Lemma wopStatusAdd_quiet c desc d : quiet c (wopStatusAdd c desc d).
Proof. apply quiet_of_eqs; reflexivity. Qed.

Lemma pushHistory_quiet c op : quiet c (pushHistory c op).
Proof. apply quiet_of_eqs; reflexivity. Qed.

Lemma anyHotSplit_total c ops :
  Forall (valid c) ops -> exists b, anyHotSplit c ops = Ret b.
Proof.
  intros Hv. unfold anyHotSplit.
  match goal with |- context [foldM ?st ?l ?a] =>
    destruct (foldM_total (fun _ => True) st l a I) as (b & -> & _) end; [| eauto].
  intros b p Hin _. rewrite Forall_forall in Hv.
  destruct (deref_valid c p (Hv _ Hin)) as [op ->]. simpl. eauto.
Qed.

Lemma draw_calm c got w :
  Buckets_GetOperator (wop c) = (got, w) -> calm c (set_wop c w).
Proof.
  intros Hg. split; [| reflexivity]. split; try reflexivity; simpl; auto.
  - apply ext_same_objs. reflexivity.
  - intros p Hp. left. eapply GetOperator_left; eauto.
Qed.

Lemma putWaiting_calm c p op : valid c p -> calm c (putWaiting c p op).
Proof.
  intros Hv. split; [| reflexivity]. split; try reflexivity; simpl; auto.
  - apply ext_same_objs. reflexivity.
  - intros q Hq. apply PutOperator_sub in Hq. apply elem_of_cons in Hq as [-> | Hq]; auto.
Qed.

Lemma bump_grows c : grows c (set_promoteCalls c (S (promoteCalls c))).
Proof. split; try reflexivity; simpl; auto. apply ext_same_objs. reflexivity. Qed.

Lemma promoteLoop_calm fuel : forall c retOps now c' r,
  promoteLoop fuel c retOps now = Ret (c', r) ->
  calm c c' /\ (WF c -> Forall (valid c) retOps -> Forall (valid c') r).
Proof.
  induction fuel as [| fuel IH]; intros c retOps now c' r; simpl; [discriminate |].
  destruct (Buckets_GetOperator (wop c)) as [got w] eqn:Hg.
  pose proof (draw_calm _ _ _ Hg) as C0.
  destruct got as [ops |].
  - destruct ops as [| first rest] eqn:Hops; [discriminate |]. rewrite <- Hops in *.
    intros Hr. bind_inv Hr. rename a into firstOp. bind_inv Hr. destruct a as [c1 ok].
    pose proof (admissible_quiet _ _ _ _ _ Hstep0) as Q1.
    assert (Hdrawn : WF c -> Forall (valid (set_wop c w)) ops).
    { intros Hwf. apply Forall_forall. intros p Hp.
      destruct (GetOperator_drawn _ _ _ Hg) as (_ & Hsub & _).
      eapply calm_valid; [exact C0 |]. eapply wf_wait; [exact Hwf |]. apply Hsub. exact Hp. }
    destruct ok; simpl in Hr.
    + bind_inv Hr. rename a into cont.
      assert (C2 : calm c (wopStatusAdd c1 (Desc firstOp) (-1))).
      { eapply calm_trans; [exact C0 |]. apply quiet_calm.
        eapply quiet_trans; [exact Q1 | apply wopStatusAdd_quiet]. }
      destruct cont.
      * apply IH in Hr as [C3 V3]. split; [eapply calm_trans; eassumption |].
        intros Hwf Hv. apply V3; [eapply WF_calm; eauto |].
        apply Forall_app. split; [eapply Forall_valid_calm; [exact C2 | exact Hv] |].
        eapply Forall_valid_quiet; [| apply Hdrawn; exact Hwf].
        eapply quiet_trans; [exact Q1 | apply wopStatusAdd_quiet].
      * injection Hr as <- <-. split; [exact C2 |].
        intros Hwf Hv.
        apply Forall_app. split; [eapply Forall_valid_calm; [exact C2 | exact Hv] |].
        eapply Forall_valid_quiet; [| apply Hdrawn; exact Hwf].
        eapply quiet_trans; [exact Q1 | apply wopStatusAdd_quiet].
    + bind_inv Hr. rename a into c2.
      pose proof (cancelAndBury_quiet _ _ _ _ Hstep1) as Q2.
      assert (Q3 : quiet (set_wop c w) (wopStatusAdd c2 (Desc firstOp) (-1))).
      { eapply quiet_trans; [exact Q1 |]. eapply quiet_trans; [exact Q2 |].
        apply wopStatusAdd_quiet. }
      assert (C3 : calm c (wopStatusAdd c2 (Desc firstOp) (-1))).
      { eapply calm_trans; [exact C0 | apply quiet_calm; exact Q3]. }
      apply IH in Hr as [C4 V4]. split; [eapply calm_trans; eassumption |].
      intros Hwf Hv. apply V4; [eapply WF_calm; eauto |].
      apply Forall_app. split; [eapply Forall_valid_calm; [exact C3 | exact Hv] |].
      eapply Forall_valid_quiet; [exact Q3 | apply Hdrawn; exact Hwf].
  - intros [= <- <-]. split; [exact C0 |].
    intros _ Hv. eapply Forall_valid_calm; eauto.
Qed.

Lemma promoteLoop_total fuel : forall c retOps now,
  WF c -> (length (Buckets_ListOperator (wop c)) < fuel)%nat ->
  exists c' r, promoteLoop fuel c retOps now = Ret (c', r).
Proof.
  induction fuel as [| fuel IH]; intros c retOps now Hwf Hlen; simpl; [lia |].
  destruct (Buckets_GetOperator (wop c)) as [got w] eqn:Hg.
  pose proof (draw_calm _ _ _ Hg) as C0.
  destruct got as [ops |]; [| eauto].
  destruct (GetOperator_drawn _ _ _ Hg) as (Hne & Hsub & Hshrink).
  destruct ops as [| first rest] eqn:Hops; [contradiction |]. rewrite <- Hops in *.
  assert (Hwf0 : WF (set_wop c w)) by (eapply WF_calm; eauto).
  assert (Hv0 : Forall (valid (set_wop c w)) ops).
  { apply Forall_forall. intros p Hp. eapply calm_valid; [exact C0 |].
    eapply wf_wait; [exact Hwf |]. apply Hsub. exact Hp. }
  assert (Hfirst : valid (set_wop c w) first).
  { rewrite Forall_forall in Hv0. apply Hv0. rewrite Hops. left. }
  destruct (deref_valid _ _ Hfirst) as [firstOp Hd]. rewrite Hd. simpl.
  destruct (admissible_total (set_wop c w) ops now Hwf0 Hv0) as (c1 & ok & H1).
  rewrite H1. simpl.
  pose proof (admissible_quiet _ _ _ _ _ H1) as Q1.
  destruct ok; simpl.
  - destruct (anyHotSplit_total (wopStatusAdd c1 (Desc firstOp) (-1)) ops) as [cont Hc].
    { eapply Forall_valid_quiet; [| exact Hv0].
      eapply quiet_trans; [exact Q1 | apply wopStatusAdd_quiet]. }
    rewrite Hc. simpl. destruct cont; [| eauto].
    apply IH.
    + eapply WF_quiet; [apply wopStatusAdd_quiet |]. eapply WF_quiet; eauto.
    + simpl. rewrite (quiet_wop _ _ Q1). simpl. lia.
  - destruct (cancelAndBury_total ops c1 now) as (c2 & H2).
    { eapply Forall_valid_quiet; eauto. }
    rewrite H2. simpl.
    pose proof (cancelAndBury_quiet _ _ _ _ H2) as Q2.
    apply IH.
    + eapply WF_quiet; [apply wopStatusAdd_quiet |].
      eapply WF_quiet; [exact Q2 |]. eapply WF_quiet; eauto.
    + simpl. rewrite (quiet_wop _ _ Q2), (quiet_wop _ _ Q1). simpl. lia.
Qed.

(** A promotion is a step of the controller and counts as one call. *)
Lemma PromoteWaitingOperator_grows c now c' :
  PromoteWaitingOperator c now = Ret c' ->
  grows c c' /\ promoteCalls c' = S (promoteCalls c).
Proof.
  unfold PromoteWaitingOperator. intros Hr. bind_inv Hr. destruct a as [c1 retOps].
  bind_inv Hr. destruct a as [c2 b]. injection Hr as <-.
  apply promoteLoop_calm in Hstep as [[G1 P1] _].
  apply addOperatorsLocked_calm in Hstep0 as [G2 P2].
  split.
  - eapply grows_trans; [apply bump_grows |]. eapply grows_trans; eassumption.
  - rewrite P2, P1. reflexivity.
Qed.

Lemma PromoteWaitingOperator_total c now :
  WF c -> exists c', PromoteWaitingOperator c now = Ret c'.
Proof.
  intros Hwf. unfold PromoteWaitingOperator.
  set (c0 := set_promoteCalls c (S (promoteCalls c))).
  assert (Hwf0 : WF c0) by (eapply WF_grows; [apply bump_grows | exact Hwf]).
  destruct (promoteLoop_total (S (length (Buckets_ListOperator (wop c0)))) c0 [] now Hwf0)
    as (c1 & retOps & H1); [lia |].
  rewrite H1. simpl.
  destruct (promoteLoop_calm _ _ _ _ _ _ H1) as [C1 V1].
  destruct (addOperatorsLocked_total retOps c1 now) as (c2 & b & H2).
  - eapply WF_calm; eauto.
  - apply V1; [exact Hwf0 | constructor].
  - rewrite H2. simpl. eauto.
Qed.

Lemma cancelBuryOne_quiet c p now c1 b c2 :
  opCancel c p now = Ret (c1, b) -> buryOperator c1 p now = Ret c2 -> quiet c c2.
Proof.
  intros H1 H2. apply opTransit_quiet in H1. apply buryOperator_quiet in H2.
  eapply quiet_trans; eassumption.
Qed.

Lemma cancelBuryOne_total c p now :
  valid c p -> exists c1 b c2,
    opCancel c p now = Ret (c1, b) /\ buryOperator c1 p now = Ret c2.
Proof.
  intros Hv. destruct (opTransit_total c p CANCELED now Hv) as (c1 & b & H1).
  destruct (buryOperator_total c1 p now) as (c2 & H2).
  { eapply quiet_valid; [eapply opTransit_quiet; eauto | exact Hv]. }
  exists c1, b, c2. split; assumption.
Qed.

Lemma enqueue_one_calm c p op desc :
  valid c p -> calm c (wopStatusAdd (putWaiting c p op) desc 1).
Proof.
  intros Hv.
  exact (calm_trans _ _ _ (putWaiting_calm c p op Hv)
           (quiet_calm _ _ (wopStatusAdd_quiet (putWaiting c p op) desc 1))).
Qed.

Lemma enqueue_pair_calm c p op q next desc :
  valid c p -> valid c q ->
  calm c (wopStatusAdd (putWaiting (putWaiting c p op) q next) desc 1).
Proof.
  intros Hp Hq.
  pose proof (putWaiting_calm c p op Hp) as P1.
  pose proof (putWaiting_calm (putWaiting c p op) q next (calm_valid _ _ _ P1 Hq)) as P2.
  exact (calm_trans _ _ _ P1
           (calm_trans _ _ _ P2
              (quiet_calm _ _
                 (wopStatusAdd_quiet (putWaiting (putWaiting c p op) q next) desc 1)))).
Qed.

Lemma addWaitingLoop_calm n : forall ops c added now c' a exit,
  (length ops <= n)%nat ->
  addWaitingLoop c ops added now = Ret (c', a, exit) -> calm c c'.
Proof.
  induction n as [| n IH]; intros ops c added now c' a exit Hlen;
    destruct ops as [| p rest]; simpl in *; try lia;
    try (intros [= <- <- <-]; apply calm_refl).
  intros Hr. bind_inv Hr. rename a0 into op.
  assert (Hvp : valid c p) by (exists op; apply deref_Ret; exact Hstep).
  destruct (isKind op OpMerge).
  - destruct rest as [| q rest'].
    + injection Hr as <- <- <-. apply quiet_calm. apply logError_quiet.
    + bind_inv Hr. rename a0 into next.
      assert (Hvq : valid c q) by (exists next; apply deref_Ret; exact Hstep0).
      destruct (negb (isKind next OpMerge)).
      * injection Hr as <- <- <-. apply quiet_calm. apply logError_quiet.
      * bind_inv Hr. destruct a0 as [c1 ok].
        pose proof (checkAddOperator_quiet _ _ _ _ _ Hstep1) as Q1.
        destruct ok; simpl in Hr.
        -- apply IH in Hr; [| simpl in Hlen; lia].
           eapply calm_trans; [| exact Hr].
           eapply calm_trans; [apply quiet_calm; exact Q1 |].
           apply enqueue_pair_calm; eapply quiet_valid; eauto.
        -- bind_inv Hr. destruct a0 as [c2 b2]. bind_inv Hr. rename a0 into c3.
           bind_inv Hr. destruct a0 as [c4 b4]. bind_inv Hr. rename a0 into c5.
           injection Hr as <- <- <-. apply quiet_calm.
           eapply quiet_trans; [exact Q1 |].
           eapply quiet_trans; eapply cancelBuryOne_quiet; eassumption.
  - bind_inv Hr. destruct a0 as [c1 ok].
    pose proof (checkAddOperator_quiet _ _ _ _ _ Hstep0) as Q1.
    destruct ok; simpl in Hr.
    + apply IH in Hr; [| lia].
      eapply calm_trans; [| exact Hr].
      eapply calm_trans; [apply quiet_calm; exact Q1 |].
      apply enqueue_one_calm. eapply quiet_valid; eauto.
    + bind_inv Hr. destruct a0 as [c2 b2]. bind_inv Hr. rename a0 into c3.
      injection Hr as <- <- <-. apply quiet_calm.
      eapply quiet_trans; [exact Q1 |]. eapply cancelBuryOne_quiet; eassumption.
Qed.

Lemma addWaitingLoop_total n : forall ops c added now,
  (length ops <= n)%nat -> WF c -> Forall (valid c) ops ->
  exists c' a exit, addWaitingLoop c ops added now = Ret (c', a, exit).
Proof.
  induction n as [| n IH]; intros ops c added now Hlen Hwf Hv;
    destruct ops as [| p rest]; simpl in *; try lia; eauto.
  apply Forall_cons in Hv as [Hvp Hv].
  destruct (deref_valid _ _ Hvp) as [op Hd]. rewrite Hd. simpl.
  assert (Hone : Forall (valid c) [p]) by (constructor; [exact Hvp | constructor]).
  destruct (checkAddOperator_total c [p] now Hwf Hone) as (c1 & ok & H1).
  pose proof (checkAddOperator_quiet _ _ _ _ _ H1) as Q1.
  destruct (isKind op OpMerge).
  - destruct rest as [| q rest']; [eauto |].
    apply Forall_cons in Hv as [Hvq Hv].
    destruct (deref_valid _ _ Hvq) as [next Hdq]. rewrite Hdq. simpl.
    destruct (negb (isKind next OpMerge)); [eauto |].
    rewrite H1. simpl. destruct ok; simpl.
    + set (c2 := wopStatusAdd (putWaiting (putWaiting c1 p op) q next) (Desc op) 1).
      assert (C2 : calm c c2).
      { eapply calm_trans; [apply quiet_calm; exact Q1 |].
        apply enqueue_pair_calm; eapply quiet_valid; eauto. }
      apply IH; [simpl in Hlen; lia | eapply WF_calm; eauto |
                 eapply Forall_valid_calm; eauto].
    + destruct (cancelBuryOne_total c1 p now) as (c2 & b2 & c3 & H2 & H3);
        [eapply quiet_valid; eauto |].
      rewrite H2. simpl. rewrite H3. simpl.
      destruct (cancelBuryOne_total c3 q now) as (c4 & b4 & c5 & H4 & H5).
      { eapply quiet_valid; [eapply cancelBuryOne_quiet; eauto |].
        eapply quiet_valid; eauto. }
      rewrite H4. simpl. rewrite H5. simpl. eauto.
  - rewrite H1. simpl. destruct ok; simpl.
    + set (c2 := wopStatusAdd (putWaiting c1 p op) (Desc op) 1).
      assert (C2 : calm c c2).
      { eapply calm_trans; [apply quiet_calm; exact Q1 |].
        apply enqueue_one_calm. eapply quiet_valid; eauto. }
      apply IH; [lia | eapply WF_calm; eauto | eapply Forall_valid_calm; eauto].
    + destruct (cancelBuryOne_total c1 p now) as (c2 & b2 & c3 & H2 & H3);
        [eapply quiet_valid; eauto |].
      rewrite H2. simpl. rewrite H3. simpl. eauto.
Qed.

Lemma AddWaitingOperator_grows c ops now c' added :
  AddWaitingOperator c ops now = Ret (c', added) -> grows c c'.
Proof.
  unfold AddWaitingOperator. intros Hr. bind_inv Hr. destruct a as [[c1 n] exit].
  apply (addWaitingLoop_calm (length ops)) in Hstep as [G1 _]; [| lia].
  destruct exit; try (injection Hr as <- <-; exact G1);
    bind_inv Hr; injection Hr as <- <-;
    apply PromoteWaitingOperator_grows in Hstep as [G2 _];
    eapply grows_trans; eassumption.
Qed.

Lemma AddOperator_calm c ops now c' b :
  AddOperator c ops now = Ret (c', b) -> calm c c'.
Proof.
  unfold AddOperator. intros Hr. bind_inv Hr. destruct a as [c1 ok].
  pose proof (admissible_quiet _ _ _ _ _ Hstep) as Q1.
  destruct ok; simpl in Hr.
  - apply addOperatorsLocked_calm in Hr.
    eapply calm_trans; [apply quiet_calm; exact Q1 | exact Hr].
  - bind_inv Hr. injection Hr as <- <-. apply quiet_calm.
    eapply quiet_trans; [exact Q1 | eapply cancelAndBury_quiet; eauto].
Qed.

Lemma removeAndPromote_grows c p now c' b :
  removeAndPromote c p now = Ret (c', b) -> grows c c'.
Proof.
  unfold removeAndPromote. intros Hr. bind_inv Hr. destruct a as [c1 removed].
  apply RemoveOperator_calm in Hstep as [G1 _]. destruct removed.
  - bind_inv Hr. injection Hr as <- <-.
    apply PromoteWaitingOperator_grows in Hstep as [G2 _].
    eapply grows_trans; eassumption.
  - injection Hr as <- <-. exact G1.
Qed.

Lemma checkStaleOperator_grows c p step region now c' b :
  checkStaleOperator c p step region now = Ret (c', b) -> grows c c'.
Proof.
  unfold checkStaleOperator. destruct step as [st |]; [| discriminate].
  intros Hr. bind_inv Hr. destruct a as [c1 handled].
  assert (G1 : grows c c1).
  { destruct (CheckSafety st region).
    - eapply removeAndPromote_grows; eauto.
    - injection Hstep as <- <-. apply grows_refl. }
  destruct handled.
  - injection Hr as <- <-. exact G1.
  - bind_inv Hr. destruct (_ <? _).
    + apply removeAndPromote_grows in Hr. eapply grows_trans; eassumption.
    + injection Hr as <- <-. exact G1.
Qed.

Lemma Dispatch_grows c region source now c' :
  Dispatch c region source now = Ret c' -> grows c c'.
Proof.
  unfold Dispatch. destruct (GetOperator c (regID region)) as [p |];
    [| intros [= <-]; apply grows_refl].
  intros Hr. bind_inv Hr. destruct a as [c1 step].
  apply opCheck_quiet in Hstep. apply quiet_grows in Hstep.
  bind_inv Hr. rename a into op.
  destruct (Status op).
  - (* CREATED *)
    bind_inv Hr. destruct a as [c2 removed].
    apply removeOperatorLocked_calm in Hstep1 as [G2 _]. destruct removed.
    + bind_inv Hr. destruct a as [c3 b3]. bind_inv Hr. rename a into c4.
      apply opTransit_quiet in Hstep1. apply buryOperator_quiet in Hstep2.
      apply PromoteWaitingOperator_grows in Hr as [G5 _].
      eapply grows_trans; [exact Hstep |]. eapply grows_trans; [exact G2 |].
      eapply grows_trans; [apply quiet_grows; apply logError_quiet |].
      eapply grows_trans; [apply quiet_grows; exact Hstep1 |].
      eapply grows_trans; [apply quiet_grows; exact Hstep2 | exact G5].
    + injection Hr as <-. eapply grows_trans; eassumption.
  - (* STARTED *)
    bind_inv Hr. destruct a as [c2 stale].
    assert (G2 : grows c1 c2).
    { destruct (decide _).
      - eapply checkStaleOperator_grows; eauto.
      - injection Hstep1 as <- <-. apply grows_refl. }
    destruct stale; injection Hr as <-.
    + eapply grows_trans; eassumption.
    + eapply grows_trans; [exact Hstep |]. eapply grows_trans; [exact G2 |].
      apply quiet_grows. apply SendScheduleCommand_quiet.
  - (* SUCCESS *)
    bind_inv Hr. destruct a as [c2 b]. injection Hr as <-.
    apply removeAndPromote_grows in Hstep1.
    eapply grows_trans; [exact Hstep |].
    eapply grows_trans; [apply quiet_grows; apply pushHistory_quiet | exact Hstep1].
  - (* CANCELED *)
    bind_inv Hr. destruct a as [c2 removed].
    apply removeOperatorLocked_calm in Hstep1 as [G2 _]. destruct removed.
    + bind_inv Hr. destruct a as [c3 b3]. bind_inv Hr. rename a into c4.
      apply opTransit_quiet in Hstep1. apply buryOperator_quiet in Hstep2.
      apply PromoteWaitingOperator_grows in Hr as [G5 _].
      eapply grows_trans; [exact Hstep |]. eapply grows_trans; [exact G2 |].
      eapply grows_trans; [apply quiet_grows; apply logError_quiet |].
      eapply grows_trans; [apply quiet_grows; exact Hstep1 |].
      eapply grows_trans; [apply quiet_grows; exact Hstep2 | exact G5].
    + injection Hr as <-. eapply grows_trans; eassumption.
  - (* REPLACED *)
    bind_inv Hr. destruct a as [c2 removed].
    apply removeOperatorLocked_calm in Hstep1 as [G2 _]. destruct removed.
    + bind_inv Hr. destruct a as [c3 b3]. bind_inv Hr. rename a into c4.
      apply opTransit_quiet in Hstep1. apply buryOperator_quiet in Hstep2.
      apply PromoteWaitingOperator_grows in Hr as [G5 _].
      eapply grows_trans; [exact Hstep |]. eapply grows_trans; [exact G2 |].
      eapply grows_trans; [apply quiet_grows; apply logError_quiet |].
      eapply grows_trans; [apply quiet_grows; exact Hstep1 |].
      eapply grows_trans; [apply quiet_grows; exact Hstep2 | exact G5].
    + injection Hr as <-. eapply grows_trans; eassumption.
  - (* EXPIRED *)
    bind_inv Hr. destruct a as [c2 removed].
    apply removeOperatorLocked_calm in Hstep1 as [G2 _]. destruct removed.
    + bind_inv Hr. destruct a as [c3 b3]. bind_inv Hr. rename a into c4.
      apply opTransit_quiet in Hstep1. apply buryOperator_quiet in Hstep2.
      apply PromoteWaitingOperator_grows in Hr as [G5 _].
      eapply grows_trans; [exact Hstep |]. eapply grows_trans; [exact G2 |].
      eapply grows_trans; [apply quiet_grows; apply logError_quiet |].
      eapply grows_trans; [apply quiet_grows; exact Hstep1 |].
      eapply grows_trans; [apply quiet_grows; exact Hstep2 | exact G5].
    + injection Hr as <-. eapply grows_trans; eassumption.
  - (* TIMEOUT *)
    bind_inv Hr. destruct a as [c2 b]. injection Hr as <-.
    apply removeAndPromote_grows in Hstep1.
    eapply grows_trans; eassumption.
Qed.

Lemma popMin_sub q : forall x q', popMin q = Some (x, q') ->
  x ∈ q /\ forall y, y ∈ q' -> y ∈ q.
Proof.
  induction q as [| z q IH]; intros x q'; simpl; [discriminate |].
  destruct (popMin q) as [[y rest'] |].
  - destruct (IH y rest' eq_refl) as [Hy Hrest].
    destruct (snd z <=? snd y); intros [= <- <-].
    + split; [left |]. intros w Hw. right. exact Hw.
    + split; [right; exact Hy |].
      intros w Hw. apply elem_of_cons in Hw as [-> | Hw]; [left | right; auto].
  - intros [= <- <-]. split; [left |]. intros y Hy. inversion Hy.
Qed.

Lemma pop_calm c x q :
  popMin (opNotifierQueue c) = Some (x, q) -> calm c (set_opNotifierQueue c q).
Proof.
  intros Hp. apply popMin_sub in Hp as [_ Hsub].
  split; [| reflexivity]. split; try reflexivity; simpl; auto.
  apply ext_same_objs. reflexivity.
Qed.

Lemma pollNeedDispatchRegion_calm c now c' r next :
  pollNeedDispatchRegion c now = Ret (c', r, next) -> calm c c'.
Proof.
  unfold pollNeedDispatchRegion.
  destruct (popMin (opNotifierQueue c)) as [[item q] |] eqn:Hpop;
    [| intros [= <- <- <-]; apply calm_refl].
  pose proof (pop_calm _ _ _ Hpop) as C0.
  intros Hr. bind_inv Hr. rename a into itemOp.
  assert (Hvi : valid (set_opNotifierQueue c q) (fst item)).
  { exists itemOp. apply deref_Ret. exact Hstep. }
  simpl in Hr.
  destruct (operators c !! RegionID itemOp) as [p |];
    [| injection Hr as <- <- <-; exact C0].
  destruct (GetRegion (cluster c) (RegionID itemOp)) as [region |].
  - bind_inv Hr. destruct a as [c1 step].
    pose proof (opCheck_quiet _ _ _ _ _ _ Hstep0) as Q1.
    assert (C1 : calm c c1) by (eapply calm_trans; [exact C0 | apply quiet_calm; exact Q1]).
    pose proof (quiet_valid _ _ _ Q1 Hvi) as Hv1.
    destruct step as [st |]; [| injection Hr as <- <- <-; exact C1].
    destruct (now <? snd item); injection Hr as <- <- <-.
    + eapply calm_trans; [exact C1 |]. destruct item as [ip it]. apply push_calm. exact Hv1.
    + eapply calm_trans; [exact C1 |]. apply push_calm. exact Hv1.
  - bind_inv Hr. destruct a as [c1 b1]. bind_inv Hr. destruct a as [c2 b2].
    bind_inv Hr. rename a into c3. injection Hr as <- <- <-.
    apply removeOperatorLocked_calm in Hstep0.
    eapply calm_trans; [exact C0 |]. eapply calm_trans; [exact Hstep0 |].
    apply quiet_calm. eapply cancelBuryOne_quiet; eassumption.
Qed.

Lemma SetOperator_calm c p c' : SetOperator c p = Ret c' -> calm c c'.
Proof.
  unfold SetOperator. intros Hr. bind_inv Hr. rename a into op.
  apply deref_Ret in Hstep. apply updateCounts_quiet in Hr.
  eapply calm_trans; [exact (insert_calm c (RegionID op) p op Hstep eq_refl) |].
  apply quiet_calm. exact Hr.
Qed.

Lemma allocate_calm c op : calm c (allocate c op).
Proof.
  split; [| reflexivity]. split; try reflexivity; simpl; auto.
  intros q oq Hq. simpl. exists oq. split; [| reflexivity].
  rewrite lookup_insert_ne; [exact Hq |].
  intros Heq. pose proof (is_fresh (dom (objs c))) as Hf.
  apply Hf. rewrite Heq. apply elem_of_dom. eauto.
Qed.

Lemma WF_new cl : WF (NewOperatorController cl).
Proof.
  split; simpl.
  - intros r p Hp. rewrite lookup_empty in Hp. discriminate.
  - intros x Hx. inversion Hx.
  - intros p Hp. exfalso. exact (NewRandBuckets_empty p Hp).
Qed.

Lemma reachable_WF c : reachable c -> WF c.
Proof.
  induction 1 as [cl | c op _ IH | c cl _ IH | c ops now c' b _ IH Hr
                 | c ops now c' added _ IH Hr | c now c' _ IH Hr
                 | c region source now c' _ IH Hr | c p now c' b _ IH Hr
                 | c now c' r next _ IH Hr | c p c' _ IH Hr].
  - apply WF_new.
  - eapply WF_calm; [apply allocate_calm | exact IH].
  - destruct IH as [Ht Hq Hw]. split; assumption.
  - eapply WF_calm; [eapply AddOperator_calm; eauto | exact IH].
  - eapply WF_grows; [eapply AddWaitingOperator_grows; eauto | exact IH].
  - eapply WF_grows; [eapply PromoteWaitingOperator_grows; eauto | exact IH].
  - eapply WF_grows; [eapply Dispatch_grows; eauto | exact IH].
  - eapply WF_calm; [eapply RemoveOperator_calm; eauto | exact IH].
  - eapply WF_calm; [eapply pollNeedDispatchRegion_calm; eauto | exact IH].
  - eapply WF_calm; [eapply SetOperator_calm; eauto | exact IH].
Qed.

Lemma WF_atMostOne c : WF c -> atMostOne c.
Proof.
  intros [Ht _ _] k1 k2 p1 p2 op1 op2 H1 H2 Ho1 Ho2 Hid.
  destruct (Ht _ _ H1) as (op1' & Ho1' & Hk1).
  destruct (Ht _ _ H2) as (op2' & Ho2' & Hk2).
  assert (op1' = op1) as -> by congruence.
  assert (op2' = op2) as -> by congruence.
  assert (k1 = k2) as -> by congruence.
  split; [reflexivity | congruence].
Qed.

(** C1, as the code has it: in every reachable state of the controller
    (creation of operators, changes of the cluster, [AddOperator],
    [AddWaitingOperator], [PromoteWaitingOperator], [Dispatch],
    [RemoveOperator], the poll of [PushOperators], [SetOperator]) at most
    one operator of the running table has a given region id.  And
    admitting a new operator [p] for a region whose slot holds another
    operator [old] removes [old] from the table, applies [Replace] to it
    and buries it with the status it then has: replaced when [old] was
    created or started, and the end status [old] had already reached
    otherwise, for [Replace] fails there and its result is dropped.  The
    slot then holds [p] when [p] started and is empty otherwise, and at
    most one operator per region still holds. *)
Theorem at_most_one_running_operator c :
  reachable c ->
  atMostOne c /\
  (forall p op old oldOp now,
     objs c !! p = Some op -> operators c !! RegionID op = Some old ->
     objs c !! old = Some oldOp -> old <> p ->
     exists c' b, addOperatorLocked c p now = Ret (c', b) /\
       operators c' !! RegionID op = (if b then Some p else None) /\
       objs c' !! old = Some (fst (transit oldOp REPLACED now)) /\
       Status (fst (transit oldOp REPLACED now))
       = (if IsEndStatus (Status oldOp) then Status oldOp else REPLACED) /\
       opRecords c' !! RegionID op = Some (old, Status (fst (transit oldOp REPLACED now))) /\
       atMostOne c').
Proof.
  intros Hreach. pose proof (reachable_WF _ Hreach) as Hwf.
  split; [apply WF_atMostOne; exact Hwf |].
  intros p op old oldOp now Hp Hold Hobj Hne.
  destruct (addOperatorLocked_replaces c p op old oldOp now Hwf Hp Hold Hobj Hne)
    as (c' & b & Hr & Htab & Hobj' & Hst & Hrec).
  exists c', b. repeat (split; [assumption |]).
  apply WF_atMostOne. eapply WF_calm; [eapply addOperatorLocked_calm; eauto | exact Hwf].
Qed.

(** *** AddWaitingOperator and promotion *)

Lemma AddWaitingOperator_total c ops now :
  WF c -> Forall (valid c) ops ->
  exists c' added, AddWaitingOperator c ops now = Ret (c', added).
Proof.
  intros Hwf Hv. unfold AddWaitingOperator.
  destruct (addWaitingLoop_total (length ops) ops c 0 now (le_n _) Hwf Hv)
    as (c1 & added & exit & H1).
  rewrite H1. simpl.
  pose proof (addWaitingLoop_calm _ _ _ _ _ _ _ _ (le_n _) H1) as C1.
  destruct (PromoteWaitingOperator_total c1 now) as (c2 & H2);
    [eapply WF_calm; eauto |].
  destruct exit; try (rewrite H2; simpl); eauto.
Qed.







(** C6, as the code has it: when a merge operator is followed by a
    non-merge operator, [AddWaitingOperator] logs the error "merge operator
    should be paired" and returns 0; nothing else changes: the merge
    operator is neither canceled nor buried, neither operator is enqueued,
    and no promotion runs. *)
Theorem AddWaitingOperator_unpaired_merge c m x rest mOp xOp now :
  objs c !! m = Some mOp -> objs c !! x = Some xOp ->
  isKind mOp OpMerge = true -> isKind xOp OpMerge = false ->
  AddWaitingOperator c (m :: x :: rest) now
  = Ret (logError c "merge operator should be paired", 0).
Proof.
  intros Hm Hx Hkm Hkx. unfold AddWaitingOperator. simpl.
  apply deref_Ret in Hm. apply deref_Ret in Hx.
  rewrite Hm. simpl. rewrite Hkm. rewrite Hx. simpl. rewrite Hkx. reflexivity.
Qed.

(** The removal of an operator that holds the slot of its region: the slot
    is freed and the counts are refreshed; nothing else changes. *)
Lemma removeOperatorLocked_true c p op :
  WF c -> objs c !! p = Some op -> operators c !! RegionID op = Some p ->
  exists cnt,
    removeOperatorLocked c p
    = Ret (set_counts (set_operators c (delete (RegionID op) (operators c))) cnt, true).
Proof.
  intros Hwf Hp Htab. unfold removeOperatorLocked.
  apply deref_Ret in Hp. rewrite Hp. simpl.
  destruct (decide _) as [_ | Hne]; [| contradiction].
  destruct (updateCounts_total (set_operators c (delete (RegionID op) (operators c))))
    as [c1 H1].
  - intros r q Hq. simpl in Hq. apply lookup_delete_Some in Hq as [_ Hq].
    eapply WF_table_valid in Hq; [| exact Hwf]. exact Hq.
  - rewrite H1. simpl. unfold updateCounts in H1. bind_inv H1.
    injection H1 as <-. exists a. reflexivity.
Qed.

(** [Cancel] and [buryOperator] one after the other: the operator ends (it
    is canceled unless it had ended before) and is recorded with its end
    status. *)
Lemma cancel_bury c p op now :
  objs c !! p = Some op ->
  exists c2,
    opCancel c p now = Ret (c2, snd (transit op CANCELED now)) /\
    buryOperator c2 p now
    = Ret (set_opRecords (store c p (fst (transit op CANCELED now)))
             (<[RegionID op := (p, Status (fst (transit op CANCELED now)))]> (opRecords c))).
Proof.
  intros Hp. unfold opCancel. rewrite (opTransit_eq _ _ _ _ _ Hp).
  eexists. split; [reflexivity |].
  assert (Heq : (if snd (transit op CANCELED now)
                 then store c p (fst (transit op CANCELED now)) else c)
                = store c p (fst (transit op CANCELED now))).
  { unfold transit. destruct (validTrans _ _); simpl; [reflexivity |].
    unfold store. rewrite (insert_id _ _ _ Hp). destruct c; reflexivity. }
  rewrite Heq.
  rewrite (buryOperator_end _ _ (fst (transit op CANCELED now))).
  - unfold RegionID. rewrite transit_info. reflexivity.
  - simpl. apply lookup_insert_eq.
  - apply transit_CANCELED_end.
Qed.


(** [Dispatch] from the notifier queue for a region whose slot an operator
    holds. *)
Lemma Dispatch_running c p op r now st2 step2 :
  WF c -> operators c !! regID r = Some p -> objs c !! p = Some op ->
  RegionID op = regID r -> Check op r now = (st2, step2) ->
  let op2 := mkOperator (opInfo op) st2 in
  let opEnd := fst (transit op2 CANCELED now) in
  exists c'', Dispatch c r DispatchFromNotifierQueue now = Ret c'' /\
    if decide (opStatus st2 = STARTED) then
      c'' = SendScheduleCommand (store c p op2) r step2 DispatchFromNotifierQueue
    else
      IsEndStatus (Status opEnd) = true /\
      exists c3,
        operators c3 = delete (regID r) (operators c) /\
        objs c3 = <[p := opEnd]> (objs c) /\
        opRecords c3 = <[regID r := (p, Status opEnd)]> (opRecords c) /\
        histories c3 = (if decide (opStatus st2 = SUCCESS)
                        then rev (History op2) ++ histories c else histories c) /\
        opNotifierQueue c3 = opNotifierQueue c /\ wop c3 = wop c /\
        promoteCalls c3 = promoteCalls c /\
        PromoteWaitingOperator c3 now = Ret c''.
Proof.
  intros Hwf Htab Hp Hreg Hcheck op2 opEnd.
  pose (c2 := store c p op2).
  assert (Hq2 : quiet c c2) by (apply (store_quiet c p op op2 Hp); reflexivity).
  assert (Hwf2 : WF c2) by (exact (WF_quiet _ _ Hq2 Hwf)).
  assert (Hp2 : objs c2 !! p = Some op2) by (simpl; apply lookup_insert_eq).
  assert (Hreg2 : RegionID op2 = regID r) by exact Hreg.
  assert (Hd : Dispatch c r DispatchFromNotifierQueue now
            = match opStatus st2 with
              | STARTED => Ret (SendScheduleCommand c2 r step2 DispatchFromNotifierQueue)
              | SUCCESS => '(c, _) ← removeAndPromote (pushHistory c2 op2) p now; Ret c
              | TIMEOUT => '(c, _) ← removeAndPromote c2 p now; Ret c
              | _ => '(c, removed) ← removeOperatorWithoutBury c2 p;
                     if (removed : bool) then
                       let c := logError c "dispatching operator with unexpected status" in
                       '(c, _) ← opCancel c p now;
                       c ← buryOperator c p now;
                       PromoteWaitingOperator c now
                     else Ret c
              end).
  { unfold Dispatch, GetOperator. rewrite Htab. unfold opCheck.
    apply deref_Ret in Hp. rewrite Hp. simpl. rewrite Hcheck. simpl.
    fold op2. fold c2. apply deref_Ret in Hp2. rewrite Hp2. simpl.
    change (Status op2) with (opStatus st2).
    destruct (opStatus st2); reflexivity. }
  (* removal, cancel and bury, from a state [b] that differs from [c2] in
     the histories only, with the messages [msgs] logged after the removal *)
  assert (Hret : forall (b : OperatorController) (log : OperatorController -> OperatorController),
            (forall x, quiet x (log x) /\ opRecords (log x) = opRecords x /\
                       histories (log x) = histories x /\ objs (log x) = objs x) ->
            quiet c2 b -> objs b = objs c2 -> opRecords b = opRecords c ->
            exists c1 c2' ok c3 c'',
              removeOperatorLocked b p = Ret (c1, true) /\
              opCancel (log c1) p now = Ret (c2', ok) /\
              buryOperator c2' p now = Ret c3 /\
              PromoteWaitingOperator c3 now = Ret c'' /\
              operators c3 = delete (regID r) (operators c) /\
              objs c3 = <[p := opEnd]> (objs c) /\
              opRecords c3 = <[regID r := (p, Status opEnd)]> (opRecords c) /\
              histories c3 = histories b /\
              opNotifierQueue c3 = opNotifierQueue c /\ wop c3 = wop c /\
              promoteCalls c3 = promoteCalls c).
  { intros b log Hlog Hqb Hob Hrb.
    assert (Hqcb : quiet c b) by (eapply quiet_trans; eassumption).
    assert (Hwfb : WF b) by (exact (WF_quiet _ _ Hqb Hwf2)).
    assert (Hpb2 : objs b !! p = Some op2) by (rewrite Hob; exact Hp2).
    assert (Htb : operators b !! RegionID op2 = Some p).
    { rewrite (quiet_operators _ _ Hqcb), Hreg2. exact Htab. }
    destruct (removeOperatorLocked_true b p op2 Hwfb Hpb2 Htb) as [cnt H1].
    set (c1 := set_counts (set_operators b (delete (RegionID op2) (operators b))) cnt) in *.
    assert (Hwf1 : WF c1).
    { eapply WF_calm; [| exact Hwfb]. eapply removeOperatorLocked_calm. exact H1. }
    destruct (Hlog c1) as (Hq1 & Hr1 & Hh1 & Ho1).
    assert (Hp1 : objs (log c1) !! p = Some op2) by (rewrite Ho1; exact Hpb2).
    destruct (cancel_bury (log c1) p op2 now Hp1) as (c2' & H2 & H3).
    assert (Hwf3 : WF (set_opRecords (store (log c1) p (fst (transit op2 CANCELED now)))
             (<[RegionID op2 := (p, Status (fst (transit op2 CANCELED now)))]>
                (opRecords (log c1))))).
    { eapply WF_quiet; [eapply buryOperator_quiet; exact H3 |].
      eapply WF_quiet; [eapply opTransit_quiet; exact H2 |].
      eapply WF_quiet; [exact Hq1 | exact Hwf1]. }
    destruct (PromoteWaitingOperator_total _ now Hwf3) as [c'' H4].
    exists c1, c2', (snd (transit op2 CANCELED now)). eexists. exists c''.
    split; [exact H1 |]. split; [exact H2 |]. split; [exact H3 |].
    split; [exact H4 |].
    simpl. rewrite Hreg2, Ho1, Hr1, Hh1.
    rewrite (quiet_wop _ _ Hq1), (quiet_queue _ _ Hq1), (quiet_promote _ _ Hq1),
      (quiet_operators _ _ Hq1).
    simpl. rewrite Hob, Hrb, Hreg2.
    rewrite (quiet_wop _ _ Hqcb), (quiet_queue _ _ Hqcb), (quiet_promote _ _ Hqcb),
      (quiet_operators _ _ Hqcb).
    simpl. rewrite insert_insert_eq.
    repeat match goal with |- _ /\ _ => split end; reflexivity. }
  assert (Hend : IsEndStatus (Status opEnd) = true) by apply transit_CANCELED_end.
  assert (Hid : forall x : OperatorController,
            quiet x x /\ opRecords x = opRecords x /\ histories x = histories x /\
            objs x = objs x) by (intros x; auto using quiet_refl).
  assert (Hlg : forall x : OperatorController,
            quiet x (logError x "dispatching operator with unexpected status") /\
            opRecords (logError x "dispatching operator with unexpected status") = opRecords x /\
            histories (logError x "dispatching operator with unexpected status") = histories x /\
            objs (logError x "dispatching operator with unexpected status") = objs x)
    by (intros x; auto using logError_quiet).
  assert (Hrem : forall b c1 c2' ok c3 c'',
            removeOperatorLocked b p = Ret (c1, true) ->
            opCancel c1 p now = Ret (c2', ok) ->
            buryOperator c2' p now = Ret c3 ->
            PromoteWaitingOperator c3 now = Ret c'' ->
            ('(x, _) ← removeAndPromote b p now; Ret x) = Ret c'').
  { intros b c1 c2' ok c3 c'' H1 H2 H3 H4.
    unfold removeAndPromote, RemoveOperator. rewrite H1. simpl. rewrite H2. simpl.
    rewrite H3. simpl. rewrite H4. reflexivity. }
  assert (Hoth : forall c1 c2' ok c3 c'',
            removeOperatorLocked c2 p = Ret (c1, true) ->
            opCancel (logError c1 "dispatching operator with unexpected status") p now
            = Ret (c2', ok) ->
            buryOperator c2' p now = Ret c3 ->
            PromoteWaitingOperator c3 now = Ret c'' ->
            ('(c, removed) ← removeOperatorWithoutBury c2 p;
             if (removed : bool) then
               let c := logError c "dispatching operator with unexpected status" in
               '(c, _) ← opCancel c p now;
               c ← buryOperator c p now;
               PromoteWaitingOperator c now
             else Ret c) = Ret c'').
  { intros c1 c2' ok c3 c'' H1 H2 H3 H4.
    unfold removeOperatorWithoutBury. rewrite H1. simpl. rewrite H2. simpl.
    rewrite H3. simpl. exact H4. }
  destruct (decide (opStatus st2 = STARTED)) as [Hs | Hs].
  - eexists. rewrite Hd, Hs. split; reflexivity.
  - destruct (decide (opStatus st2 = SUCCESS)) as [Hsu | Hsu].
    + destruct (Hret (pushHistory c2 op2) (fun x => x) Hid (pushHistory_quiet _ _)
                  eq_refl eq_refl)
        as (c1 & c2' & ok & c3 & c'' & H1 & H2 & H3 & H4 & Hfields).
      exists c''. split.
      * rewrite Hd, Hsu. exact (Hrem _ _ _ _ _ _ H1 H2 H3 H4).
      * split; [exact Hend |]. exists c3.
        destruct Hfields as (? & ? & ? & ? & ? & ? & ?).
        repeat match goal with |- _ /\ _ => split end; auto.
    + destruct (opStatus st2) eqn:Est; try contradiction.
      all: try (destruct (Hret c2 (fun x => logError x "dispatching operator with unexpected status")
                           Hlg (quiet_refl _) eq_refl eq_refl)
                  as (c1 & c2' & ok & c3 & c'' & H1 & H2 & H3 & H4 & Hfields);
                exists c''; split;
                [ rewrite Hd; exact (Hoth _ _ _ _ _ H1 H2 H3 H4)
                | split; [exact Hend |]; exists c3;
                  destruct Hfields as (? & ? & ? & ? & ? & ? & ?);
                  repeat match goal with |- _ /\ _ => split end; auto ]).
      destruct (Hret c2 (fun x => x) Hid (quiet_refl _) eq_refl eq_refl)
        as (c1 & c2' & ok & c3 & c'' & H1 & H2 & H3 & H4 & Hfields).
      exists c''. split.
      * rewrite Hd. exact (Hrem _ _ _ _ _ _ H1 H2 H3 H4).
      * split; [exact Hend |]. exists c3.
        destruct Hfields as (? & ? & ? & ? & ? & ? & ?).
        repeat match goal with |- _ /\ _ => split end; auto.
Qed.


(** C7, as the code has it: when the entry popped from the notifier queue
    belongs to a region whose running operator has nothing left to do
    ([Check] returns nil), [pollNeedDispatchRegion] does not push the entry
    back and returns the region with [next] true; [PushOperators] then
    calls [Dispatch] for that region and keeps polling.  In a well-formed
    state whose region map files the region under its own id, that
    [Dispatch] returns: it checks the operator once more; when the check
    leaves the operator started it sends the command of the step and the
    operator keeps its slot; otherwise the operator is retired (its slot
    in the running table is freed, it is canceled unless it had ended, it
    is recorded with its end status, and its history is kept when it
    succeeded) and the waiting operators are promoted. *)
Theorem pollNeedDispatchRegion_finished c item q itemOp p pOp r st now :
  popMin (opNotifierQueue c) = Some (item, q) ->
  objs c !! fst item = Some itemOp ->
  operators c !! RegionID itemOp = Some p ->
  GetRegion (cluster c) (RegionID itemOp) = Some r ->
  objs c !! p = Some pOp -> Check pOp r now = (st, None) ->
  exists c',
    pollNeedDispatchRegion c now = Ret (c', Some r, true) /\
    opNotifierQueue c' = q /\
    (forall fuel,
       PushOperators (S fuel) c now
       = match Dispatch c' r DispatchFromNotifierQueue now with
         | Panic => Some Panic
         | Ret c'' => PushOperators fuel c'' now
         end) /\
    (WF c -> regID r = RegionID itemOp ->
     forall st2 step2, Check (mkOperator (opInfo pOp) st) r now = (st2, step2) ->
     let op2 := mkOperator (opInfo pOp) st2 in
     let opEnd := fst (transit op2 CANCELED now) in
     exists c'', Dispatch c' r DispatchFromNotifierQueue now = Ret c'' /\
       if decide (opStatus st2 = STARTED) then
         c'' = SendScheduleCommand (store c' p op2) r step2 DispatchFromNotifierQueue
       else
         IsEndStatus (Status opEnd) = true /\
         exists c3,
           operators c3 = delete (regID r) (operators c) /\
           objs c3 = <[p := opEnd]> (objs c) /\
           opRecords c3 = <[regID r := (p, Status opEnd)]> (opRecords c) /\
           histories c3 = (if decide (opStatus st2 = SUCCESS)
                           then rev (History op2) ++ histories c else histories c) /\
           opNotifierQueue c3 = q /\ wop c3 = wop c /\
           promoteCalls c3 = promoteCalls c /\
           PromoteWaitingOperator c3 now = Ret c'').
Proof.
  intros Hpop Hitem Htab Hreg Hp Hcheck.
  set (c' := store (set_opNotifierQueue c q) p (mkOperator (opInfo pOp) st)).
  assert (Hpoll : pollNeedDispatchRegion c now = Ret (c', Some r, true)).
  { unfold pollNeedDispatchRegion. rewrite Hpop.
    assert (Hd : deref (set_opNotifierQueue c q) (fst item) = Ret itemOp)
      by (apply deref_Ret; exact Hitem).
    rewrite Hd. simpl. rewrite Htab, Hreg.
    unfold opCheck.
    assert (Hd' : deref (set_opNotifierQueue c q) p = Ret pOp)
      by (apply deref_Ret; exact Hp).
    rewrite Hd'. simpl. rewrite Hcheck. reflexivity. }
  exists c'. split; [exact Hpoll |]. split; [reflexivity |].
  split; [intros fuel; simpl; rewrite Hpoll; reflexivity |].
  intros Hwf Hid st2 step2 Hcheck2 op2 opEnd.
  assert (Hwf' : WF c').
  { eapply WF_calm; [| exact Hwf]. eapply pollNeedDispatchRegion_calm. exact Hpoll. }
  destruct (wf_table c Hwf _ _ Htab) as (pOp' & Hp' & Hrp).
  assert (pOp' = pOp) by congruence. subst pOp'.
  destruct (Dispatch_running c' p (mkOperator (opInfo pOp) st) r now st2 step2 Hwf')
    as (c'' & Hd & Heff).
  - simpl. rewrite Hid. exact Htab.
  - simpl. apply lookup_insert_eq.
  - unfold RegionID in *. simpl. congruence.
  - exact Hcheck2.
  - exists c''. split; [exact Hd |].
    simpl in Heff. fold op2 in Heff. fold opEnd in Heff.
    destruct (decide (opStatus st2 = STARTED)); [exact Heff |].
    destruct Heff as (Hend & c3 & H1 & H2 & H3 & H4 & H5 & H6 & H7 & H8).
    split; [exact Hend |]. exists c3.
    rewrite insert_insert_eq in H2.
    repeat match goal with |- _ /\ _ => split end; assumption.
Qed.


(** *** The counts of running operators *)

Lemma wrap_u64_range z : 0 <= wrap_u64 z < uint64_mod.
Proof. unfold wrap_u64, uint64_mod. apply Z.mod_pos_bound. lia. Qed.

Lemma wrap_u64_small z : 0 <= z < uint64_mod -> wrap_u64 z = z.
Proof. unfold wrap_u64. apply Z.mod_small. Qed.

Lemma wrap_u64_add_l a b : wrap_u64 (wrap_u64 a + b) = wrap_u64 (a + b).
Proof. unfold wrap_u64, uint64_mod. rewrite Zplus_mod_idemp_l. reflexivity. Qed.

Lemma wrap_u64_add_r a b : wrap_u64 (a + wrap_u64 b) = wrap_u64 (a + b).
Proof. unfold wrap_u64, uint64_mod. rewrite Zplus_mod_idemp_r. reflexivity. Qed.

Lemma sumMask_range mask m : 0 <= sumMask mask m < uint64_mod.
Proof.
  unfold sumMask. rewrite map_fold_foldr.
  induction (map_to_list m) as [| [k v] l IH]; simpl.
  - unfold uint64_mod. lia.
  - destruct (Z.land k mask =? 0); [exact IH | apply wrap_u64_range].
Qed.

Lemma sumMask_insert_fresh mask m k v :
  m !! k = None ->
  sumMask mask (<[k := v]> m)
  = if Z.land k mask =? 0 then sumMask mask m else wrap_u64 (sumMask mask m + v).
Proof.
  intros Hk. unfold sumMask. rewrite map_fold_insert_L; [reflexivity | | exact Hk].
  intros j1 j2 z1 z2 y _ _ _.
  destruct (Z.land j1 mask =? 0), (Z.land j2 mask =? 0); try reflexivity.
  rewrite !wrap_u64_add_l. f_equal. lia.
Qed.

Lemma sumMask_bump mask m k :
  sumMask mask (<[k := wrap_u64 (default 0 (m !! k) + 1)]> m)
  = wrap_u64 (sumMask mask m + (if Z.land k mask =? 0 then 0 else 1)).
Proof.
  destruct (m !! k) as [v |] eqn:Hk; simpl.
  - rewrite <- (insert_delete_id m k v Hk) at 2.
    rewrite <- insert_delete_eq.
    rewrite !sumMask_insert_fresh by apply lookup_delete_eq.
    destruct (Z.land k mask =? 0).
    + rewrite Z.add_0_r. symmetry. apply wrap_u64_small, sumMask_range.
    + rewrite wrap_u64_add_r, wrap_u64_add_l. f_equal. lia.
  - rewrite sumMask_insert_fresh by exact Hk.
    destruct (Z.land k mask =? 0).
    + rewrite Z.add_0_r. symmetry. apply wrap_u64_small, sumMask_range.
    + rewrite wrap_u64_add_r. reflexivity.
Qed.

Lemma tally_count c mask l : forall acc cnt,
  foldM (fun (acc : gmap Z Z) (kv : Z * ptr) =>
           op ← deref c (snd kv);
           Ret (<[Kind op := wrap_u64 (default 0 (acc !! Kind op) + 1)]> acc)) l acc
  = Ret cnt ->
  sumMask mask cnt
  = wrap_u64 (sumMask mask acc +
      Z.of_nat (length (List.filter (fun kv : Z * ptr =>
                                       match objs c !! snd kv with
                                       | Some op => isKind op mask
                                       | None => false
                                       end) l))).
Proof.
  induction l as [| [r p] l IH]; intros acc cnt; cbn [foldM].
  - intros [= <-]. simpl. rewrite Z.add_0_r. symmetry.
    apply wrap_u64_small, sumMask_range.
  - intros Hr. bind_inv Hr. bind_inv Hstep. apply deref_Ret in Hstep0. simpl in Hstep0.
    injection Hstep as <-. apply IH in Hr. rewrite Hr, sumMask_bump, wrap_u64_add_l.
    f_equal. cbn [List.filter snd]. rewrite Hstep0. unfold isKind.
    destruct (Z.land (Kind a0) mask =? 0); cbn [negb length]; lia.
Qed.

(** X12: right after [updateCounts], [OperatorCount(mask)] is the number of
    running operators whose kind shares a bit with [mask], as a [uint64]. *)
Theorem updateCounts_OperatorCount c c' mask :
  updateCounts c = Ret c' ->
  operators c' = operators c /\ objs c' = objs c /\
  OperatorCount c' mask = wrap_u64 (Z.of_nat (runningOfKind c' mask)).
Proof.
  unfold updateCounts. intros Hr. bind_inv Hr. injection Hr as <-.
  split; [reflexivity |]. split; [reflexivity |].
  unfold OperatorCount, runningOfKind. simpl.
  apply (tally_count c mask) in Hstep. unfold sumMask in Hstep at 2.
  rewrite map_fold_empty in Hstep. exact Hstep.
Qed.

(** *** Store limits, and what AddOperator admits *)

Lemma limitsOnly_refl c : limitsOnly c c.
Proof. split; reflexivity. Qed.

Lemma limitsOnly_trans c1 c2 c3 : limitsOnly c1 c2 -> limitsOnly c2 c3 -> limitsOnly c1 c3.
Proof. intros [] []. split; congruence. Qed.

Lemma newStoreLimit_limitsOnly c s r t : limitsOnly c (newStoreLimit c s r t).
Proof. split; reflexivity. Qed.

Lemma attachAvailableFunc_limitsOnly c s t : limitsOnly c (attachAvailableFunc c s t).
Proof. split; reflexivity. Qed.

Lemma lookup_newStoreLimit_ne c s r t s' t' :
  (s', t') <> (s, t) ->
  lookupStoreLimit (newStoreLimit c s r t) s' t' = lookupStoreLimit c s' t'.
Proof.
  intros Hne. unfold lookupStoreLimit, newStoreLimit. simpl.
  destruct (decide (s' = s)) as [-> | Hs].
  - rewrite lookup_insert_eq. simpl.
    rewrite lookup_insert_ne by congruence.
    destruct (storesLimit c !! s); simpl; [reflexivity | apply lookup_empty].
  - rewrite lookup_insert_ne by congruence. reflexivity.
Qed.

Lemma lookup_attach c s t s' t' :
  lookupStoreLimit (attachAvailableFunc c s t) s' t' = lookupStoreLimit c s' t'.
Proof. reflexivity. Qed.

Lemma getOrCreateStoreLimit_spec c s t :
  exists c' limit,
    getOrCreateStoreLimit c s t = Ret (c', limit) /\
    lookupStoreLimit c' s t = Some limit /\
    (forall l, lookupStoreLimit c s t = Some l ->
       PrimFloat.eqb (ratePerSec c s t) (Rate l) = true -> c' = c /\ limit = l) /\
    ((lookupStoreLimit c s t = None \/
      exists l, lookupStoreLimit c s t = Some l /\
                PrimFloat.eqb (ratePerSec c s t) (Rate l) = false) ->
     limit = NewStoreLimit (ratePerSec c s t) (RegionInfluence t)) /\
    attachedAvailableFuncs (cluster c')
    = attachedAvailableFuncs (cluster c)
      ++ (match lookupStoreLimit c s t with Some _ => [] | None => [(s, t)] end) /\
    (forall s' t', (s', t') <> (s, t) ->
       lookupStoreLimit c' s' t' = lookupStoreLimit c s' t') /\
    limitsOnly c c'.
Proof.
  unfold getOrCreateStoreLimit. fold (ratePerSec c s t).
  set (r := ratePerSec c s t).
  destruct (lookupStoreLimit c s t) as [l |] eqn:Hl.
  - rewrite Hl. destruct (PrimFloat.eqb r (Rate l)) eqn:Hr; cbn [negb].
    + exists c, l. split; [reflexivity |]. split; [exact Hl |].
      split; [intros l' [= <-] _; auto |].
      split; [intros [Hn | (l' & [= <-] & Hf)]; congruence |].
      split; [rewrite app_nil_r; reflexivity |].
      split; [reflexivity | apply limitsOnly_refl].
    + rewrite lookup_newStoreLimit. eexists _, _. split; [reflexivity |].
      split; [apply lookup_newStoreLimit |].
      split; [intros l' [= <-] Ht; congruence |].
      split; [reflexivity |].
      split; [rewrite app_nil_r; reflexivity |].
      split; [intros s' t' Hne; apply lookup_newStoreLimit_ne; exact Hne |].
      apply newStoreLimit_limitsOnly.
  - assert (Hl' : lookupStoreLimit (attachAvailableFunc (newStoreLimit c s r t) s t) s t
                  = Some (NewStoreLimit r (RegionInfluence t))).
    { apply lookup_newStoreLimit. }
    rewrite Hl'.
    destruct (negb (PrimFloat.eqb _ _)).
    + match goal with |- context [lookupStoreLimit (newStoreLimit ?c0 s r t) s t] =>
        rewrite (lookup_newStoreLimit c0 s r t) end.
      eexists _, _. split; [reflexivity |].
      split; [apply lookup_newStoreLimit |].
      split; [intros l' [=] |].
      split; [reflexivity |].
      split; [reflexivity |].
      split.
      * intros s' t' Hne. rewrite lookup_newStoreLimit_ne by exact Hne.
        rewrite lookup_attach. apply lookup_newStoreLimit_ne. exact Hne.
      * eapply limitsOnly_trans; [| apply newStoreLimit_limitsOnly].
        eapply limitsOnly_trans; [apply newStoreLimit_limitsOnly |].
        apply attachAvailableFunc_limitsOnly.
    + eexists _, _. split; [reflexivity |].
      split; [exact Hl' |].
      split; [intros l' [=] |].
      split; [reflexivity |].
      split; [reflexivity |].
      split.
      * intros s' t' Hne. rewrite lookup_attach. apply lookup_newStoreLimit_ne. exact Hne.
      * eapply limitsOnly_trans; [apply newStoreLimit_limitsOnly |].
        apply attachAvailableFunc_limitsOnly.
Qed.

Lemma getOrCreateStoreLimit_limitsOnly c s t c' limit :
  getOrCreateStoreLimit c s t = Ret (c', limit) -> limitsOnly c c'.
Proof.
  intros Hr. destruct (getOrCreateStoreLimit_spec c s t) as (c2 & l2 & Hr2 & _ & _ & _ & _ & _ & Hlo).
  congruence.
Qed.

Lemma exceedLoop_limitsOnly l : forall c now c' b,
  exceedLoop c l now = Ret (c', b) -> limitsOnly c c'.
Proof.
  induction l as [| [[s infl] v] l IH]; intros c now c' b; simpl.
  - intros [= <- <-]. apply limitsOnly_refl.
  - destruct (GetStepCost infl v =? 0); [apply IH |].
    intros Hr. bind_inv Hr. destruct a as [c1 limit].
    apply getOrCreateStoreLimit_limitsOnly in Hstep.
    destruct (Available limit now <? _).
    + injection Hr as <- <-. exact Hstep.
    + apply IH in Hr. eapply limitsOnly_trans; eassumption.
Qed.

Lemma exceedStoreLimit_limitsOnly c ops now c' b :
  exceedStoreLimit c ops now = Ret (c', b) -> limitsOnly c c'.
Proof.
  unfold exceedStoreLimit. intros Hr. bind_inv Hr. eapply exceedLoop_limitsOnly. exact Hr.
Qed.

Lemma checkAddOne_true_inv c p op c' :
  objs c !! p = Some op -> checkAddOne c p = Ret (c', true) -> admissibleOne c op.
Proof.
  intros Hp. unfold checkAddOne. apply deref_Ret in Hp. rewrite Hp. simpl.
  destruct (GetRegion (cluster c) (RegionID op)) as [region |] eqn:Hreg; [| discriminate].
  destruct (negb (_ =? _) || negb (_ =? _)) eqn:Hep; [discriminate |].
  apply orb_false_elim in Hep as [Hv Hc].
  apply negb_false_iff, Z.eqb_eq in Hv. apply negb_false_iff, Z.eqb_eq in Hc.
  intros Hr. bind_inv Hr. destruct a; [discriminate |].
  destruct (bool_decide (Status op = CREATED)) eqn:Hs; simpl in Hr; [| discriminate].
  apply bool_decide_eq_true in Hs.
  destruct (_ <=? _) eqn:Hmax; [discriminate |]. apply Z.leb_gt in Hmax.
  split; [eauto |]. split; [| auto].
  intros oldp old Holdp Hold. rewrite Holdp in Hstep.
  apply deref_Ret in Hold. rewrite Hold in Hstep. simpl in Hstep.
  injection Hstep as Hprio. apply negb_false_iff in Hprio.
  unfold isHigherPriorityOperator in Hprio. apply Z.ltb_lt in Hprio. exact Hprio.
Qed.

Lemma checkAddOne_lower c p op oldp old :
  objs c !! p = Some op -> operators c !! RegionID op = Some oldp ->
  objs c !! oldp = Some old -> GetPriorityLevel op <= GetPriorityLevel old ->
  checkAddOne c p = Ret (c, false).
Proof.
  intros Hp Holdp Hold Hprio. unfold checkAddOne.
  apply deref_Ret in Hp. rewrite Hp. simpl.
  destruct (GetRegion (cluster c) (RegionID op)); [| reflexivity].
  destruct (_ || _); [reflexivity |].
  rewrite Holdp. apply deref_Ret in Hold. rewrite Hold. simpl.
  unfold isHigherPriorityOperator.
  assert (Hlt : (GetPriorityLevel old <? GetPriorityLevel op) = false) by (apply Z.ltb_ge; lia).
  rewrite Hlt. reflexivity.
Qed.

Lemma addOperatorLocked_queue c p now c' :
  addOperatorLocked c p now = Ret (c', true) ->
  exists q step, opNotifierQueue c' = q ++ [(p, getNextPushOperatorTime step now)].
Proof.
  rewrite addOperatorLocked_unfold. intros Hr. bind_inv Hr. simpl in Hr.
  bind_inv Hr. bind_inv Hr. destruct a1 as [c2 started].
  destruct started; simpl in Hr; [| discriminate].
  bind_inv Hr. bind_inv Hr. bind_inv Hr. destruct a3 as [c4 step].
  injection Hr as <-. simpl. eauto.
Qed.

Lemma getNextPushOperatorTime_later step now :
  now + fastNotifyInterval <= getNextPushOperatorTime step now.
Proof.
  unfold getNextPushOperatorTime, fastNotifyInterval, slowNotifyInterval.
  destruct step as [[] |]; lia.
Qed.

(** X14: when [AddOperator] admits an operator, none of the reasons to
    refuse it held: its region is in the cluster at the epoch the operator
    was made for, any operator running for the region had a strictly lower
    priority, the operator was created and not yet expired, and fewer
    operators of its description were waiting than the cluster allows.
    Afterwards the operator is the running operator of its region and
    waits in the notifier queue for a time at least
    [fastNotifyInterval] ahead. *)
Theorem AddOperator_admitted c p op now c' :
  objs c !! p = Some op ->
  AddOperator c [p] now = Ret (c', true) ->
  admissibleOne c op /\
  expiredAt op now = false /\
  GetOperator c' (RegionID op) = Some p /\
  exists t, (p, t) ∈ opNotifierQueue c' /\ now + fastNotifyInterval <= t.
Proof.
  intros Hp Hr. unfold AddOperator in Hr. bind_inv Hr. destruct a as [c1 ok].
  destruct ok; simpl in Hr; [| bind_inv Hr; discriminate].
  unfold admissible in Hstep. bind_inv Hstep. destruct a as [c0 exceed].
  destruct exceed; [discriminate |].
  pose proof (exceedStoreLimit_limitsOnly _ _ _ _ _ Hstep0) as L0.
  assert (Hp0 : objs c0 !! p = Some op) by (rewrite (lo_objs _ _ L0); exact Hp).
  unfold checkAddOperator in Hstep. bind_inv Hstep. destruct a as [c0' ok].
  destruct ok; [| discriminate].
  cbn [checkAddLoop] in Hstep1. bind_inv Hstep1. destruct a as [c0'' ok1].
  destruct ok1; [| discriminate]. injection Hstep1 as <-.
  pose proof (checkAddOne_true_inv _ _ _ _ Hp0 Hstep2) as Hadm.
  apply checkAddOne_passed in Hstep2 as [-> _].
  bind_inv Hstep. destruct a as [c2 expired]. injection Hstep as <- Hexp.
  apply negb_true_iff in Hexp. subst expired.
  cbn [checkExpiredLoop] in Hstep1. bind_inv Hstep1. destruct a as [c3 e].
  destruct e; [injection Hstep1 as _ Habs; discriminate |].
  injection Hstep1 as <-.
  unfold opCheckExpired in Hstep. rewrite (proj2 (deref_Ret _ _ _) Hp0) in Hstep.
  simpl in Hstep.
  destruct Hadm as (Hreg & Hprio & Hcreated & Hmax).
  unfold CheckExpired in Hstep. rewrite Hcreated in Hstep.
  destruct (expiredAt op now) eqn:He; [discriminate |].
  injection Hstep as <-.
  split.
  { split; [| split; [| split; [exact Hcreated |]]].
    - destruct Hreg as (region & Hg & Hv & Hc). exists region.
      unfold GetRegion in *. rewrite <- (lo_regions _ _ L0). auto.
    - intros oldp old Ho Hold. apply (Hprio oldp old).
      + rewrite (lo_operators _ _ L0). exact Ho.
      + rewrite (lo_objs _ _ L0). exact Hold.
    - rewrite <- (lo_wopStatus _ _ L0), <- (lo_max _ _ L0). exact Hmax. }
  split; [reflexivity |].
  cbn [addOperatorsLocked] in Hr. bind_inv Hr. destruct a as [c4 ok].
  destruct ok; [| discriminate]. injection Hr as <-.
  assert (Hp3 : objs (store c0 p op) !! p = Some op) by (simpl; apply lookup_insert_eq).
  split.
  - assert (Hsucc : Pos.succ p <> p) by lia.
    destruct (addOperatorLocked_after_replace _ _ _ _ _ (Pos.succ p) Hsucc Hstep)
      as (op' & c5 & Hp' & _ & _ & _ & Htab).
    assert (op' = op) as -> by congruence.
    unfold GetOperator. rewrite Htab. apply lookup_insert_eq.
  - destruct (addOperatorLocked_queue _ _ _ _ Hstep) as (q & step & Hq).
    exists (getNextPushOperatorTime step now). split.
    + rewrite Hq. apply elem_of_app. right. left.
    + apply getNextPushOperatorTime_later.
Qed.

(** X15: [AddOperator] does not replace a running operator by one of the
    same or a lower priority: the call returns false, the running table
    and the running operator stay as they were, and the new operator is
    canceled and buried. *)
Theorem AddOperator_keeps_higher_priority c p op oldp old now :
  WF c -> objs c !! p = Some op -> p <> oldp ->
  operators c !! RegionID op = Some oldp -> objs c !! oldp = Some old ->
  GetPriorityLevel op <= GetPriorityLevel old ->
  exists c', AddOperator c [p] now = Ret (c', false) /\
    operators c' = operators c /\
    objs c' !! oldp = Some old /\
    objs c' !! p = Some (fst (transit op CANCELED now)) /\
    opRecords c' !! RegionID op = Some (p, Status (fst (transit op CANCELED now))).
Proof.
  intros Hwf Hp Hne Holdp Hold Hprio.
  assert (Hv : Forall (valid c) [p]) by (constructor; [exists op; exact Hp | constructor]).
  destruct (exceedStoreLimit_total c [p] now Hv) as (c0 & exceed & H0).
  pose proof (exceedStoreLimit_limitsOnly _ _ _ _ _ H0) as L0.
  assert (Hp0 : objs c0 !! p = Some op) by (rewrite (lo_objs _ _ L0); exact Hp).
  assert (Hold0 : objs c0 !! oldp = Some old) by (rewrite (lo_objs _ _ L0); exact Hold).
  assert (Hadm : admissible c [p] now = Ret (c0, false)).
  { unfold admissible. rewrite H0. simpl. destruct exceed; [reflexivity |].
    unfold checkAddOperator. cbn [checkAddLoop].
    rewrite (checkAddOne_lower c0 p op oldp old); auto.
    rewrite (lo_operators _ _ L0). exact Holdp. }
  destruct (opTransit_total c0 p CANCELED now) as (c1 & ok & H1); [exists op; exact Hp0 |].
  destruct (opTransit_lookup _ _ _ _ _ _ _ Hp0 H1) as (Hp1 & Hoth1 & Hrec1 & Htab1).
  pose proof (buryOperator_end c1 p _ now Hp1 (transit_CANCELED_end op now)) as H2.
  eexists. split.
  - unfold AddOperator. rewrite Hadm. simpl. unfold opCancel. rewrite H1. simpl.
    rewrite H2. simpl. reflexivity.
  - simpl. split; [rewrite Htab1; apply (lo_operators _ _ L0) |].
    split; [rewrite (Hoth1 oldp) by congruence; exact Hold0 |].
    split; [exact Hp1 |].
    unfold RegionID. rewrite transit_info. apply lookup_insert_eq.
Qed.


End Controller.

(** *** The history *)

Section History.

Context `{HistoryClock}.

Lemma dropWhile_split {A} (f : A -> bool) (l : list A) :
  exists gone, l = gone ++ dropWhile f l /\ Forall (fun x => f x = true) gone /\
    match dropWhile f l with
    | x :: _ => f x = false
    | [] => True
    end.
Proof.
  induction l as [| x l (gone & Hl & Hg & Hd)]; simpl.
  - exists []. auto.
  - destruct (f x) eqn:Hx.
    + exists (x :: gone). simpl. rewrite <- Hl. auto.
    + exists []. simpl. auto.
Qed.

Lemma takeWhile_app_false {A} (f : A -> bool) (l gone : list A) :
  Forall (fun x => f x = false) gone -> takeWhile f (l ++ gone) = takeWhile f l.
Proof.
  intros Hg. induction l as [| x l IH]; simpl.
  - destruct gone as [| y gone]; [reflexivity |]. simpl.
    apply Forall_cons in Hg as [-> _]. reflexivity.
  - rewrite IH. reflexivity.
Qed.

Lemma PruneHistory_split c now :
  exists gone,
    histories c = histories (PruneHistory c now) ++ gone /\
    Forall (fun h => historyKeepTime < now - FinishTime h) gone /\
    match last (histories (PruneHistory c now)) with
    | Some h => now - FinishTime h <= historyKeepTime
    | None => True
    end.
Proof.
  unfold PruneHistory. simpl.
  destruct (dropWhile_split (outdated now) (rev (histories c))) as (gone & Hl & Hg & Hd).
  exists (rev gone). split; [| split].
  - rewrite <- rev_app_distr, <- Hl, rev_involutive. reflexivity.
  - apply Forall_rev. eapply Forall_impl; [exact Hg |].
    intros h Hh. unfold outdated in Hh. apply Z.ltb_lt in Hh. exact Hh.
  - destruct (dropWhile (outdated now) (rev (histories c))) as [| x rest]; [exact I |].
    simpl. rewrite last_snoc. unfold outdated in Hd. apply Z.ltb_ge in Hd. exact Hd.
Qed.

(** X16: [PruneHistory] cuts entries from the back of the history only, each
    of them finished more than [historyKeepTime] ago, and it stops at the
    first entry from the back that is not: what is left ends with an entry
    no older than that, whatever lies before it. *)
Theorem PruneHistory_suffix c now :
  exists gone,
    histories c = histories (PruneHistory c now) ++ gone /\
    Forall (fun h => historyKeepTime < now - FinishTime h) gone /\
    match last (histories (PruneHistory c now)) with
    | Some h => now - FinishTime h <= historyKeepTime
    | None => True
    end.
Proof. apply PruneHistory_split. Qed.

(** X17: pruning at time [now] does not change what [GetHistory] returns
    for a start no earlier than [now] minus [historyKeepTime]. *)
Theorem GetHistory_after_prune c now start :
  now - historyKeepTime <= start ->
  GetHistory (PruneHistory c now) start = GetHistory c start.
Proof.
  intros Hstart. destruct (PruneHistory_split c now) as (gone & Hl & Hg & _).
  unfold GetHistory. set (pruned := histories (PruneHistory c now)) in *.
  rewrite Hl. symmetry. apply takeWhile_app_false.
  eapply Forall_impl; [exact Hg |]. intros h Hh. simpl in Hh.
  apply negb_false_iff, Z.ltb_lt. lia.
Qed.

End History.

#[local] Existing Instance exampleExternals.

Lemma stateTwoCreated_reachable : reachable stateTwoCreated.
Proof. unfold stateTwoCreated. do 2 apply reach_create. apply reach_new. Qed.

Lemma stateLowRunning_reachable : reachable stateLowRunning.
Proof.
  eapply (reach_AddOperator stateTwoCreated [1%positive] 100 _ true).
  - exact stateTwoCreated_reachable.
  - vm_compute. reflexivity.
Qed.

Lemma stateMergeAndLow_reachable : reachable stateMergeAndLow.
Proof. unfold stateMergeAndLow. do 2 apply reach_create. apply reach_new. Qed.

(** Priority replacement: the low-priority operator runs for region 9 and
    the high-priority one is admitted. *)
Lemma at_most_one_witness :
  reachable stateLowRunning /\ atMostOne stateLowRunning /\
  exists c' b, addOperatorLocked stateLowRunning 2%positive 200 = Ret (c', b) /\
    operators c' !! 9 = (if b then Some 2%positive else None) /\
    objs c' !! 1%positive = Some (fst (transit opLowStarted REPLACED 200)) /\
    Status (fst (transit opLowStarted REPLACED 200)) = REPLACED /\
    opRecords c' !! 9 = Some (1%positive, REPLACED).
Proof.
  split; [exact stateLowRunning_reachable |].
  destruct (at_most_one_running_operator stateLowRunning stateLowRunning_reachable)
    as [Hone Hrep].
  split; [exact Hone |].
  destruct (Hrep 2%positive opHigh 1%positive opLowStarted 200)
    as (c' & b & Hr & Htab & Hobj & Hst & Hrec & _).
  - vm_compute. reflexivity.
  - vm_compute. reflexivity.
  - vm_compute. reflexivity.
  - discriminate.
  - exists c', b. split; [exact Hr |]. split; [exact Htab |]. split; [exact Hobj |].
    split; [exact Hst | exact Hrec].
Defined.

Lemma stateDoneRunning_reachable : reachable stateDoneRunning.
Proof.
  eapply (reach_AddOperator (allocate (NewOperatorController exCluster) opDone)
            [1%positive] 100 _ true).
  - apply reach_create. apply reach_new.
  - vm_compute. reflexivity.
Qed.

Lemma stateDoneAndHigh_reachable : reachable stateDoneAndHigh.
Proof. apply reach_create. exact stateDoneRunning_reachable. Qed.

(** The operator without steps has finished and still holds the slot of
    region 9 when the high-priority operator is admitted: it is evicted
    and buried as a success, not marked replaced. *)
Lemma replaced_operator_keeps_success :
  reachable stateDoneAndHigh /\
  operators stateDoneAndHigh !! 9 = Some 1%positive /\
  exists c', AddOperator stateDoneAndHigh [2%positive] 200 = Ret (c', true) /\
    operators c' !! 9 = Some 2%positive /\
    Status <$> objs c' !! 1%positive = Some SUCCESS /\
    opRecords c' !! 9 = Some (1%positive, SUCCESS) /\
    SUCCESS <> REPLACED.
Proof.
  split; [exact stateDoneAndHigh_reachable |].
  split; [vm_compute; reflexivity |].
  eexists.
  repeat match goal with |- _ /\ _ => split end;
    try (vm_compute; reflexivity).
  discriminate.
Qed.

(** Four seconds after its creation the low-priority operator is past the
    cap of three seconds. *)
Lemma expired_operator_witness :
  expiredAt opLow 4000000000 = true /\
  (exists c', checkAddOperator stateTwoCreated [1%positive] 4000000000 = Ret (c', false)) /\
  (exists c', AddOperator stateTwoCreated [1%positive] 4000000000 = Ret (c', false) /\
              operators c' = operators stateTwoCreated).
Proof.
  split; [vm_compute; reflexivity |].
  apply (expired_operator_blocks_admission stateTwoCreated [1%positive] 4000000000
           1%positive opLow).
  - apply reachable_WF. exact stateTwoCreated_reachable.
  - constructor; [| constructor]. exists opLow. vm_compute. reflexivity.
  - left.
  - vm_compute. reflexivity.
  - vm_compute. reflexivity.
Defined.

(** The slot of region 9 holds the low-priority operator; removing the
    high-priority one does nothing, removing the low-priority one does. *)
Lemma RemoveOperator_witness :
  (operators stateLowRunning !! RegionID opHigh <> Some 2%positive ->
     RemoveOperator stateLowRunning 2%positive 300 = Ret (stateLowRunning, false)) /\
  (operators stateLowRunning !! RegionID opLowStarted = Some 1%positive ->
     exists c', RemoveOperator stateLowRunning 1%positive 300 = Ret (c', true) /\
       operators c' = delete (RegionID opLowStarted) (operators stateLowRunning) /\
       objs c' !! 1%positive = Some (fst (transit opLowStarted CANCELED 300)) /\
       (IsEndStatus (Status opLowStarted) = false ->
          Status (fst (transit opLowStarted CANCELED 300)) = CANCELED) /\
       opRecords c' !! RegionID opLowStarted
       = Some (1%positive, Status (fst (transit opLowStarted CANCELED 300)))).
Proof.
  split.
  - apply (RemoveOperator_identity stateLowRunning 2%positive opHigh 300).
    + apply reachable_WF. exact stateLowRunning_reachable.
    + vm_compute. reflexivity.
  - apply (RemoveOperator_identity stateLowRunning 1%positive opLowStarted 300).
    + apply reachable_WF. exact stateLowRunning_reachable.
    + vm_compute. reflexivity.
Defined.



Lemma AddWaitingOperator_unpaired_merge_witness :
  AddWaitingOperator stateMergeAndLow [1%positive; 2%positive] 100
  = Ret (logError stateMergeAndLow "merge operator should be paired", 0).
Proof.
  refine (AddWaitingOperator_unpaired_merge stateMergeAndLow 1%positive 2%positive []
            opMergeOne opLow 100 _ _ _ _).
  - vm_compute. reflexivity.
  - vm_compute. reflexivity.
  - vm_compute. reflexivity.
  - vm_compute. reflexivity.
Defined.

(** After the call with a merge operator and a leader transfer the merge
    operator is still created, not canceled, and no record of it exists. *)
Lemma AddWaitingOperator_unpaired_merge_not_buried :
  exists c', AddWaitingOperator stateMergeAndLow [1%positive; 2%positive] 100 = Ret (c', 0) /\
    Status <$> objs c' !! 1%positive = Some CREATED /\
    opRecords c' !! 9 = None.
Proof.
  eexists.
  repeat match goal with |- _ /\ _ => split end; vm_compute; reflexivity.
Qed.

Lemma pollNeedDispatchRegion_finished_witness :
  exists c' c3 c'',
    pollNeedDispatchRegion stateDoneRunning 200 = Ret (c', Some region9, true) /\
    opNotifierQueue c' = [] /\
    (forall fuel,
       PushOperators (S fuel) stateDoneRunning 200
       = match Dispatch c' region9 DispatchFromNotifierQueue 200 with
         | Panic => Some Panic
         | Ret c'' => PushOperators fuel c'' 200
         end) /\
    Dispatch c' region9 DispatchFromNotifierQueue 200 = Ret c'' /\
    operators c3 = delete 9 (operators stateDoneRunning) /\
    opRecords c3 = <[9 := (1%positive, SUCCESS)]> (opRecords stateDoneRunning) /\
    opNotifierQueue c3 = [] /\
    PromoteWaitingOperator c3 200 = Ret c''.
Proof.
  refine (match pollNeedDispatchRegion_finished stateDoneRunning (1%positive, 5000000100) []
                  _ 1%positive _ region9 _ 200 _ _ _ _ _ _ with
          | ex_intro _ c' (conj Hpoll (conj Hq (conj Hpush Hd))) => _
          end).
  - vm_compute. reflexivity.
  - vm_compute. reflexivity.
  - vm_compute. reflexivity.
  - vm_compute. reflexivity.
  - vm_compute. reflexivity.
  - vm_compute. reflexivity.
  - refine (match Hd (reachable_WF _ stateDoneRunning_reachable) eq_refl
                    (mkState SUCCESS 100 100 0) None eq_refl with
            | ex_intro _ c'' (conj Hdis (conj _ (ex_intro _ c3
                (conj Ht (conj _ (conj Hr (conj _ (conj Hq3 (conj _ (conj _ Hpr)))))))))) => _
            end).
    exists c', c3, c''.
    split; [exact Hpoll |]. split; [exact Hq |]. split; [exact Hpush |].
    split; [exact Hdis |]. split; [exact Ht |]. split; [exact Hr |].
    split; [exact Hq3 | exact Hpr].
Defined.

(** The region of the finished operator is dispatched in the same round:
    [PushOperators] retires the operator (the table is empty, the records
    hold it as a success) and promotes. *)
Lemma PushOperators_dispatches_finished :
  exists c1 c2,
    pollNeedDispatchRegion stateDoneRunning 200 = Ret (c1, Some region9, true) /\
    operators c1 !! 9 = Some 1%positive /\
    PushOperators 2 stateDoneRunning 200 = Some (Ret c2) /\
    operators c2 !! 9 = None /\
    opRecords c2 !! 9 = Some (1%positive, SUCCESS) /\
    promoteCalls c2 = S (promoteCalls stateDoneRunning).
Proof.
  do 2 eexists.
  repeat match goal with |- _ /\ _ => split end; vm_compute; reflexivity.
Qed.


#[local] Existing Instance exampleHistoryClock.

(** The counts after one operator of kind 1 was admitted. *)
Lemma updateCounts_OperatorCount_witness :
  exists c', updateCounts stateLowRunning = Ret c' /\
    OperatorCount c' 1 = wrap_u64 (Z.of_nat (runningOfKind c' 1)).
Proof.
  assert (E : exists c', updateCounts stateLowRunning = Ret c')
    by (vm_compute; eexists; reflexivity).
  destruct E as (c' & E). exists c'. split; [exact E |].
  apply (updateCounts_OperatorCount _ _ 1 E).
Defined.

(** The low-priority operator is admitted at time 100. *)
Lemma AddOperator_admitted_witness :
  exists c', AddOperator stateTwoCreated [1%positive] 100 = Ret (c', true) /\
    admissibleOne stateTwoCreated opLow /\
    GetOperator c' (RegionID opLow) = Some 1%positive.
Proof.
  assert (E : exists c', AddOperator stateTwoCreated [1%positive] 100 = Ret (c', true))
    by (vm_compute; eexists; reflexivity).
  destruct E as (c' & E). exists c'. split; [exact E |].
  destruct (AddOperator_admitted stateTwoCreated 1%positive opLow 100 c') as (Ha & _ & Hg & _).
  - vm_compute. reflexivity.
  - exact E.
  - auto.
Defined.

Lemma stateLowRunningTwice_reachable : reachable stateLowRunningTwice.
Proof. apply reach_create. exact stateLowRunning_reachable. Qed.

(** A second low-priority operator does not replace the first. *)
Lemma AddOperator_keeps_higher_priority_witness :
  exists c', AddOperator stateLowRunningTwice [3%positive] 200 = Ret (c', false) /\
    operators c' = operators stateLowRunningTwice /\
    objs c' !! 1%positive = Some opLowStarted /\
    objs c' !! 3%positive = Some (fst (transit opLow CANCELED 200)) /\
    opRecords c' !! RegionID opLow
    = Some (3%positive, Status (fst (transit opLow CANCELED 200))).
Proof.
  refine (AddOperator_keeps_higher_priority stateLowRunningTwice 3%positive opLow
            1%positive opLowStarted 200 _ _ _ _ _ _).
  - apply reachable_WF. exact stateLowRunningTwice_reachable.
  - vm_compute. reflexivity.
  - discriminate.
  - vm_compute. reflexivity.
  - vm_compute. reflexivity.
  - vm_compute. discriminate.
Defined.

(** Two entries that finished at time 0, pruned at 400 seconds and read
    from 100 seconds on. *)
Lemma GetHistory_after_prune_witness :
  GetHistory (PruneHistory (set_histories stateLowRunning [tt; tt]) 400000000000) 100000000000
  = GetHistory (set_histories stateLowRunning [tt; tt]) 100000000000.
Proof.
  refine (GetHistory_after_prune (set_histories stateLowRunning [tt; tt])
            400000000000 100000000000 _).
  vm_compute. discriminate.
Defined.

End ScheduleTheory.

(** * Properties of the region heartbeat *)

Module ClusterTheory.

Import Statistics StatisticsTheory Cluster.

Section Heartbeat.

Context `{Collaborators} {topn : TopNQueries}.

(** *** A heartbeat that changes nothing *)

Lemma CheckWriteStatus_nil g c region now c' :
  CheckWriteStatus g c region now = Ret (c', []) -> c' = c.
Proof.
  unfold CheckWriteStatus. intros Hr. bind_inv Hr. destruct a as [f items].
  injection Hr as <- ->. apply CheckRegionFlow_nil_keeps_cache in Hstep as ->.
  destruct c as [? ? ? ? ? [? ?] ? ? ? ?]. reflexivity.
Qed.

Lemma CheckReadStatus_nil g c region now c' :
  CheckReadStatus g c region now = Ret (c', []) -> c' = c.
Proof.
  unfold CheckReadStatus. intros Hr. bind_inv Hr. destruct a as [f items].
  injection Hr as <- ->. apply CheckRegionFlow_nil_keeps_cache in Hstep as ->.
  destruct c as [? ? ? ? ? [? ?] ? ? ? ?]. reflexivity.
Qed.

(** C9: a heartbeat against a cached region [origin] whose write and read
    checks return no item and whose flags [saveKV], [saveCache] and [isNew]
    all stay false returns nil and leaves the cluster as it was: region
    cache and store aggregates ([core]), statistics, hot caches, storage
    and the changed-regions channel. *)
Theorem processRegionHeartbeat_noop g c region now origin cw cr :
  PreCheckPutRegion (core c) region = inr (Some origin) ->
  CheckWriteStatus g c region now = Ret (cw, []) ->
  CheckReadStatus g c region now = Ret (cr, []) ->
  saveKV (flagsAgainst (traceRegionFlow c) origin region) = false ->
  saveCache (flagsAgainst (traceRegionFlow c) origin region) = false ->
  isNew (flagsAgainst (traceRegionFlow c) origin region) = false ->
  processRegionHeartbeat g c region now = Ret (c, None).
Proof.
  intros Hpre Hw Hr Hkv Hcache Hnew.
  pose proof (CheckWriteStatus_nil _ _ _ _ _ Hw) as ->.
  pose proof (CheckReadStatus_nil _ _ _ _ _ Hr) as ->.
  unfold processRegionHeartbeat. rewrite Hpre, Hw. simpl. rewrite Hr. simpl.
  rewrite Hkv, Hcache, Hnew. reflexivity.
Qed.


(** *** The flags, and what a heartbeat does *)

Lemma flags_cases (b1 b2 b3 b4 b5 b6 b7 b8 b9 b10 : bool) :
  let fl := mkFlags false false false false in
  let fl := if b1 then mkFlags true true (isNew fl) (needSync fl) else fl in
  let fl := if b2 then mkFlags true true (isNew fl) (needSync fl) else fl in
  let fl := if b3 then mkFlags (saveKV fl) true (if b4 then true else isNew fl) true
            else fl in
  let fl := if b5 then mkFlags (saveKV fl) true (isNew fl) (needSync fl) else fl in
  let fl := if b6 then mkFlags (saveKV fl) true (isNew fl) (needSync fl) else fl in
  let fl := if b7 then mkFlags true true (isNew fl) (needSync fl) else fl in
  let fl := if b8 then mkFlags (saveKV fl) true (isNew fl) (needSync fl) else fl in
  let fl := if b9 then mkFlags (saveKV fl) true (isNew fl) true else fl in
  let fl := if b10 then mkFlags (saveKV fl) true (isNew fl) (needSync fl) else fl in
  saveKV fl = b1 || b2 || b7 /\
  needSync fl = b3 || b9 /\
  isNew fl = b3 && b4 /\
  (saveKV fl || needSync fl || isNew fl = true -> saveCache fl = true).
Proof.
  destruct b1, b2, b3, b4, b5, b6, b7, b8, b9, b10; vm_compute; auto.
Qed.

Lemma flagsAgainst_flags trace o r :
  saveKV (flagsAgainst trace o r) = metaChanged o r /\
  needSync (flagsAgainst trace o r) = leaderChanged o r || flowChanged trace o r /\
  isNew (flagsAgainst trace o r) = leaderChanged o r && (leaderId o =? 0) /\
  (saveKV (flagsAgainst trace o r) || needSync (flagsAgainst trace o r)
   || isNew (flagsAgainst trace o r) = true ->
   saveCache (flagsAgainst trace o r) = true).
Proof.
  exact (flags_cases
    (epochVersion (regEpoch o) <? epochVersion (regEpoch r))
    (epochConfVer (regEpoch o) <? epochConfVer (regEpoch r))
    (negb (leaderId r =? leaderId o))
    (leaderId o =? 0)
    ((0 <? Z.of_nat (length (regDownPeers r)))
     || (0 <? Z.of_nat (length (regPendingPeers r))))
    ((0 <? Z.of_nat (length (regDownPeers o)))
     || (0 <? Z.of_nat (length (regPendingPeers o))))
    (negb (length (regPeers r) =? length (regPeers o))%nat)
    (negb (regApproximateSize r =? regApproximateSize o)
     || negb (regApproximateKeys r =? regApproximateKeys o))
    (flowChanged trace o r)
    (negb (regReplicationState r =? 0)
     && (negb (regReplicationState r =? regReplicationState o)
         || negb (regReplicationStateId r =? regReplicationStateId o)))).
Qed.
(** X18: the flags of a heartbeat in closed form.  For a region that is not
    cached, [saveKV], [saveCache] and [isNew] are set.  Against a cached
    region, [saveKV] says that the version or the conf version grew or the
    number of peers differs, [isNew] that the leader changed and the cached
    region had none, [needSync] that the leader changed or, with flow
    tracing on, a flow counter differs.  No flag is set without
    [saveCache]. *)
Theorem saveFlags_closed_form trace origin region :
  let fl := saveFlags trace origin region in
  saveKV fl = match origin with
              | None => true
              | Some o => metaChanged o region
              end /\
  isNew fl = match origin with
             | None => true
             | Some o => leaderChanged o region && (leaderId o =? 0)
             end /\
  needSync fl = match origin with
                | None => false
                | Some o => leaderChanged o region || flowChanged trace o region
                end /\
  (saveKV fl || needSync fl || isNew fl = true -> saveCache fl = true).
Proof.
  destruct origin as [o |]; simpl.
  - destruct (flagsAgainst_flags trace o region) as (A & B & C & D). auto.
  - auto.
Qed.

Lemma CheckWriteStatus_frame g c region now c' items :
  CheckWriteStatus g c region now = Ret (c', items) ->
  exists f, CheckRegionFlow g (writeFlow (hotSpotCache c)) region now = Ret (f, items) /\
    c' = set_hotSpotCache c (mkHotCache f (readFlow (hotSpotCache c))).
Proof.
  unfold CheckWriteStatus. intros Hr. bind_inv Hr. destruct a as [f its].
  injection Hr as <- <-. eauto.
Qed.

Lemma CheckReadStatus_frame g c region now c' items :
  CheckReadStatus g c region now = Ret (c', items) ->
  exists f, CheckRegionFlow g (readFlow (hotSpotCache c)) region now = Ret (f, items) /\
    c' = set_hotSpotCache c (mkHotCache (writeFlow (hotSpotCache c)) f).
Proof.
  unfold CheckReadStatus. intros Hr. bind_inv Hr. destruct a as [f its].
  injection Hr as <- <-. eauto.
Qed.

Lemma fold_hotCacheUpdate_frame items : forall c,
  let c' := fold_left (fun c item => set_hotSpotCache c (hotCacheUpdate (hotSpotCache c) item))
              items c in
  core c' = core c /\ storage c' = storage c /\ regionStats c' = regionStats c /\
  labelLevelStats c' = labelLevelStats c /\ checker c' = checker c /\
  changedRegions c' = changedRegions c /\ traceRegionFlow c' = traceRegionFlow c /\
  locationLabels c' = locationLabels c /\ errorLog c' = errorLog c.
Proof.
  induction items as [| x items IH]; intros c; simpl.
  - repeat split.
  - destruct (IH (set_hotSpotCache c (hotCacheUpdate (hotSpotCache c) x)))
      as (A & B & C & D & E & F & G & I & J).
    simpl in *. repeat split; assumption.
Qed.

Lemma putRegionAndStores_frame c origin region :
  checker (putRegionAndStores c origin region) = checker c /\
  changedRegions (putRegionAndStores c origin region) = changedRegions c /\
  hotSpotCache (putRegionAndStores c origin region) = hotSpotCache c.
Proof.
  unfold putRegionAndStores.
  destruct (PutRegion (core c) region) as [core' overlaps].
  set (P := fun c' : RaftCluster => checker c' = checker c /\
              changedRegions c' = changedRegions c /\ hotSpotCache c' = hotSpotCache c).
  assert (Hfold : forall (A : Type) (step : RaftCluster -> A -> RaftCluster) l c0,
            (forall c1 a, P c1 -> P (step c1 a)) -> P c0 -> P (fold_left step l c0)).
  { intros A step l. induction l as [| a l IH]; intros c0 Hs H0; simpl; auto. }
  change (P (fold_left updateStoreStatusLocked
               (elements
                  (list_to_set (map peerStoreId (regPeers region))
                   ∪ match origin with
                     | Some o => list_to_set (map peerStoreId (regPeers o))
                     | None => ∅
                     end : gset Z))
               (fold_left
                  (fun c item =>
                     let c := match regionStats c with
                              | Some rs => set_regionStats c (Some (ClearDefunctRegion rs (regID item)))
                              | None => c
                              end in
                     set_labelLevelStats c
                       (LabelClearDefunctRegion (labelLevelStats c) (regID item) (locationLabels c)))
                  overlaps
                  (match storage (set_core c core') with
                   | Some _ =>
                       fold_left
                         (fun c item =>
                            match storage c with
                            | Some st =>
                                let '(st', err) := DeleteRegion st item in
                                let c := set_storage c (Some st') in
                                match err with
                                | Some _ => logError c "failed to delete region from storage"
                                | None => c
                                end
                            | None => c
                            end)
                         overlaps (set_core c core')
                   | None => set_core c core'
                   end)))).
  apply Hfold.
  { intros c1 a H1. exact H1. }
  apply Hfold.
  { intros c1 a H1. destruct (regionStats c1); exact H1. }
  assert (H0 : P (set_core c core')) by (repeat split).
  destruct (storage (set_core c core')); [| exact H0].
  apply Hfold; [| exact H0].
  intros c1 a H1. destruct (storage c1) as [st |]; [| exact H1].
  destruct (DeleteRegion st a) as [st' [e |]]; exact H1.
Qed.

Lemma processRegionHeartbeat_after_check g c region now origin c' e :
  PreCheckPutRegion (core c) region = inr origin ->
  processRegionHeartbeat g c region now = Ret (c', e) ->
  let fl := saveFlags (traceRegionFlow c) origin region in
  e = None /\
  changedRegions c'
  = (if (saveKV fl || needSync fl)
        && (Z.of_nat (length (changedRegions c)) <? defaultChangedRegionsLimit)
     then changedRegions c ++ [region] else changedRegions c) /\
  checker c' = (if isNew fl then collect (checker c) region else checker c) /\
  (saveCache fl = false ->
   core c' = core c /\ storage c' = storage c /\
   labelLevelStats c' = labelLevelStats c /\ errorLog c' = errorLog c).
Proof.
  intros Hpre Hrun fl.
  pose proof (saveFlags_closed_form (traceRegionFlow c) origin region) as Hfl.
  cbv zeta in Hfl. fold fl in Hfl. destruct Hfl as (_ & _ & _ & Hcache).
  unfold processRegionHeartbeat in Hrun. rewrite Hpre in Hrun.
  cbv zeta in Hrun.
  bind_inv Hrun. destruct a as [c1 writeItems].
  bind_inv Hrun. destruct a as [c2 readItems].
  apply CheckWriteStatus_frame in Hstep as (fw & _ & ->).
  apply CheckReadStatus_frame in Hstep0 as (fr & _ & ->).
  cbn [traceRegionFlow set_hotSpotCache] in Hrun. fold fl in Hrun.
  set (c2 := set_hotSpotCache (set_hotSpotCache c _) _) in Hrun.
  assert (Hc2 : core c2 = core c /\ storage c2 = storage c /\
            regionStats c2 = regionStats c /\ labelLevelStats c2 = labelLevelStats c /\
            checker c2 = checker c /\ changedRegions c2 = changedRegions c /\
            errorLog c2 = errorLog c) by (repeat split).
  clearbody c2. destruct Hc2 as (Hcore & Hsto & Hrs & Hls & Hck & Hch & Hlog).
  destruct ((length writeItems =? 0)%nat && (length readItems =? 0)%nat
            && negb (saveKV fl) && negb (saveCache fl) && negb (isNew fl)) eqn:Hearly.
  { injection Hrun as <- <-.
    apply andb_prop in Hearly as [Hearly Hnew].
    apply andb_prop in Hearly as [Hearly Hsc].
    apply andb_prop in Hearly as [_ Hkv].
    apply negb_true_iff in Hnew, Hsc, Hkv.
    assert (Hns : needSync fl = false).
    { destruct (needSync fl) eqn:Hn; [| reflexivity].
      rewrite Hcache in Hsc; [discriminate |]. rewrite Hkv, Hnew. reflexivity. }
    rewrite Hkv, Hns, Hnew. simpl.
    split; [reflexivity |]. split; [exact Hch |]. split; [exact Hck |]. auto. }
  clear Hearly.
  assert (Hcached : exists c3,
            (if saveCache fl
             then match PreCheckPutRegion (core c2) region with
                  | inl err => inr err
                  | inr _ => inl (putRegionAndStores c2 origin region)
                  end
             else inl c2) = inl c3 /\
            checker c3 = checker c /\ changedRegions c3 = changedRegions c /\
            (saveCache fl = false -> c3 = c2)).
  { destruct (saveCache fl).
    - rewrite Hcore, Hpre. eexists. split; [reflexivity |].
      destruct (putRegionAndStores_frame c2 origin region) as (A & B & _).
      rewrite A, B. split; [exact Hck |]. split; [exact Hch |]. discriminate.
    - exists c2. split; [reflexivity |]. split; [exact Hck |]. split; [exact Hch |].
      reflexivity. }
  destruct Hcached as (c3 & Heq & Hck3 & Hch3 & Hsame). rewrite Heq in Hrun.
  set (c4 := if isNew fl then set_checker c3 (collect (checker c3) region) else c3) in Hrun.
  assert (Hc4 : checker c4 = (if isNew fl then collect (checker c) region else checker c) /\
            changedRegions c4 = changedRegions c /\
            core c4 = core c3 /\ storage c4 = storage c3 /\
            labelLevelStats c4 = labelLevelStats c3 /\ errorLog c4 = errorLog c3).
  { unfold c4. destruct (isNew fl); simpl; rewrite ?Hck3;
      repeat match goal with |- _ /\ _ => split end; auto. }
  clearbody c4. destruct Hc4 as (Hck4 & Hch4 & Hcore4 & Hsto4 & Hls4 & Hlog4).
  set (c5 := match regionStats c4 with
             | Some rs => set_regionStats c4 (Some (Observe rs region (takeRegionStoresLocked c4 region)))
             | None => c4
             end) in Hrun.
  assert (Hc5 : checker c5 = checker c4 /\ changedRegions c5 = changedRegions c4 /\
            core c5 = core c4 /\ storage c5 = storage c4 /\
            labelLevelStats c5 = labelLevelStats c4 /\ errorLog c5 = errorLog c4).
  { unfold c5. destruct (regionStats c4); simpl;
      repeat match goal with |- _ /\ _ => split end; reflexivity. }
  clearbody c5. destruct Hc5 as (Hck5 & Hch5 & Hcore5 & Hsto5 & Hls5 & Hlog5).
  match type of Hrun with context [fold_left ?step readItems ?c0] =>
    set (c7 := fold_left step readItems c0) in Hrun;
    assert (Hc7 : checker c7 = checker c5 /\ changedRegions c7 = changedRegions c5 /\
              core c7 = core c5 /\ storage c7 = storage c5 /\
              labelLevelStats c7 = labelLevelStats c5 /\ errorLog c7 = errorLog c5)
  end.
  { unfold c7.
    match goal with |- context [fold_left ?step readItems (fold_left ?step writeItems c5)] =>
      destruct (fold_hotCacheUpdate_frame readItems (fold_left step writeItems c5))
        as (A & B & _ & D & E & F & _ & _ & J);
      destruct (fold_hotCacheUpdate_frame writeItems c5)
        as (A' & B' & _ & D' & E' & F' & _ & _ & J')
    end.
    repeat split; congruence. }
  clearbody c7. destruct Hc7 as (Hck7 & Hch7 & Hcore7 & Hsto7 & Hls7 & Hlog7).
  set (c8 := if saveKV fl then _ else c7) in Hrun.
  assert (Hc8 : checker c8 = checker c7 /\ changedRegions c8 = changedRegions c7 /\
            (saveKV fl = false -> c8 = c7)).
  { unfold c8. destruct (saveKV fl); [| auto].
    destruct (storage c7) as [st |]; [| split; [| split]; [reflexivity .. | discriminate]].
    destruct (SaveRegion st region) as [st' [e' |]]; simpl;
      (split; [| split]; [reflexivity .. | discriminate]). }
  clearbody c8. destruct Hc8 as (Hck8 & Hch8 & Hkv8).
  assert (Hlen : length (changedRegions c8) = length (changedRegions c))
    by congruence.
  rewrite Hlen in Hrun.
  assert (Hlast : forall c9 : RaftCluster,
            checker c9 = checker c8 -> core c9 = core c8 -> storage c9 = storage c8 ->
            labelLevelStats c9 = labelLevelStats c8 -> errorLog c9 = errorLog c8 ->
            checker c9 = (if isNew fl then collect (checker c) region else checker c) /\
            (saveCache fl = false ->
             core c9 = core c /\ storage c9 = storage c /\
             labelLevelStats c9 = labelLevelStats c /\ errorLog c9 = errorLog c)).
  { intros c9 A B C D E. split; [congruence |].
    intros Hsc. assert (Hkv : saveKV fl = false).
    { destruct (saveKV fl) eqn:Hk; [| reflexivity].
      rewrite Hcache in Hsc; [discriminate | reflexivity]. }
    rewrite (Hkv8 Hkv) in *. rewrite (Hsame Hsc) in *.
    repeat split; congruence. }
  destruct (saveKV fl || needSync fl); simpl in *.
  - destruct (Z.of_nat (length (changedRegions c)) <? defaultChangedRegionsLimit).
    + injection Hrun as <- <-. split; [reflexivity |]. split.
      * simpl. congruence.
      * apply Hlast; reflexivity.
    + injection Hrun as <- <-. split; [reflexivity |]. split; [congruence |].
      apply Hlast; reflexivity.
  - injection Hrun as <- <-. split; [reflexivity |]. split; [congruence |].
    apply Hlast; reflexivity.
Qed.

(** X19: a heartbeat that runs alone returns an error only when the first
    pre-check of the region refuses it, and then the cluster is as it was:
    the flow checks in between leave the region cache alone, so the second
    pre-check passes like the first. *)
Theorem processRegionHeartbeat_error g c region now c' err :
  processRegionHeartbeat g c region now = Ret (c', Some err) ->
  PreCheckPutRegion (core c) region = inl err /\ c' = c.
Proof.
  intros Hrun. destruct (PreCheckPutRegion (core c) region) as [e | origin] eqn:Hpre.
  - unfold processRegionHeartbeat in Hrun. rewrite Hpre in Hrun.
    injection Hrun as <- <-. auto.
  - destruct (processRegionHeartbeat_after_check _ _ _ _ _ _ _ Hpre Hrun) as [Habs _].
    discriminate.
Qed.

(** X20: a heartbeat that passes the pre-check returns nil.  The region
    goes to the changed-regions channel exactly when [saveKV] or [needSync]
    is set and the channel has room, and to the prepare checker exactly
    when [isNew] is set; without [saveCache] the region cache, the storage,
    the label statistics and the error log stay as they were. *)
Theorem processRegionHeartbeat_effects g c region now origin c' e :
  PreCheckPutRegion (core c) region = inr origin ->
  processRegionHeartbeat g c region now = Ret (c', e) ->
  let fl := saveFlags (traceRegionFlow c) origin region in
  e = None /\
  changedRegions c'
  = (if (saveKV fl || needSync fl)
        && (Z.of_nat (length (changedRegions c)) <? defaultChangedRegionsLimit)
     then changedRegions c ++ [region] else changedRegions c) /\
  checker c' = (if isNew fl then collect (checker c) region else checker c) /\
  (saveCache fl = false ->
   core c' = core c /\ storage c' = storage c /\
   labelLevelStats c' = labelLevelStats c /\ errorLog c' = errorLog c).
Proof. apply processRegionHeartbeat_after_check. Qed.

(** *** The prepare checker *)

Lemma wrap_int_add_l a b : wrap_int (wrap_int a + b) = wrap_int (a + b).
Proof.
  unfold wrap_int.
  replace ((a + 2 ^ 63) mod 2 ^ 64 - 2 ^ 63 + b + 2 ^ 63)
    with ((a + 2 ^ 63) mod 2 ^ 64 + b) by lia.
  rewrite Zplus_mod_idemp_l. do 2 f_equal. lia.
Qed.

Lemma collect_fold peers : forall (m : gmap Z Z) s,
  let m' := fold_left
              (fun (m : gmap Z Z) (p : Peer) =>
                 <[peerStoreId p := int_add (default 0 (m !! peerStoreId p)) 1]> m)
              peers m in
  let n := length (List.filter (fun p => peerStoreId p =? s) peers) in
  (n = 0%nat -> m' !! s = m !! s) /\
  (n <> 0%nat -> m' !! s = Some (wrap_int (default 0 (m !! s) + Z.of_nat n))).
Proof.
  induction peers as [| p peers IH]; intros m s; cbn [fold_left List.filter].
  - simpl. split; [reflexivity | congruence].
  - set (m1 := <[peerStoreId p := int_add (default 0 (m !! peerStoreId p)) 1]> m).
    destruct (IH m1 s) as [IH0 IHn]. cbv zeta in IH0, IHn.
    destruct (peerStoreId p =? s) eqn:Hs.
    + apply Z.eqb_eq in Hs. subst s. cbn [length]. split; [discriminate |]. intros _.
      assert (H1 : m1 !! peerStoreId p = Some (int_add (default 0 (m !! peerStoreId p)) 1))
        by (unfold m1; apply lookup_insert_eq).
      destruct (length (List.filter (fun q => peerStoreId q =? peerStoreId p) peers)) as [| k] eqn:Hk.
      * rewrite (IH0 eq_refl), H1. reflexivity.
      * rewrite (IHn ltac:(discriminate)), H1. simpl default. unfold int_add.
        rewrite wrap_int_add_l. do 2 f_equal. lia.
    + apply Z.eqb_neq in Hs.
      assert (H1 : m1 !! s = m !! s) by (unfold m1; apply lookup_insert_ne; exact Hs).
      split.
      * intros Hn. rewrite (IH0 Hn). exact H1.
      * intros Hn. rewrite (IHn Hn), H1. reflexivity.
Qed.

(** X21: [collect] counts the region once in [sum] and once for every peer
    on its store; a store without a peer of the region keeps its entry,
    or stays without one. *)
Theorem collect_counts ch region s :
  sum (collect ch region) = wrap_int (sum ch + 1) /\
  (peersOn region s = 0%nat ->
   reactiveRegions (collect ch region) !! s = reactiveRegions ch !! s) /\
  (peersOn region s <> 0%nat ->
   reactiveRegions (collect ch region) !! s
   = Some (wrap_int (default 0 (reactiveRegions ch !! s) + Z.of_nat (peersOn region s)))).
Proof.
  split; [reflexivity |]. apply collect_fold.
Qed.


End Heartbeat.

#[local] Existing Instance topNMinExample.
#[local] Existing Instance exampleCollaborators.

(** The same cold report again changes nothing. *)
Lemma processRegionHeartbeat_noop_witness :
  processRegionHeartbeat (mkGlobals minHotThresholds true)
    exampleCluster coldReport 0
  = Ret (exampleCluster, None).
Proof.
  refine (processRegionHeartbeat_noop (mkGlobals minHotThresholds true)
            exampleCluster coldReport 0 coldReport exampleCluster exampleCluster
            _ _ _ _ _ _); vm_compute; reflexivity.
Defined.


(** A report with an epoch behind the cached one is refused. *)
Lemma processRegionHeartbeat_error_witness :
  PreCheckPutRegion (core exampleCluster) staleReport = inl "region is stale" /\
  exampleCluster = exampleCluster.
Proof.
  refine (processRegionHeartbeat_error (mkGlobals minHotThresholds true)
            exampleCluster staleReport 0 exampleCluster "region is stale" _).
  vm_compute. reflexivity.
Defined.

(** A hot report for the cached cold region: the flow changed, the region
    goes to the changed-regions channel; it is not new, the checker stays. *)
Lemma processRegionHeartbeat_effects_witness :
  exists c',
    processRegionHeartbeat (mkGlobals minHotThresholds true) exampleCluster hotReport 0
    = Ret (c', None) /\
    changedRegions c' = [hotReport] /\ checker c' = checker exampleCluster.
Proof.
  assert (E : exists c',
            processRegionHeartbeat (mkGlobals minHotThresholds true) exampleCluster hotReport 0
            = Ret (c', None)) by (vm_compute; eexists; reflexivity).
  destruct E as (c' & E). exists c'. split; [exact E |].
  destruct (processRegionHeartbeat_effects (mkGlobals minHotThresholds true)
              exampleCluster hotReport 0 (Some coldReport) c' None)
    as (_ & Hch & Hck & _).
  - vm_compute. reflexivity.
  - exact E.
  - split; [exact Hch | exact Hck].
Defined.

End ClusterTheory.

(** * Properties of the split reports *)

Module ClusterWorkerTheory.
Import ClusterWorker.

Lemma bytesEqual_eq a : forall b, bytesEqual a b = true <-> a = b.
Proof.
  induction a as [| x a IH]; intros [| y b]; simpl; try (split; [discriminate | congruence]).
  - split; reflexivity.
  - rewrite andb_true_iff, IH. split.
    + intros [Hxy ->]. apply Byte.byte_dec_bl in Hxy. congruence.
    + intros [= -> ->]. split; [apply Byte.byte_dec_lb |]; reflexivity.
Qed.

Lemma checkSplitRegion_glued l r :
  checkSplitRegion (Some l) (Some r) = None <-> glued l r.
Proof.
  unfold checkSplitRegion, glued. simpl.
  destruct (bytesEqual (EndKey l) (StartKey r)) eqn:He; simpl.
  - apply bytesEqual_eq in He. destruct (EndKey r) as [| x e] eqn:Hr; simpl.
    + split; auto.
    + destruct (bytesCompare (StartKey l) (x :: e)); split; try discriminate; auto;
        intros [_ [H | H]]; discriminate.
  - split; [discriminate |]. intros [H _]. apply bytesEqual_eq in H. congruence.
Qed.

Lemma checkSplitFrom_step l r rest :
  checkSplitFrom (Some l) (Some r :: rest) = None <->
  checkSplitRegion (Some l) (Some r) = None /\ checkSplitFrom (Some r) rest = None.
Proof.
  cbn [checkSplitFrom]. unfold checkSplitRegion.
  destruct (bytesEqual (GetEndKey (Some l)) (GetStartKey (Some r))); simpl;
    [| split; [discriminate | intros [H _]; discriminate]].
  destruct (length (EndKey r) =? 0)%nat; simpl.
  - tauto.
  - destruct (bytesCompare (StartKey l) (EndKey r)); simpl;
      try tauto; split; try discriminate; intros [H _]; discriminate.
Qed.

Lemma checkSplitFrom_pairs rest : forall l,
  checkSplitFrom (Some l) (map Some rest) = None <->
  forall i a b, (l :: rest) !! i = Some a -> (l :: rest) !! S i = Some b ->
    checkSplitRegion (Some a) (Some b) = None.
Proof.
  induction rest as [| r rest IH]; intros l.
  - simpl. split; [| reflexivity]. intros _ i a b _ Hb. destruct i; discriminate.
  - cbn [map]. rewrite checkSplitFrom_step, IH. split.
    + intros [H0 Hrest] i a b Ha Hb. destruct i as [| i].
      * simpl in Ha, Hb. injection Ha as <-. injection Hb as <-. exact H0.
      * apply (Hrest i); assumption.
    + intros Hall. split.
      * apply (Hall 0%nat); reflexivity.
      * intros i a b Ha Hb. apply (Hall (S i)); assumption.
Qed.

(** X22: a batch of regions, none of them nil, passes [checkSplitRegions]
    exactly when it has two regions at least and every region and its
    successor pass [checkSplitRegion], that is, glue. *)
Theorem checkSplitRegions_pairs (regions : list Region) :
  checkSplitRegions (map Some regions) = None <->
  (2 <= length regions)%nat /\
  forall i l r, regions !! i = Some l -> regions !! S i = Some r ->
    checkSplitRegion (Some l) (Some r) = None /\ glued l r.
Proof.
  unfold checkSplitRegions. rewrite length_map.
  destruct regions as [| l rest]; [simpl; split; [discriminate | lia] |].
  destruct rest as [| r rest]; [simpl; split; [discriminate | lia] |].
  change (length (l :: r :: rest) <=? 1)%nat with false. cbv iota.
  change (map Some (l :: r :: rest)) with (Some l :: map Some (r :: rest)).
  cbv iota. rewrite checkSplitFrom_pairs. split.
  - intros Hall. split; [simpl; lia |]. intros i a b Ha Hb.
    pose proof (Hall i a b Ha Hb) as Hc. split; [exact Hc |].
    apply checkSplitRegion_glued, Hc.
  - intros [_ Hall] i a b Ha Hb. apply (Hall i a b Ha Hb).
Qed.

Lemma checkSplitRegions_length regions :
  checkSplitRegions regions = None -> (2 <= length regions)%nat.
Proof.
  unfold checkSplitRegions. destruct (length regions <=? 1)%nat eqn:Hl; [discriminate |].
  intros _. apply Nat.leb_gt in Hl. lia.
Qed.

Lemma HandleBatchReportSplit_spec infos regions :
  exists infos' e, HandleBatchReportSplit infos regions = Ret (infos', e) /\
    match e with
    | Some _ => checkSplitRegions regions = e /\ infos' = infos
    | None =>
        checkSplitRegions regions = None /\
        exists front origin, regions = front ++ [origin] /\ front <> [] /\
          infos' = <[GetId origin := map GetId front]> infos
    end.
Proof.
  unfold HandleBatchReportSplit.
  destruct (checkSplitRegions regions) as [err |] eqn:Hc.
  - exists infos, (Some err). auto.
  - pose proof (checkSplitRegions_length _ Hc) as Hlen.
    destruct (exists_last (l := regions)) as (front & origin & Heq).
    { intros ->. simpl in Hlen. lia. }
    exists (<[GetId origin := map GetId front]> infos), None.
    split.
    + unfold collectSplitRegions. destruct regions as [| r0 rs]; [simpl in Hlen; lia |].
      rewrite Heq, removelast_last, last_last. reflexivity.
    + split; [reflexivity |]. exists front, origin. split; [exact Heq |].
      split; [| reflexivity]. intros ->. subst regions. simpl in Hlen. lia.
Qed.

(** X23: [HandleBatchReportSplit] never panics.  A batch it refuses leaves
    the recorded splits as they were; a batch it accepts has a last region
    and one region before it at least, and records the ids of the regions
    before the last under the id of the last. *)
Theorem HandleBatchReportSplit_records infos regions :
  exists infos' e, HandleBatchReportSplit infos regions = Ret (infos', e) /\
    match e with
    | Some _ => checkSplitRegions regions = e /\ infos' = infos
    | None =>
        checkSplitRegions regions = None /\
        exists front origin, regions = front ++ [origin] /\ front <> [] /\
          infos' = <[GetId origin := map GetId front]> infos
    end.
Proof. apply HandleBatchReportSplit_spec. Qed.

(** X24: after an accepted batch, [GetSplitRegionInfos] hands out the ids
    of the new regions under the id of the origin together with what was
    recorded for other origins, and leaves nothing behind: a second call
    returns the empty map. *)
Theorem GetSplitRegionInfos_drains infos front origin infos' :
  HandleBatchReportSplit infos (front ++ [origin]) = Ret (infos', None) ->
  let '(got, rest) := GetSplitRegionInfos infos' in
  got !! GetId origin = Some (map GetId front) /\
  (forall id, id <> GetId origin -> got !! id = infos !! id) /\
  GetSplitRegionInfos rest = (∅, ∅).
Proof.
  intros Hh. destruct (HandleBatchReportSplit_spec infos (front ++ [origin]))
    as (i2 & e & Hr & He).
  rewrite Hh in Hr. injection Hr as <- <-.
  destruct He as (_ & front' & origin' & Heq & _ & ->).
  apply app_inj_tail in Heq as [<- <-].
  simpl. split; [apply lookup_insert_eq |]. split; [| reflexivity].
  intros id Hid. apply lookup_insert_ne. congruence.
Qed.


(** The two regions of the example, reported and read back. *)
Lemma GetSplitRegionInfos_drains_witness :
  let '(got, rest) := GetSplitRegionInfos (<[2 := [1]]> ∅) in
  got !! GetId (Some rightPart) = Some (map GetId [Some leftPart]) /\
  (forall id, id <> GetId (Some rightPart) -> got !! id = (∅ : gmap Z (list Z)) !! id) /\
  GetSplitRegionInfos rest = (∅, ∅).
Proof.
  refine (GetSplitRegionInfos_drains ∅ [Some leftPart] (Some rightPart) (<[2 := [1]]> ∅) _).
  vm_compute. reflexivity.
Defined.

End ClusterWorkerTheory.

(** * Properties of the store limits and of the label properties *)

Module ConfigTheory.
Import Config.

Section Options.
Context `{StoreLimitDefaults}.

(** X25: a store limit that was set is the limit read back for that store
    and type, and the read changes nothing; limits of other stores stay.
    The limit of the other type stays when the store had limits; when it
    had none, both [SetStoreLimit] cases take the default of the type that
    is set. *)
Theorem SetStoreLimit_read_back o storeID typ ratePerMin :
  typ = storelimit_AddPeer \/ typ = storelimit_RemovePeer ->
  let o' := SetStoreLimit o storeID typ ratePerMin in
  let other := if typ =? storelimit_AddPeer then storelimit_RemovePeer
               else storelimit_AddPeer in
  GetStoreLimitByType o' storeID typ = Ret (o', ratePerMin) /\
  GetStoreLimitByType o' storeID other
  = Ret (o', match StoreLimit o !! storeID with
             | Some limit => if typ =? storelimit_AddPeer then RemovePeer limit
                             else AddPeer limit
             | None => GetDefaultStoreLimit (DefaultStoreLimit o) typ
             end) /\
  (forall s, s <> storeID -> StoreLimit o' !! s = StoreLimit o !! s) /\
  labelProperty o' = labelProperty o /\ DefaultStoreLimit o' = DefaultStoreLimit o.
Proof.
  intros Htyp o' other.
  pose proof storelimit_distinct as Hd.
  assert (Hlook : forall sc, StoreLimit o' !! storeID = Some sc ->
            GetStoreLimit o' storeID = (o', sc)).
  { intros sc Hsc. unfold GetStoreLimit. rewrite Hsc. reflexivity. }
  assert (Hne : (storelimit_RemovePeer =? storelimit_AddPeer) = false)
    by (apply Z.eqb_neq; congruence).
  unfold GetStoreLimitByType.
  destruct Htyp as [-> | ->].
  - subst other. rewrite Z.eqb_refl, Hne.
    assert (Hsc : StoreLimit o' !! storeID
                  = Some (mkStoreLimitConfig ratePerMin
                            match StoreLimit o !! storeID with
                            | None => GetDefaultStoreLimit (DefaultStoreLimit o) storelimit_AddPeer
                            | Some limit => RemovePeer limit
                            end)).
    { unfold o', SetStoreLimit. rewrite Z.eqb_refl. simpl. apply lookup_insert_eq. }
    rewrite (Hlook _ Hsc). simpl. rewrite Z.eqb_refl.
    split; [reflexivity |]. split.
    + destruct (StoreLimit o !! storeID); reflexivity.
    + split; [| split; reflexivity].
      intros s Hs. unfold o', SetStoreLimit. simpl. apply lookup_insert_ne. congruence.
  - subst other. rewrite Hne, Z.eqb_refl.
    assert (Hsc : StoreLimit o' !! storeID
                  = Some (mkStoreLimitConfig
                            match StoreLimit o !! storeID with
                            | None => GetDefaultStoreLimit (DefaultStoreLimit o) storelimit_RemovePeer
                            | Some limit => AddPeer limit
                            end ratePerMin)).
    { unfold o', SetStoreLimit. rewrite Hne, Z.eqb_refl. simpl. apply lookup_insert_eq. }
    rewrite (Hlook _ Hsc). simpl. rewrite ?Z.eqb_refl, ?Hne.
    split; [reflexivity |]. split.
    + destruct (StoreLimit o !! storeID); reflexivity.
    + split; [| split; reflexivity].
      intros s Hs. unfold o', SetStoreLimit. simpl. apply lookup_insert_ne. congruence.
Qed.

(** X26: after [SetAllStoresLimit] for one of the two types, a store that
    had limits reads the new rate for that type and its old limit for the
    other type, and the read changes nothing; a store without limits stays
    without. *)
Theorem SetAllStoresLimit_read_back o typ ratePerMin s limit :
  typ = storelimit_AddPeer \/ typ = storelimit_RemovePeer ->
  StoreLimit o !! s = Some limit ->
  let o' := SetAllStoresLimit o typ ratePerMin in
  let other := if typ =? storelimit_AddPeer then storelimit_RemovePeer
               else storelimit_AddPeer in
  GetStoreLimitByType o' s typ = Ret (o', ratePerMin) /\
  GetStoreLimitByType o' s other
  = Ret (o', if typ =? storelimit_AddPeer then RemovePeer limit else AddPeer limit) /\
  (forall s', StoreLimit o' !! s' = None <-> StoreLimit o !! s' = None) /\
  labelProperty o' = labelProperty o.
Proof.
  pose proof storelimit_distinct as Hd.
  assert (Hne : (storelimit_RemovePeer =? storelimit_AddPeer) = false)
    by (apply Z.eqb_neq; congruence).
  intros Htyp Hs o' other.
  assert (Hdom : forall s', StoreLimit o' !! s' = None <-> StoreLimit o !! s' = None).
  { intros s'. unfold o', SetAllStoresLimit.
    destruct Htyp as [-> | ->]; rewrite ?Hne, ?Z.eqb_refl; simpl;
      rewrite lookup_fmap; destruct (StoreLimit o !! s'); simpl; split; congruence. }
  unfold GetStoreLimitByType, GetStoreLimit.
  destruct Htyp as [-> | ->]; subst other; rewrite ?Hne, ?Z.eqb_refl.
  - assert (Hl : StoreLimit o' !! s = Some (mkStoreLimitConfig ratePerMin (RemovePeer limit))).
    { unfold o', SetAllStoresLimit. rewrite Z.eqb_refl. simpl.
      rewrite lookup_fmap, Hs. reflexivity. }
    rewrite Hl, ?Hne, ?Z.eqb_refl. simpl.
    split; [reflexivity |]. split; [reflexivity |]. split; [exact Hdom |].
    unfold o', SetAllStoresLimit. rewrite Z.eqb_refl. reflexivity.
  - assert (Hl : StoreLimit o' !! s = Some (mkStoreLimitConfig (AddPeer limit) ratePerMin)).
    { unfold o', SetAllStoresLimit. rewrite Hne, Z.eqb_refl. simpl.
      rewrite lookup_fmap, Hs. reflexivity. }
    rewrite Hl, ?Hne, ?Z.eqb_refl. simpl.
    split; [reflexivity |]. split; [reflexivity |]. split; [exact Hdom |].
    unfold o', SetAllStoresLimit. rewrite Hne, Z.eqb_refl. reflexivity.
Qed.

(** X27: reading the limit of a store that has none stores the two
    defaults for it, so a second read changes nothing and returns the same
    limit; a type that is neither of the two panics. *)
Theorem GetStoreLimit_settles o storeID :
  let '(o', limit) := GetStoreLimit o storeID in
  StoreLimit o' !! storeID = Some limit /\
  GetStoreLimit o' storeID = (o', limit) /\
  (forall s, s <> storeID -> StoreLimit o' !! s = StoreLimit o !! s) /\
  (forall typ, typ <> storelimit_AddPeer -> typ <> storelimit_RemovePeer ->
     GetStoreLimitByType o storeID typ = Panic).
Proof.
  unfold GetStoreLimitByType.
  destruct (GetStoreLimit o storeID) as [o' limit] eqn:Hg.
  unfold GetStoreLimit in Hg.
  assert (Hp : forall typ, typ <> storelimit_AddPeer -> typ <> storelimit_RemovePeer ->
            (if typ =? storelimit_AddPeer then Ret (o', AddPeer limit)
             else if typ =? storelimit_RemovePeer then Ret (o', RemovePeer limit)
             else Panic) = Panic).
  { intros typ H1 H2. apply Z.eqb_neq in H1, H2. rewrite H1, H2. reflexivity. }
  destruct (StoreLimit o !! storeID) as [l |] eqn:Hl.
  - injection Hg as <- <-. unfold GetStoreLimit. rewrite Hl. auto.
  - injection Hg as <- <-. unfold GetStoreLimit. simpl. rewrite lookup_insert_eq.
    split; [reflexivity |]. split; [reflexivity |]. split; [| exact Hp].
    intros s Hs. apply lookup_insert_ne. congruence.
Qed.

Lemma labelIs_eq k v l : labelIs k v l = true <-> l = mkStoreLabel k v.
Proof.
  unfold labelIs. destruct l as [k' v']. simpl.
  rewrite andb_true_iff, !String.eqb_eq. split; [intros [-> ->]; reflexivity |].
  intros [= -> ->]. auto.
Qed.

Lemma checkAgainst_spec cfg ls :
  checkAgainst cfg (map Some ls) = Ret (bool_decide (cfg ∈ ls)).
Proof.
  induction ls as [| l ls IH]; simpl.
  - reflexivity.
  - destruct (String.eqb (Key l) (Key cfg) && String.eqb (Value l) (Value cfg)) eqn:He.
    + apply andb_true_iff in He as [Hk Hv]. apply String.eqb_eq in Hk, Hv.
      assert (l = cfg) as -> by (destruct l, cfg; simpl in *; congruence).
      rewrite bool_decide_eq_true_2; [reflexivity | left].
    + rewrite IH. f_equal. apply bool_decide_ext. rewrite elem_of_cons.
      split; [auto |]. intros [-> | Hin]; [| exact Hin].
      rewrite !String.eqb_refl in He. discriminate.
Qed.

Lemma checkConfigured_spec cfgs ls :
  exists b, checkConfigured cfgs (map Some ls) = Ret b /\
    (b = true <-> exists l, l ∈ cfgs /\ l ∈ ls).
Proof.
  induction cfgs as [| cfg cfgs IH]; cbn [checkConfigured].
  - exists false. split; [reflexivity |]. split; [discriminate |].
    intros (l & Hl & _). inversion Hl.
  - rewrite checkAgainst_spec. simpl. destruct (bool_decide (cfg ∈ ls)) eqn:Hc.
    + apply bool_decide_eq_true in Hc. exists true. split; [reflexivity |].
      split; [| reflexivity]. intros _. exists cfg. split; [left | exact Hc].
    + apply bool_decide_eq_false in Hc. destruct IH as (b & -> & Hb).
      exists b. split; [reflexivity |]. rewrite Hb. split.
      * intros (l & Hl & Hin). exists l. split; [right; exact Hl | exact Hin].
      * intros (l & Hl & Hin). apply elem_of_cons in Hl as [-> | Hl]; [contradiction |].
        eauto.
Qed.

Lemma labelsOf_Set o typ k v t :
  labelsOf (SetLabelProperty o typ k v) t
  = if decide (t = typ)
    then if bool_decide (mkStoreLabel k v ∈ labelsOf o typ) then labelsOf o typ
         else labelsOf o typ ++ [mkStoreLabel k v]
    else labelsOf o t.
Proof.
  unfold SetLabelProperty, labelsOf. cbv zeta.
  assert (Hex : existsb (labelIs k v) (default [] (labelProperty o !! typ))
                = bool_decide (mkStoreLabel k v ∈ default [] (labelProperty o !! typ))).
  { apply eq_true_iff_eq. rewrite existsb_exists, bool_decide_eq_true. split.
    - intros (l & Hin & Hl). apply labelIs_eq in Hl as ->. apply list_elem_of_In, Hin.
    - intros Hin. exists (mkStoreLabel k v). split; [apply list_elem_of_In, Hin |].
      apply labelIs_eq. reflexivity. }
  rewrite Hex. destruct (bool_decide _) eqn:Hb.
  - destruct (decide (t = typ)) as [-> |]; reflexivity.
  - simpl. destruct (decide (t = typ)) as [-> | Hne].
    + rewrite lookup_insert_eq. reflexivity.
    + rewrite lookup_insert_ne by congruence. reflexivity.
Qed.

Lemma labelsOf_Delete o typ k v t :
  labelsOf (DeleteLabelProperty o typ k v) t
  = if decide (t = typ)
    then List.filter (fun l => negb (labelIs k v l)) (labelsOf o typ)
    else labelsOf o t.
Proof.
  unfold DeleteLabelProperty, labelsOf. cbv zeta. simpl.
  set (kept := List.filter _ _).
  destruct (decide (t = typ)) as [-> | Hne].
  - destruct (length kept =? 0)%nat eqn:Hl.
    + rewrite lookup_delete_eq. apply Nat.eqb_eq in Hl. destruct kept; [reflexivity | discriminate].
    + rewrite lookup_insert_eq. reflexivity.
  - destruct (length kept =? 0)%nat.
    + rewrite lookup_delete_ne by congruence. reflexivity.
    + rewrite lookup_insert_ne by congruence. reflexivity.
Qed.

Lemma elem_of_filter_not k v l labels :
  l ∈ List.filter (fun l => negb (labelIs k v l)) labels <->
  l ∈ labels /\ l <> mkStoreLabel k v.
Proof.
  rewrite !list_elem_of_In, filter_In, negb_true_iff.
  rewrite <- not_true_iff_false, labelIs_eq. reflexivity.
Qed.

(** X28: [CheckLabelProperty] for labels none of which is nil answers
    whether one of them is configured for the type, and does not panic. *)
Theorem CheckLabelProperty_iff o typ labels :
  exists b, CheckLabelProperty o typ (map Some labels) = Ret b /\
    (b = true <-> exists l, l ∈ labelsOf o typ /\ l ∈ labels).
Proof.
  unfold CheckLabelProperty. apply checkConfigured_spec.
Qed.

(** X29: a label that is set is configured, setting it again changes
    nothing, and a label that is deleted is not configured; both leave the
    other labels of the type, the other types and the store limits alone. *)
Theorem label_property_set_delete o typ k v :
  let added := SetLabelProperty o typ k v in
  let removed := DeleteLabelProperty o typ k v in
  CheckLabelProperty added typ [Some (mkStoreLabel k v)] = Ret true /\
  SetLabelProperty added typ k v = added /\
  CheckLabelProperty removed typ [Some (mkStoreLabel k v)] = Ret false /\
  (forall l, l <> mkStoreLabel k v ->
     (l ∈ labelsOf added typ <-> l ∈ labelsOf o typ) /\
     (l ∈ labelsOf removed typ <-> l ∈ labelsOf o typ)) /\
  (forall t, t <> typ -> labelsOf added t = labelsOf o t /\ labelsOf removed t = labelsOf o t) /\
  StoreLimit added = StoreLimit o /\ StoreLimit removed = StoreLimit o.
Proof.
  intros added removed.
  assert (Hin : mkStoreLabel k v ∈ labelsOf added typ).
  { unfold added. rewrite labelsOf_Set. destruct (decide (typ = typ)); [| congruence].
    destruct (bool_decide _) eqn:Hb.
    - apply bool_decide_eq_true in Hb. exact Hb.
    - apply elem_of_app. right. left. }
  split.
  { change [Some (mkStoreLabel k v)] with (map Some [mkStoreLabel k v]).
    unfold CheckLabelProperty.
    destruct (checkConfigured_spec (default [] (labelProperty added !! typ)) [mkStoreLabel k v])
      as (b & -> & Hb).
    f_equal. apply Hb. exists (mkStoreLabel k v). split; [exact Hin | left]. }
  split.
  { unfold SetLabelProperty at 1. cbv zeta. fold (labelsOf added typ).
    assert (Hex : existsb (labelIs k v) (labelsOf added typ) = true).
    { apply existsb_exists. exists (mkStoreLabel k v).
      split; [apply list_elem_of_In, Hin | apply labelIs_eq; reflexivity]. }
    rewrite Hex. reflexivity. }
  split.
  { change [Some (mkStoreLabel k v)] with (map Some [mkStoreLabel k v]).
    unfold CheckLabelProperty.
    destruct (checkConfigured_spec (default [] (labelProperty removed !! typ)) [mkStoreLabel k v])
      as (b & -> & Hb).
    f_equal. apply not_true_iff_false. rewrite Hb. intros (l & Hl & Hl').
    apply list_elem_of_singleton in Hl' as ->.
    fold (labelsOf removed typ) in Hl. unfold removed in Hl. rewrite labelsOf_Delete in Hl.
    destruct (decide (typ = typ)); [| congruence].
    apply elem_of_filter_not in Hl as [_ Hl]. congruence. }
  split.
  { intros l Hl. unfold added, removed. rewrite labelsOf_Set, labelsOf_Delete.
    destruct (decide (typ = typ)); [| congruence]. split.
    - destruct (bool_decide _); [reflexivity |].
      rewrite elem_of_app, list_elem_of_singleton. tauto.
    - rewrite elem_of_filter_not. tauto. }
  split.
  { intros t Ht. unfold added, removed. rewrite labelsOf_Set, labelsOf_Delete.
    destruct (decide (t = typ)); [congruence |]. auto. }
  split.
  - unfold added, SetLabelProperty. cbv zeta. destruct (existsb _ _); reflexivity.
  - reflexivity.
Qed.

(** X30: setting and deleting labels keep the configuration tidy: no type
    is left with an empty list, and no label is listed twice. *)
Theorem label_property_tidy o typ k v :
  labelsTidy o ->
  labelsTidy (SetLabelProperty o typ k v) /\ labelsTidy (DeleteLabelProperty o typ k v).
Proof.
  intros Ht. split.
  - intros t labels. unfold SetLabelProperty. cbv zeta.
    destruct (existsb (labelIs k v) (default [] (labelProperty o !! typ))) eqn:Hex;
      [apply Ht |].
    simpl. destruct (decide (t = typ)) as [-> | Hne].
    + rewrite lookup_insert_eq. intros [= <-]. split.
      * intros Habs. apply app_eq_nil in Habs as [_ Habs]. discriminate.
      * apply NoDup_app. split; [| split; [| apply NoDup_singleton]].
        -- destruct (labelProperty o !! typ) as [ls |] eqn:Hl; [apply (Ht _ _ Hl) |].
           apply NoDup_nil_2.
        -- intros l Hl Hl'. apply list_elem_of_singleton in Hl' as ->.
           apply not_true_iff_false in Hex. apply Hex, existsb_exists.
           exists (mkStoreLabel k v). split; [apply list_elem_of_In, Hl |].
           apply labelIs_eq. reflexivity.
    + rewrite lookup_insert_ne by congruence. apply Ht.
  - intros t labels. unfold DeleteLabelProperty. cbv zeta. simpl.
    set (kept := List.filter _ _).
    assert (Hk : NoDup kept).
    { unfold kept. destruct (labelProperty o !! typ) as [ls |] eqn:Hl; [| apply NoDup_nil_2].
      simpl. apply NoDup_ListNoDup, List.NoDup_filter, NoDup_ListNoDup, (Ht _ _ Hl). }
    destruct (decide (t = typ)) as [-> | Hne].
    + destruct (length kept =? 0)%nat eqn:Hlen.
      * rewrite lookup_delete_eq. discriminate.
      * rewrite lookup_insert_eq. intros [= <-]. split; [| exact Hk].
        intros Habs. rewrite Habs in Hlen. discriminate.
    + destruct (length kept =? 0)%nat.
      * rewrite lookup_delete_ne by congruence. apply Ht.
      * rewrite lookup_insert_ne by congruence. apply Ht.
Qed.

End Options.

#[local] Existing Instance exampleDefaults.

(** Store 2 has no limits: its add-peer limit is set to 5, and the
    remove-peer limit it gets is the add-peer default 15. *)
Lemma SetStoreLimit_read_back_witness :
  GetStoreLimitByType (SetStoreLimit exampleOptions 2 0 5%float) 2 0
  = Ret (SetStoreLimit exampleOptions 2 0 5%float, 5%float) /\
  GetStoreLimitByType (SetStoreLimit exampleOptions 2 0 5%float) 2 1
  = Ret (SetStoreLimit exampleOptions 2 0 5%float, 15%float).
Proof.
  destruct (SetStoreLimit_read_back exampleOptions 2 0 5%float) as (A & B & _).
  - left. reflexivity.
  - split; [exact A | exact B].
Defined.

Lemma SetAllStoresLimit_read_back_witness :
  GetStoreLimitByType (SetAllStoresLimit exampleOptions 1 5%float) 1 1
  = Ret (SetAllStoresLimit exampleOptions 1 5%float, 5%float).
Proof.
  destruct (SetAllStoresLimit_read_back exampleOptions 1 5%float 1
              (mkStoreLimitConfig 15%float 15%float)) as (A & _).
  - right. reflexivity.
  - vm_compute. reflexivity.
  - exact A.
Defined.

Lemma exampleOptions_tidy : labelsTidy exampleOptions.
Proof.
  intros typ labels Hl. unfold exampleOptions in Hl. simpl in Hl.
  apply lookup_singleton_Some in Hl as [_ <-].
  split; [discriminate |]. apply NoDup_singleton.
Qed.

(** One more zone for the type, and a zone that is not listed. *)
Lemma label_property_tidy_witness :
  labelsTidy (SetLabelProperty exampleOptions "reject-leader" "zone" "z2") /\
  labelsTidy (DeleteLabelProperty exampleOptions "reject-leader" "zone" "z2").
Proof. apply label_property_tidy, exampleOptions_tidy. Defined.

End ConfigTheory.
